(** * BiteOpt (scipybiteopt): a shallow embedding and its verified properties

    The development follows the C++ sources [biteaux.h], [biteopt.h] and
    [biteopt_py_ext.cpp].  Part I holds the embedding, one module per C++
    class; Part II holds the lemmas and theorems.

    Conventions of the embedding:
    - [double] is IEEE-754 binary64, taken from the standard library's
      [SpecFloat] with [prec = 53] and [emax = 1024]; the comparison
      operators are the exact IEEE ones (every comparison with NaN is false);
    - [int64_t] parameter values ([ptype] of [CBiteOpt]) are [Z] with the
      wrap-around written out by [wrap64];
    - sizes and positions that the code never makes negative are [nat];
    - pointers into [PopParamsBuf] are item numbers, so that the reordering
      of [PopParams] by [memmove] moves pointers and never copies items;
    - functions of libm ([cos], [pow]) and the code that is not part of these
      sources are parameters of the sections that use them. *)

From Stdlib Require Import ZArith Lia Bool List.
From Stdlib Require Import SpecFloat.
From stdpp Require Import base tactics option list.

Local Open Scope Z_scope.

(* ===================================================================== *)
(** * Part I: the embedding                                                *)
(* ===================================================================== *)

(** ** IEEE-754 binary64 *)

Module Dbl.

Definition double : Type := spec_float.

Definition prec : Z := 53.
Definition emax : Z := 1024.

Definition add : double -> double -> double := SFadd prec emax.
Definition sub : double -> double -> double := SFsub prec emax.
Definition mul : double -> double -> double := SFmul prec emax.
Definition div : double -> double -> double := SFdiv prec emax.
Definition sqrt : double -> double := SFsqrt prec emax.
Definition fabs : double -> double := SFabs.
Definition neg : double -> double := SFopp.

(** [a < b], [a <= b], [a > b], [a >= b], [a == b], [a != b] of C++. *)
Definition ltb (a b : double) : bool := SFltb a b.
Definition leb (a b : double) : bool := SFleb a b.
Definition gtb (a b : double) : bool := SFltb b a.
Definition geb (a b : double) : bool := SFleb b a.
Definition eqb (a b : double) : bool := SFeqb a b.
Definition neb (a b : double) : bool := negb (SFeqb a b).

Definition is_nan (a : double) : bool :=
  match a with S754_nan => true | _ => false end.

Definition is_finite (a : double) : bool :=
  match a with S754_zero _ | S754_finite _ _ _ => true | _ => false end.

(** Conversion of an integer to [double] (round to nearest even). *)
Definition of_Z (z : Z) : double := binary_normalize prec emax z 0 false.

(** The exact power of two [2^e], for [-1022 <= e <= 1023]. *)
Definition pow2 (e : Z) : double := S754_finite false (2 ^ 52) (e - 52).

Definition zero : double := S754_zero false.
Definition one : double := pow2 0.
Definition two : double := pow2 1.
Definition half : double := pow2 (-1).

(** The literals [1e300], [2.8] and [0.01]: the nearest doubles. *)
Definition d1e300 : double := S754_finite false 6724873095247260 944.
Definition d2_8 : double := S754_finite false 6305039478318694 (-51).
Definition d0_01 : double := S754_finite false 5764607523034235 (-59).

(** The integral part of a finite double (truncation toward zero). *)
Definition trunc (a : double) : option Z :=
  match a with
  | S754_zero _ => Some 0
  | S754_finite s m e =>
      let q := if 0 <=? e then Z.pos m * 2 ^ e else Z.pos m / 2 ^ (- e) in
      Some (if s then - q else q)
  | _ => None
  end.

(** The casts [(int64_t) a] and [(int) a].  The C++ standard leaves the
    cast of a NaN, an infinity or an out-of-range value undefined; the
    value here is the one of the x86-64 conversion instruction (the most
    negative integer). *)
Definition to_int64 (a : double) : Z :=
  match trunc a with
  | Some z => if (- 2 ^ 63 <=? z) && (z <? 2 ^ 63) then z else - 2 ^ 63
  | None => - 2 ^ 63
  end.

Definition to_int (a : double) : Z :=
  match trunc a with
  | Some z => if (- 2 ^ 31 <=? z) && (z <? 2 ^ 31) then z else - 2 ^ 31
  | None => - 2 ^ 31
  end.

(** The order of the non-NaN doubles as a lexicographic order on integer
    triples (class, exponent, mantissa); used to reason about [SFcompare]. *)
Definition key (f : double) : Z * Z * Z :=
  match f with
  | S754_nan => (3, 0, 0)
  | S754_infinity true => (-2, 0, 0)
  | S754_infinity false => (2, 0, 0)
  | S754_zero _ => (0, 0, 0)
  | S754_finite true m e => (-1, - e, Z.neg m)
  | S754_finite false m e => (1, e, Z.pos m)
  end.

Definition lexcmp (a b : Z * Z * Z) : comparison :=
  let '(a1, a2, a3) := a in
  let '(b1, b2, b3) := b in
  match a1 ?= b1 with
  | Eq => match a2 ?= b2 with Eq => a3 ?= b3 | c => c end
  | c => c
  end.

Definition lexle (a b : Z * Z * Z) : Prop :=
  let '(a1, a2, a3) := a in
  let '(b1, b2, b3) := b in
  a1 < b1 \/ (a1 = b1 /\ (a2 < b2 \/ (a2 = b2 /\ a3 <= b3))).

Definition lexlt (a b : Z * Z * Z) : Prop :=
  let '(a1, a2, a3) := a in
  let '(b1, b2, b3) := b in
  a1 < b1 \/ (a1 = b1 /\ (a2 < b2 \/ (a2 = b2 /\ a3 < b3))).

(** [x] is zero or finite, of sign [s] when it is not zero, and its
    magnitude is at most [b * 2^c] (with an exponent of at most [c]). *)
Definition bnd (x : double) (s : bool) (b c : Z) : Prop :=
  match x with
  | S754_zero _ => True
  | S754_finite s' m e => s' = s /\ e <= c /\ Z.pos m <= b * 2 ^ (c - e)
  | _ => False
  end.

(** A double in canonical form (normal or subnormal). *)
Definition valid (x : double) : bool := valid_binary prec emax x.

(** [a <= b] and [a < b] as propositions. *)
Definition le (a b : double) : Prop := leb a b = true.
Definition lt (a b : double) : Prop := ltb a b = true.

End Dbl.

Abbreviation double := Dbl.double.

(** ** Machine integers *)

Definition wrap64 (z : Z) : Z := (z + 2 ^ 63) mod 2 ^ 64 - 2 ^ 63.
Definition u64 (z : Z) : Z := z mod 2 ^ 64.
Definition u32 (z : Z) : Z := z mod 2 ^ 32.

(** Reading an array outside its bounds is undefined in C++; the embedding
    reads a default there, and the theorems exclude it. *)
Definition zget (l : list Z) (i : Z) : Z :=
  if i <? 0 then 0 else nth (Z.to_nat i) l 0.

(** [memmove( buf + dst, buf + src, n * sizeof( buf[ 0 ]))]. *)
Definition memmove {A} (buf : list A) (dst src n : nat) : list A :=
  list_inserts dst (take n (drop src buf)) buf.

(** ** CBiteRnd: the pseudo-random number generator *)

Module CBiteRnd.

(** The external generator [rf] is a C function with private state; it is
    modelled by the sequence of the values it returns, with [rcalls] the
    number of calls made so far. *)
Record state := mk {
  rf : option (nat -> Z);
  rcalls : nat;
  Seed : Z;
  lcg : Z;
  Hash : Z;
  BitPool : Z;
  BitsLeft : Z
}.

Definition advance (r : state) : Z * state :=
  match rf r with
  | Some g =>
      let lo := u32 (g (rcalls r)) in
      let hi := u32 (g (S (rcalls r))) in
      (Z.lor lo (Z.shiftl hi 32),
       mk (rf r) (S (S (rcalls r))) (Seed r) (lcg r) (Hash r)
          (BitPool r) (BitsLeft r))
  | None =>
      let Seed1 := u64 (Seed r * u64 (lcg r * 2 + 1)) in
      let rs := Z.lor (Z.shiftr Seed1 32) (u64 (Z.shiftl Seed1 32)) in
      let Hash1 := u64 (Hash r + u64 (rs + 0xAAAAAAAAAAAAAAAA)) in
      let lcg1 := u64 (lcg r + u64 (Seed1 + 0x5555555555555555)) in
      let Seed2 := Z.lxor Seed1 Hash1 in
      (Z.lxor lcg1 rs,
       mk None (rcalls r) Seed2 lcg1 Hash1 (BitPool r) (BitsLeft r))
  end.

Fixpoint skip (n : nat) (r : state) : state :=
  match n with
  | O => r
  | S n' => skip n' (snd (advance r))
  end.

(** [init( NewSeed, arf, ardata )]; [BitPool] is left unassigned by the
    code and keeps its previous content [pool0]. *)
Definition init (NewSeed : Z) (arf : option (nat -> Z)) (pool0 : Z) : state :=
  skip 5 (mk arf 0 (u64 NewSeed) 0 0 pool0 0).

(** [get()]: a number in [[0; 1)], [( advance() >> 11 ) * 0x1p-53]. *)
Definition get (r : state) : double * state :=
  let '(a, r1) := advance r in
  (Dbl.mul (Dbl.of_Z (Z.shiftr a (64 - 53))) (Dbl.pow2 (-53)), r1).

Definition getRaw (r : state) : Z * state := advance r.

(** [getTPDF()]: [(( v1 - v2 ) * 0x1p-53 )] for two draws of 53 bits. *)
Definition getTPDF (r : state) : double * state :=
  let '(a1, r1) := advance r in
  let '(a2, r2) := advance r1 in
  let v1 := Z.shiftr a1 (64 - 53) in
  let v2 := Z.shiftr a2 (64 - 53) in
  (Dbl.mul (Dbl.of_Z (wrap64 (v1 - v2))) (Dbl.pow2 (-53)), r2).

(** [getBit()]: the next bit of the pool, which is refilled with a value of
    the generator when it is empty. *)
Definition getBit (r : state) : Z * state :=
  if BitsLeft r =? 0 then
    let '(a, r1) := advance r in
    (Z.land a 1,
     mk (rf r1) (rcalls r1) (Seed r1) (lcg r1) (Hash r1) (Z.shiftr a 1) 63)
  else
    (Z.land (BitPool r) 1,
     mk (rf r) (rcalls r) (Seed r) (lcg r) (Hash r) (Z.shiftr (BitPool r) 1)
        (BitsLeft r - 1)).

(** [n] calls of [getBit()] in a row, with the bits in the order of the
    calls. *)
Fixpoint getBits (n : nat) (r : state) : list Z * state :=
  match n with
  | O => ([], r)
  | S n' =>
      let '(b, r1) := getBit r in
      let '(l, r2) := getBits n' r1 in
      (b :: l, r2)
  end.

(** [getInt( N1 )]: [(int) ( get() * N1 )]. *)
Definition getInt (N1 : Z) (r : state) : Z * state :=
  let '(v, r1) := get r in
  (Dbl.to_int (Dbl.mul v (Dbl.of_Z N1)), r1).

(** [getSqr()], [getSqrInt( N1 )] and [getSqrIntInv( N1 )]. *)
Definition getSqr (r : state) : double * state :=
  let '(a, r1) := advance r in
  let v := Dbl.mul (Dbl.of_Z (Z.shiftr a (64 - 53))) (Dbl.pow2 (-53)) in
  (Dbl.mul v v, r1).

Definition getSqrInt (N1 : Z) (r : state) : Z * state :=
  let '(v, r1) := getSqr r in
  (Dbl.to_int (Dbl.mul v (Dbl.of_Z N1)), r1).

Definition getSqrIntInv (N1 : Z) (r : state) : Z * state :=
  let '(v, r1) := getSqr r in
  (N1 - Dbl.to_int (Dbl.mul v (Dbl.of_Z N1)) - 1, r1).

Section WithPow.

(** [pow] of libm. *)
Variable pow : double -> double -> double.

(** [getPow( p )], with the branches of the code for the exponents that
    have a closed form. *)
Definition getPow (p : double) (r : state) : double * state :=
  let '(a, r1) := advance r in
  let v := Dbl.mul (Dbl.of_Z (Z.shiftr a (64 - 53))) (Dbl.pow2 (-53)) in
  let d := fun (x y : double) => Dbl.eqb x y in
  let res :=
    if Dbl.ltb p Dbl.two then
      if Dbl.ltb p Dbl.one then
        if d p Dbl.half then Dbl.sqrt v
        else if d p (Dbl.pow2 (-2)) then Dbl.sqrt (Dbl.sqrt v)
        else pow v p
      else
        if d p (Dbl.add Dbl.one Dbl.half) then Dbl.mul v (Dbl.sqrt v)
        else if d p (Dbl.add Dbl.one (Dbl.add Dbl.half (Dbl.pow2 (-2)))) then
          let sv := Dbl.sqrt v in
          Dbl.mul (Dbl.mul v sv) (Dbl.sqrt sv)
        else if d p Dbl.one then v
        else pow v p
    else
      if d p (Dbl.pow2 2) then
        let v2 := Dbl.mul v v in Dbl.mul v2 v2
      else if d p (Dbl.add Dbl.two Dbl.one) then Dbl.mul (Dbl.mul v v) v
      else if d p Dbl.two then Dbl.mul v v
      else pow v p in
  (res, r1).

(** [getPowInt( p, N1 )]: [(int) ( getPow( p ) * N1 )]. *)
Definition getPowInt (p : double) (N1 : Z) (r : state) : Z * state :=
  let '(v, r1) := getPow p r in
  (Dbl.to_int (Dbl.mul v (Dbl.of_Z N1)), r1).

End WithPow.

End CBiteRnd.

(** ** CBiteSelBase: the probabilistic selector *)

Definition zset (l : list Z) (i : Z) (x : Z) : list Z :=
  if i <? 0 then l else <[Z.to_nat i := x]> l.

Definition zrange (n : Z) : list Z := map Z.of_nat (seq 0 (Z.to_nat n)).

Module CBiteSelBase.

Definition SlotCount : Z := 5.

(** [Sels] holds the five pointers into [SelBuf], as offsets from its
    start; [Sels[ j ][ i ]] is [SelBuf[ Sels[ j ] + i ]]. *)
Record state := mk {
  Count : Z;
  SparseMul : Z;
  CountSp : Z;
  CountSp1 : Z;
  SelPower : double;
  Sels : list Z;
  SelBuf : list Z;
  SelBufCapacity : Z;
  Sel : Z;
  Selp : Z;
  Slot : Z;
  IsSelected : bool
}.

(** [Sels[ j ][ i ]] and the assignment to it. *)
Definition sels_get (s : state) (j i : Z) : Z :=
  zget (SelBuf s) (zget (Sels s) j + i).

Definition sels_set (s : state) (j i x : Z) : list Z :=
  zset (SelBuf s) (zget (Sels s) j + i) x.

Definition with_buf (s : state) (buf : list Z) : state :=
  mk (Count s) (SparseMul s) (CountSp s) (CountSp1 s) (SelPower s) (Sels s)
     buf (SelBufCapacity s) (Sel s) (Selp s) (Slot s) (IsSelected s).

Definition with_sels (s : state) (p : list Z) : state :=
  mk (Count s) (SparseMul s) (CountSp s) (CountSp1 s) (SelPower s) p
     (SelBuf s) (SelBufCapacity s) (Sel s) (Selp s) (Slot s) (IsSelected s).

(** The constructor [CBiteSelBase( aCount, spwr100 )]; the members it does
    not assign keep the indeterminate content [u]. *)
Definition construct (u : state) (aCount spwr100 : Z) : state :=
  mk aCount (SparseMul u) (CountSp u) (CountSp1 u)
     (Dbl.mul (Dbl.of_Z spwr100) Dbl.d0_01) (Sels u) [] 0
     (Sel u) (Selp u) (Slot u) (IsSelected u).

Section WithRnd.

(** The selector uses [CBiteRnd] through [getInt] and [getPowInt] only. *)
Variable getInt : Z -> CBiteRnd.state -> Z * CBiteRnd.state.
Variable getPowInt : double -> Z -> CBiteRnd.state -> Z * CBiteRnd.state.

(** [select( rnd )]. *)
Definition select (s : state) (rnd : CBiteRnd.state)
  : Z * state * CBiteRnd.state :=
  let '(slot, rnd1) :=
    getPowInt (Dbl.add Dbl.one Dbl.half) SlotCount rnd in
  let '(selp, rnd2) := getPowInt (SelPower s) (CountSp s) rnd1 in
  let s1 :=
    mk (Count s) (SparseMul s) (CountSp s) (CountSp1 s) (SelPower s)
       (Sels s) (SelBuf s) (SelBufCapacity s) (Sel s) selp slot
       (IsSelected s) in
  let sel := sels_get s1 slot selp in
  (sel,
   mk (Count s) (SparseMul s) (CountSp s) (CountSp1 s) (SelPower s)
      (Sels s) (SelBuf s) (SelBufCapacity s) sel selp slot true,
   rnd2).

(** The filling loop of [reset]: [spo[ k ] = i] for [i < Count] and
    [k < SparseMul], with [spo = sp + i * SparseMul]. *)
Definition fill_slot (cnt sparse sp : Z) (buf : list Z) : list Z :=
  fold_left
    (fun b i =>
       fold_left (fun b' k => zset b' (sp + i * sparse + k) i)
                 (zrange sparse) b)
    (zrange cnt) buf.

(** The randomized swap-mixing loop of [reset], [n] iterations. *)
Fixpoint mix_slot (n : nat) (countsp sp : Z) (buf : list Z)
  (rnd : CBiteRnd.state) : list Z * CBiteRnd.state :=
  match n with
  | O => (buf, rnd)
  | S n' =>
      let '(i1, rnd1) := getInt countsp rnd in
      let '(i2, rnd2) := getInt countsp rnd1 in
      let t := zget buf (sp + i1) in
      let buf1 := zset buf (sp + i1) (zget buf (sp + i2)) in
      let buf2 := zset buf1 (sp + i2) t in
      mix_slot n' countsp sp buf2 rnd2
  end.

(** One iteration of [for( j = 0; j < SlotCount; j++ )] in [reset]: the
    slot vector [j] is filled and mixed, and [Sels[ j ]] is set. *)
Definition reset_slot (cnt sparse countsp : Z)
  (acc : list Z * list Z * CBiteRnd.state) (j : Z)
  : list Z * list Z * CBiteRnd.state :=
  let '(b, p, r) := acc in
  let sp := j * countsp in
  let b1 := fill_slot cnt sparse sp b in
  let '(b2, r1) := mix_slot (Z.to_nat (countsp * 5)) countsp sp b1 r in
  (b2, zset p j sp, r1).

(** [reset( rnd, ParamCount )].  A reallocated [SelBuf] has indeterminate
    content, taken from [fresh]; [Sels] always has [SlotCount] entries. *)
Definition reset (fresh : list Z) (s : state) (rnd : CBiteRnd.state)
  : state * CBiteRnd.state :=
  let sparse := 5 in
  let countsp := Count s * sparse in
  let NewCapacity := SlotCount * countsp in
  let realloc := SelBufCapacity s <? NewCapacity in
  let cap := if realloc then NewCapacity else SelBufCapacity s in
  let buf0 :=
    if realloc then take (Z.to_nat NewCapacity)
                         (fresh ++ replicate (Z.to_nat NewCapacity) 0)
    else SelBuf s in
  let '(buf, sels, rnd1) :=
    fold_left (reset_slot (Count s) sparse countsp) (zrange SlotCount)
              (buf0, take 5 (Sels s ++ replicate 5 0), rnd) in
  let s1 :=
    mk (Count s) sparse countsp (countsp - 1) (SelPower s) sels buf cap
       (Sel s) (Selp s) (Slot s) (IsSelected s) in
  let '(_, s2, rnd2) := select s1 rnd1 in
  (mk (Count s2) (SparseMul s2) (CountSp s2) (CountSp1 s2) (SelPower s2)
      (Sels s2) (SelBuf s2) (SelBufCapacity s2) (Sel s2) (Selp s2)
      (Slot s2) false,
   rnd2).

(** The pointer swap [t = Sels[ a ]; Sels[ a ] = Sels[ b ]; Sels[ b ] = t]. *)
Definition swap_sels (s : state) (a b : Z) : state :=
  let t := zget (Sels s) a in
  with_sels s (zset (zset (Sels s) a (zget (Sels s) b)) b t).

(** [incr( rnd, v )]; [dp = (int) ( -Selp * v * v )]. *)
Definition incr_dp (s : state) (v : double) : Z :=
  Dbl.to_int (Dbl.mul (Dbl.mul (Dbl.of_Z (- Selp s)) v) v).

Definition incr (s : state) (v : double) : state :=
  let dp := incr_dp s v in
  let s1 :=
    if dp <? 0 then
      if dp =? -1 then
        let b1 := sels_set s (Slot s) (Selp s)
                    (sels_get s (Slot s) (Selp s - 1)) in
        let s' := with_buf s b1 in
        with_buf s' (sels_set s' (Slot s) (Selp s - 1) (Sel s))
      else
        let np := Selp s + dp in
        let base := zget (Sels s) (Slot s) in
        let b1 :=
          memmove (SelBuf s) (Z.to_nat (base + np + 1))
                  (Z.to_nat (base + np)) (Z.to_nat (- dp)) in
        let s' := with_buf s b1 in
        with_buf s' (sels_set s' (Slot s) np (Sel s))
    else s in
  if 0 <? Slot s1 then swap_sels s1 (Slot s1) (Slot s1 - 1) else s1.

(** [decr( rnd )]. *)
Definition decr (s : state) : state :=
  let s1 :=
    if Selp s <? CountSp1 s then
      let b1 := sels_set s (Slot s) (Selp s)
                  (sels_get s (Slot s) (Selp s + 1)) in
      let s' := with_buf s b1 in
      with_buf s' (sels_set s' (Slot s) (Selp s + 1) (Sel s))
    else s in
  if Slot s1 <? SlotCount - 1 then swap_sels s1 (Slot s1) (Slot s1 + 1)
  else s1.

End WithRnd.

Definition unsetIsSelected (s : state) : state :=
  mk (Count s) (SparseMul s) (CountSp s) (CountSp1 s) (SelPower s) (Sels s)
     (SelBuf s) (SelBufCapacity s) (Sel s) (Selp s) (Slot s) false.

End CBiteSelBase.

(** *** Vocabulary for the statements about the selector *)

Module SelSpec.
Import CBiteSelBase.

(** The documented range of [getInt( N1 )] and [getPowInt( p, N1 )]: an
    integer in [[0; N1)]. *)
Definition draws_ok
  (getInt : Z -> CBiteRnd.state -> Z * CBiteRnd.state)
  (getPowInt : double -> Z -> CBiteRnd.state -> Z * CBiteRnd.state) : Prop :=
  (forall n r, 0 < n -> 0 <= fst (getInt n r) < n) /\
  (forall p n r, 0 < n -> 0 <= fst (getPowInt p n r) < n).

(** The first [n] entries of [buf] are choice indices. *)
Definition inrange (c n : Z) (buf : list Z) : Prop :=
  forall i, 0 <= i < n -> 0 <= zget buf i < c.

(** What [reset] establishes: the five pointers of [Sels] are the starts of
    the five slot vectors inside [SelBuf], every entry of the slot vectors
    is a choice index, and the latest selection lies inside them. *)
Definition inv (s : state) : Prop :=
  0 < Count s /\ CountSp s = Count s * 5 /\ CountSp1 s = CountSp s - 1 /\
  CountSp s < 2 ^ 31 /\
  length (Sels s) = 5%nat /\
  (forall j, 0 <= j < SlotCount ->
     exists k, 0 <= k < SlotCount /\ zget (Sels s) j = k * CountSp s) /\
  SlotCount * CountSp s <= Z.of_nat (length (SelBuf s)) /\
  SelBufCapacity s <= Z.of_nat (length (SelBuf s)) /\
  inrange (Count s) (SlotCount * CountSp s) (SelBuf s) /\
  0 <= Slot s < SlotCount /\ 0 <= Selp s < CountSp s /\
  0 <= Sel s < Count s.

(** A selector before its first selection. *)
Definition unselected (s : state) : state :=
  mk (Count s) (SparseMul s) (CountSp s) (CountSp1 s) (SelPower s) (Sels s)
     (SelBuf s) (SelBufCapacity s) 0 0 0 false.

(** The calls on a selector after [reset], and a sequence of them. *)
Inductive op :=
  | OpSelect
  | OpIncr (v : double)
  | OpDecr.

(** The increment value of [incr] is a number of [[0; 1]]. *)
Definition op_ok (o : op) : Prop :=
  match o with
  | OpIncr v => Dbl.valid v = true /\ Dbl.le Dbl.zero v /\ Dbl.le v Dbl.one
  | _ => True
  end.

Section WithRnd.

Variable getPowInt : double -> Z -> CBiteRnd.state -> Z * CBiteRnd.state.

Definition run_op (sr : state * CBiteRnd.state) (o : op)
  : state * CBiteRnd.state :=
  match o with
  | OpSelect => let '(_, s', r') := select getPowInt (fst sr) (snd sr) in
                (s', r')
  | OpIncr v => (incr (fst sr) v, snd sr)
  | OpDecr => (decr (fst sr), snd sr)
  end.

Definition run_ops (sr : state * CBiteRnd.state) (l : list op)
  : state * CBiteRnd.state :=
  fold_left run_op l sr.

End WithRnd.

(** The slot vector that starts at [SelBuf + k * CountSp], and the content
    that the filling loop of [reset] gives to a slot vector: every choice
    [SparseMul = 5] times. *)
Definition slot_vec (s : state) (k : nat) : list Z :=
  take (Z.to_nat (CountSp s))
       (drop (k * Z.to_nat (CountSp s)) (SelBuf s)).

Definition filled (c : Z) : list Z :=
  flat_map (fun i => replicate 5 i) (zrange c).

(** The use of a selector that its comments ask for: a selection, followed
    by at most one of [incr] (with the increment value) and [decr]. *)
Inductive outcome :=
  | Success (v : double)
  | Failure
  | Neither.

Definition round_ops (o : outcome) : list op :=
  match o with
  | Success v => [OpSelect; OpIncr v]
  | Failure => [OpSelect; OpDecr]
  | Neither => [OpSelect]
  end.

Definition rounds_ops (l : list outcome) : list op := flat_map round_ops l.

End SelSpec.

(** Draws for the examples: the raw value of the generator, reduced to the
    range. *)
Definition ex_getInt (n : Z) (r : CBiteRnd.state) : Z * CBiteRnd.state :=
  let '(a, r1) := CBiteRnd.advance r in (a mod n, r1).

Definition ex_getPowInt (p : double) (n : Z) (r : CBiteRnd.state)
  : Z * CBiteRnd.state :=
  ex_getInt n r.

(** ** CBitePop< int64_t >: the population *)

(** A pointer to a parameter vector handed to [updatePop]: either one of the
    items of the population's own [PopParamsBuf] (as [getCurParams()] and
    [TmpParams] are), or a vector stored elsewhere. *)
Inductive params_ptr :=
  | PtrItem (k : nat)
  | PtrExt (v : list Z).

Module CBitePop.

Definition IntOverBits : Z := 5.
Definition IntMantBits : Z := 8 * 8 - 1 - IntOverBits.
Definition IntMantMult : Z := Z.shiftl 1 IntMantBits.
Definition IntMantMultM : Z := - IntMantMult.
Definition IntMantMult2 : Z := Z.shiftl IntMantMult 1.
Definition IntMantMask : Z := IntMantMult - 1.
Definition BatchCount : nat := Z.to_nat (Z.shiftl 1 IntOverBits - 1).

(** One item of [PopParamsBuf]: the parameter values, then the objective
    value and the rank ([CnsCount = 0] and [ObjCount = 1], the values every
    optimizer of the sources passes to [initBuffers]). *)
Record item := mkitem {
  params : list Z;
  obj : double;
  rank : double
}.

Definition item0 : item := mkitem [] Dbl.zero Dbl.zero.

Record state := mk {
  ParamCount : nat;
  ParamCountI : double;
  PopSize : nat;
  PopSize1 : nat;
  CurPopSize : Z;
  CurPopSize1 : Z;
  CurPopSizeI : double;
  CurPopPos : nat;
  PopParamsBuf : list item;
  PopParams : list nat;
  CentParams : list Z;
  NeedCentUpdate : bool;
  CentLPC : double;
  TmpParams : nat
}.

(** [PopParams[ i ]], the item it points to, and the accessors
    [getParamsOrdered], [getObjPtr], [getRankPtr] applied to it. *)
Definition ptr_at (s : state) (i : nat) : nat := nth i (PopParams s) 0%nat.
Definition item_of (s : state) (k : nat) : item := nth k (PopParamsBuf s) item0.
Definition item_at (s : state) (i : nat) : item := item_of s (ptr_at s i).
Definition params_at (s : state) (i : nat) : list Z := params (item_at s i).
Definition rank_at (s : state) (i : nat) : double := rank (item_at s i).
Definition obj_at (s : state) (i : nat) : double := obj (item_at s i).

Definition deref (s : state) (p : params_ptr) : list Z :=
  match p with
  | PtrItem k => params (item_of s k)
  | PtrExt v => v
  end.

Definition getCurParams (s : state) : params_ptr := PtrItem (ptr_at s (CurPopPos s)).
Definition getCentroid (s : state) : list Z := CentParams s.
Definition getCurPopSize (s : state) : Z := CurPopSize s.
Definition getCurPopPos (s : state) : nat := CurPopPos s.

Definition with_buf (s : state) (buf : list item) : state :=
  mk (ParamCount s) (ParamCountI s) (PopSize s) (PopSize1 s) (CurPopSize s)
     (CurPopSize1 s) (CurPopSizeI s) (CurPopPos s) buf (PopParams s)
     (CentParams s) (NeedCentUpdate s) (CentLPC s) (TmpParams s).

Definition with_cent (s : state) (c : list Z) (need : bool) : state :=
  mk (ParamCount s) (ParamCountI s) (PopSize s) (PopSize1 s) (CurPopSize s)
     (CurPopSize1 s) (CurPopSizeI s) (CurPopPos s) (PopParamsBuf s)
     (PopParams s) c need (CentLPC s) (TmpParams s).

Definition set_params (s : state) (k : nat) (v : list Z) : state :=
  with_buf s (<[k := mkitem v (obj (item_of s k)) (rank (item_of s k))]>
                (PopParamsBuf s)).

(** [isEqual( a, b, etol )]. *)
Definition isEqual (a b etol : double) : bool :=
  let d := Dbl.fabs (Dbl.sub b a) in
  if Dbl.eqb d Dbl.zero then true
  else
    let s := Dbl.add (Dbl.fabs b) (Dbl.fabs a) in
    if Dbl.ltb d (Dbl.mul s etol) then true else false.

(** [isParams1FartherThan2( p1, p2, RefParams )]. *)
Definition sqdist (p ref : list Z) : double :=
  fold_left
    (fun s (pv : Z * Z) =>
       let d := Dbl.of_Z (wrap64 (fst pv - snd pv)) in
       Dbl.add s (Dbl.mul d d))
    (zip p ref) Dbl.zero.

Definition isParams1FartherThan2 (p1 p2 ref : list Z) : bool :=
  Dbl.gtb (sqdist p1 ref) (sqdist p2 ref).

(** The binary search loop of [updatePop]:
    [while( p < i ) { mid = ( p + i ) >> 1; ... }]. *)
Fixpoint bsearch (fuel : nat) (s : state) (UpdCost : double) (p i : nat) : nat :=
  match fuel with
  | O => p
  | S fuel' =>
      if (p <? i)%nat then
        let mid := ((p + i) / 2)%nat in
        if Dbl.geb (rank_at s mid) UpdCost
        then bsearch fuel' s UpdCost p mid
        else bsearch fuel' s UpdCost (S mid) i
      else p
  end.

(** The centroid step of [updatePop]:
    [cp[ i ] += (ptype) (( UpdParams[ i ] - cp[ i ]) * lpc )]. *)
Definition leak (lpc : double) (cp upd : list Z) : list Z :=
  zip_with
    (fun c u =>
       wrap64 (c + Dbl.to_int64 (Dbl.mul (Dbl.of_Z (wrap64 (u - c))) lpc)))
    cp upd.

(** [updatePop( UpdCost, UpdParams, DoUpdateCentroid, ReplaceThrN8 )]. *)
Definition updatePop (s : state) (UpdCost : double) (UpdParams : params_ptr)
  (DoUpdateCentroid : bool) (ReplaceThrN8 : nat) : nat * state :=
  let filling := (CurPopPos s <? PopSize s)%nat in
  let ri := if filling then CurPopPos s else PopSize1 s in
  if negb filling && Dbl.gtb UpdCost (rank_at s ri) then (PopSize s, s)
  else
    let p := bsearch (S ri) s UpdCost 0 ri in
    let pos := if filling then S (CurPopPos s) else CurPopPos s in
    let IsEqualCost :=
      negb filling && isEqual UpdCost (rank_at s p) (Dbl.pow2 (-52)) in
    let DoReplace :=
      IsEqualCost && negb (p =? 0)%nat &&
      (Z.of_nat p <? Z.quot (CurPopSize s * Z.of_nat ReplaceThrN8) 8) &&
      isParams1FartherThan2 (params_at s p) (deref s UpdParams)
                            (params_at s 0) in
    let rp := if DoReplace then ptr_at s p else ptr_at s ri in
    let pp :=
      if DoReplace then PopParams s
      else <[p := rp]> (memmove (PopParams s) (S p) p (ri - p)) in
    let upd := deref s UpdParams in
    let aliased :=
      match UpdParams with
      | PtrItem k => (k =? rp)%nat
      | PtrExt _ => false
      end in
    let newparams := if aliased then params (item_of s rp) else upd in
    let buf := <[rp := mkitem newparams UpdCost UpdCost]> (PopParamsBuf s) in
    let leaky := DoUpdateCentroid && negb (NeedCentUpdate s) in
    let cent := if leaky then leak (CentLPC s) (CentParams s) upd
                else CentParams s in
    let need := if leaky then NeedCentUpdate s else true in
    (if IsEqualCost then PopSize s else p,
     mk (ParamCount s) (ParamCountI s) (PopSize s) (PopSize1 s)
        (CurPopSize s) (CurPopSize1 s) (CurPopSizeI s) pos buf pp cent need
        (CentLPC s) (TmpParams s)).

(** [removeSol( p )]. *)
Definition removeSol (s : state) (p : nat) : state :=
  if (CurPopPos s =? 0)%nat then s
  else
    let ri := (CurPopPos s - 1)%nat in
    let pp :=
      if (p <? ri)%nat
      then <[ri := ptr_at s p]> (memmove (PopParams s) p (S p) (ri - p))
      else PopParams s in
    mk (ParamCount s) (ParamCountI s) (PopSize s) (PopSize1 s)
       (CurPopSize s) (CurPopSize1 s) (CurPopSizeI s) (CurPopPos s - 1)
       (PopParamsBuf s) pp (CentParams s) (NeedCentUpdate s) (CentLPC s)
       (TmpParams s).

(** The sums of [updateCentroid]: [tp[ i ] += p[ i ]] and
    [(ptype) ( tp[ i ] * cm )]; [tp] is the parameter vector of the item
    [TmpParams]. *)
Definition tmp (s : state) : list Z := params (item_of s (TmpParams s)).
Definition set_tmp (s : state) (v : list Z) : state := set_params s (TmpParams s) v.

Definition add_params (tp p : list Z) : list Z :=
  zip_with (fun a b => wrap64 (a + b)) tp p.

Definition scale_params (cm : double) (tp : list Z) : list Z :=
  map (fun t => Dbl.to_int64 (Dbl.mul (Dbl.of_Z t) cm)) tp.

(** [for( j = 1; j < PopSize; j++ ) tp += PopParams[ j ]], as the [n]
    iterations that start at [j]. *)
Fixpoint sum_from (n j : nat) (s : state) : state :=
  match n with
  | O => s
  | S n' => sum_from n' (S j) (set_tmp s (add_params (tmp s) (params_at s j)))
  end.

(** [while( c > 0 ) { j++; tp += PopParams[ j ]; c--; }]. *)
Fixpoint batch_inner (c j : nat) (s : state) : nat * state :=
  match c with
  | O => (j, s)
  | S c' =>
      let j' := S j in
      batch_inner c' j' (set_tmp s (add_params (tmp s) (params_at s j')))
  end.

(** [while( pl > 0 ) { ... }] of the batched branch. *)
Fixpoint batch_outer (fuel pl j : nat) (DoCopy : bool) (cm : double)
  (s : state) : state :=
  match fuel with
  | O => s
  | S fuel' =>
      if (0 <? pl)%nat then
        let c := if (BatchCount <? pl)%nat then BatchCount else pl in
        let pl' := (pl - c)%nat in
        let s1 := set_tmp s (params_at s j) in
        let '(j', s2) := batch_inner (c - 1) j s1 in
        let cent :=
          if DoCopy then scale_params cm (tmp s2)
          else zip_with (fun c t => wrap64 (c + t)) (CentParams s2)
                        (scale_params cm (tmp s2)) in
        batch_outer fuel' pl' j' false cm
                    (with_cent s2 cent (NeedCentUpdate s2))
      else s
  end.

(** [updateCentroid()]. *)
Definition updateCentroid (s : state) : state :=
  let s0 := with_cent s (CentParams s) false in
  let cm := Dbl.div Dbl.one (Dbl.of_Z (Z.of_nat (PopSize s))) in
  if (PopSize s <=? BatchCount)%nat then
    let s1 := set_tmp s0 (params_at s0 0) in
    let s2 := sum_from (PopSize s - 1) 1 s1 in
    with_cent s2 (scale_params cm (tmp s2)) false
  else
    batch_outer (PopSize s) (PopSize s) 0 true cm s0.

(** [wrapParam( rnd, v )] for the integer [ptype] of [CBiteOpt]: the branch
    [(ptype) 0.25 == 0] of the function. *)
Definition wrapParam (rnd : CBiteRnd.state) (v : Z) : Z * CBiteRnd.state :=
  if v <? 0 then
    if IntMantMultM <? v then
      let '(r, rnd1) := CBiteRnd.get rnd in
      (Dbl.to_int64 (Dbl.mul r (Dbl.of_Z (wrap64 (- v)))), rnd1)
    else
      let '(a, rnd1) := CBiteRnd.getRaw rnd in
      (wrap64 (Z.land a IntMantMask), rnd1)
  else if IntMantMult <? v then
    if v <? IntMantMult2 then
      let '(r, rnd1) := CBiteRnd.get rnd in
      (Dbl.to_int64
         (Dbl.sub (Dbl.of_Z IntMantMult)
                  (Dbl.mul r (Dbl.of_Z (wrap64 (v - IntMantMult))))),
       rnd1)
    else
      let '(a, rnd1) := CBiteRnd.getRaw rnd in
      (wrap64 (Z.land a IntMantMask), rnd1)
  else (v, rnd).

Section WithLibm.

(** [cos] of libm. *)
Variable cos : double -> double.

(** [calcLP1Coeff( Count )]. *)
Definition calcLP1Coeff (Count : double) : double :=
  let theta := Dbl.div Dbl.d2_8 Count in
  let costheta2 := Dbl.sub Dbl.two (cos theta) in
  Dbl.sub Dbl.one
    (Dbl.sub costheta2
       (Dbl.sqrt (Dbl.sub (Dbl.mul costheta2 costheta2) Dbl.one))).

(** [initBuffers( aParamCount, aPopSize )].  The buffers are newly
    allocated: their content is indeterminate and is taken from [fresh] and
    [freshc]; the members the function does not assign keep the content of
    [u]. *)
Definition initBuffers (u : state) (fresh : nat -> item) (freshc : list Z)
  (aParamCount aPopSize : nat) : state :=
  mk aParamCount (Dbl.div Dbl.one (Dbl.of_Z (Z.of_nat aParamCount)))
     aPopSize (aPopSize - 1) (CurPopSize u) (CurPopSize1 u) (CurPopSizeI u)
     (CurPopPos u) (map fresh (seq 0 (S aPopSize))) (seq 0 (S aPopSize))
     freshc false (calcLP1Coeff (Dbl.of_Z (Z.of_nat aPopSize))) aPopSize.

(** [resetCurPopPos()]. *)
Definition resetCurPopPos (s : state) : state :=
  mk (ParamCount s) (ParamCountI s) (PopSize s) (PopSize1 s)
     (Z.of_nat (PopSize s)) (Z.of_nat (PopSize1 s))
     (Dbl.div Dbl.one (Dbl.of_Z (Z.of_nat (PopSize s)))) 0
     (PopParamsBuf s) (PopParams s) (CentParams s) false
     (calcLP1Coeff (Dbl.of_Z (Z.of_nat (PopSize s)))) (TmpParams s).

(** [incrCurPopSize()] and [decrCurPopSize()]. *)
Definition incrCurPopSize (s : state) : state :=
  let n := CurPopSize s + 1 in
  mk (ParamCount s) (ParamCountI s) (PopSize s) (PopSize1 s) n
     (CurPopSize1 s + 1) (Dbl.div Dbl.one (Dbl.of_Z n))
     (CurPopPos s) (PopParamsBuf s) (PopParams s) (CentParams s)
     (NeedCentUpdate s) (calcLP1Coeff (Dbl.of_Z n)) (TmpParams s).

Definition decrCurPopSize (s : state) : state :=
  let n := CurPopSize s - 1 in
  mk (ParamCount s) (ParamCountI s) (PopSize s) (PopSize1 s) n
     (CurPopSize1 s - 1) (Dbl.div Dbl.one (Dbl.of_Z n))
     (CurPopPos s) (PopParamsBuf s) (PopParams s) (CentParams s)
     (NeedCentUpdate s) (calcLP1Coeff (Dbl.of_Z n)) (TmpParams s).

(** [copy( s )]: the items are copied through the two pointer arrays,
    [memcpy( PopParams[ i ], s.PopParams[ i ], PopItemSize )]. *)
Definition copy_items (n : nat) (dst src : state) : list item :=
  fold_left
    (fun buf i => <[ptr_at dst i := item_at src i]> buf)
    (seq 0 n) (PopParamsBuf dst).

Definition copy (fresh : nat -> item) (freshc : list Z) (dst src : state)
  : state :=
  let same :=
    (ParamCount dst =? ParamCount src)%nat && (PopSize dst =? PopSize src)%nat in
  let d := if same then dst
           else initBuffers dst fresh freshc (ParamCount src) (PopSize src) in
  mk (ParamCount d) (ParamCountI d) (PopSize d) (PopSize1 d)
     (CurPopSize src) (CurPopSize1 src) (CurPopSizeI src) (CurPopPos src)
     (copy_items (PopSize d) d src) (PopParams d)
     (if NeedCentUpdate src then CentParams d else CentParams src)
     (NeedCentUpdate src) (CentLPC src) (TmpParams d).

End WithLibm.

End CBitePop.

(** *** Vocabulary for the statements about the population *)

Module PopSpec.
Import CBitePop.

(** The structural invariant that [initBuffers] establishes: [PopSize + 1]
    items, and [PopParams] points to each of them exactly once. *)
Definition wf (s : state) : Prop :=
  (0 < PopSize s)%nat /\
  PopSize1 s = (PopSize s - 1)%nat /\
  length (PopParamsBuf s) = S (PopSize s) /\
  length (PopParams s) = S (PopSize s) /\
  NoDup (PopParams s) /\
  (forall i k, PopParams s !! i = Some k -> (k < S (PopSize s))%nat) /\
  (CurPopPos s <= PopSize s)%nat.

(** The number of records stored so far is [CurPopPos]; the fill phase is
    over when it reaches [PopSize]. *)
Definition full (s : state) : Prop := CurPopPos s = PopSize s.

(** The first [n] records are sorted in the ascending order of the rank,
    and none of their ranks is NaN. *)
Definition sorted_upto (s : state) (n : nat) : Prop :=
  forall i j, (i < j < n)%nat -> Dbl.le (rank_at s i) (rank_at s j).

Definition nonan_upto (s : state) (n : nat) : Prop :=
  forall i, (i < n)%nat -> Dbl.is_nan (rank_at s i) = false.

Definition inv (s : state) : Prop :=
  wf s /\ sorted_upto s (CurPopPos s) /\ nonan_upto s (CurPopPos s).

(** The operations on a population, and a sequence of them. *)
Inductive op :=
  | OpUpdate (UpdCost : double) (UpdParams : params_ptr)
             (DoUpdateCentroid : bool) (ReplaceThrN8 : nat)
  | OpIncr
  | OpDecr.

Definition op_ok (o : op) : Prop :=
  match o with
  | OpUpdate c _ _ _ => Dbl.is_nan c = false
  | _ => True
  end.

Definition run_op (cos : double -> double) (s : state) (o : op) : state :=
  match o with
  | OpUpdate c p d r => snd (updatePop s c p d r)
  | OpIncr => incrCurPopSize cos s
  | OpDecr => decrCurPopSize cos s
  end.

Definition run_ops (cos : double -> double) (s : state) (l : list op) : state :=
  fold_left (run_op cos) l s.

(** The sequence of the stored records, in the order of [PopParams]. *)
Definition records (s : state) (n : nat) : list item :=
  map (item_at s) (seq 0 n).

(** Two states of a population with the same order and the same costs of
    the records; parameter vectors, centroid and sizes in use may differ. *)
Definition same_costs (s s' : state) : Prop :=
  PopSize s' = PopSize s /\ PopSize1 s' = PopSize1 s /\
  CurPopPos s' = CurPopPos s /\ PopParams s' = PopParams s /\
  length (PopParamsBuf s') = length (PopParamsBuf s) /\
  forall k, rank (item_of s' k) = rank (item_of s k) /\
            obj (item_of s' k) = obj (item_of s k).

(** The objective value and the rank of every stored record agree and
    satisfy [P]; with [P] "is not NaN" the population is [clean]. *)
Definition costs_in (P : double -> Prop) (s : state) : Prop :=
  forall i, (i < CurPopPos s)%nat ->
    obj_at s i = rank_at s i /\ P (rank_at s i).

Definition clean (s : state) : Prop :=
  costs_in (fun c => Dbl.is_nan c = false) s.

(** The size in use: [CurPopSize1] is [CurPopSize - 1], and the size in
    use is not above [PopSize]. *)
Definition sized (s : state) : Prop :=
  CurPopSize1 s = CurPopSize s - 1 /\ CurPopSize s <= Z.of_nat (PopSize s).

Definition same_sizes (s s' : state) : Prop :=
  CurPopSize s' = CurPopSize s /\ CurPopSize1 s' = CurPopSize1 s.

End PopSpec.

(** *** The decisions of [updatePop], named for the statements *)

Module UpdSpec.
Import CBitePop.

(** [ri], the test of the early [return( PopSize )], the position [p]
    found by the binary search, [IsEqualCost] and [DoReplace]. *)
Definition filling (s : state) : bool := (CurPopPos s <? PopSize s)%nat.

Definition ri (s : state) : nat :=
  if filling s then CurPopPos s else PopSize1 s.

Definition rejects (s : state) (UpdCost : double) : bool :=
  negb (filling s) && Dbl.gtb UpdCost (rank_at s (ri s)).

Definition pos (s : state) (UpdCost : double) : nat :=
  bsearch (S (ri s)) s UpdCost 0 (ri s).

Definition IsEqualCost (s : state) (UpdCost : double) : bool :=
  negb (filling s) &&
  isEqual UpdCost (rank_at s (pos s UpdCost)) (Dbl.pow2 (-52)).

Definition DoReplace (s : state) (UpdCost : double) (UpdParams : params_ptr)
  (ReplaceThrN8 : nat) : bool :=
  IsEqualCost s UpdCost && negb (pos s UpdCost =? 0)%nat &&
  (Z.of_nat (pos s UpdCost) <?
   Z.quot (CurPopSize s * Z.of_nat ReplaceThrN8) 8) &&
  isParams1FartherThan2 (params_at s (pos s UpdCost)) (deref s UpdParams)
                        (params_at s 0).

(** The item the call writes. *)
Definition rp (s : state) (UpdCost : double) (UpdParams : params_ptr)
  (ReplaceThrN8 : nat) : nat :=
  if DoReplace s UpdCost UpdParams ReplaceThrN8
  then ptr_at s (pos s UpdCost) else ptr_at s (ri s).

(** Where the record at position [k] after the call was before it. *)
Definition origin (s : state) (UpdCost : double) (UpdParams : params_ptr)
  (ReplaceThrN8 : nat) (k : nat) : nat :=
  if DoReplace s UpdCost UpdParams ReplaceThrN8 then k
  else if (k <? pos s UpdCost)%nat then k
  else if (k <=? ri s)%nat then (k - 1)%nat else k.

End UpdSpec.

(** An initialized population, and the ones reached from it. *)
Definition init_pop (cos : double -> double) (u : CBitePop.state)
  (fresh : nat -> CBitePop.item) (freshc : list Z)
  (aParamCount aPopSize : nat) : CBitePop.state :=
  CBitePop.resetCurPopPos cos
    (CBitePop.initBuffers cos u fresh freshc aParamCount aPopSize).

(** Concrete data for the examples: the indeterminate content is zero and
    [cos] is a constant function. *)
Definition ex_cos : double -> double := fun _ => Dbl.one.

Definition ex_blank : CBitePop.state :=
  CBitePop.mk 0 Dbl.zero 0 0 0 0 Dbl.zero 0 [] [] [] false Dbl.zero 0.

Definition ex_pop (aParamCount aPopSize : nat) (ops : list PopSpec.op)
  : CBitePop.state :=
  PopSpec.run_ops ex_cos
    (init_pop ex_cos ex_blank (fun _ => CBitePop.item0)
       (replicate aParamCount 0) aParamCount aPopSize)
    ops.

(** A population of two records with the ranks 3 and 5. *)
Definition ex_pop35 : CBitePop.state :=
  ex_pop 1 2
    [PopSpec.OpUpdate (Dbl.of_Z 5) (PtrExt [2]) false 0;
     PopSpec.OpUpdate (Dbl.of_Z 3) (PtrExt [1]) false 0].

(** The exact sum of coordinate [i] over the first [n] records; the
    arithmetic mean of these records is this sum divided by [n]. *)
Definition coord_sum (s : CBitePop.state) (n : nat) (i : nat) : Z :=
  fold_right Z.add 0
    (map (fun j => nth i (CBitePop.params_at s j) 0) (seq 0 n)).

(** A filled population of 32 one-dimensional records with the ranks
    0 .. 31: record 30 holds the value 64, record 31 the value 32000, the
    others 0. *)
Definition ex_pop32 : CBitePop.state :=
  ex_pop 1 32
    (map (fun j : nat =>
            PopSpec.OpUpdate (Dbl.of_Z (Z.of_nat j))
              (PtrExt [if (j =? 30)%nat then 64
                       else if (j =? 31)%nat then 32000 else 0])
              false 0)
         (seq 0 32)).

(** A filled population of two records, with the values 0 and 1000, whose
    active size was then decreased to one. *)
Definition ex_pop_shrunk : CBitePop.state :=
  ex_pop 1 2
    [PopSpec.OpUpdate (Dbl.of_Z 3) (PtrExt [0]) false 0;
     PopSpec.OpUpdate (Dbl.of_Z 5) (PtrExt [1000]) false 0;
     PopSpec.OpDecr].

(** ** CBiteParPops< int64_t >: the parallel populations *)

Module CBiteParPops.

(** [ParPops] are separate population objects; [ParValues] is the
    temporary buffer of [ParPopCount] values. *)
Record state := mk {
  ParPops : list CBitePop.state;
  ParPopCount : nat;
  ParValues : list double
}.

Definition blank : CBitePop.state :=
  CBitePop.mk 0 Dbl.zero 0 0 0 0 Dbl.zero 0 [] [] [] false Dbl.zero 0.

(** [ParPops[ k ] -> getCentroid()]. *)
Definition cent (st : state) (k : nat) : list Z :=
  CBitePop.getCentroid (nth k (ParPops st) blank).

(** [d = (double) ( c[ i ] - v ); s += d * d]. *)
Definition sq_step (c v : Z) (s : double) : double :=
  let d := Dbl.of_Z (wrap64 (c - v)) in
  Dbl.add s (Dbl.mul d d).

(** The four loops over [i < ParamCount] of [calcCentroidDists], for a
    group of four, three, two centroids and for a single one. *)
Definition dists4 (ParamCount : nat) (c0 c1 c2 c3 Params : list Z)
  : double * double * double * double :=
  fold_left
    (fun (acc : double * double * double * double) i =>
       let '(s0, s1, s2, s3) := acc in
       let v := nth i Params 0 in
       (sq_step (nth i c0 0) v s0, sq_step (nth i c1 0) v s1,
        sq_step (nth i c2 0) v s2, sq_step (nth i c3 0) v s3))
    (seq 0 ParamCount) (Dbl.zero, Dbl.zero, Dbl.zero, Dbl.zero).

Definition dists3 (ParamCount : nat) (c0 c1 c2 Params : list Z)
  : double * double * double :=
  fold_left
    (fun (acc : double * double * double) i =>
       let '(s0, s1, s2) := acc in
       let v := nth i Params 0 in
       (sq_step (nth i c0 0) v s0, sq_step (nth i c1 0) v s1,
        sq_step (nth i c2 0) v s2))
    (seq 0 ParamCount) (Dbl.zero, Dbl.zero, Dbl.zero).

Definition dists2 (ParamCount : nat) (c0 c1 Params : list Z)
  : double * double :=
  fold_left
    (fun (acc : double * double) i =>
       let '(s0, s1) := acc in
       let v := nth i Params 0 in
       (sq_step (nth i c0 0) v s0, sq_step (nth i c1 0) v s1))
    (seq 0 ParamCount) (Dbl.zero, Dbl.zero).

Definition dists1 (ParamCount : nat) (c0 Params : list Z) : double :=
  fold_left
    (fun s0 i => sq_step (nth i c0 0) (nth i Params 0) s0)
    (seq 0 ParamCount) Dbl.zero.

(** [while( k < ParPopCount ) { ... k += pc; s += pc; }]. *)
Fixpoint calc_loop (fuel : nat) (ParamCount : nat) (st : state)
  (Params : list Z) (k : nat) (s : list double) : list double :=
  match fuel with
  | O => s
  | S fuel' =>
      if (k <? ParPopCount st)%nat then
        let pc0 := (ParPopCount st - k)%nat in
        let pc := if (4 <? pc0)%nat then 4%nat else pc0 in
        let s' :=
          if (pc =? 4)%nat then
            let '(s0, s1, s2, s3) :=
              dists4 ParamCount (cent st k) (cent st (k + 1))
                     (cent st (k + 2)) (cent st (k + 3)) Params in
            <[(k + 3)%nat := s3]>
              (<[(k + 2)%nat := s2]> (<[(k + 1)%nat := s1]> (<[k := s0]> s)))
          else if (pc =? 3)%nat then
            let '(s0, s1, s2) :=
              dists3 ParamCount (cent st k) (cent st (k + 1))
                     (cent st (k + 2)) Params in
            <[(k + 2)%nat := s2]> (<[(k + 1)%nat := s1]> (<[k := s0]> s))
          else if (pc =? 2)%nat then
            let '(s0, s1) :=
              dists2 ParamCount (cent st k) (cent st (k + 1)) Params in
            <[(k + 1)%nat := s1]> (<[k := s0]> s)
          else
            <[k := dists1 ParamCount (cent st k) Params]> s in
        calc_loop fuel' ParamCount st Params (k + pc) s'
      else s
  end.

(** [calcCentroidDists( Params, s )]. *)
Definition calcCentroidDists (ParamCount : nat) (st : state)
  (Params : list Z) (s : list double) : list double :=
  calc_loop (ParPopCount st) ParamCount st Params 0 s.

(** [getMinDistParPop( Cost, Params )]; the function also leaves the
    distances in [ParValues]. *)
Definition min_step (s : list double) (acc : nat * double) (i : nat)
  : nat * double :=
  let '(pp, d) := acc in
  if Dbl.leb (nth i s Dbl.zero) d then (i, nth i s Dbl.zero) else (pp, d).

Definition getMinDistParPop (ParamCount : nat) (st : state) (Cost : double)
  (Params : list Z) : nat * state :=
  let s := calcCentroidDists ParamCount st Params (ParValues st) in
  let '(pp, _) :=
    fold_left (min_step s) (seq 1 (ParPopCount st - 1))
              (0%nat, nth 0 s Dbl.zero) in
  (pp, mk (ParPops st) (ParPopCount st) s).

(** [setParPopCount( NewCount )]: populations are deleted from the end or
    constructed at the end; a reallocated [ParValues] is indeterminate. *)
Definition setParPopCount (fresh : list double) (st : state) (NewCount : nat)
  : state :=
  if (NewCount <? ParPopCount st)%nat then
    mk (take NewCount (ParPops st)) NewCount (ParValues st)
  else if (ParPopCount st <? NewCount)%nat then
    mk (ParPops st ++ replicate (NewCount - ParPopCount st) blank) NewCount
       (take NewCount (fresh ++ replicate NewCount Dbl.zero))
  else st.

(** The squared distance to the centroid of population [k], computed on its
    own (the reference for the batched computation). *)
Definition dist (ParamCount : nat) (st : state) (Params : list Z) (k : nat)
  : double :=
  dists1 ParamCount (cent st k) Params.

Definition all_dists (ParamCount : nat) (st : state) (Params : list Z)
  : list double :=
  map (dist ParamCount st Params) (seq 0 (ParPopCount st)).

End CBiteParPops.

(** Two parallel populations with the same centroid [[0]], and three with
    the centroids [[0]], [[7]] and [[4]]. *)
Definition ex_cent_pop (c : list Z) : CBitePop.state :=
  CBitePop.mk 1 Dbl.one 2 1 2 1 Dbl.half 2 [] [] c false Dbl.zero 2.

Definition ex_parpops_tie : CBiteParPops.state :=
  CBiteParPops.mk [ex_cent_pop [0]; ex_cent_pop [0]] 2 [Dbl.zero; Dbl.zero].

Definition ex_parpops3 : CBiteParPops.state :=
  CBiteParPops.mk [ex_cent_pop [0]; ex_cent_pop [7]; ex_cent_pop [4]] 3
                  [Dbl.zero; Dbl.zero; Dbl.zero].

(** ** The Python binding: [minimize_func] of [biteopt_py_ext.cpp] *)

Module PyExt.

(** The Python objects that matter to the binding: numbers, sequences and
    everything else. *)
#[warnings="-register-all"] Inductive PyObject :=
  | PyFloat (d : double)
  | PyLong (z : Z)
  | PyList (l : list PyObject)
  | PyOther.

(** The arguments after [PyArg_ParseTupleAndKeywords( "OOO|iiii" )]
    succeeded; the four integers carry their defaults 1, 1, 10 and 1 when
    the caller leaves them out. *)
Record args := mkargs {
  func_py : PyObject;
  lower_py : PyObject;
  upper_py : PyObject;
  iter_py : Z;
  M_py : Z;
  attc_py : Z;
  stopc_py : Z
}.

(** [PyObject_GetIter]: only a sequence can be iterated. *)
Definition PyObject_GetIter (o : PyObject) : option (list PyObject) :=
  match o with
  | PyList l => Some l
  | _ => None
  end.

(** [PyFloat_AsDouble]: a float, or an integer that fits a double; for any
    other object the Python error indicator is set. *)
Definition PyFloat_AsDouble (o : PyObject) : option double :=
  match o with
  | PyFloat d => Some d
  | PyLong z => if Dbl.is_finite (Dbl.of_Z z) then Some (Dbl.of_Z z) else None
  | _ => None
  end.

(** The loop [while( true ) { next = PyIter_Next( iter ); ...
    v.push_back( PyFloat_AsDouble( next )); if( PyErr_Occurred() ) ... }]. *)
Fixpoint collect (l : list PyObject) : option (list double) :=
  match l with
  | [] => Some []
  | o :: l' =>
      match PyFloat_AsDouble o with
      | None => None
      | Some d =>
          match collect l' with
          | None => None
          | Some v => Some (d :: v)
          end
      end
  end.

(** [for( i = 0; i < lower.size(); i++ ) if( lower[ i ] > upper[ i ] ) ...]. *)
Definition bounds_crossed (lower upper : list double) : bool :=
  existsb (fun lu : double * double => Dbl.gtb (fst lu) (snd lu))
          (zip lower upper).

(** The messages of the [TypeError]s raised by the binding. *)
Inductive error :=
  | ErrList2nd       (* minimize: a list is required in 2nd pos *)
  | ErrList3rd       (* minimize: a list is required in 3rd pos *)
  | ErrNumeric       (* minimize: numerical list is required *)
  | ErrLengths       (* minimize: matching list lengths required *)
  | ErrBounds.       (* minimize: lower should not be greater than upper *)

Section WithDriver.

(** Everything that happens from the call of [biteopt_minimize] on - the
    construction of the optimizer, the calls of the objective function and
    the packing of the result - is the parameter [driver], applied to the
    arguments that the binding passes: [N], the bounds, [iter], [M],
    [attc] and [stopc]. *)
Variable R : Type.
Variable driver : nat -> PyObject -> list double -> list double ->
                  Z -> Z -> Z -> Z -> R.

(** [minimize_func]: either it returns with a [TypeError] set, or it goes
    on to the driver. *)
Definition minimize_func (a : args) : error + R :=
  match PyObject_GetIter (lower_py a) with
  | None => inl ErrList2nd
  | Some li =>
      match collect li with
      | None => inl ErrNumeric
      | Some lower =>
          match PyObject_GetIter (upper_py a) with
          | None => inl ErrList3rd
          | Some ui =>
              match collect ui with
              | None => inl ErrNumeric
              | Some upper =>
                  if negb (length lower =? length upper)%nat
                  then inl ErrLengths
                  else if bounds_crossed lower upper then inl ErrBounds
                  else inr (driver (length lower) (func_py a) lower upper
                                   (iter_py a) (M_py a) (attc_py a)
                                   (stopc_py a))
              end
          end
      end
  end.

End WithDriver.

(** The three precondition violations that the specification lists, for
    arguments whose bounds are numeric sequences. *)
Definition violates (lower upper : list double) : Prop :=
  (length lower <= 0)%nat \/
  length lower <> length upper \/
  exists i l u, lower !! i = Some l /\ upper !! i = Some u /\ Dbl.gtb l u = true.

End PyExt.

(** A driver that only records the arguments it is called with, and the
    arguments of a call with two empty bounds sequences. *)
Definition ex_driver (N : nat) (f : PyExt.PyObject) (lower upper : list double)
  (iter M attc stopc : Z) : nat * list double * list double :=
  (N, lower, upper).

Definition ex_args_empty : PyExt.args :=
  PyExt.mkargs PyExt.PyOther (PyExt.PyList []) (PyExt.PyList []) 1 1 10 1.

Definition ex_args_crossed : PyExt.args :=
  PyExt.mkargs PyExt.PyOther
    (PyExt.PyList [PyExt.PyFloat (Dbl.of_Z 2)])
    (PyExt.PyList [PyExt.PyLong 1]) 1 1 10 1.

(** ** CBiteOptBase< int64_t >: the common part of the optimizers *)

Module CBiteOptBase.

Definition MantMult : double := Dbl.of_Z CBitePop.IntMantMult.
Definition MantMultI : double :=
  Dbl.div Dbl.one (Dbl.of_Z CBitePop.IntMantMult).

(** [LastCosts] and [LastValues] are pointers: to the buffers [NewCosts] and
    [NewValues] of the object itself, or to the buffers of a parallel
    optimizer, whose content is then recorded here. *)
Inductive last_ptr :=
  | LastNew
  | LastOther (costs0 : double) (values : list double).

(** The object: the base class [CBitePop] ([pop]), the members of
    [CBiteParPops] ([par]) and the members of [CBiteOptBase].  [Sels] holds
    the registered selector objects in the order of the [addSel] calls;
    [ApplySels] holds pointers to them, as positions in [Sels]. *)
Record state := mk {
  pop : CBitePop.state;
  par : CBiteParPops.state;
  MinValues : list double;
  MaxValues : list double;
  DiffValues : list double;
  DiffValuesI : list double;
  StartParams : list Z;
  UseStartParams : bool;
  StartSD : double;
  BestValues : list double;
  BestCost : double;
  NewCosts : double;
  NewValues : list double;
  Last : last_ptr;
  DoInitEvals : bool;
  StallCount : Z;
  HiBound : double;
  AvgCost : double;
  Sels : list CBiteSelBase.state;
  ApplySels : list nat
}.

Definition getBestParams (s : state) : list double := BestValues s.
Definition getBestCost (s : state) : double := BestCost s.
Definition getStallCount (s : state) : Z := StallCount s.

(** [LastCosts[ 0 ]] and [LastValues]. *)
Definition LastCosts0 (s : state) : double :=
  match Last s with
  | LastNew => NewCosts s
  | LastOther c _ => c
  end.

Definition LastValues (s : state) : list double :=
  match Last s with
  | LastNew => NewValues s
  | LastOther _ v => v
  end.

Definition with_pop (s : state) (q : CBitePop.state) : state :=
  mk q (par s) (MinValues s) (MaxValues s) (DiffValues s) (DiffValuesI s)
     (StartParams s) (UseStartParams s) (StartSD s) (BestValues s)
     (BestCost s) (NewCosts s) (NewValues s) (Last s) (DoInitEvals s)
     (StallCount s) (HiBound s) (AvgCost s) (Sels s) (ApplySels s).

Definition with_par (s : state) (q : CBiteParPops.state) : state :=
  mk (pop s) q (MinValues s) (MaxValues s) (DiffValues s) (DiffValuesI s)
     (StartParams s) (UseStartParams s) (StartSD s) (BestValues s)
     (BestCost s) (NewCosts s) (NewValues s) (Last s) (DoInitEvals s)
     (StallCount s) (HiBound s) (AvgCost s) (Sels s) (ApplySels s).

Definition with_best (s : state) (c : double) (v : list double) : state :=
  mk (pop s) (par s) (MinValues s) (MaxValues s) (DiffValues s)
     (DiffValuesI s) (StartParams s) (UseStartParams s) (StartSD s) v c
     (NewCosts s) (NewValues s) (Last s) (DoInitEvals s) (StallCount s)
     (HiBound s) (AvgCost s) (Sels s) (ApplySels s).

Definition with_new (s : state) (c : double) (v : list double)
  (l : last_ptr) : state :=
  mk (pop s) (par s) (MinValues s) (MaxValues s) (DiffValues s)
     (DiffValuesI s) (StartParams s) (UseStartParams s) (StartSD s)
     (BestValues s) (BestCost s) c v l (DoInitEvals s) (StallCount s)
     (HiBound s) (AvgCost s) (Sels s) (ApplySels s).

Definition with_last (s : state) (l : last_ptr) : state :=
  with_new s (NewCosts s) (NewValues s) l.

Definition with_flags (s : state) (doinit : bool) (stall : Z) : state :=
  mk (pop s) (par s) (MinValues s) (MaxValues s) (DiffValues s)
     (DiffValuesI s) (StartParams s) (UseStartParams s) (StartSD s)
     (BestValues s) (BestCost s) (NewCosts s) (NewValues s) (Last s) doinit
     stall (HiBound s) (AvgCost s) (Sels s) (ApplySels s).

Definition with_sels (s : state) (l : list CBiteSelBase.state)
  (a : list nat) : state :=
  mk (pop s) (par s) (MinValues s) (MaxValues s) (DiffValues s)
     (DiffValuesI s) (StartParams s) (UseStartParams s) (StartSD s)
     (BestValues s) (BestCost s) (NewCosts s) (NewValues s) (Last s)
     (DoInitEvals s) (StallCount s) (HiBound s) (AvgCost s) l a.

Definition with_start (s : state) (p : list Z) (use : bool) (sd : double)
  : state :=
  mk (pop s) (par s) (MinValues s) (MaxValues s) (DiffValues s)
     (DiffValuesI s) p use sd (BestValues s) (BestCost s) (NewCosts s)
     (NewValues s) (Last s) (DoInitEvals s) (StallCount s) (HiBound s)
     (AvgCost s) (Sels s) (ApplySels s).

(** [fixCostNaN( v )]: [v != v ? 1e300 : v]. *)
Definition fixCostNaN (v : double) : double :=
  if Dbl.neb v v then Dbl.d1e300 else v.

(** [getRealValue( NormParams, i )]. *)
Definition getRealValue (s : state) (NormParams : list Z) (i : nat) : double :=
  Dbl.add (nth i (MinValues s) Dbl.zero)
    (Dbl.mul (nth i (DiffValues s) Dbl.zero) (Dbl.of_Z (nth i NormParams 0))).

(** [wrapParamReal( rnd, v, i )]. *)
Definition wrapParamReal (s : state) (rnd : CBiteRnd.state) (v : double)
  (i : nat) : double * CBiteRnd.state :=
  let minv := nth i (MinValues s) Dbl.zero in
  if Dbl.ltb v minv then
    let dv := nth i (DiffValues s) Dbl.zero in
    if Dbl.gtb v (Dbl.sub minv dv) then
      let '(r, rnd1) := CBiteRnd.get rnd in
      (Dbl.add minv (Dbl.mul r (Dbl.sub minv v)), rnd1)
    else
      let '(r, rnd1) := CBiteRnd.get rnd in
      (Dbl.add minv (Dbl.mul r dv), rnd1)
  else
    let maxv := nth i (MaxValues s) Dbl.zero in
    if Dbl.gtb v maxv then
      let dv := nth i (DiffValues s) Dbl.zero in
      if Dbl.ltb v (Dbl.add maxv dv) then
        let '(r, rnd1) := CBiteRnd.get rnd in
        (Dbl.sub maxv (Dbl.mul r (Dbl.sub v maxv)), rnd1)
      else
        let '(r, rnd1) := CBiteRnd.get rnd in
        (Dbl.sub maxv (Dbl.mul r dv), rnd1)
    else (v, rnd).

(** [updateBestCost( UpdCost, UpdValues, p )]; [copyValues] copies the
    [ParamCount] values of [UpdValues], the whole of the two arrays. *)
Definition updateBestCost (s : state) (UpdCost : double)
  (UpdValues : list double) (p : Z) : state :=
  let p1 := if p <? 0 then (if Dbl.leb UpdCost (BestCost s) then 0 else p)
            else p in
  if p1 =? 0 then with_best s UpdCost UpdValues else s.

(** [updateDiffValues()], the branch [(ptype) 0.25 == 0]. *)
Definition updateDiffValues (s : state) : state :=
  let d := fun i : nat =>
    Dbl.sub (nth i (MaxValues s) Dbl.zero) (nth i (MinValues s) Dbl.zero) in
  let idx := seq 0 (CBitePop.ParamCount (pop s)) in
  mk (pop s) (par s) (MinValues s) (MaxValues s)
     (map (fun i => Dbl.mul (d i) MantMultI) idx)
     (map (fun i => Dbl.div MantMult (d i)) idx)
     (StartParams s) (UseStartParams s) (StartSD s) (BestValues s)
     (BestCost s) (NewCosts s) (NewValues s) (Last s) (DoInitEvals s)
     (StallCount s) (HiBound s) (AvgCost s) (Sels s) (ApplySels s).

(** [setStartParams( InitParams )]; [None] is the NULL pointer. *)
Definition setStartParams (s : state) (InitParams : option (list double))
  : state :=
  match InitParams with
  | None => s
  | Some ip =>
      with_start s
        (map (fun i : nat =>
                Dbl.to_int64
                  (Dbl.div (Dbl.sub (nth i ip Dbl.zero)
                                    (nth i (MinValues s) Dbl.zero))
                           (nth i (DiffValues s) Dbl.zero)))
             (seq 0 (CBitePop.ParamCount (pop s))))
        true (StartSD s)
  end.

Definition sel0 : CBiteSelBase.state :=
  CBiteSelBase.mk 0 0 0 0 Dbl.zero [] [] 0 0 0 0 false.

(** [applySelsIncr( rnd, v )] and [applySelsDecr( rnd )]. *)
Definition applySelsIncr (s : state) (v : double) : state :=
  with_sels s
    (fold_left
       (fun l k => <[k := CBiteSelBase.incr (nth k l sel0) v]> l)
       (ApplySels s) (Sels s))
    [].

Definition applySelsDecr (s : state) : state :=
  with_sels s
    (fold_left
       (fun l k => <[k := CBiteSelBase.decr (nth k l sel0)]> l)
       (ApplySels s) (Sels s))
    [].

Section WithLibm.

(** [cos] and [pow] of libm, and [getGaussianInt( rnd, sd, meanInt )]: the
    rejection loop around [rnd.getGaussian()], which calls [log] of libm. *)
Variable cos : double -> double.
Variable pow : double -> double -> double.
Variable getGaussianInt :
  CBiteRnd.state -> double -> Z -> Z * CBiteRnd.state.

(** The content of a newly allocated selector buffer. *)
Variable fresh_sel : list Z.

(** [select( Sel, rnd )], for the selector registered at position [k]. *)
Definition select (s : state) (k : nat) (rnd : CBiteRnd.state)
  : Z * state * CBiteRnd.state :=
  let '(sel, x, rnd1) :=
    CBiteSelBase.select (CBiteRnd.getPowInt pow) (nth k (Sels s) sel0) rnd in
  (sel, with_sels s (<[k := x]> (Sels s)) (ApplySels s ++ [k]), rnd1).

(** [genInitParams( rnd, Params )], the branches [(ptype) 0.25 == 0]: the
    new content of [Params], the new [NewValues] and the generator. *)
Definition genInitParams (s : state) (rnd : CBiteRnd.state)
  : list Z * list double * CBiteRnd.state :=
  fold_left
    (fun (acc : list Z * list double * CBiteRnd.state) (i : nat) =>
       let '(ps, vs, r) := acc in
       let '(x, r1) :=
         if UseStartParams s then
           if (CBitePop.CurPopPos (pop s) =? 0)%nat
           then (nth i (StartParams s) 0, r)
           else getGaussianInt r (StartSD s) (nth i (StartParams s) 0)
         else getGaussianInt r (StartSD s)
                (Z.shiftr CBitePop.IntMantMult 1) in
       let '(w, r2) := CBitePop.wrapParam r1 x in
       let ps' := ps ++ [w] in
       (ps', vs ++ [getRealValue s ps' i], r2))
    (seq 0 (CBitePop.ParamCount (pop s))) ([], [], rnd).

(** [initCommonVars( rnd )]; [lb] and [ub] are what the virtual functions
    [getMinValues] and [getMaxValues] store. *)
Definition initCommonVars (lb ub : list double) (s : state)
  (rnd : CBiteRnd.state) : state * CBiteRnd.state :=
  let s1 :=
    updateDiffValues
      (mk (pop s) (par s) lb ub (DiffValues s) (DiffValuesI s)
          (StartParams s) (UseStartParams s) (StartSD s) (BestValues s)
          (BestCost s) (NewCosts s) (NewValues s) (Last s) (DoInitEvals s)
          (StallCount s) (HiBound s) (AvgCost s) (Sels s) (ApplySels s)) in
  let '(sels, rnd1) :=
    fold_left
      (fun (acc : list CBiteSelBase.state * CBiteRnd.state) x =>
         let '(l, r) := acc in
         let '(x', r') :=
           CBiteSelBase.reset CBiteRnd.getInt (CBiteRnd.getPowInt pow)
                              fresh_sel x r in
         (l ++ [x'], r'))
      (Sels s1) ([], rnd) in
  (mk (CBitePop.resetCurPopPos cos (pop s1)) (par s1) (MinValues s1)
      (MaxValues s1) (DiffValues s1) (DiffValuesI s1) (StartParams s1) false
      (Dbl.pow2 (-2)) (BestValues s1) Dbl.d1e300 (NewCosts s1) (NewValues s1)
      LastNew true 0 Dbl.d1e300 Dbl.zero sels [],
   rnd1).

(** [initBuffers( aParamCount, aPopSize )] of [CBiteOptBase]: the buffers
    of the population, then the seven new arrays, whose content is
    indeterminate ([fresh_vals], [fresh_params]). *)
Definition initBuffers (fresh_item : nat -> CBitePop.item)
  (fresh_cent : list Z) (fresh_vals : nat -> list double)
  (fresh_params : list Z) (s : state) (aParamCount aPopSize : nat) : state :=
  mk (CBitePop.initBuffers cos (pop s) fresh_item fresh_cent aParamCount
                           aPopSize)
     (par s) (fresh_vals 0%nat) (fresh_vals 1%nat) (fresh_vals 2%nat)
     (fresh_vals 3%nat) fresh_params (UseStartParams s) (StartSD s)
     (fresh_vals 4%nat) (BestCost s) (NewCosts s) (fresh_vals 5%nat) (Last s)
     (DoInitEvals s) (StallCount s) (HiBound s) (AvgCost s) (Sels s)
     (ApplySels s).

End WithLibm.

End CBiteOptBase.

(** ** CBiteOpt: the optimizer *)

Module CBiteOpt.

(** The positions in [Sels] of the selectors that [optimize] uses itself,
    and the choice counts of all the selectors, in the order of the [addSel]
    calls of the constructor. *)
Definition MethodSel : nat := 0.
Definition M1Sel : nat := 1.
Definition M1ASel : nat := 2.
Definition M1BSel : nat := 3.
Definition M1CSel : nat := 4.
Definition M2Sel : nat := 5.
Definition M2BSel : nat := 6.
Definition PopChangeIncrSel : nat := 7.
Definition PopChangeDecrSel : nat := 8.

Definition SelCounts : list Z :=
  [4; 4; 3; 4; 3; 2; 5; 2; 2; 2] ++ replicate 8 2 ++ [2] ++ replicate 4 2 ++
  [2] ++ replicate 4 4 ++ replicate 4 4 ++
  [2; 2; 4; 2; 2; 2; 2; 4; 4; 2; 4; 2; 4; 4; 4].

(** The solution generators [generateSol1] .. [generateSol13] and
    [generateSolPar]. *)
Inductive generator :=
  | Sol1 | Sol2 | Sol2b | Sol2c | Sol2d | Sol3 | Sol4 | Sol5 | Sol5b | Sol5c
  | Sol6 | Sol7 | Sol8 | Sol9 | Sol10 | Sol11 | Sol12 | Sol13 | SolPar.

Definition d0_008 : double := S754_finite false 4611686018427388 (-59).
Definition d11 : double := Dbl.of_Z 11.

Section WithAux.

(** The members [ParOpt], [ParOptPop], [ParOpt2], [ParOpt2Pop] and
    [UseParOpt]: the two parallel optimizers ([CSpherOpt], [CMiniBiteOpt])
    and the populations of their solutions.  Only the solution generators
    use them; they are kept as one value of an arbitrary type. *)
Variable Aux : Type.

Record state := mk {
  base : CBiteOptBase.state;
  OldPops0 : CBitePop.state;
  OldPops1 : CBitePop.state;
  DoEval : bool;
  aux : Aux
}.

Definition with_base (s : state) (b : CBiteOptBase.state) : state :=
  mk b (OldPops0 s) (OldPops1 s) (DoEval s) (aux s).

Definition getBestCost (s : state) : double := CBiteOptBase.BestCost (base s).
Definition getBestParams (s : state) : list double :=
  CBiteOptBase.BestValues (base s).

(** What a solution generator leaves behind: the new content of
    [TmpParams], the selectors after its [select] calls, the generator of
    random numbers and the parallel optimizers.  [g_last] is [None] except
    for [generateSolPar], which sets [DoEval = false] and lets [LastCosts]
    and [LastValues] point to the buffers of a parallel optimizer, here with
    their content.  [g_evals] lists the vectors which the parallel
    optimizers passed to the objective function during the call. *)
Record GenOut := mkGenOut {
  g_TmpParams : list Z;
  g_Sels : list CBiteSelBase.state;
  g_ApplySels : list nat;
  g_rnd : CBiteRnd.state;
  g_aux : Aux;
  g_last : option (double * list double);
  g_evals : list (list double)
}.

(** What the embedding takes from outside the translated functions: libm,
    the Gaussian sampler, the content of newly allocated memory, the
    solution generators, and the parallel optimizers' part of [updateDims]
    and [init]. *)
Record externals := mkExt {
  cos : double -> double;
  pow : double -> double -> double;
  tanh : double -> double;
  getGaussianInt : CBiteRnd.state -> double -> Z -> Z * CBiteRnd.state;
  fresh_sel : list Z;
  fresh_item : nat -> CBitePop.item;
  fresh_cent : list Z;
  fresh_vals : nat -> list double;
  fresh_params : list Z;
  fresh_par : list double;
  generateSol :
    generator -> (list double -> double) -> CBiteRnd.state -> state -> GenOut;
  aux_updateDims : Aux -> nat -> nat -> Aux;
  aux_init :
    list double -> list double -> CBiteRnd.state -> Aux ->
    option (list double) -> double -> Aux * CBiteRnd.state
}.

Variable E : externals.

(** The constructor: the selectors are constructed and registered, the
    population is empty; the other members keep the indeterminate content
    of [u]. *)
Definition construct (u : state) : state :=
  let b := base u in
  let q := CBiteOptBase.pop b in
  mk (CBiteOptBase.mk
        (CBitePop.mk 0 (CBitePop.ParamCountI q) 0 (CBitePop.PopSize1 q)
           (CBitePop.CurPopSize q) (CBitePop.CurPopSize1 q)
           (CBitePop.CurPopSizeI q) (CBitePop.CurPopPos q) [] [] []
           (CBitePop.NeedCentUpdate q) (CBitePop.CentLPC q)
           (CBitePop.TmpParams q))
        (CBiteParPops.mk [] 0 [])
        [] [] [] [] [] (CBiteOptBase.UseStartParams b)
        (CBiteOptBase.StartSD b) [] (CBiteOptBase.BestCost b)
        (CBiteOptBase.NewCosts b) [] (CBiteOptBase.Last b)
        (CBiteOptBase.DoInitEvals b) (CBiteOptBase.StallCount b)
        (CBiteOptBase.HiBound b) (CBiteOptBase.AvgCost b)
        (imap (fun k c =>
                 CBiteSelBase.construct
                   (nth k (CBiteOptBase.Sels b) CBiteOptBase.sel0) c 150)
              SelCounts)
        (CBiteOptBase.ApplySels b))
     (CBitePop.mk 0 (CBitePop.ParamCountI (OldPops0 u)) 0
        (CBitePop.PopSize1 (OldPops0 u)) (CBitePop.CurPopSize (OldPops0 u))
        (CBitePop.CurPopSize1 (OldPops0 u))
        (CBitePop.CurPopSizeI (OldPops0 u)) (CBitePop.CurPopPos (OldPops0 u))
        [] [] [] (CBitePop.NeedCentUpdate (OldPops0 u))
        (CBitePop.CentLPC (OldPops0 u)) (CBitePop.TmpParams (OldPops0 u)))
     (CBitePop.mk 0 (CBitePop.ParamCountI (OldPops1 u)) 0
        (CBitePop.PopSize1 (OldPops1 u)) (CBitePop.CurPopSize (OldPops1 u))
        (CBitePop.CurPopSize1 (OldPops1 u))
        (CBitePop.CurPopSizeI (OldPops1 u)) (CBitePop.CurPopPos (OldPops1 u))
        [] [] [] (CBitePop.NeedCentUpdate (OldPops1 u))
        (CBitePop.CentLPC (OldPops1 u)) (CBitePop.TmpParams (OldPops1 u)))
     (DoEval u) (aux u).

(** [calcPopSizeBiteOpt( aParamCount )], a static function of
    [CBiteOptBase]. *)
Definition calcPopSizeBiteOpt (aParamCount : nat) : nat :=
  let n := Dbl.of_Z (Z.of_nat aParamCount) in
  let cx := tanh E (Dbl.mul d0_008 n) in
  let psl := Dbl.of_Z (10 + Z.of_nat aParamCount * 3) in
  let psh := Dbl.mul d11 (Dbl.sqrt n) in
  Z.to_nat
    (Dbl.to_int
       (Dbl.add (Dbl.add (Dbl.mul psl (Dbl.sub Dbl.one cx)) (Dbl.mul psh cx))
                Dbl.half)).

(** [updateDims( aParamCount, PopSize0 )]. *)
Definition updateDims (s : state) (aParamCount : nat) (PopSize0 : Z) : state :=
  let aPopSize :=
    if 0 <? PopSize0 then Z.to_nat PopSize0
    else calcPopSizeBiteOpt aParamCount in
  let q := CBiteOptBase.pop (base s) in
  if (aParamCount =? CBitePop.ParamCount q)%nat &&
     (aPopSize =? CBitePop.PopSize q)%nat then s
  else
    let b1 :=
      CBiteOptBase.initBuffers (cos E) (fresh_item E) (fresh_cent E)
        (fresh_vals E) (fresh_params E) (base s) aParamCount aPopSize in
    let b2 :=
      CBiteOptBase.with_par b1
        (CBiteParPops.setParPopCount (fresh_par E) (CBiteOptBase.par b1) 5) in
    mk b2
       (CBitePop.initBuffers (cos E) (OldPops0 s) (fresh_item E)
          (fresh_cent E) aParamCount aPopSize)
       (CBitePop.initBuffers (cos E) (OldPops1 s) (fresh_item E)
          (fresh_cent E) aParamCount aPopSize)
       (DoEval s) (aux_updateDims E (aux s) aParamCount aPopSize).

(** [init( rnd, InitParams, InitRadius )]; [lb] and [ub] are the bounds
    that [getMinValues] and [getMaxValues] deliver. *)
Definition init (lb ub : list double) (s : state) (rnd : CBiteRnd.state)
  (InitParams : option (list double)) (InitRadius : double)
  : state * CBiteRnd.state :=
  let '(b1, rnd1) :=
    CBiteOptBase.initCommonVars (cos E) (pow E) (fresh_sel E) lb ub
                                (base s) rnd in
  let b2 :=
    CBiteOptBase.with_start b1 (CBiteOptBase.StartParams b1)
      (CBiteOptBase.UseStartParams b1) (Dbl.mul (Dbl.pow2 (-2)) InitRadius) in
  let b3 := CBiteOptBase.setStartParams b2 InitParams in
  let '(a, rnd2) := aux_init E lb ub rnd1 (aux s) InitParams InitRadius in
  (mk b3 (CBitePop.resetCurPopPos (cos E) (OldPops0 s))
      (CBitePop.resetCurPopPos (cos E) (OldPops1 s)) (DoEval s) a,
   rnd2).

(** [updateParPop( UpdCost, UpdParams )]; [UpdParams] points into the
    object's own population, outside the parallel ones. *)
Definition updateParPop (b : CBiteOptBase.state) (UpdCost : double)
  (UpdParams : list Z) : CBiteOptBase.state :=
  let '(p, par1) :=
    CBiteParPops.getMinDistParPop
      (CBitePop.ParamCount (CBiteOptBase.pop b)) (CBiteOptBase.par b)
      UpdCost UpdParams in
  let q := nth p (CBiteParPops.ParPops par1) CBiteParPops.blank in
  let q' := snd (CBitePop.updatePop q UpdCost (PtrExt UpdParams) true 0) in
  CBiteOptBase.with_par b
    (CBiteParPops.mk (<[p := q']> (CBiteParPops.ParPops par1))
       (CBiteParPops.ParPopCount par1) (CBiteParPops.ParValues par1)).

(** The result of a call of [optimize]: the returned stall count, the
    object, the object [PushOpt] points to (if it is neither NULL nor the
    object itself), the generator of random numbers, and the vectors passed
    to the objective function during the call, in the order of the calls. *)
Record step := mkstep {
  r_stall : Z;
  r_opt : state;
  r_push : option state;
  r_rnd : CBiteRnd.state;
  r_evals : list (list double)
}.

(** The objective function, [optcost]. *)
Variable optcost : list double -> double.

(** The branch [if( DoInitEvals )] of [optimize]. *)
Definition fill_step (rnd : CBiteRnd.state) (s : state)
  (PushOpt : option state) : step :=
  let b := base s in
  let q := CBiteOptBase.pop b in
  let Params := CBitePop.getCurParams q in
  let '(ps, vs, rnd1) :=
    CBiteOptBase.genInitParams (getGaussianInt E) b rnd in
  let q1 := CBitePop.set_params q (CBitePop.ptr_at q (CBitePop.CurPopPos q))
                                ps in
  let c := CBiteOptBase.fixCostNaN (optcost vs) in
  let b1 :=
    CBiteOptBase.with_new (CBiteOptBase.with_pop b q1) c vs
                          (CBiteOptBase.Last b) in
  let '(p, q2) := CBitePop.updatePop q1 c Params false 0 in
  let b2 :=
    CBiteOptBase.updateBestCost (CBiteOptBase.with_pop b1 q2)
      (CBiteOptBase.NewCosts b1) (CBiteOptBase.NewValues b1) (Z.of_nat p) in
  let b3 :=
    if (CBitePop.CurPopPos q2 =? CBitePop.PopSize q2)%nat then
      let q3 := CBitePop.updateCentroid q2 in
      let par2 := CBiteOptBase.par b2 in
      let n := CBiteParPops.ParPopCount par2 in
      let pops := CBiteParPops.ParPops par2 in
      CBiteOptBase.with_flags
        (CBiteOptBase.with_par (CBiteOptBase.with_pop b2 q3)
           (CBiteParPops.mk
              (map (fun d => CBitePop.copy (cos E) (fresh_item E)
                                           (fresh_cent E) d q3)
                   (take n pops) ++ drop n pops)
              n (CBiteParPops.ParValues par2)))
        false (CBiteOptBase.StallCount b2)
    else b2 in
  mkstep 0 (with_base s b3) PushOpt rnd1 [vs].

(** The selections of [optimize] that lead to one of the generators. *)
Definition choose (b : CBiteOptBase.state) (rnd : CBiteRnd.state)
  : generator * CBiteOptBase.state * CBiteRnd.state :=
  let sel := CBiteOptBase.select (pow E) in
  let '(SelMethod, b1, r1) := sel b MethodSel rnd in
  if SelMethod =? 0 then (Sol2, b1, r1)
  else if SelMethod =? 1 then
    let '(SelM1, b2, r2) := sel b1 M1Sel r1 in
    if SelM1 =? 0 then
      let '(SelM1A, b3, r3) := sel b2 M1ASel r2 in
      (if SelM1A =? 0 then Sol2b else if SelM1A =? 1 then Sol2c else Sol2d,
       b3, r3)
    else if SelM1 =? 1 then
      let '(SelM1B, b3, r3) := sel b2 M1BSel r2 in
      (if SelM1B =? 0 then Sol4 else if SelM1B =? 1 then Sol5b
       else if SelM1B =? 2 then Sol5c else Sol13,
       b3, r3)
    else if SelM1 =? 2 then
      let '(SelM1C, b3, r3) := sel b2 M1CSel r2 in
      (if SelM1C =? 0 then Sol5 else if SelM1C =? 1 then Sol10 else Sol11,
       b3, r3)
    else (Sol6, b2, r2)
  else if SelMethod =? 2 then
    let '(m2, b2, r2) := sel b1 M2Sel r1 in
    if negb (m2 =? 0) then (Sol1, b2, r2)
    else
      let '(SelM2B, b3, r3) := sel b2 M2BSel r2 in
      (if SelM2B =? 0 then Sol3 else if SelM2B =? 1 then Sol7
       else if SelM2B =? 2 then Sol8 else if SelM2B =? 3 then Sol9
       else Sol12,
       b3, r3)
  else (SolPar, b1, r1).

(** [DoEval = true], the selections and the call of the generator. *)
Definition generate (rnd : CBiteRnd.state) (s : state)
  : state * CBiteRnd.state * list (list double) :=
  let '(g, b1, r1) := choose (base s) rnd in
  let s1 := mk b1 (OldPops0 s) (OldPops1 s) true (aux s) in
  let o := generateSol E g optcost r1 s1 in
  let q := CBitePop.set_tmp (CBiteOptBase.pop b1) (g_TmpParams o) in
  let b2 :=
    CBiteOptBase.with_sels (CBiteOptBase.with_pop b1 q) (g_Sels o)
                           (g_ApplySels o) in
  let b3 :=
    match g_last o with
    | Some (c, v) => CBiteOptBase.with_last b2 (CBiteOptBase.LastOther c v)
    | None => b2
    end in
  (mk b3 (OldPops0 s) (OldPops1 s)
      (match g_last o with Some _ => false | None => true end) (g_aux o),
   g_rnd o, g_evals o).

(** The branch [if( DoEval )]: the parameters are wrapped and converted,
    the objective function is evaluated. *)
Definition wrap_all (b : CBiteOptBase.state) (rnd : CBiteRnd.state)
  : list Z * list double * CBiteRnd.state :=
  let q := CBiteOptBase.pop b in
  fold_left
    (fun (acc : list Z * list double * CBiteRnd.state) (i : nat) =>
       let '(tp, vs, r) := acc in
       let '(w, r1) := CBitePop.wrapParam r (nth i tp 0) in
       let tp' := <[i := w]> tp in
       (tp', vs ++ [CBiteOptBase.getRealValue b tp' i], r1))
    (seq 0 (CBitePop.ParamCount q)) (CBitePop.tmp q, [], rnd).

Definition evaluate (rnd : CBiteRnd.state) (s : state)
  : state * CBiteRnd.state * list (list double) :=
  if DoEval s then
    let b := base s in
    let '(tp, vs, rnd1) := wrap_all b rnd in
    let q := CBitePop.set_tmp (CBiteOptBase.pop b) tp in
    let c := CBiteOptBase.fixCostNaN (optcost vs) in
    (with_base s
       (CBiteOptBase.with_new (CBiteOptBase.with_pop b q) c vs
                              CBiteOptBase.LastNew),
     rnd1, [vs])
  else (s, rnd, []).

(** The part of [optimize] that follows the evaluation: the update of the
    population, of the best solution, of the selectors, of the populations
    of older solutions and of [PushOpt].  [StallCount] is an [int]; its
    overflow is not modelled. *)
Definition update_step (rnd : CBiteRnd.state) (s : state)
  (PushOpt : option state) (evals : list (list double)) : step :=
  let b := base s in
  let c := CBiteOptBase.LastCosts0 b in
  let q := CBiteOptBase.pop b in
  let '(p, q1) :=
    CBitePop.updatePop q c (PtrItem (CBitePop.TmpParams q)) true 3 in
  let b1 := CBiteOptBase.with_pop b q1 in
  let tp := CBitePop.tmp q1 in
  if CBitePop.CurPopSize1 q1 <? Z.of_nat p then
    let b2 := CBiteOptBase.applySelsDecr b1 in
    let b3 :=
      CBiteOptBase.with_flags b2 (CBiteOptBase.DoInitEvals b2)
                              (CBiteOptBase.StallCount b2 + 1) in
    let '(b4, rnd1) :=
      if DoEval s &&
         (CBitePop.CurPopSize q1 <? Z.of_nat (CBitePop.PopSize q1)) then
        let '(sel, b', r') :=
          CBiteOptBase.select (pow E) b3 PopChangeIncrSel rnd in
        (if negb (sel =? 0)
         then CBiteOptBase.with_pop b'
                (CBitePop.incrCurPopSize (cos E) (CBiteOptBase.pop b'))
         else b',
         r')
      else (b3, rnd) in
    let b5 := updateParPop b4 c tp in
    mkstep (CBiteOptBase.StallCount b5) (with_base s b5) PushOpt rnd1 evals
  else
    let b2 :=
      CBiteOptBase.updateBestCost b1 c (CBiteOptBase.LastValues b1)
                                  (Z.of_nat p) in
    let b3 :=
      CBiteOptBase.applySelsIncr b2
        (Dbl.sub Dbl.one
           (Dbl.mul (Dbl.of_Z (Z.of_nat p)) (CBitePop.CurPopSizeI q1))) in
    let b4 := CBiteOptBase.with_flags b3 (CBiteOptBase.DoInitEvals b3) 0 in
    let last := Z.to_nat (CBitePop.CurPopSize1 q1) in
    let OldParams := CBitePop.params_at q1 last in
    let OldObj := CBitePop.obj_at q1 last in
    let '(g1, rnd1) := CBiteRnd.get rnd in
    let o0 :=
      if Dbl.ltb g1 (CBitePop.ParamCountI q1)
      then snd (CBitePop.updatePop (OldPops0 s) OldObj (PtrExt OldParams)
                                   false 0)
      else OldPops0 s in
    let '(g2, rnd2) := CBiteRnd.get rnd1 in
    let o1 :=
      if Dbl.ltb g2 (Dbl.mul Dbl.two (CBitePop.ParamCountI q1))
      then snd (CBitePop.updatePop (OldPops1 s) OldObj (PtrExt OldParams)
                                   false 0)
      else OldPops1 s in
    let push' :=
      match PushOpt with
      | Some t =>
          if negb (CBiteOptBase.DoInitEvals (base t)) && (1 <? p)%nat then
            let tq :=
              snd (CBitePop.updatePop (CBiteOptBase.pop (base t)) c
                                      (PtrExt tp) true 3) in
            Some (with_base t
                    (updateParPop (CBiteOptBase.with_pop (base t) tq) c tp))
          else Some t
      | None => None
      end in
    let '(b5, rnd3) :=
      if DoEval s &&
         (Z.of_nat (CBitePop.PopSize q1 / 2) <? CBitePop.CurPopSize q1) then
        let '(sel, b', r') :=
          CBiteOptBase.select (pow E) b4 PopChangeDecrSel rnd2 in
        (if negb (sel =? 0)
         then CBiteOptBase.with_pop b'
                (CBitePop.decrCurPopSize (cos E) (CBiteOptBase.pop b'))
         else b',
         r')
      else (b4, rnd2) in
    let b6 := updateParPop b5 c tp in
    mkstep (CBiteOptBase.StallCount b6) (mk b6 o0 o1 (DoEval s) (aux s))
           push' rnd3 evals.

(** [optimize( rnd, PushOpt )]; [PushOpt] is [None] for the NULL pointer
    and for a pointer to the object itself. *)
Definition optimize (rnd : CBiteRnd.state) (s : state)
  (PushOpt : option state) : step :=
  if CBiteOptBase.DoInitEvals (base s) then fill_step rnd s PushOpt
  else
    let '(s1, r1, ev1) := generate rnd s in
    let '(s2, r2, ev2) := evaluate r1 s1 in
    update_step r2 s2 PushOpt (ev1 ++ ev2).

End WithAux.

Arguments mk {Aux}.
Arguments base {Aux}.
Arguments OldPops0 {Aux}.
Arguments OldPops1 {Aux}.
Arguments DoEval {Aux}.
Arguments aux {Aux}.
Arguments with_base {Aux}.
Arguments getBestCost {Aux}.
Arguments getBestParams {Aux}.
Arguments mkGenOut {Aux}.
Arguments g_TmpParams {Aux}.
Arguments g_Sels {Aux}.
Arguments g_ApplySels {Aux}.
Arguments g_rnd {Aux}.
Arguments g_aux {Aux}.
Arguments g_last {Aux}.
Arguments g_evals {Aux}.
Arguments mkExt {Aux}.
Arguments cos {Aux}.
Arguments pow {Aux}.
Arguments tanh {Aux}.
Arguments getGaussianInt {Aux}.
Arguments fresh_sel {Aux}.
Arguments fresh_item {Aux}.
Arguments fresh_cent {Aux}.
Arguments fresh_vals {Aux}.
Arguments fresh_params {Aux}.
Arguments fresh_par {Aux}.
Arguments generateSol {Aux}.
Arguments aux_updateDims {Aux}.
Arguments aux_init {Aux}.
Arguments construct {Aux}.
Arguments calcPopSizeBiteOpt {Aux}.
Arguments updateDims {Aux}.
Arguments init {Aux}.
Arguments updateParPop : clear implicits.
Arguments mkstep {Aux}.
Arguments r_stall {Aux}.
Arguments r_opt {Aux}.
Arguments r_push {Aux}.
Arguments r_rnd {Aux}.
Arguments r_evals {Aux}.
Arguments fill_step {Aux}.
Arguments choose {Aux}.
Arguments generate {Aux}.
Arguments wrap_all : clear implicits.
Arguments evaluate {Aux}.
Arguments update_step {Aux}.
Arguments optimize {Aux}.

End CBiteOpt.

(** ** CBiteOptDeep: the ensemble of optimizers *)

Module CBiteOptDeep.

Section WithAux.

Variable Aux : Type.
Variable E : CBiteOpt.externals Aux.

(** [Opts] holds the [OptCount] optimizer objects; [BestOpt], [CurOpt],
    [PushOpt] and [LastOpt] point to one of them, as positions in [Opts]. *)
Record state := mk {
  ParamCount : nat;
  OptCount : nat;
  Opts : list (CBiteOpt.state Aux);
  BestOpt : nat;
  CurOpt : nat;
  PushOpt : nat;
  LastOpt : nat;
  StallCount : Z
}.

(** An unconstructed optimizer object, for reading [Opts] out of range. *)
Variable opt0 : CBiteOpt.state Aux.

Definition opt_at (d : state) (k : nat) : CBiteOpt.state Aux :=
  nth k (Opts d) opt0.

Definition getBestCost (d : state) : double :=
  CBiteOpt.getBestCost (opt_at d (BestOpt d)).

Definition getBestParams (d : state) : list double :=
  CBiteOpt.getBestParams (opt_at d (BestOpt d)).

(** The constructor: [ParamCount( 0 ), OptCount( 0 ), Opts( NULL )]. *)
Definition construct (u : state) : state :=
  mk 0 0 [] (BestOpt u) (CurOpt u) (PushOpt u) (LastOpt u) (StallCount u).

(** [updateDims( aParamCount, M, PopSize0 )]; the new objects are
    constructed over the indeterminate content [opt0]. *)
Definition updateDims (d : state) (aParamCount M : nat) (PopSize0 : Z)
  : state :=
  if (aParamCount =? ParamCount d)%nat && (M =? OptCount d)%nat then d
  else
    mk aParamCount M
       (replicate M
          (CBiteOpt.updateDims E (CBiteOpt.construct opt0) aParamCount
                               PopSize0))
       (BestOpt d) (CurOpt d) (PushOpt d) (LastOpt d) (StallCount d).

(** The loop [while( true ) { PushOpt = Opts[ rnd.getInt( OptCount )];
    if( PushOpt != CurOpt ) break; }]: it ends when the generator delivers
    another position than [cur]; [None] when [fuel] iterations did not. *)
Fixpoint pick_push (fuel : nat) (n cur : nat) (rnd : CBiteRnd.state)
  : option (nat * CBiteRnd.state) :=
  match fuel with
  | O => None
  | S fuel' =>
      let '(k, rnd1) := CBiteRnd.getInt (Z.of_nat n) rnd in
      if (Z.to_nat k =? cur)%nat then pick_push fuel' n cur rnd1
      else Some (Z.to_nat k, rnd1)
  end.

(** [init( rnd, InitParams, InitRadius )]. *)
Definition init (fuel : nat) (lb ub : list double) (d : state)
  (rnd : CBiteRnd.state) (InitParams : option (list double))
  (InitRadius : double) : option (state * CBiteRnd.state) :=
  let '(opts, rnd1) :=
    fold_left
      (fun (acc : list (CBiteOpt.state Aux) * CBiteRnd.state) o =>
         let '(l, r) := acc in
         let '(o', r') := CBiteOpt.init E lb ub o r InitParams InitRadius in
         (l ++ [o'], r'))
      (take (OptCount d) (Opts d)) ([], rnd) in
  let opts' := opts ++ drop (OptCount d) (Opts d) in
  if (OptCount d =? 1)%nat then
    Some (mk (ParamCount d) (OptCount d) opts' 0 0 0 0 0, rnd1)
  else
    match pick_push fuel (OptCount d) 0 rnd1 with
    | Some (k, rnd2) =>
        Some (mk (ParamCount d) (OptCount d) opts' 0 0 k 0 0, rnd2)
    | None => None
    end.

(** [optimize( rnd )], with the vectors passed to the objective function
    during the call. *)
Definition optimize (fuel : nat) (optcost : list double -> double)
  (rnd : CBiteRnd.state) (d : state)
  : option (Z * state * CBiteRnd.state * list (list double)) :=
  if (OptCount d =? 1)%nat then
    let r := CBiteOpt.optimize E optcost rnd (opt_at d 0) None in
    Some (CBiteOpt.r_stall r,
          mk (ParamCount d) (OptCount d)
             (<[0%nat := CBiteOpt.r_opt r]> (Opts d))
             (BestOpt d) (CurOpt d) (PushOpt d) (LastOpt d)
             (CBiteOpt.r_stall r),
          CBiteOpt.r_rnd r, CBiteOpt.r_evals r)
  else
    let push :=
      if (PushOpt d =? CurOpt d)%nat then None
      else Some (opt_at d (PushOpt d)) in
    let r := CBiteOpt.optimize E optcost rnd (opt_at d (CurOpt d)) push in
    let opts1 :=
      match CBiteOpt.r_push r with
      | Some t => <[PushOpt d := t]> (Opts d)
      | None => Opts d
      end in
    let opts2 := <[CurOpt d := CBiteOpt.r_opt r]> opts1 in
    let best :=
      if Dbl.leb (CBiteOpt.getBestCost (CBiteOpt.r_opt r))
                 (CBiteOpt.getBestCost (nth (BestOpt d) opts2 opt0))
      then CurOpt d else BestOpt d in
    let sc := CBiteOpt.r_stall r in
    if sc =? 0 then
      Some (0,
            mk (ParamCount d) (OptCount d) opts2 best (CurOpt d) (PushOpt d)
               (CurOpt d) 0,
            CBiteOpt.r_rnd r, CBiteOpt.r_evals r)
    else
      let cur := PushOpt d in
      let next :=
        if (OptCount d =? 2)%nat
        then Some (if (cur =? 0)%nat then 1%nat else 0%nat, CBiteOpt.r_rnd r)
        else pick_push fuel (OptCount d) cur (CBiteOpt.r_rnd r) in
      match next with
      | Some (k, rnd1) =>
          Some (StallCount d + 1,
                mk (ParamCount d) (OptCount d) opts2 best cur k (CurOpt d)
                   (StallCount d + 1),
                rnd1, CBiteOpt.r_evals r)
      | None => None
      end.

End WithAux.

Arguments mk {Aux}.
Arguments ParamCount {Aux}.
Arguments OptCount {Aux}.
Arguments Opts {Aux}.
Arguments BestOpt {Aux}.
Arguments CurOpt {Aux}.
Arguments PushOpt {Aux}.
Arguments LastOpt {Aux}.
Arguments StallCount {Aux}.
Arguments opt_at {Aux}.
Arguments getBestCost {Aux}.
Arguments getBestParams {Aux}.
Arguments construct {Aux}.
Arguments updateDims {Aux}.
Arguments pick_push : clear implicits.
Arguments init {Aux}.
Arguments optimize {Aux}.

End CBiteOptDeep.

(** ** The driver: [biteopt_minimize] *)

Module Minimize.

Section WithAux.

Variable Aux : Type.
Variable E : CBiteOpt.externals Aux.
Variable opt0 : CBiteOpt.state Aux.

(** What the function delivers: the returned number of evaluations, [x]
    and [*minf].  [bests] records [opt.getBestCost()] at the end of each
    attempt, for the statements about the function. *)
Record result := mkresult {
  evals : Z;
  x : list double;
  minf : double;
  bests : list double
}.

(** The loop [for( i = 0; i < useiter; i++ )], with [n] iterations left:
    the optimizer, the generator, [i], whether the loop was left by a
    [break] (after [evals++]), and [IsFinished]. *)
Fixpoint iterate (fuel : nat) (f : list double -> double)
  (f_minp : option double) (sct : Z) (n : nat) (i : Z)
  (d : CBiteOptDeep.state Aux) (rnd : CBiteRnd.state)
  : option (CBiteOptDeep.state Aux * CBiteRnd.state * Z * bool * bool) :=
  match n with
  | O => Some (d, rnd, i, false, false)
  | S n' =>
      match CBiteOptDeep.optimize E opt0 fuel f rnd d with
      | None => None
      | Some (sc, d1, rnd1, _) =>
          let reached :=
            match f_minp with
            | Some m => Dbl.leb (CBiteOptDeep.getBestCost opt0 d1) m
            | None => false
            end in
          if reached then Some (d1, rnd1, i, true, true)
          else if (0 <? sct) && (sct <=? sc) then
            Some (d1, rnd1, i, true, false)
          else iterate fuel f f_minp sct n' (i + 1) d1 rnd1
      end
  end.

(** The loop [for( k = 0; k < attc; k++ )], with [n] attempts left;
    [first] is [k == 0]. *)
Fixpoint attempts (fuel : nat) (f : list double -> double)
  (lb ub : list double) (f_minp : option double) (sct : Z) (useiter : nat)
  (n : nat) (first : bool) (d : CBiteOptDeep.state Aux) (rnd : CBiteRnd.state)
  (r : result) : option result :=
  match n with
  | O => Some r
  | S n' =>
      match CBiteOptDeep.init E fuel lb ub d rnd None Dbl.one with
      | None => None
      | Some (d0, rnd0) =>
          match iterate fuel f f_minp sct useiter 0 d0 rnd0 with
          | None => None
          | Some (d1, rnd1, i, broke, IsFinished) =>
              let best := CBiteOptDeep.getBestCost opt0 d1 in
              let ev := evals r + (if broke then 1 else 0) + i in
              let r' :=
                if first || Dbl.leb best (minf r)
                then mkresult ev (CBiteOptDeep.getBestParams opt0 d1) best
                              (bests r ++ [best])
                else mkresult ev (x r) (minf r) (bests r ++ [best]) in
              if IsFinished then Some r'
              else attempts fuel f lb ub f_minp sct useiter n' false d1 rnd1
                            r'
          end
      end
  end.

(** [biteopt_minimize( N, f, data, lb, ub, x, minf, iter, M, attc, stopc,
    rf, rdata, f_minp )]; [x0] and [minf0] are the content of the output
    arguments before the call, [u] and [pool0] the indeterminate content of
    the two local objects. *)
Definition biteopt_minimize (fuel : nat) (u : CBiteOptDeep.state Aux)
  (pool0 : Z) (N : nat) (f : list double -> double) (lb ub : list double)
  (x0 : list double) (minf0 : double) (iter : Z) (M : nat) (attc : nat)
  (stopc : Z) (rf : option (nat -> Z)) (f_minp : option double)
  : option result :=
  let opt :=
    CBiteOptDeep.updateDims E opt0 (CBiteOptDeep.construct u) N M 0 in
  let rnd := CBiteRnd.init 1 rf pool0 in
  let sct := if stopc <=? 0 then 0 else 128 * Z.of_nat N * stopc in
  let useiter :=
    Dbl.to_int (Dbl.mul (Dbl.of_Z iter) (Dbl.sqrt (Dbl.of_Z (Z.of_nat M)))) in
  attempts fuel f lb ub f_minp sct (Z.to_nat useiter) attc true opt rnd
           (mkresult 0 x0 minf0 []).

End WithAux.

Arguments iterate {Aux}.
Arguments attempts {Aux}.
Arguments biteopt_minimize {Aux}.

(** [*minf] is the least of the best costs of the attempts made. *)
Definition is_min (r : result) : Prop :=
  In (minf r) (bests r) /\
  Forall (fun b => Dbl.le (minf r) b) (bests r).

End Minimize.

(** *** Vocabulary for the statements about the optimizers *)

Module OptSpec.

Section WithAux.

Context {Aux : Type} (E : CBiteOpt.externals Aux).
Context (f : list double -> double).

(** What is taken for granted about the solution generators: when
    [generateSolPar] hands over the latest solution of a parallel optimizer,
    its cost is the objective value of the vector handed over with it, with
    NaN replaced as [fixCostNaN] does ([CSpherOpt::optimize] stores
    [fixCostNaN( optcost( NewValues ))]), and the vector was evaluated
    during the call. *)
Definition gen_ok : Prop :=
  forall g rnd s,
    match CBiteOpt.g_last (CBiteOpt.generateSol E g f rnd s) with
    | Some (c, v) =>
        c = CBiteOptBase.fixCostNaN (f v) /\
        In v (CBiteOpt.g_evals (CBiteOpt.generateSol E g f rnd s))
    | None => True
    end.

(** The population of the optimizer itself and its best cost. *)
Definition own (s : CBiteOpt.state Aux) : CBitePop.state :=
  CBiteOptBase.pop (CBiteOpt.base s).

Definition best (s : CBiteOpt.state Aux) : double := CBiteOpt.getBestCost s.

(** The optimizer has evaluated a solution since [init]. *)
Definition evaluated (s : CBiteOpt.state Aux) : Prop :=
  (0 < CBitePop.CurPopPos (own s))%nat.

(** The invariant of an optimizer object: its population is well formed
    and sorted, the best cost is not NaN, the population is full once the
    initial evaluations are over, and the best cost is never better than
    the best record of the population. *)
Definition inv (s : CBiteOpt.state Aux) : Prop :=
  PopSpec.inv (own s) /\
  Dbl.is_nan (best s) = false /\
  (CBiteOptBase.DoInitEvals (CBiteOpt.base s) = false -> PopSpec.full (own s)) /\
  (evaluated s -> Dbl.le (CBitePop.rank_at (own s) 0) (best s)).

(** What happens to an optimizer object of an ensemble: a call of its own
    [optimize], with any [PushOpt]; or a call of [optimize] of a sibling [t]
    that has the object as [PushOpt]. *)
Inductive event (s : CBiteOpt.state Aux) : CBiteOpt.state Aux -> Prop :=
  | ev_own rnd push :
      event s (CBiteOpt.r_opt (CBiteOpt.optimize E f rnd s push))
  | ev_pushed rnd t s' :
      CBiteOpt.r_push (CBiteOpt.optimize E f rnd t (Some s)) = Some s' ->
      event s s'.

Inductive events : CBiteOpt.state Aux -> CBiteOpt.state Aux -> Prop :=
  | evs_nil s : events s s
  | evs_cons s s1 s2 : event s s1 -> events s1 s2 -> events s s2.

(** The invariant of an ensemble: [OptCount] objects that satisfy the
    invariant, and pointers to some of them. *)
Definition deep_inv (d : CBiteOptDeep.state Aux) : Prop :=
  length (CBiteOptDeep.Opts d) = CBiteOptDeep.OptCount d /\
  (0 < CBiteOptDeep.OptCount d)%nat /\
  Z.of_nat (CBiteOptDeep.OptCount d) < 2 ^ 31 /\
  Forall inv (CBiteOptDeep.Opts d) /\
  (CBiteOptDeep.BestOpt d < CBiteOptDeep.OptCount d)%nat /\
  (CBiteOptDeep.CurOpt d < CBiteOptDeep.OptCount d)%nat /\
  (CBiteOptDeep.PushOpt d < CBiteOptDeep.OptCount d)%nat /\
  (CBiteOptDeep.OptCount d = 1%nat -> CBiteOptDeep.BestOpt d = 0%nat).

(** The same with the best costs only: none of them is NaN. *)
Definition nn (s : CBiteOpt.state Aux) : Prop := Dbl.is_nan (best s) = false.

Definition deep_nn (d : CBiteOptDeep.state Aux) : Prop :=
  length (CBiteOptDeep.Opts d) = CBiteOptDeep.OptCount d /\
  (0 < CBiteOptDeep.OptCount d)%nat /\
  Z.of_nat (CBiteOptDeep.OptCount d) < 2 ^ 31 /\
  Forall nn (CBiteOptDeep.Opts d) /\
  (CBiteOptDeep.BestOpt d < CBiteOptDeep.OptCount d)%nat /\
  (CBiteOptDeep.CurOpt d < CBiteOptDeep.OptCount d)%nat /\
  (CBiteOptDeep.PushOpt d < CBiteOptDeep.OptCount d)%nat.

(** The pointers of an ensemble with its [OptCount] objects in place: each
    of them points to an object of [Opts], and with more than one object
    [PushOpt] is another object than [CurOpt]. *)
Definition deep_ptrs (d : CBiteOptDeep.state Aux) : Prop :=
  length (CBiteOptDeep.Opts d) = CBiteOptDeep.OptCount d /\
  (CBiteOptDeep.BestOpt d < CBiteOptDeep.OptCount d)%nat /\
  (CBiteOptDeep.CurOpt d < CBiteOptDeep.OptCount d)%nat /\
  (CBiteOptDeep.PushOpt d < CBiteOptDeep.OptCount d)%nat /\
  (CBiteOptDeep.LastOpt d < CBiteOptDeep.OptCount d)%nat /\
  ((1 < CBiteOptDeep.OptCount d)%nat ->
   CBiteOptDeep.PushOpt d <> CBiteOptDeep.CurOpt d).

(** [BestOpt] points to an object that has evaluated a solution, and no
    object that has evaluated a solution has a lower best cost. *)
Definition deep_least (opt0 : CBiteOpt.state Aux)
  (d : CBiteOptDeep.state Aux) : Prop :=
  evaluated (CBiteOptDeep.opt_at opt0 d (CBiteOptDeep.BestOpt d)) /\
  forall i, (i < CBiteOptDeep.OptCount d)%nat ->
    evaluated (CBiteOptDeep.opt_at opt0 d i) ->
    Dbl.le (CBiteOptDeep.getBestCost opt0 d)
           (best (CBiteOptDeep.opt_at opt0 d i)).

(** The other populations of an optimizer object.  The costs of the
    records of its own population are not NaN and its size in use is not
    above [PopSize]; the two populations of older solutions are sorted;
    there are [ParPopCount] parallel populations, which are sorted once the
    initial evaluations are over; before that each of them is well formed
    or of another size than the population, so that [copy] sets it up. *)
Definition pops_inv (s : CBiteOpt.state Aux) : Prop :=
  PopSpec.clean (own s) /\
  PopSpec.sized (own s) /\
  PopSpec.inv (CBiteOpt.OldPops0 s) /\
  PopSpec.inv (CBiteOpt.OldPops1 s) /\
  length (CBiteParPops.ParPops (CBiteOptBase.par (CBiteOpt.base s))) =
    CBiteParPops.ParPopCount (CBiteOptBase.par (CBiteOpt.base s)) /\
  Forall (fun d =>
            if CBiteOptBase.DoInitEvals (CBiteOpt.base s)
            then PopSpec.wf d \/
                 CBitePop.PopSize d <> CBitePop.PopSize (own s)
            else PopSpec.inv d)
         (CBiteParPops.ParPops (CBiteOptBase.par (CBiteOpt.base s))).

End WithAux.

End OptSpec.

(** An optimizer object after the constructor, [updateDims] for a
    population of [P] solutions and [init], with the generator of random
    numbers as [init] leaves it. *)
Definition new_opt {Aux} (E : CBiteOpt.externals Aux) (u : CBiteOpt.state Aux)
  (n P : nat) (lb ub : list double) (rnd : CBiteRnd.state)
  (ip : option (list double)) (ir : double)
  : CBiteOpt.state Aux * CBiteRnd.state :=
  CBiteOpt.init E lb ub
    (CBiteOpt.updateDims E (CBiteOpt.construct u) n (Z.of_nat P)) rnd ip ir.

(** Concrete data for the examples of the optimizer: no parallel optimizers
    ([Aux] is [unit]), constant libm functions, a Gaussian sampler that
    returns the mean, zeroed memory, and generators that leave [TmpParams]
    as it is. *)
Definition ex_gen (g : CBiteOpt.generator) (f : list double -> double)
  (rnd : CBiteRnd.state) (s : CBiteOpt.state unit) : CBiteOpt.GenOut unit :=
  CBiteOpt.mkGenOut
    (CBitePop.tmp (CBiteOptBase.pop (CBiteOpt.base s)))
    (CBiteOptBase.Sels (CBiteOpt.base s))
    (CBiteOptBase.ApplySels (CBiteOpt.base s)) rnd tt None [].

Definition ex_ext : CBiteOpt.externals unit :=
  CBiteOpt.mkExt ex_cos (fun v _ => v) (fun _ => Dbl.zero)
    (fun r _ m => (m, r)) [] (fun _ => CBitePop.item0) [] (fun _ => []) [] []
    ex_gen (fun a _ _ => a) (fun _ _ r a _ _ => (a, r)).

Definition ex_base0 : CBiteOptBase.state :=
  CBiteOptBase.mk ex_blank (CBiteParPops.mk [] 0 []) [] [] [] [] [] false
    Dbl.zero [] Dbl.zero Dbl.zero [] CBiteOptBase.LastNew false 0 Dbl.zero
    Dbl.zero [] [].

Definition ex_opt0 : CBiteOpt.state unit :=
  CBiteOpt.mk ex_base0 ex_blank ex_blank false tt.

(** An optimizer of one parameter in [[-1, 1]] with a population of two,
    after [init], with the generator of random numbers. *)
Definition ex_rnd : CBiteRnd.state := CBiteRnd.init 1 None 0.

Definition ex_opt : CBiteOpt.state unit * CBiteRnd.state :=
  CBiteOpt.init ex_ext [Dbl.of_Z (-1)] [Dbl.of_Z 1]
    (CBiteOpt.updateDims ex_ext (CBiteOpt.construct ex_opt0) 1 2)
    ex_rnd None Dbl.one.

(** [n] calls of [optimize] in a row, without [PushOpt]: the optimizer,
    the generator of random numbers, the returned stall counts and the
    vectors passed to the objective function. *)
Fixpoint run {Aux} (E : CBiteOpt.externals Aux) (f : list double -> double)
  (n : nat) (s : CBiteOpt.state Aux) (rnd : CBiteRnd.state)
  (stalls : list Z) (log : list (list double))
  : CBiteOpt.state Aux * CBiteRnd.state * list Z * list (list double) :=
  match n with
  | O => (s, rnd, stalls, log)
  | S n' =>
      let r := CBiteOpt.optimize E f rnd s None in
      run E f n' (CBiteOpt.r_opt r) (CBiteOpt.r_rnd r)
          (stalls ++ [CBiteOpt.r_stall r]) (log ++ CBiteOpt.r_evals r)
  end.

(** [n] calls of [optimize] of the ensemble in a row. *)
Fixpoint run_deep {Aux} (E : CBiteOpt.externals Aux)
  (opt0 : CBiteOpt.state Aux) (fuel : nat) (f : list double -> double)
  (n : nat) (d : CBiteOptDeep.state Aux) (rnd : CBiteRnd.state)
  (stalls : list Z) (log : list (list double))
  : option (CBiteOptDeep.state Aux * CBiteRnd.state * list Z *
            list (list double)) :=
  match n with
  | O => Some (d, rnd, stalls, log)
  | S n' =>
      match CBiteOptDeep.optimize E opt0 fuel f rnd d with
      | None => None
      | Some (sc, d1, rnd1, ev) =>
          run_deep E opt0 fuel f n' d1 rnd1 (stalls ++ [sc]) (log ++ ev)
      end
  end.

(** An ensemble after the constructor, [updateDims] for [M] objects with
    populations of [P] solutions, and [init]. *)
Definition new_deep {Aux} (E : CBiteOpt.externals Aux)
  (opt0 : CBiteOpt.state Aux) (fuel : nat) (u : CBiteOptDeep.state Aux)
  (N M P : nat) (lb ub : list double) (rnd : CBiteRnd.state)
  (ip : option (list double)) (ir : double)
  : option (CBiteOptDeep.state Aux * CBiteRnd.state) :=
  CBiteOptDeep.init E fuel lb ub
    (CBiteOptDeep.updateDims E opt0 (CBiteOptDeep.construct u) N M
                             (Z.of_nat P))
    rnd ip ir.

(** An ensemble of depth one around the example optimizer. *)
Definition ex_deep : CBiteOptDeep.state unit :=
  CBiteOptDeep.mk 1 1 [fst ex_opt] 0 0 0 0 0.

(** Two objects in place, before [init]; the pointers are zeroed memory. *)
Definition ex_deep2 : CBiteOptDeep.state unit :=
  CBiteOptDeep.mk 1 2 [ex_opt0; ex_opt0] 0 0 0 0 0.

(** A base object with one parameter whose [TmpParams] holds a value below
    the normalized range. *)
Definition ex_base_tmp : CBiteOptBase.state :=
  CBiteOptBase.with_pop ex_base0 (CBitePop.set_tmp (ex_pop 1 1 []) [-5]).

(* ===================================================================== *)
(** * Part II: lemmas and theorems                                         *)
(* ===================================================================== *)

(** ** The order of the doubles *)

Lemma SFcompare_key a b :
  Dbl.is_nan a = false -> Dbl.is_nan b = false ->
  SFcompare a b = Some (Dbl.lexcmp (Dbl.key a) (Dbl.key b)).
Proof.
  destruct a as [sa|sa| |sa ma ea], b as [sb|sb| |sb mb eb];
    try discriminate; intros _ _;
    try (destruct sa); try (destruct sb); try reflexivity.
  cbn [SFcompare Dbl.key Dbl.lexcmp]. change (-1 ?= -1) with Eq. cbv iota.
  rewrite Z.compare_opp, (Z.compare_antisym ea eb).
  destruct (ea ?= eb); reflexivity.
Qed.

Lemma lexcmp_spec a b :
  match Dbl.lexcmp a b with
  | Lt => Dbl.lexlt a b
  | Eq => a = b
  | Gt => Dbl.lexlt b a
  end.
Proof.
  destruct a as [[a1 a2] a3], b as [[b1 b2] b3]. unfold Dbl.lexcmp, Dbl.lexlt.
  destruct (Z.compare_spec a1 b1); [|lia..].
  destruct (Z.compare_spec a2 b2); [|lia..].
  destruct (Z.compare_spec a3 b3); [congruence|lia..].
Qed.

Lemma leb_key a b :
  Dbl.is_nan a = false -> Dbl.is_nan b = false ->
  Dbl.leb a b = true <-> Dbl.lexle (Dbl.key a) (Dbl.key b).
Proof.
  intros Ha Hb. unfold Dbl.leb, SFleb. rewrite SFcompare_key by assumption.
  pose proof (lexcmp_spec (Dbl.key a) (Dbl.key b)) as H.
  destruct (Dbl.key a) as [[a1 a2] a3], (Dbl.key b) as [[b1 b2] b3].
  unfold Dbl.lexle, Dbl.lexlt in *.
  destruct (Dbl.lexcmp _ _); split; intros; try discriminate;
    try reflexivity; try lia.
  inversion H; lia.
Qed.

Lemma ltb_key a b :
  Dbl.is_nan a = false -> Dbl.is_nan b = false ->
  Dbl.ltb a b = true <-> Dbl.lexlt (Dbl.key a) (Dbl.key b).
Proof.
  intros Ha Hb. unfold Dbl.ltb, SFltb. rewrite SFcompare_key by assumption.
  pose proof (lexcmp_spec (Dbl.key a) (Dbl.key b)) as H.
  destruct (Dbl.key a) as [[a1 a2] a3], (Dbl.key b) as [[b1 b2] b3].
  unfold Dbl.lexle, Dbl.lexlt in *.
  destruct (Dbl.lexcmp _ _); split; intros; try discriminate;
    try reflexivity; try lia.
  inversion H; lia.
Qed.

Lemma le_refl a : Dbl.is_nan a = false -> Dbl.le a a.
Proof.
  intros Ha. apply leb_key; try assumption.
  destruct (Dbl.key a) as [[a1 a2] a3]. unfold Dbl.lexle. lia.
Qed.

Lemma le_trans a b c :
  Dbl.is_nan a = false -> Dbl.is_nan b = false -> Dbl.is_nan c = false ->
  Dbl.le a b -> Dbl.le b c -> Dbl.le a c.
Proof.
  unfold Dbl.le. intros Ha Hb Hc. rewrite !leb_key by assumption.
  destruct (Dbl.key a) as [[a1 a2] a3], (Dbl.key b) as [[b1 b2] b3],
           (Dbl.key c) as [[c1 c2] c3].
  unfold Dbl.lexle. lia.
Qed.

(** [!( a > b )] is [a <= b] when neither is NaN. *)
Lemma gtb_false_le a b :
  Dbl.is_nan a = false -> Dbl.is_nan b = false ->
  Dbl.gtb a b = false <-> Dbl.le a b.
Proof.
  intros Ha Hb. unfold Dbl.le, Dbl.gtb. rewrite leb_key by assumption.
  rewrite <- not_true_iff_false. fold (Dbl.ltb b a).
  rewrite ltb_key by assumption.
  destruct (Dbl.key a) as [[a1 a2] a3], (Dbl.key b) as [[b1 b2] b3].
  unfold Dbl.lexle, Dbl.lexlt. lia.
Qed.

(** [!( a >= b )] is [a < b] when neither is NaN. *)
Lemma geb_false_lt a b :
  Dbl.is_nan a = false -> Dbl.is_nan b = false ->
  Dbl.geb a b = false <-> Dbl.lt a b.
Proof.
  intros Ha Hb. unfold Dbl.lt, Dbl.geb. rewrite ltb_key by assumption.
  rewrite <- not_true_iff_false. fold (Dbl.leb b a).
  rewrite leb_key by assumption.
  destruct (Dbl.key a) as [[a1 a2] a3], (Dbl.key b) as [[b1 b2] b3].
  unfold Dbl.lexle, Dbl.lexlt. lia.
Qed.

Lemma lt_le a b :
  Dbl.is_nan a = false -> Dbl.is_nan b = false -> Dbl.lt a b -> Dbl.le a b.
Proof.
  unfold Dbl.lt, Dbl.le. intros Ha Hb.
  rewrite ltb_key, leb_key by assumption.
  destruct (Dbl.key a) as [[a1 a2] a3], (Dbl.key b) as [[b1 b2] b3].
  unfold Dbl.lexle, Dbl.lexlt. lia.
Qed.

Lemma lt_le_trans a b c :
  Dbl.is_nan a = false -> Dbl.is_nan b = false -> Dbl.is_nan c = false ->
  Dbl.lt a b -> Dbl.le b c -> Dbl.lt a c.
Proof.
  unfold Dbl.le, Dbl.lt. intros Ha Hb Hc.
  rewrite !ltb_key, leb_key by assumption.
  destruct (Dbl.key a) as [[a1 a2] a3], (Dbl.key b) as [[b1 b2] b3],
           (Dbl.key c) as [[c1 c2] c3].
  unfold Dbl.lexle, Dbl.lexlt. lia.
Qed.

Lemma le_lt_trans a b c :
  Dbl.is_nan a = false -> Dbl.is_nan b = false -> Dbl.is_nan c = false ->
  Dbl.le a b -> Dbl.lt b c -> Dbl.lt a c.
Proof.
  unfold Dbl.le, Dbl.lt. intros Ha Hb Hc.
  rewrite !ltb_key, leb_key by assumption.
  destruct (Dbl.key a) as [[a1 a2] a3], (Dbl.key b) as [[b1 b2] b3],
           (Dbl.key c) as [[c1 c2] c3].
  unfold Dbl.lexle, Dbl.lexlt. lia.
Qed.

Lemma lt_not_le a b :
  Dbl.is_nan a = false -> Dbl.is_nan b = false -> Dbl.lt a b -> ~ Dbl.le b a.
Proof.
  unfold Dbl.le, Dbl.lt. intros Ha Hb.
  rewrite !ltb_key, leb_key by assumption.
  destruct (Dbl.key a) as [[a1 a2] a3], (Dbl.key b) as [[b1 b2] b3].
  unfold Dbl.lexle, Dbl.lexlt. lia.
Qed.

(** ** The rounding of the doubles *)


Lemma iter_pos_nat {A} (f : A -> A) p : forall x,
  SpecFloat.iter_pos f p x = Nat.iter (Pos.to_nat p) f x.
Proof.
  induction p as [p IH|p IH|]; intros x; cbn [SpecFloat.iter_pos].
  - rewrite !IH, Pos2Nat.inj_xI.
    replace (S (2 * Pos.to_nat p))%nat
      with (S (Pos.to_nat p + Pos.to_nat p))%nat by lia.
    by rewrite Nat.iter_succ_r, Nat.iter_add.
  - rewrite !IH, Pos2Nat.inj_xO.
    replace (2 * Pos.to_nat p)%nat with (Pos.to_nat p + Pos.to_nat p)%nat by lia.
    by rewrite Nat.iter_add.
  - reflexivity.
Qed.

Lemma shr_1_m mrs : 0 <= shr_m mrs -> shr_m (shr_1 mrs) = shr_m mrs / 2.
Proof.
  destruct mrs as [m r s]. cbn [shr_m]. intros Hm. unfold shr_1.
  destruct m as [|[p|p|]|p]; cbn [shr_m]; try lia;
    rewrite <- Z.div2_div; reflexivity.
Qed.

Lemma shr_n_m n : forall mrs, 0 <= shr_m mrs ->
  shr_m (Nat.iter n shr_1 mrs) = shr_m mrs / 2 ^ Z.of_nat n.
Proof.
  induction n as [|n IH]; intros mrs Hm.
  - cbn. by rewrite Z.div_1_r.
  - rewrite Nat.iter_succ_r, IH by (rewrite shr_1_m by assumption; apply Z.div_pos; lia).
    rewrite shr_1_m by assumption.
    rewrite Nat2Z.inj_succ, Z.pow_succ_r by lia.
    rewrite Z.div_div by lia. reflexivity.
Qed.

Lemma shr_n_exact n : forall m, 0 <= m -> m mod 2 ^ Z.of_nat n = 0 ->
  Nat.iter n shr_1 (Build_shr_record m false false) =
  Build_shr_record (m / 2 ^ Z.of_nat n) false false.
Proof.
  induction n as [|n IH]; intros m Hm Hmod.
  - cbn. by rewrite Z.div_1_r.
  - rewrite Nat2Z.inj_succ, Z.pow_succ_r in * by lia.
    assert (Hm2 : m mod 2 = 0).
    { apply Z.mod_divide in Hmod; [|lia]. apply Z.mod_divide; [lia|].
      destruct Hmod as [q ->]. exists (q * 2 ^ Z.of_nat n). lia. }
    assert (Hs : shr_1 (Build_shr_record m false false) =
                 Build_shr_record (m / 2) false false).
    { unfold shr_1. rewrite <- Z.div2_div.
      destruct m as [|[p|p|]|p]; try lia; try reflexivity.
      - rewrite Pos2Z.inj_xI in Hm2.
        rewrite Z.add_comm, Z.mul_comm, Z.mod_add in Hm2 by lia. discriminate.
      - discriminate. }
    rewrite Nat.iter_succ_r, Hs, IH.
    + f_equal. rewrite Z.div_div by lia. reflexivity.
    + apply Z.div_pos; lia.
    + apply Z.mod_divide in Hmod; [|lia]. apply Z.mod_divide; [lia|].
      destruct Hmod as [q ->]. exists q.
      replace (q * (2 * 2 ^ Z.of_nat n)) with (q * 2 ^ Z.of_nat n * 2) by lia.
      by rewrite Z.div_mul by lia.
Qed.

Lemma digits2_bounds m :
  2 ^ (Z.pos (digits2_pos m) - 1) <= Z.pos m < 2 ^ Z.pos (digits2_pos m).
Proof.
  induction m as [p IH|p IH|]; cbn [digits2_pos].
  - rewrite Pos2Z.inj_succ. change (Z.pos p~1) with (2 * Z.pos p + 1).
    replace (Z.succ (Z.pos (digits2_pos p)) - 1)
      with (Z.succ (Z.pos (digits2_pos p) - 1)) by lia.
    rewrite !Z.pow_succ_r by lia. lia.
  - rewrite Pos2Z.inj_succ. change (Z.pos p~0) with (2 * Z.pos p).
    replace (Z.succ (Z.pos (digits2_pos p)) - 1)
      with (Z.succ (Z.pos (digits2_pos p) - 1)) by lia.
    rewrite !Z.pow_succ_r by lia. lia.
  - cbn. lia.
Qed.

Lemma shr_exact_spec m e n :
  0 <= m ->
  let r := shr (Build_shr_record m false false) e n in
  (n <= 0 -> r = (Build_shr_record m false false, e)) /\
  (0 < n -> shr_m (fst r) = m / 2 ^ n /\ snd r = e + n /\
            (m mod 2 ^ n = 0 ->
             fst r = Build_shr_record (m / 2 ^ n) false false)).
Proof.
  intros Hm. unfold shr. destruct n as [|p|p]; cbn zeta.
  - split; [reflexivity|lia].
  - split; [lia|]. intros _. cbn [fst snd].
    rewrite iter_pos_nat, shr_n_m by assumption. cbn [shr_m].
    rewrite positive_nat_Z. repeat split.
    intros Hmod. rewrite shr_n_exact by (rewrite ?positive_nat_Z; assumption).
    by rewrite positive_nat_Z.
  - split; [reflexivity|lia].
Qed.

Lemma rne_bounds m l :
  m <= round_nearest_even m l <= m + 1.
Proof. unfold round_nearest_even. repeat case_match; lia. Qed.

(** The magnitude of the rounding of [m * 2^ex] does not exceed a bound
    [b * 2^c] that has at most 53 significant bits. *)
Lemma bra_bnd s m ex b c :
  0 < b < 2 ^ 53 -> -1074 <= c <= 971 -> ex <= c ->
  Z.pos m <= b * 2 ^ (c - ex) ->
  match binary_round_aux 53 1024 s (Z.pos m) ex loc_Exact with
  | S754_zero s' => s' = s
  | S754_finite s' m' e' => s' = s /\ e' <= c /\ Z.pos m' <= b * 2 ^ (c - e')
  | _ => False
  end.
Proof.
  intros Hb Hc Hex Hm.
  (* the grid exponent of a bounded mantissa is at most [c] *)
  assert (Hgrid : forall m0 e0, 0 < m0 -> e0 <= c -> m0 <= b * 2 ^ (c - e0) ->
            fexp 53 1024 (Zdigits2 m0 + e0) <= c).
  { intros m0 e0 Hm0 He0 Hle. unfold fexp, emin.
    destruct m0 as [|p|p]; try lia. cbn [Zdigits2].
    pose proof (digits2_bounds p) as [Hd _].
    assert (2 ^ (Z.pos (digits2_pos p) - 1) < 2 ^ (53 + (c - e0))).
    { rewrite Z.pow_add_r by lia. nia. }
    apply Z.pow_lt_mono_r_iff in H; lia. }
  unfold binary_round_aux, shr_fexp. cbn [shr_record_of_loc].
  set (n1 := fexp 53 1024 (Zdigits2 (Z.pos m) + ex) - ex).
  pose proof (Hgrid (Z.pos m) ex ltac:(lia) Hex Hm) as Hg1.
  pose proof (shr_exact_spec (Z.pos m) ex n1 ltac:(lia)) as [S1 S2].
  destruct (shr (Build_shr_record (Z.pos m) false false) ex n1) as [mrs1 e1].
  cbn [fst snd] in S1, S2.
  set (m2 := round_nearest_even (shr_m mrs1) (loc_of_shr_record mrs1)).
  assert (H2 : 0 <= m2 /\ ex <= e1 /\ e1 <= c /\ m2 <= b * 2 ^ (c - e1)).
  { destruct (Z.le_gt_cases n1 0) as [Hn|Hn].
    - specialize (S1 Hn). inversion S1; subst. subst m2. cbn. lia.
    - destruct (S2 Hn) as (Esm & Ee & Hexact). subst e1.
      assert (Hpow : 2 ^ (c - ex) = 2 ^ (c - (ex + n1)) * 2 ^ n1).
      { rewrite <- Z.pow_add_r by lia. f_equal. lia. }
      assert (Hq : Z.pos m / 2 ^ n1 <= b * 2 ^ (c - (ex + n1))).
      { apply Z.div_le_upper_bound; [lia|]. rewrite Hpow in Hm. lia. }
      pose proof (rne_bounds (shr_m mrs1) (loc_of_shr_record mrs1)) as Hr.
      fold m2 in Hr. rewrite Esm in Hr.
      assert (0 <= Z.pos m / 2 ^ n1) by (apply Z.div_pos; lia).
      repeat split; try lia.
      destruct (Z.eq_dec (Z.pos m / 2 ^ n1) (b * 2 ^ (c - (ex + n1))))
        as [E|NE]; [|lia].
      (* the quotient meets the bound: the division is exact *)
      assert (Hmod : Z.pos m mod 2 ^ n1 = 0).
      { pose proof (Z.div_mod (Z.pos m) (2 ^ n1) ltac:(lia)).
        pose proof (Z.mod_pos_bound (Z.pos m) (2 ^ n1) ltac:(lia)).
        rewrite Hpow in Hm. nia. }
      specialize (Hexact Hmod). subst m2. rewrite Hexact. cbn. lia. }
  destruct H2 as (H20 & H2e & H2c & H2m).
  clearbody m2. clear S1 S2.
  change (shr_record_of_loc m2 loc_Exact) with (Build_shr_record m2 false false).
  set (n2 := fexp 53 1024 (Zdigits2 m2 + e1) - e1).
  pose proof (shr_exact_spec m2 e1 n2 H20) as [T1 T2].
  destruct (shr (Build_shr_record m2 false false) e1 n2) as [mrs3 e3].
  cbn [fst snd] in T1, T2.
  assert (H3 : 0 <= shr_m mrs3 /\ (0 < shr_m mrs3 -> e3 <= c /\
               shr_m mrs3 <= b * 2 ^ (c - e3))).
  { destruct (Z.le_gt_cases n2 0) as [Hn|Hn].
    - specialize (T1 Hn). inversion T1; subst. cbn. lia.
    - destruct (T2 Hn) as (Esm & Ee & _). subst e3. rewrite Esm.
      split; [apply Z.div_pos; lia|]. intros Hpos.
      assert (Hm2 : 0 < m2).
      { destruct (Z.eq_dec m2 0) as [->|]; [|lia].
        rewrite Z.div_0_l in Hpos; lia. }
      pose proof (Hgrid m2 e1 Hm2 H2c H2m) as Hg2. fold n2 in Hg2.
      assert (e1 + n2 <= c) by (subst n2; lia).
      split; [assumption|].
      assert (Hpow : 2 ^ (c - e1) = 2 ^ (c - (e1 + n2)) * 2 ^ n2).
      { rewrite <- Z.pow_add_r by lia. f_equal. lia. }
      apply Z.div_le_upper_bound; [lia|]. rewrite Hpow in H2m. lia. }
  destruct H3 as [H30 H3].
  destruct (shr_m mrs3) as [|p|p]; try lia; [reflexivity|].
  destruct (H3 ltac:(lia)) as [H3c H3m].
  destruct (Z.leb_spec e3 (1024 - 53)); [auto|lia].
Qed.

Lemma bra_bnd' s m ex b c :
  0 < b < 2 ^ 53 -> -1074 <= c <= 971 -> ex <= c ->
  Z.pos m <= b * 2 ^ (c - ex) ->
  Dbl.bnd (binary_round_aux 53 1024 s (Z.pos m) ex loc_Exact) s b c.
Proof.
  intros. pose proof (bra_bnd s m ex b c) as H'.
  unfold Dbl.bnd. destruct (binary_round_aux _ _ _ _ _ _); auto.
Qed.

Lemma pos_iter_xO m d : Z.pos (Pos.iter xO m d) = Z.pos m * 2 ^ Z.pos d.
Proof.
  induction d as [|d IH] using Pos.peano_ind.
  - cbn. lia.
  - rewrite Pos.iter_succ, Pos2Z.inj_succ, Z.pow_succ_r by lia.
    change (Z.pos (Pos.iter xO m d)~0) with (2 * Z.pos (Pos.iter xO m d)).
    rewrite IH. lia.
Qed.

Lemma shl_align_spec m e e' :
  let r := shl_align m e e' in
  snd r <= e /\ Z.pos (fst r) = Z.pos m * 2 ^ (e - snd r) /\
  (e' <= e -> snd r = e').
Proof.
  unfold shl_align. destruct (e' - e) as [|p|p] eqn:E; cbn [fst snd].
  - rewrite Z.sub_diag. cbn. lia.
  - rewrite Z.sub_diag. cbn. lia.
  - rewrite pos_iter_xO. replace (e - e') with (Z.pos p) by lia. lia.
Qed.

Lemma bround_bnd s m ex b c :
  0 < b < 2 ^ 53 -> -1074 <= c <= 971 -> ex <= c ->
  Z.pos m <= b * 2 ^ (c - ex) ->
  Dbl.bnd (binary_round 53 1024 s m ex) s b c.
Proof.
  intros Hb Hc Hex Hm. unfold binary_round.
  pose proof (shl_align_spec m ex (fexp 53 1024 (Z.pos (digits2_pos m) + ex)))
    as (H1 & H2 & _).
  destruct (shl_align _ _ _) as [mz ez]. cbn [fst snd] in *.
  apply bra_bnd'; try assumption; try lia.
  rewrite H2.
  replace (c - ez) with ((c - ex) + (ex - ez)) by lia.
  rewrite Z.pow_add_r by lia.
  assert (0 < 2 ^ (ex - ez)) by (apply Z.pow_pos_nonneg; lia). nia.
Qed.

(** The conversion of an integer of magnitude at most [b * 2^c]. *)
Lemma of_Z_bnd z b c :
  0 < b < 2 ^ 53 -> 0 <= c <= 971 -> Z.abs z <= b * 2 ^ c ->
  Dbl.bnd (Dbl.of_Z z) (z <? 0) b c.
Proof.
  intros Hb Hc Hz. unfold Dbl.of_Z, binary_normalize.
  destruct z as [|p|p]; [exact I| |].
  - apply bround_bnd; try lia. rewrite Z.sub_0_r. lia.
  - apply bround_bnd; try lia. rewrite Z.sub_0_r. lia.
Qed.

(** The product of two bounded doubles. *)
Lemma mul_bnd x y sx sy b1 c1 b2 c2 :
  Dbl.bnd x sx b1 c1 -> Dbl.bnd y sy b2 c2 ->
  0 < b1 -> 0 < b2 -> b1 * b2 < 2 ^ 53 -> -1074 <= c1 + c2 <= 971 ->
  Dbl.bnd (Dbl.mul x y) (xorb sx sy) (b1 * b2) (c1 + c2).
Proof.
  intros Hx Hy H1 H2 Hb Hc.
  destruct x as [s1|s1| |s1 m1 e1], y as [s2|s2| |s2 m2 e2];
    try contradiction; try exact I.
  destruct Hx as (-> & Hxe & Hxm), Hy as (-> & Hye & Hym).
  unfold Dbl.mul, SFmul. apply bra_bnd'; try lia.
  rewrite Pos2Z.inj_mul.
  replace (c1 + c2 - (e1 + e2)) with ((c1 - e1) + (c2 - e2)) by lia.
  rewrite Z.pow_add_r by lia.
  assert (0 < 2 ^ (c1 - e1)) by (apply Z.pow_pos_nonneg; lia).
  assert (0 < 2 ^ (c2 - e2)) by (apply Z.pow_pos_nonneg; lia).
  nia.
Qed.

(** The integral part of a bounded double. *)
Lemma trunc_bnd x s b c :
  Dbl.bnd x s b c -> 0 <= c -> 0 < b ->
  exists z, Dbl.trunc x = Some z /\ Z.abs z <= b * 2 ^ c /\
            (s = false -> 0 <= z) /\ (s = true -> z <= 0).
Proof.
  intros Hx Hc Hb. destruct x as [s1|s1| |s1 m e]; try contradiction.
  { exists 0. assert (0 <= 2 ^ c) by (apply Z.pow_nonneg; lia).
    cbn [Dbl.trunc]. repeat split; try lia; nia. }
  destruct Hx as (-> & He & Hm). cbn [Dbl.trunc].
  set (q := if 0 <=? e then Z.pos m * 2 ^ e else Z.pos m / 2 ^ (- e)).
  assert (Hq : 0 <= q <= b * 2 ^ c).
  { subst q. destruct (Z.leb_spec 0 e).
    - assert (Hpow : 2 ^ c = 2 ^ (c - e) * 2 ^ e)
        by (rewrite <- Z.pow_add_r by lia; f_equal; lia).
      assert (0 < 2 ^ e) by (apply Z.pow_pos_nonneg; lia).
      rewrite Hpow. nia.
    - assert (Hpow : 2 ^ (c - e) = 2 ^ c * 2 ^ (- e))
        by (rewrite <- Z.pow_add_r by lia; f_equal; lia).
      assert (0 < 2 ^ (- e)) by (apply Z.pow_pos_nonneg; lia).
      split; [apply Z.div_pos; lia|].
      apply Z.div_le_upper_bound; [lia|]. rewrite Hpow in Hm. lia. }
  exists (if s then - q else q). split; [reflexivity|].
  destruct s; repeat split; try lia; discriminate.
Qed.

Lemma to_int64_bnd x s b c :
  Dbl.bnd x s b c -> 0 <= c -> 0 < b -> b * 2 ^ c < 2 ^ 63 ->
  Z.abs (Dbl.to_int64 x) <= b * 2 ^ c /\
  (s = false -> 0 <= Dbl.to_int64 x) /\ (s = true -> Dbl.to_int64 x <= 0).
Proof.
  intros Hx Hc Hb Hr.
  destruct (trunc_bnd x s b c Hx Hc Hb) as (z & Ez & Hz & Hs1 & Hs2).
  unfold Dbl.to_int64. rewrite Ez.
  destruct (Z.leb_spec (- 2 ^ 63) z), (Z.ltb_spec z (2 ^ 63)); cbn; try lia.
  auto.
Qed.

Lemma to_int_bnd x s b c :
  Dbl.bnd x s b c -> 0 <= c -> 0 < b -> b * 2 ^ c < 2 ^ 31 ->
  Z.abs (Dbl.to_int x) <= b * 2 ^ c /\
  (s = false -> 0 <= Dbl.to_int x) /\ (s = true -> Dbl.to_int x <= 0).
Proof.
  intros Hx Hc Hb Hr.
  destruct (trunc_bnd x s b c Hx Hc Hb) as (z & Ez & Hz & Hs1 & Hs2).
  unfold Dbl.to_int. rewrite Ez.
  destruct (Z.leb_spec (- 2 ^ 31) z), (Z.ltb_spec z (2 ^ 31)); cbn; try lia.
  auto.
Qed.

(** ** The random number generator *)

Lemma log2_lt_bound x n : 0 < n -> 0 <= x < 2 ^ n -> Z.log2 x < n.
Proof.
  intros Hn Hx. destruct (Z.eq_dec x 0) as [->|]; [cbn; lia|].
  apply Z.log2_lt_pow2; lia.
Qed.

Lemma lor_bound a b n :
  0 <= n -> 0 <= a < 2 ^ n -> 0 <= b < 2 ^ n -> 0 <= Z.lor a b < 2 ^ n.
Proof.
  intros Hn Ha Hb. assert (H0 : 0 <= Z.lor a b) by (apply Z.lor_nonneg; lia).
  split; [assumption|].
  destruct (Z.eq_dec (Z.lor a b) 0) as [->|Hne]; [lia|].
  assert (0 < n).
  { destruct (Z.eq_dec n 0) as [->|]; [|lia].
    change (2 ^ 0) with 1 in Ha, Hb.
    assert (a = 0) by lia. assert (b = 0) by lia. subst. by cbn in Hne. }
  apply Z.log2_lt_pow2; [lia|]. rewrite Z.log2_lor by lia.
  apply Z.max_lub_lt; apply log2_lt_bound; lia.
Qed.

Lemma lxor_bound a b n :
  0 <= n -> 0 <= a < 2 ^ n -> 0 <= b < 2 ^ n -> 0 <= Z.lxor a b < 2 ^ n.
Proof.
  intros Hn Ha Hb. assert (H0 : 0 <= Z.lxor a b) by (apply Z.lxor_nonneg; lia).
  split; [assumption|].
  destruct (Z.eq_dec (Z.lxor a b) 0) as [->|Hne]; [lia|].
  assert (0 < n).
  { destruct (Z.eq_dec n 0) as [->|]; [|lia].
    change (2 ^ 0) with 1 in Ha, Hb.
    assert (a = 0) by lia. assert (b = 0) by lia. subst. by cbn in Hne. }
  apply Z.log2_lt_pow2; [lia|].
  eapply Z.le_lt_trans; [apply Z.log2_lxor; lia|].
  apply Z.max_lub_lt; apply log2_lt_bound; lia.
Qed.

Lemma u64_range z : 0 <= u64 z < 2 ^ 64.
Proof. unfold u64. apply Z.mod_pos_bound. lia. Qed.

Lemma u32_range z : 0 <= u32 z < 2 ^ 32.
Proof. unfold u32. apply Z.mod_pos_bound. lia. Qed.

(** [advance()] returns a 64-bit value, whatever the generator in use. *)
Lemma advance_range r : 0 <= fst (CBiteRnd.advance r) < 2 ^ 64.
Proof.
  unfold CBiteRnd.advance. destruct (CBiteRnd.rf r) as [g|]; cbn [fst].
  - apply lor_bound; [lia| |].
    + pose proof (u32_range (g (CBiteRnd.rcalls r))). lia.
    + pose proof (u32_range (g (S (CBiteRnd.rcalls r)))) as H.
      rewrite Z.shiftl_mul_pow2 by lia. lia.
  - apply lxor_bound; [lia|apply u64_range|].
    apply lor_bound; [lia| |apply u64_range].
    pose proof (u64_range (CBiteRnd.Seed r * u64 (CBiteRnd.lcg r * 2 + 1))) as H.
    rewrite Z.shiftr_div_pow2 by lia. split.
    + apply Z.div_pos; lia.
    + apply Z.div_lt_upper_bound; lia.
Qed.

(** [get()] is a double in [[0; 1]]. *)
Lemma get_bnd r : Dbl.bnd (fst (CBiteRnd.get r)) false 1 0.
Proof.
  unfold CBiteRnd.get. pose proof (advance_range r) as Ha.
  destruct (CBiteRnd.advance r) as [a r1]. cbn [fst] in *.
  set (k := Z.shiftr a (64 - 53)).
  assert (Hk : 0 <= k < 2 ^ 53).
  { subst k. rewrite Z.shiftr_div_pow2 by lia. split.
    - apply Z.div_pos; lia.
    - apply Z.div_lt_upper_bound; lia. }
  pose proof (of_Z_bnd k 1 53 ltac:(lia) ltac:(lia) ltac:(lia)) as Hb.
  replace (k <? 0) with false in Hb by (symmetry; apply Z.ltb_ge; lia).
  assert (Hp : Dbl.bnd (Dbl.pow2 (-53)) false 1 (-53)).
  { cbn. repeat split; lia. }
  pose proof (mul_bnd _ _ _ _ _ _ _ _ Hb Hp ltac:(lia) ltac:(lia) ltac:(lia)
                ltac:(lia)) as H.
  exact H.
Qed.

(** ** [wrapParam] *)

Lemma wrap64_id z : - 2 ^ 63 <= z < 2 ^ 63 -> wrap64 z = z.
Proof. intros Hz. unfold wrap64. rewrite Z.mod_small; lia. Qed.

Lemma sub_IntMantMult_bnd P :
  Dbl.bnd P false 1 58 ->
  Dbl.bnd (Dbl.sub (Dbl.of_Z CBitePop.IntMantMult) P) false 1 58.
Proof.
  intros HP.
  change (Dbl.of_Z CBitePop.IntMantMult) with (S754_finite false (2 ^ 52) 6).
  destruct P as [sp|sp| |sp my ey]; try contradiction.
  { cbn. repeat split; lia. }
  destruct HP as (-> & Hey & Hmy). unfold Dbl.sub, SFsub. cbn [cond_Zopp].
  set (ez := Z.min 6 ey).
  pose proof (shl_align_spec (2 ^ 52) 6 ez) as (_ & A2 & A3).
  pose proof (shl_align_spec my ey ez) as (_ & B2 & B3).
  rewrite (A3 ltac:(lia)) in A2. rewrite (B3 ltac:(lia)) in B2.
  rewrite A2, B2.
  assert (H1 : Z.pos (2 ^ 52) * 2 ^ (6 - ez) = 2 ^ (58 - ez)).
  { change (Z.pos (2 ^ 52)) with (2 ^ 52). rewrite <- Z.pow_add_r by lia.
    f_equal. lia. }
  assert (H2 : 0 <= Z.pos my * 2 ^ (ey - ez) <= 2 ^ (58 - ez)).
  { assert (Hpow : 2 ^ (58 - ez) = 2 ^ (58 - ey) * 2 ^ (ey - ez))
      by (rewrite <- Z.pow_add_r by lia; f_equal; lia).
    assert (0 < 2 ^ (ey - ez)) by (apply Z.pow_pos_nonneg; lia).
    rewrite Hpow. nia. }
  rewrite H1.
  set (M := 2 ^ (58 - ez) - Z.pos my * 2 ^ (ey - ez)).
  assert (HM : 0 <= M <= 2 ^ (58 - ez)) by (subst M; lia).
  clearbody M. unfold binary_normalize.
  destruct M as [|p|p]; [exact I| |lia].
  apply bround_bnd; try lia.
Qed.

Lemma land_mask_range a :
  0 <= Z.land a CBitePop.IntMantMask < CBitePop.IntMantMult.
Proof.
  change CBitePop.IntMantMask with (Z.ones 58).
  change CBitePop.IntMantMult with (2 ^ 58).
  rewrite Z.land_ones by lia. apply Z.mod_pos_bound. lia.
Qed.

(** One application of [wrapParam] lands inside [[0; IntMantMult]]. *)
Lemma wrapParam_range rnd v :
  - 2 ^ 63 <= v < 2 ^ 63 ->
  0 <= fst (CBitePop.wrapParam rnd v) <= CBitePop.IntMantMult.
Proof.
  intros Hv. unfold CBitePop.wrapParam.
  change CBitePop.IntMantMultM with (- 2 ^ 58).
  change CBitePop.IntMantMult2 with (2 ^ 59).
  assert (Hmask : forall a, 0 <= wrap64 (Z.land a CBitePop.IntMantMask)
                            <= CBitePop.IntMantMult).
  { intros a. pose proof (land_mask_range a) as H.
    change CBitePop.IntMantMult with (2 ^ 58) in *. rewrite wrap64_id; lia. }
  destruct (Z.ltb_spec v 0) as [Hneg|Hnn].
  - destruct (Z.ltb_spec (- 2 ^ 58) v) as [Hin|Hout].
    + pose proof (get_bnd rnd) as Hr.
      destruct (CBiteRnd.get rnd) as [r rnd1]. cbn [fst] in *.
      rewrite wrap64_id by lia.
      pose proof (of_Z_bnd (- v) 1 58 ltac:(lia) ltac:(lia) ltac:(lia)) as Hx.
      replace (- v <? 0) with false in Hx by (symmetry; apply Z.ltb_ge; lia).
      pose proof (mul_bnd _ _ _ _ _ _ _ _ Hr Hx ltac:(lia) ltac:(lia)
                    ltac:(lia) ltac:(lia)) as Hm.
      pose proof (to_int64_bnd _ _ _ _ Hm ltac:(lia) ltac:(lia) ltac:(lia))
        as (H1 & H2 & _).
      specialize (H2 eq_refl).
      change CBitePop.IntMantMult with (2 ^ 58). cbn [Z.add Z.mul] in H1. lia.
    + destruct (CBiteRnd.getRaw rnd) as [a rnd1]. cbn [fst]. apply Hmask.
  - destruct (Z.ltb_spec CBitePop.IntMantMult v) as [Hhi|Hin].
    + change CBitePop.IntMantMult with (2 ^ 58) in Hhi.
      destruct (Z.ltb_spec v (2 ^ 59)) as [Hin|Hout].
      * pose proof (get_bnd rnd) as Hr.
        destruct (CBiteRnd.get rnd) as [r rnd1]. cbn [fst] in *.
        change (v - CBitePop.IntMantMult) with (v - 2 ^ 58).
        rewrite wrap64_id by lia.
        pose proof (of_Z_bnd (v - 2 ^ 58) 1 58 ltac:(lia) ltac:(lia)
                      ltac:(lia)) as Hx.
        replace (v - 2 ^ 58 <? 0) with false in Hx
          by (symmetry; apply Z.ltb_ge; lia).
        pose proof (mul_bnd _ _ _ _ _ _ _ _ Hr Hx ltac:(lia) ltac:(lia)
                      ltac:(lia) ltac:(lia)) as Hm.
        pose proof (sub_IntMantMult_bnd _ Hm) as Hs.
        pose proof (to_int64_bnd _ _ _ _ Hs ltac:(lia) ltac:(lia) ltac:(lia))
          as (H1 & H2 & _).
        specialize (H2 eq_refl).
        change (1 * 2 ^ 58) with CBitePop.IntMantMult in H1. lia.
      * destruct (CBiteRnd.getRaw rnd) as [a rnd1]. cbn [fst]. apply Hmask.
    + cbn [fst]. lia.
Qed.

(** A value inside [[0; IntMantMult]] is returned as it is, and the
    generator is not used. *)
Lemma wrapParam_inside rnd v :
  0 <= v <= CBitePop.IntMantMult -> CBitePop.wrapParam rnd v = (v, rnd).
Proof.
  intros Hv. unfold CBitePop.wrapParam.
  destruct (Z.ltb_spec v 0); [lia|].
  destruct (Z.ltb_spec CBitePop.IntMantMult v); [lia|reflexivity].
Qed.


(** ** Rounding to nearest *)

Lemma shr_1_spec m r s0 :
  0 <= m ->
  shr_1 (Build_shr_record m r s0) =
  Build_shr_record (m / 2) (Z.odd m) (r || s0).
Proof.
  intros Hm. unfold shr_1.
  destruct m as [|[p|p|]|p]; try lia; rewrite <- Z.div2_div; reflexivity.
Qed.

Lemma mod_pow2_succ X k :
  0 <= X -> 0 <= k ->
  X mod 2 ^ (k + 1) = Z.b2z (Z.odd (X / 2 ^ k)) * 2 ^ k + X mod 2 ^ k.
Proof.
  intros HX Hk.
  assert (Hp : 0 < 2 ^ k) by (apply Z.pow_pos_nonneg; lia).
  pose proof (Z.div_mod X (2 ^ k) ltac:(lia)) as H1.
  pose proof (Z.mod_pos_bound X (2 ^ k) Hp) as H2.
  set (a := X / 2 ^ k) in *. set (b := X mod 2 ^ k) in *.
  pose proof (Z.div_mod a 2 ltac:(lia)) as H3.
  rewrite <- Z.bit0_odd, Z.bit0_mod.
  pose proof (Z.mod_pos_bound a 2 ltac:(lia)) as H4.
  symmetry. apply (Z.mod_unique X (2 ^ (k + 1)) (a / 2)).
  - left. rewrite Z.pow_add_r by lia. change (2 ^ 1) with 2. nia.
  - rewrite Z.pow_add_r by lia. change (2 ^ 1) with 2. nia.
Qed.

Lemma shr_iter_spec k X :
  0 <= X ->
  Nat.iter (S k) shr_1 (Build_shr_record X false false) =
  Build_shr_record (X / 2 ^ Z.of_nat (S k)) (Z.odd (X / 2 ^ Z.of_nat k))
                   (negb (X mod 2 ^ Z.of_nat k =? 0)).
Proof.
  intros HX. induction k as [|k IH].
  - cbn [Nat.iter]. rewrite shr_1_spec by assumption.
    change (2 ^ Z.of_nat 1) with 2. change (2 ^ Z.of_nat 0) with 1.
    rewrite Z.div_1_r, Z.mod_1_r. reflexivity.
  - change (Nat.iter (S (S k)) shr_1 ?x) with (shr_1 (Nat.iter (S k) shr_1 x)).
    rewrite IH.
    assert (Hp : 0 < 2 ^ Z.of_nat k) by (apply Z.pow_pos_nonneg; lia).
    rewrite shr_1_spec by (apply Z.div_pos; [lia|apply Z.pow_pos_nonneg; lia]).
    f_equal.
    + rewrite Z.div_div by (try apply Z.pow_pos_nonneg; lia).
      f_equal. rewrite (Nat2Z.inj_succ (S k)), Z.pow_succ_r by lia. lia.
    + rewrite !Nat2Z.inj_succ, <- Z.add_1_r.
      rewrite (mod_pow2_succ X (Z.of_nat k)) by lia.
      pose proof (Z.mod_pos_bound X (2 ^ Z.of_nat k) Hp).
      destruct (Z.odd (X / 2 ^ Z.of_nat k));
        destruct (Z.eqb_spec (X mod 2 ^ Z.of_nat k) 0); cbn [Z.b2z negb orb];
        symmetry; try (apply negb_true_iff, Z.eqb_neq; lia).
      apply negb_false_iff, Z.eqb_eq. lia.
Qed.

Lemma shr_pos_spec X ex n :
  0 <= X -> 0 < n ->
  shr (Build_shr_record X false false) ex n =
  (Build_shr_record (X / 2 ^ n) (Z.odd (X / 2 ^ (n - 1)))
                    (negb (X mod 2 ^ (n - 1) =? 0)), ex + n).
Proof.
  intros HX Hn. unfold shr. destruct n as [|p|p]; try lia.
  rewrite iter_pos_nat.
  destruct (Pos2Nat.is_succ p) as [k Hk]. rewrite Hk.
  rewrite shr_iter_spec by assumption.
  assert (Z.pos p = Z.of_nat (S k)) by lia.
  replace (Z.of_nat k) with (Z.pos p - 1) by lia.
  rewrite <- H. reflexivity.
Qed.

(** Rounding the quotient [X / 2^n] with the round and sticky bits of the
    shift moves [X] by at most half a unit of the new last place. *)
Lemma rne_shr X n :
  0 <= X -> 0 < n ->
  let q := X / 2 ^ n in
  let w := round_nearest_even q
             (loc_of_shr_record
                (Build_shr_record q (Z.odd (X / 2 ^ (n - 1)))
                                  (negb (X mod 2 ^ (n - 1) =? 0)))) in
  q <= w <= q + 1 /\ X - 2 ^ (n - 1) <= w * 2 ^ n <= X + 2 ^ (n - 1).
Proof.
  intros HX Hn q w.
  assert (Hp : 0 < 2 ^ (n - 1)) by (apply Z.pow_pos_nonneg; lia).
  assert (Hpn : 2 ^ n = 2 * 2 ^ (n - 1)).
  { replace n with (Z.succ (n - 1)) at 1 by lia.
    rewrite Z.pow_succ_r by lia. reflexivity. }
  pose proof (mod_pow2_succ X (n - 1) HX ltac:(lia)) as Hrem.
  replace (n - 1 + 1) with n in Hrem by lia.
  pose proof (Z.div_mod X (2 ^ n) ltac:(lia)) as Hdm. fold q in Hdm.
  pose proof (Z.mod_pos_bound X (2 ^ (n - 1)) Hp) as Hb.
  subst w. unfold round_nearest_even, loc_of_shr_record.
  destruct (Z.odd (X / 2 ^ (n - 1)));
    destruct (Z.eqb_spec (X mod 2 ^ (n - 1)) 0) as [E|E];
    cbn [negb Z.b2z] in *; try destruct (Z.even q); nia.
Qed.

Lemma digits_le_pow p k : 0 <= k -> Z.pos p < 2 ^ k -> Z.pos (digits2_pos p) <= k.
Proof.
  intros Hk H. pose proof (digits2_bounds p) as [Hd _].
  assert (2 ^ (Z.pos (digits2_pos p) - 1) < 2 ^ k) by lia.
  apply Z.pow_lt_mono_r_iff in H0; lia.
Qed.

(** The value of [binary_round_aux] on an exact input [X * 2^ex]: with
    [n] the number of bits dropped, the result is [w * 2^(ex + n)] where
    [w] is [X / 2^n] rounded to nearest; it is [X * 2^ex] itself when no bit
    is dropped. *)
Lemma bra_value s m ex :
  let X := Z.pos m in
  let n := fexp 53 1024 (Zdigits2 X + ex) - ex in
  exists w e1,
    e1 = ex + Z.max n 0 /\
    (n <= 0 -> w = X) /\
    (0 < n -> X / 2 ^ n <= w <= X / 2 ^ n + 1 /\
              X - 2 ^ (n - 1) <= w * 2 ^ n <= X + 2 ^ (n - 1)) /\
    match binary_round_aux 53 1024 s X ex loc_Exact with
    | S754_zero s' => s' = s /\ w = 0
    | S754_finite s' m' e' =>
        s' = s /\ e' <= 971 /\
        ((e' = e1 /\ Z.pos m' = w /\ w < 2 ^ 53) \/
         (e' = e1 + 1 /\ w = 2 ^ 53 /\ Z.pos m' = 2 ^ 52))
    | S754_infinity s' => s' = s /\ 971 <= e1
    | S754_nan => False
    end.
Proof.
  intros X n. unfold binary_round_aux, shr_fexp.
  cbn [shr_record_of_loc]. fold X. fold n.
  assert (HX : 0 < X) by (subst X; lia).
  destruct (Z.le_gt_cases n 0) as [Hn|Hn].
  - (* no bit is dropped *)
    assert (E : shr (Build_shr_record X false false) ex n =
                (Build_shr_record X false false, ex))
      by (unfold shr; destruct n; try lia; reflexivity).
    rewrite E. cbn [shr_m loc_of_shr_record round_nearest_even].
    fold n. rewrite E. cbn [shr_m].
    exists X, ex. split; [lia|]. split; [auto|]. split; [lia|].
    assert (HX53 : X < 2 ^ 53).
    { pose proof (digits2_bounds m) as [_ Hd]. fold X in Hd.
      eapply Z.lt_le_trans; [exact Hd|]. apply Z.pow_le_mono_r; [lia|].
      subst n. unfold fexp, emin in Hn. subst X. cbn [Zdigits2] in Hn. lia. }
    subst X. destruct (Z.leb_spec ex (1024 - 53)).
    + split; [reflexivity|]. split; [lia|]. left.
      split; [lia|]. split; [reflexivity|exact HX53].
    + split; [reflexivity|lia].
  - rewrite shr_pos_spec by lia. cbn [shr_m].
    pose proof (rne_shr X n ltac:(lia) Hn) as Hr. cbv zeta in Hr.
    set (w := round_nearest_even _ _) in *.
    set (e1 := ex + n).
    destruct Hr as [Hq Hw].
    assert (Hn53 : Z.pos (digits2_pos m) - 53 <= n /\ -1074 <= e1).
    { subst n e1. unfold fexp, emin. cbn [Zdigits2]. subst X. cbn [Zdigits2].
      lia. }
    assert (Hq53 : 0 <= X / 2 ^ n < 2 ^ 53).
    { split; [apply Z.div_pos; lia|].
      pose proof (digits2_bounds m) as [_ Hd]. fold X in Hd.
      apply Z.div_lt_upper_bound; [lia|].
      rewrite <- Z.pow_add_r by lia.
      eapply Z.lt_le_trans; [exact Hd|]. apply Z.pow_le_mono_r; lia. }
    exists w, e1. split; [lia|]. split; [lia|]. split; [auto|].
    set (n2 := fexp 53 1024 (Zdigits2 w + e1) - e1).
    pose proof (shr_exact_spec w e1 n2 ltac:(lia)) as [T1 T2].
    destruct (shr (Build_shr_record w false false) e1 n2) as [mrs3 e3].
    cbn [fst snd] in T1, T2.
    destruct (Z.eq_dec w 0) as [Ew|Nw].
    { assert (Hn2 : n2 <= 0).
      { subst n2. rewrite Ew. unfold fexp, emin. cbn [Zdigits2]. lia. }
      specialize (T1 Hn2). inversion T1; subst mrs3 e3. cbn [shr_m].
      rewrite Ew. auto. }
    destruct w as [|pw|pw] eqn:Ew; try lia.
    assert (Hdw : Z.pos (digits2_pos pw) <= 54).
    { apply digits_le_pow; [lia|]. change (2 ^ 54) with (2 * 2 ^ 53). lia. }
    destruct (Z.le_gt_cases n2 0) as [Hn2|Hn2].
    + specialize (T1 Hn2). inversion T1; subst mrs3 e3. cbn [shr_m].
      assert (Hpw : Z.pos pw < 2 ^ 53).
      { pose proof (digits2_bounds pw) as [_ Hd].
        eapply Z.lt_le_trans; [exact Hd|]. apply Z.pow_le_mono_r; [lia|].
        subst n2. unfold fexp, emin in Hn2. cbn [Zdigits2] in Hn2. lia. }
      destruct (Z.leb_spec e1 (1024 - 53)).
      * split; [reflexivity|]. split; [lia|]. left.
        split; [reflexivity|]. split; [reflexivity|exact Hpw].
      * split; [reflexivity|lia].
    + destruct (T2 Hn2) as (Esm & Ee & _).
      assert (Hn21 : n2 = 1 /\ Z.pos (digits2_pos pw) = 54).
      { subst n2. unfold fexp, emin in *. cbn [Zdigits2] in *. lia. }
      destruct Hn21 as [-> Hd54].
      pose proof (digits2_bounds pw) as [Hlo _]. rewrite Hd54 in Hlo.
      change (2 ^ (54 - 1)) with (2 ^ 53) in Hlo.
      assert (Epw : Z.pos pw = 2 ^ 53) by lia.
      rewrite Esm, Epw. change (2 ^ 53 / 2 ^ 1) with (Z.pos (2 ^ 52)).
      cbv iota. subst e3.
      destruct (Z.leb_spec (e1 + 1) (1024 - 53)).
      * split; [reflexivity|]. split; [lia|]. right.
        split; [reflexivity|]. split; reflexivity.
      * split; [reflexivity|lia].
Qed.

Lemma digits_eq p k :
  0 < k -> 2 ^ (k - 1) <= Z.pos p < 2 ^ k -> Z.pos (digits2_pos p) = k.
Proof.
  intros Hk [Hlo Hhi]. pose proof (digits2_bounds p) as [Hd1 Hd2].
  assert (Z.pos (digits2_pos p) <= k) by (apply digits_le_pow; lia).
  assert (2 ^ (k - 1) < 2 ^ Z.pos (digits2_pos p)) by lia.
  apply Z.pow_lt_mono_r_iff in H0; lia.
Qed.

(** The conversion of a positive integer below [2^53] is exact and
    normalized. *)
Lemma of_Z_exact k :
  0 < k < 2 ^ 53 ->
  exists M e, Dbl.of_Z k = S754_finite false M e /\
              -52 <= e <= 0 /\ Z.pos M = k * 2 ^ (- e) /\
              2 ^ 52 <= Z.pos M < 2 ^ 53.
Proof.
  intros Hk. destruct k as [|p|p]; try lia.
  unfold Dbl.of_Z, binary_normalize, binary_round.
  set (d := Z.pos (digits2_pos p)).
  pose proof (digits2_bounds p) as [Hd1 Hd2]. fold d in Hd1, Hd2.
  assert (Hd : 1 <= d <= 53).
  { split; [subst d; lia|]. apply digits_le_pow; lia. }
  assert (Ef : fexp Dbl.prec Dbl.emax (d + 0) = d - 53)
    by (unfold fexp, emin, Dbl.prec, Dbl.emax; lia).
  rewrite Ef.
  pose proof (shl_align_spec p 0 (d - 53)) as (_ & Hm & He).
  specialize (He ltac:(lia)).
  destruct (shl_align p 0 (d - 53)) as [mz ez]. cbn [fst snd] in *.
  subst ez. replace (0 - (d - 53)) with (53 - d) in Hm by lia.
  assert (Hmz : 2 ^ 52 <= Z.pos mz < 2 ^ 53).
  { rewrite Hm.
    assert (E1 : 2 ^ 52 = 2 ^ (d - 1) * 2 ^ (53 - d))
      by (rewrite <- Z.pow_add_r by lia; f_equal; lia).
    assert (E2 : 2 ^ 53 = 2 ^ d * 2 ^ (53 - d))
      by (rewrite <- Z.pow_add_r by lia; f_equal; lia).
    assert (0 < 2 ^ (53 - d)) by (apply Z.pow_pos_nonneg; lia).
    rewrite E1, E2. nia. }
  pose proof (digits_eq mz 53 ltac:(lia) Hmz) as Hdz.
  pose proof (bra_value false mz (d - 53)) as (w & e1 & He1 & Hw & _ & Hres).
  cbv zeta in *. cbn [Zdigits2] in *. rewrite Hdz in *.
  assert (En : fexp 53 1024 (53 + (d - 53)) - (d - 53) = 0)
    by (unfold fexp, emin; lia).
  rewrite En in *. specialize (Hw ltac:(lia)).
  change Dbl.prec with 53. change Dbl.emax with 1024.
  destruct (binary_round_aux 53 1024 false (Z.pos mz) (d - 53) loc_Exact)
    as [sg|sg| |sg m' e']; try contradiction.
  - destruct Hres as [_ Hres]. lia.
  - destruct Hres as [_ Hres]. lia.
  - destruct Hres as (-> & _ & [(-> & Hm' & _)|(-> & Hw53 & _)]); [|lia].
    exists m', (d - 53). split; [f_equal; lia|].
    replace (- (d - 53)) with (53 - d) by lia.
    split; [lia|]. split; lia.
Qed.

(** [get()] is exactly [k * 2^-53] for the 53-bit integer [k] it draws. *)
Lemma get_exact r :
  let k := Z.shiftr (fst (CBiteRnd.advance r)) (64 - 53) in
  (k = 0 /\ fst (CBiteRnd.get r) = S754_zero false) \/
  (0 < k < 2 ^ 53 /\
   exists M e, fst (CBiteRnd.get r) = S754_finite false M e /\
               -105 <= e <= -53 /\ Z.pos M = k * 2 ^ (- 53 - e) /\
               2 ^ 52 <= Z.pos M < 2 ^ 53).
Proof.
  unfold CBiteRnd.get. pose proof (advance_range r) as Ha.
  destruct (CBiteRnd.advance r) as [a r1]. cbn [fst] in *.
  set (k := Z.shiftr a (64 - 53)).
  assert (Hk : 0 <= k < 2 ^ 53).
  { subst k. rewrite Z.shiftr_div_pow2 by lia. split.
    - apply Z.div_pos; lia.
    - apply Z.div_lt_upper_bound; lia. }
  destruct (Z.eq_dec k 0) as [E|E].
  { left. split; [exact E|]. rewrite E. reflexivity. }
  right. split; [lia|].
  destruct (of_Z_exact k ltac:(lia)) as (Mk & ek & -> & Hek & HMk & Hr).
  unfold Dbl.mul, Dbl.pow2, SFmul. cbn [xorb].
  pose proof (bra_value false (Mk * 2 ^ 52) (ek + (-53 - 52)))
    as (w & e1 & He1 & _ & Hw & Hres).
  cbv zeta in *. cbn [Zdigits2] in *.
  assert (EX : Z.pos (Mk * 2 ^ 52) = Z.pos Mk * 2 ^ 52) by reflexivity.
  assert (Hd : Z.pos (digits2_pos (Mk * 2 ^ 52)) = 105).
  { apply digits_eq; [lia|]. rewrite EX.
    change (2 ^ (105 - 1)) with (2 ^ 52 * 2 ^ 52).
    change (2 ^ 105) with (2 ^ 53 * 2 ^ 52). lia. }
  rewrite Hd in *.
  assert (En : fexp 53 1024 (105 + (ek + (-53 - 52))) - (ek + (-53 - 52))
               = 52) by (unfold fexp, emin; lia).
  rewrite En in *. destruct (Hw ltac:(lia)) as [Hq Hh].
  rewrite EX in Hq, Hh. rewrite Z.div_mul in Hq by lia.
  change (2 ^ (52 - 1)) with (2 ^ 51) in Hh.
  assert (Ew : w = Z.pos Mk) by lia.
  change Dbl.prec with 53. change Dbl.emax with 1024.
  destruct (binary_round_aux 53 1024 false (Z.pos (Mk * 2 ^ 52))
              (ek + (-53 - 52)) loc_Exact) as [sg|sg| |sg m' e'];
    try contradiction.
  - destruct Hres as [_ Hres]. lia.
  - destruct Hres as [_ Hres]. lia.
  - destruct Hres as (-> & _ & [(-> & Hm' & _)|(_ & Hw53 & _)]); [|lia].
    exists m', e1. split; [reflexivity|]. subst e1.
    split; [lia|]. split; [|lia].
    rewrite Hm', Ew, HMk. f_equal. f_equal. lia.
Qed.

(** [(int) ( v * N1 )] is an integer of [[0; N1)] for every normalized
    double [v] below one. *)
Lemma unit_mul_int_range M e N1 :
  -500 <= e <= -53 -> 2 ^ 52 <= Z.pos M < 2 ^ 53 -> 0 < N1 < 2 ^ 31 ->
  0 <= Dbl.to_int (Dbl.mul (S754_finite false M e) (Dbl.of_Z N1)) < N1.
Proof.
  intros He Hr HN.
  destruct (of_Z_exact N1 ltac:(lia)) as (Mn & en & -> & Hen & HMn & Hrn).
  unfold Dbl.mul, SFmul. cbn [xorb].
  pose proof (bra_value false (M * Mn) (e + en))
    as (w & e1 & He1 & _ & Hw & Hres).
  cbv zeta in *. cbn [Zdigits2] in *.
  assert (EX : Z.pos (M * Mn) = Z.pos M * Z.pos Mn) by reflexivity.
  set (d := Z.pos (digits2_pos (M * Mn))) in *.
  pose proof (digits2_bounds (M * Mn)) as [Hd1 Hd2]. fold d in Hd1, Hd2.
  rewrite EX in Hd1, Hd2.
  assert (Hd : 105 <= d <= 106).
  { split.
    - assert (2 ^ 104 < 2 ^ d).
      { change (2 ^ 104) with (2 ^ 52 * 2 ^ 52).
        eapply Z.le_lt_trans; [|exact Hd2].
        apply Z.mul_le_mono_nonneg; lia. }
      apply Z.pow_lt_mono_r_iff in H; lia.
    - assert (2 ^ (d - 1) < 2 ^ 106).
      { change (2 ^ 106) with (2 ^ 53 * 2 ^ 53).
        eapply Z.le_lt_trans; [exact Hd1|].
        apply Z.mul_lt_mono_nonneg; lia. }
      apply Z.pow_lt_mono_r_iff in H; lia. }
  assert (En : fexp 53 1024 (d + (e + en)) - (e + en) = d - 53)
    by (unfold fexp, emin; lia).
  rewrite En in *. destruct (Hw ltac:(lia)) as [Hq Hh].
  rewrite EX in Hq, Hh.
  assert (He1' : e1 = e + en + d - 53) by lia. clear He1.
  (* the rounded product stays below [N1] *)
  assert (Hlt : w < Z.pos Mn * 2 ^ (- e1 + en)).
  { assert (Hp1 : 0 < 2 ^ (- 53 - e)) by (apply Z.pow_pos_nonneg; lia).
    assert (HMk : Z.pos M <= 2 ^ (- e) - 2 ^ (- 53 - e)).
    { replace (- e) with (53 + (- 53 - e)) by lia.
      rewrite Z.pow_add_r by lia.
      replace (2 ^ 53 * 2 ^ (- 53 - e) - 2 ^ (- 53 - e))
        with ((2 ^ 53 - 1) * 2 ^ (- 53 - e)) by ring.
      assert (1 * (2 ^ 53 - 1) <= 2 ^ (- 53 - e) * (2 ^ 53 - 1))
        by (apply Z.mul_le_mono_nonneg_r; lia).
      lia. }
    assert (Hpe : 2 ^ (- e) = 2 ^ (d - 53) * 2 ^ (- e1 + en)).
    { rewrite <- Z.pow_add_r by lia. f_equal. lia. }
    assert (Hp2 : 0 < 2 ^ (d - 53)) by (apply Z.pow_pos_nonneg; lia).
    assert (Hp3 : 0 < 2 ^ (- e1 + en)) by (apply Z.pow_pos_nonneg; lia).
    assert (Hhalf : 2 ^ (d - 53 - 1) < Z.pos Mn * 2 ^ (- 53 - e)).
    { destruct (Z.eq_dec d 106) as [->|Hne].
      - change (2 ^ (106 - 53 - 1)) with (2 ^ 52).
        assert (2 ^ 52 < Z.pos Mn); [|nia].
        change (2 ^ (106 - 1)) with (2 ^ 53 * 2 ^ 52) in Hd1. nia.
      - replace d with 105 by lia.
        change (2 ^ (105 - 53 - 1)) with (2 ^ 51).
        assert (2 ^ 51 < 2 ^ 52) by (apply Z.pow_lt_mono_r; lia). nia. }
    apply (Z.mul_lt_mono_pos_r (2 ^ (d - 53))); [exact Hp2|].
    replace (Z.pos Mn * 2 ^ (- e1 + en) * 2 ^ (d - 53))
      with (Z.pos Mn * 2 ^ (- e)) by (rewrite Hpe; ring).
    assert (Hx : Z.pos M * Z.pos Mn <=
                 (2 ^ (- e) - 2 ^ (- 53 - e)) * Z.pos Mn)
      by (apply Z.mul_le_mono_nonneg_r; lia).
    rewrite Z.mul_sub_distr_r in Hx.
    rewrite (Z.mul_comm (2 ^ (- e)) (Z.pos Mn)) in Hx.
    rewrite (Z.mul_comm (2 ^ (- 53 - e)) (Z.pos Mn)) in Hx.
    destruct Hh as [_ Hh]. lia. }
  assert (Hw0 : 0 <= w).
  { assert (0 <= Z.pos M * Z.pos Mn / 2 ^ (d - 53))
      by (apply Z.div_pos; [lia|apply Z.pow_pos_nonneg; lia]). lia. }
  assert (HN1 : Z.pos Mn * 2 ^ (- e1 + en) = N1 * 2 ^ (- e1)).
  { rewrite HMn. rewrite <- Z.mul_assoc, <- Z.pow_add_r by lia.
    f_equal. f_equal. lia. }
  rewrite HN1 in Hlt.
  change Dbl.prec with 53. change Dbl.emax with 1024.
  destruct (binary_round_aux 53 1024 false (Z.pos (M * Mn)) (e + en)
              loc_Exact) as [sg|sg| |sg m' e']; try contradiction.
  - unfold Dbl.to_int. cbn.
    match goal with |- context [if ?c then _ else _] =>
      change c with true end. lia.
  - destruct Hres as [_ Hres]. lia.
  - assert (Hval : Z.pos m' * 2 ^ (e' - e1) = w /\ e1 <= e' <= e1 + 1).
    { destruct Hres as (_ & _ & [(-> & Hm' & _)|(-> & Hw53 & Hm')]).
      - rewrite Z.sub_diag. lia.
      - replace (e1 + 1 - e1) with 1 by lia. rewrite Hm', Hw53.
        split; [reflexivity|lia]. }
    destruct Hres as (-> & _). destruct Hval as [Hval Hee].
    assert (Hz : exists z, Dbl.trunc (S754_finite false m' e') = Some z /\
                           0 <= z < N1).
    { cbn [Dbl.trunc]. eexists. split; [reflexivity|].
      assert (Hp1 : 0 < 2 ^ (e' - e1)) by (apply Z.pow_pos_nonneg; lia).
      destruct (Z.leb_spec 0 e').
      - assert (Hpe : 2 ^ (e' - e1) = 2 ^ e' * 2 ^ (- e1)).
        { rewrite <- Z.pow_add_r by lia. reflexivity. }
        assert (0 < 2 ^ e') by (apply Z.pow_pos_nonneg; lia).
        assert (0 < 2 ^ (- e1)) by (apply Z.pow_pos_nonneg; lia).
        rewrite Hpe in Hval. split; [lia|].
        apply (Z.mul_lt_mono_pos_r (2 ^ (- e1))); [lia|].
        rewrite <- Z.mul_assoc, Hval. exact Hlt.
      - split; [apply Z.div_pos; [lia|apply Z.pow_pos_nonneg; lia]|].
        apply Z.div_lt_upper_bound; [apply Z.pow_pos_nonneg; lia|].
        assert (Hpe : 2 ^ (- e1) = 2 ^ (- e') * 2 ^ (e' - e1)).
        { rewrite <- Z.pow_add_r by lia. f_equal. lia. }
        rewrite Hpe in Hlt.
        apply (Z.mul_lt_mono_pos_r (2 ^ (e' - e1))); [lia|].
        rewrite Hval.
        replace (2 ^ (- e') * N1 * 2 ^ (e' - e1))
          with (N1 * (2 ^ (- e') * 2 ^ (e' - e1))) by ring.
        exact Hlt. }
    destruct Hz as (z & Ez & Hz). unfold Dbl.to_int. rewrite Ez.
    destruct (Z.leb_spec (- 2 ^ 31) z), (Z.ltb_spec z (2 ^ 31));
      cbn [andb]; lia.
Qed.

(** [getInt( N1 )] delivers an integer of [[0; N1)]. *)
Lemma getInt_range N1 r :
  0 < N1 < 2 ^ 31 -> 0 <= fst (CBiteRnd.getInt N1 r) < N1.
Proof.
  intros HN. unfold CBiteRnd.getInt.
  pose proof (get_exact r) as Hg. cbv zeta in Hg.
  destruct (CBiteRnd.get r) as [v r1]. cbn [fst] in *.
  destruct Hg as [[_ ->]|(Hk & M & e & -> & He & HM & Hr)].
  { destruct (of_Z_exact N1 ltac:(lia)) as (Mn & en & -> & _).
    unfold Dbl.mul, Dbl.to_int. cbn.
    match goal with |- context [if ?c then _ else _] =>
      change c with true end. lia. }
  apply unit_mul_int_range; lia.
Qed.

(** ** The population: the sort invariant of [updatePop] *)

Section PopInvariant.
Import CBitePop PopSpec.

Lemma rot_lookup {A} (l : list A) (p ri k : nat) (x : A) :
  (p <= ri < length l)%nat ->
  (<[p := x]> (memmove l (S p) p (ri - p))) !! k =
  if (k =? p)%nat then Some x
  else l !! (if (k <? p)%nat then k
             else if (k <=? ri)%nat then (k - 1)%nat else k).
Proof.
  intros Hp. unfold memmove.
  assert (Hlen : length (take (ri - p) (drop p l)) = (ri - p)%nat).
  { rewrite length_take, length_drop. lia. }
  destruct (Nat.eqb_spec k p) as [->|Hne].
  { apply list_lookup_insert_eq. rewrite length_inserts. lia. }
  rewrite list_lookup_insert_ne by congruence.
  destruct (Nat.ltb_spec k p).
  { apply list_lookup_inserts_lt. lia. }
  destruct (Nat.leb_spec k ri).
  - rewrite list_lookup_inserts by (rewrite ?Hlen; lia).
    rewrite lookup_take_lt by lia. rewrite lookup_drop. f_equal. lia.
  - apply list_lookup_inserts_ge. rewrite Hlen. lia.
Qed.

Lemma rot_length {A} (l : list A) (p ri : nat) (x : A) :
  length (<[p := x]> (memmove l (S p) p (ri - p))) = length l.
Proof. unfold memmove. by rewrite length_insert, length_inserts. Qed.

Lemma rot_NoDup {A} (l : list A) (p ri : nat) (x : A) :
  (p <= ri < length l)%nat -> l !! ri = Some x -> NoDup l ->
  NoDup (<[p := x]> (memmove l (S p) p (ri - p))).
Proof.
  intros Hp Hx Hnd. apply NoDup_alt. intros i j y Hi Hj.
  rewrite rot_lookup in Hi, Hj by assumption.
  rewrite NoDup_alt in Hnd.
  assert (Hb : forall k z, l !! k = Some z -> (k < length l)%nat)
    by (intros; by eapply lookup_lt_Some).
  destruct (Nat.eqb_spec i p), (Nat.eqb_spec j p); simplify_eq; try done.
  - destruct (Nat.ltb_spec j p); [|destruct (Nat.leb_spec j ri)];
      pose proof (Hnd _ _ _ Hx Hj); apply Hb in Hj; lia.
  - destruct (Nat.ltb_spec i p); [|destruct (Nat.leb_spec i ri)];
      pose proof (Hnd _ _ _ Hx Hi); apply Hb in Hi; lia.
  - destruct (Nat.ltb_spec i p); [|destruct (Nat.leb_spec i ri)];
    (destruct (Nat.ltb_spec j p); [|destruct (Nat.leb_spec j ri)]);
      pose proof (Hnd _ _ _ Hi Hj); lia.
Qed.

Lemma bsearch_spec s c ri fuel : forall p i,
  (p <= i <= ri)%nat -> (i - p < fuel)%nat ->
  Dbl.is_nan c = false -> sorted_upto s ri -> nonan_upto s ri ->
  (forall k, (k < p)%nat -> Dbl.lt (rank_at s k) c) ->
  (forall k, (i <= k < ri)%nat -> Dbl.le c (rank_at s k)) ->
  let r := bsearch fuel s c p i in
  (p <= r <= i)%nat /\
  (forall k, (k < r)%nat -> Dbl.lt (rank_at s k) c) /\
  (forall k, (r <= k < ri)%nat -> Dbl.le c (rank_at s k)).
Proof.
  induction fuel as [|fuel IH]; intros p i Hpi Hfuel Hc Hs Hn Hlo Hhi; [lia|].
  cbn [bsearch]. destruct (Nat.ltb_spec p i) as [Hlt|Hge].
  2:{ assert (p = i) by lia. subst. cbn. repeat split; auto; lia. }
  set (mid := ((p + i) / 2)%nat).
  assert (Hmid : (p <= mid < i)%nat).
  { subst mid. pose proof (Nat.div_mod_eq (p + i) 2).
    pose proof (Nat.mod_upper_bound (p + i) 2). lia. }
  destruct (Dbl.geb (rank_at s mid) c) eqn:Hg.
  - destruct (IH p mid) as (H1 & H2 & H3); try assumption; try lia.
    { intros k Hk. destruct (decide (k = mid)) as [->|]; [exact Hg|].
      apply le_trans with (rank_at s mid); auto.
      + apply Hn; lia.
      + apply Hn; lia.
      + apply Hs; lia. }
    repeat split; auto; lia.
  - apply geb_false_lt in Hg; [|apply Hn; lia|assumption].
    destruct (IH (S mid) i) as (H1 & H2 & H3); try assumption; try lia.
    { intros k Hk. destruct (decide (k = mid)) as [->|]; [exact Hg|].
      apply le_lt_trans with (rank_at s mid); auto.
      + apply Hn; lia.
      + apply Hn; lia.
      + apply Hs; lia. }
    repeat split; auto; lia.
Qed.

Lemma bsearch_bounds s c fuel : forall p i,
  (p <= i)%nat -> (p <= bsearch fuel s c p i <= i)%nat.
Proof.
  induction fuel as [|fuel IH]; intros p i Hpi; cbn [bsearch]; [lia|].
  destruct (Nat.ltb_spec p i) as [Hlt|Hge]; [|lia].
  set (mid := ((p + i) / 2)%nat).
  assert (Hmid : (p <= mid < i)%nat).
  { subst mid. pose proof (Nat.div_mod_eq (p + i) 2).
    pose proof (Nat.mod_upper_bound (p + i) 2). lia. }
  destruct (Dbl.geb (rank_at s mid) c).
  - specialize (IH p mid). lia.
  - specialize (IH (S mid) i). lia.
Qed.

Lemma updatePop_unfold s c u d thr :
  updatePop s c u d thr =
  if UpdSpec.rejects s c then (PopSize s, s)
  else
    let rp := UpdSpec.rp s c u thr in
    let leaky := d && negb (NeedCentUpdate s) in
    (if UpdSpec.IsEqualCost s c then PopSize s else UpdSpec.pos s c,
     mk (ParamCount s) (ParamCountI s) (PopSize s) (PopSize1 s)
        (CurPopSize s) (CurPopSize1 s) (CurPopSizeI s)
        (if UpdSpec.filling s then S (CurPopPos s) else CurPopPos s)
        (<[rp := mkitem (deref s u) c c]> (PopParamsBuf s))
        (if UpdSpec.DoReplace s c u thr then PopParams s
         else <[UpdSpec.pos s c := rp]>
                (memmove (PopParams s) (S (UpdSpec.pos s c)) (UpdSpec.pos s c)
                         (UpdSpec.ri s - UpdSpec.pos s c)))
        (if leaky then leak (CentLPC s) (CentParams s) (deref s u)
         else CentParams s)
        (if leaky then NeedCentUpdate s else true)
        (CentLPC s) (TmpParams s)).
Proof.
  unfold updatePop, UpdSpec.rejects, UpdSpec.rp, UpdSpec.DoReplace,
    UpdSpec.IsEqualCost, UpdSpec.pos, UpdSpec.ri, UpdSpec.filling.
  destruct (negb _ && Dbl.gtb _ _); [reflexivity|].
  cbv zeta. f_equal. f_equal.
  - f_equal. f_equal. destruct u as [k|v]; [|reflexivity].
    cbn [deref].
    match goal with |- context [(k =? ?r)%nat] =>
      destruct (Nat.eqb_spec k r) as [E|]; [rewrite <- E at 1|] end;
      reflexivity.
Qed.

Local Arguments CBitePop.bsearch : simpl never.
Local Arguments UpdSpec.pos : simpl never.
Local Arguments UpdSpec.ri : simpl never.
Local Arguments UpdSpec.rp : simpl never.
Local Arguments UpdSpec.filling : simpl never.
Local Arguments UpdSpec.rejects : simpl never.
Local Arguments UpdSpec.IsEqualCost : simpl never.
Local Arguments UpdSpec.DoReplace : simpl never.
Local Arguments UpdSpec.origin : simpl never.

Lemma wf_ptr s i :
  wf s -> (i <= PopSize s)%nat ->
  PopParams s !! i = Some (ptr_at s i) /\ (ptr_at s i < S (PopSize s))%nat.
Proof.
  intros (H0 & H1 & Hb & Hp & Hnd & Hr & Hc) Hi.
  destruct (lookup_lt_is_Some_2 (PopParams s) i) as [k Hk]; [lia|].
  unfold ptr_at. rewrite (nth_lookup_Some _ _ _ _ Hk). eauto.
Qed.

Lemma wf_ptr_inj s i j :
  wf s -> (i <= PopSize s)%nat -> (j <= PopSize s)%nat ->
  ptr_at s i = ptr_at s j -> i = j.
Proof.
  intros Hwf Hi Hj E.
  destruct (wf_ptr s i Hwf Hi) as [Li _], (wf_ptr s j Hwf Hj) as [Lj _].
  destruct Hwf as (_ & _ & _ & _ & Hnd & _).
  rewrite NoDup_alt in Hnd. rewrite E in Li. eauto.
Qed.

Lemma ri_le s : wf s -> (UpdSpec.ri s <= PopSize s)%nat.
Proof.
  intros (H0 & H1 & _). unfold UpdSpec.ri, UpdSpec.filling.
  destruct (Nat.ltb_spec (CurPopPos s) (PopSize s)); lia.
Qed.

Lemma pos_le s c : (UpdSpec.pos s c <= UpdSpec.ri s)%nat.
Proof. unfold UpdSpec.pos. pose proof (bsearch_bounds s c (S (UpdSpec.ri s)) 0 (UpdSpec.ri s)). lia. Qed.

Lemma updatePop_fields s c u d thr :
  let s' := snd (updatePop s c u d thr) in
  PopSize s' = PopSize s /\ PopSize1 s' = PopSize1 s /\
  CurPopSize s' = CurPopSize s /\ CurPopSize1 s' = CurPopSize1 s /\
  ParamCount s' = ParamCount s /\ TmpParams s' = TmpParams s /\
  CurPopPos s' =
    if UpdSpec.rejects s c then CurPopPos s
    else if UpdSpec.filling s then S (CurPopPos s) else CurPopPos s.
Proof.
  rewrite updatePop_unfold. destruct (UpdSpec.rejects s c); cbn; auto 10.
Qed.

Lemma updatePop_ptrs s c u d thr k :
  wf s -> UpdSpec.rejects s c = false -> (k <= PopSize s)%nat ->
  let s' := snd (updatePop s c u d thr) in
  ptr_at s' k =
    if (k =? UpdSpec.pos s c)%nat then UpdSpec.rp s c u thr
    else ptr_at s (UpdSpec.origin s c u thr k).
Proof.
  intros Hwf Hrej Hk. rewrite updatePop_unfold, Hrej. cbn.
  unfold ptr_at at 1. cbn [PopParams].
  pose proof (ri_le s Hwf) as Hri. pose proof (pos_le s c) as Hpos.
  unfold UpdSpec.origin, UpdSpec.rp.
  destruct (UpdSpec.DoReplace s c u thr).
  - destruct (Nat.eqb_spec k (UpdSpec.pos s c)) as [->|]; reflexivity.
  - rewrite nth_lookup, rot_lookup
      by (destruct Hwf as (_ & _ & _ & -> & _); lia).
    destruct (Nat.eqb_spec k (UpdSpec.pos s c)) as [->|]; [reflexivity|].
    unfold ptr_at. by rewrite nth_lookup.
Qed.

Lemma updatePop_wf s c u d thr :
  wf s -> wf (snd (updatePop s c u d thr)).
Proof.
  intros Hwf. pose proof (updatePop_fields s c u d thr) as Hf.
  rewrite updatePop_unfold in *.
  destruct (UpdSpec.rejects s c) eqn:Hrej; [exact Hwf|].
  pose proof (ri_le s Hwf) as Hri. pose proof (pos_le s c) as Hpos.
  destruct (wf_ptr s (UpdSpec.ri s) Hwf Hri) as [Lri Bri].
  destruct Hwf as (H0 & H1 & Hb & Hp & Hnd & Hr & Hc).
  cbn in *. unfold wf. cbn.
  split; [assumption|]. split; [assumption|].
  split; [by rewrite length_insert|].
  assert (Hfill : ((if UpdSpec.filling s then S (CurPopPos s)
                    else CurPopPos s) <= PopSize s)%nat).
  { unfold UpdSpec.filling.
    destruct (Nat.ltb_spec (CurPopPos s) (PopSize s)); lia. }
  unfold UpdSpec.rp.
  destruct (UpdSpec.DoReplace s c u thr); [auto 10|].
  split; [by rewrite rot_length|].
  split; [apply rot_NoDup; auto; lia|].
  split; [|assumption].
  intros i k Hik. rewrite rot_lookup in Hik by lia.
  destruct (Nat.eqb_spec i (UpdSpec.pos s c)); [by simplify_eq|eauto].
Qed.

Lemma updatePop_item s c u d thr k :
  wf s -> UpdSpec.rejects s c = false -> (k <= PopSize s)%nat ->
  let s' := snd (updatePop s c u d thr) in
  item_at s' k =
    if (k =? UpdSpec.pos s c)%nat then mkitem (deref s u) c c
    else item_at s (UpdSpec.origin s c u thr k).
Proof.
  intros Hwf Hrej Hk. cbv zeta.
  change (item_at (updatePop s c u d thr).2 k)
    with (item_of (updatePop s c u d thr).2
            (ptr_at (updatePop s c u d thr).2 k)).
  rewrite updatePop_ptrs by assumption.
  rewrite updatePop_unfold, Hrej. cbv zeta. unfold item_of at 1.
  cbn [snd PopParamsBuf].
  pose proof (ri_le s Hwf) as Hri. pose proof (pos_le s c) as Hpos.
  assert (Hrp : exists q, (q <= PopSize s)%nat /\
                 UpdSpec.rp s c u thr = ptr_at s q /\
                 (UpdSpec.DoReplace s c u thr = true -> q = UpdSpec.pos s c) /\
                 (UpdSpec.DoReplace s c u thr = false -> q = UpdSpec.ri s)).
  { unfold UpdSpec.rp. destruct (UpdSpec.DoReplace s c u thr).
    - exists (UpdSpec.pos s c). repeat split; auto; try lia; discriminate.
    - exists (UpdSpec.ri s). repeat split; auto; discriminate. }
  destruct Hrp as (q & Hq & Erp & Hq1 & Hq2).
  destruct (wf_ptr s q Hwf Hq) as [Lq Bq].
  assert (Hlen : length (PopParamsBuf s) = S (PopSize s))
    by (by destruct Hwf as (_ & _ & -> & _)).
  destruct (Nat.eqb_spec k (UpdSpec.pos s c)) as [->|Hne].
  - rewrite nth_lookup, list_lookup_insert_eq by (rewrite Erp; lia).
    reflexivity.
  - rewrite nth_lookup, list_lookup_insert_ne.
    { unfold item_at, item_of. by rewrite nth_lookup. }
    rewrite Erp. intros E. apply wf_ptr_inj in E; try assumption.
    + unfold UpdSpec.origin in E.
      destruct (UpdSpec.DoReplace s c u thr).
      * specialize (Hq1 eq_refl). lia.
      * specialize (Hq2 eq_refl).
        destruct (Nat.ltb_spec k (UpdSpec.pos s c)); [lia|].
        destruct (Nat.leb_spec k (UpdSpec.ri s)); lia.
    + unfold UpdSpec.origin.
      destruct (UpdSpec.DoReplace s c u thr); [lia|].
      destruct (Nat.ltb_spec k (UpdSpec.pos s c)); [lia|].
      destruct (Nat.leb_spec k (UpdSpec.ri s)); lia.
Qed.

Lemma updatePop_rank s c u d thr k :
  wf s -> UpdSpec.rejects s c = false -> (k <= PopSize s)%nat ->
  rank_at (snd (updatePop s c u d thr)) k =
    if (k =? UpdSpec.pos s c)%nat then c
    else rank_at s (UpdSpec.origin s c u thr k).
Proof.
  intros Hwf Hrej Hk. unfold rank_at. rewrite updatePop_item by assumption.
  destruct (k =? UpdSpec.pos s c)%nat; reflexivity.
Qed.

(** What the binary search finds, for a population that satisfies the
    invariant and a cost that is not rejected. *)
Lemma pos_spec s c :
  inv s -> Dbl.is_nan c = false -> UpdSpec.rejects s c = false ->
  let p := UpdSpec.pos s c in
  (p <= UpdSpec.ri s)%nat /\
  S (UpdSpec.ri s) = (if UpdSpec.filling s then S (CurPopPos s) else CurPopPos s) /\
  (forall k, (k < p)%nat -> Dbl.lt (rank_at s k) c) /\
  (forall k, (p <= k < S (UpdSpec.ri s))%nat -> (k < CurPopPos s)%nat ->
             Dbl.le c (rank_at s k)).
Proof.
  intros (Hwf & Hs & Hn) Hc Hrej p.
  pose proof Hwf as (H0 & H1 & Hb & Hp & Hnd & Hr & Hcp).
  assert (Hri : (UpdSpec.ri s <= CurPopPos s)%nat /\
                S (UpdSpec.ri s) =
                  (if UpdSpec.filling s then S (CurPopPos s) else CurPopPos s)).
  { unfold UpdSpec.ri, UpdSpec.filling.
    destruct (Nat.ltb_spec (CurPopPos s) (PopSize s)); lia. }
  destruct Hri as [Hri1 Hri2].
  destruct (bsearch_spec s c (UpdSpec.ri s) (S (UpdSpec.ri s)) 0 (UpdSpec.ri s))
    as (B1 & B2 & B3); try assumption; try lia.
  { intros i j Hij. apply Hs. lia. }
  { intros i Hi. apply Hn. lia. }
  fold (UpdSpec.pos s c) in B1, B2, B3. fold p in B1, B2, B3.
  repeat split; try assumption; try lia.
  intros k Hk Hk'. destruct (decide (k = UpdSpec.ri s)) as [->|]; [|apply B3; lia].
  unfold UpdSpec.rejects in Hrej.
  destruct (UpdSpec.filling s) eqn:Hf.
  { unfold UpdSpec.ri in Hk'. rewrite Hf in Hk'. lia. }
  cbn in Hrej. apply gtb_false_le in Hrej; auto.
Qed.

(** [updatePop] keeps the invariant: the stored records stay sorted. *)
Lemma updatePop_inv s c u d thr :
  inv s -> Dbl.is_nan c = false -> inv (snd (updatePop s c u d thr)).
Proof.
  intros Hinv Hc.
  destruct (UpdSpec.rejects s c) eqn:Hrej.
  { rewrite updatePop_unfold, Hrej. exact Hinv. }
  pose proof (pos_spec s c Hinv Hc Hrej) as (Hp & Hri & Hlo & Hhi).
  destruct Hinv as (Hwf & Hs & Hn).
  pose proof (ri_le s Hwf) as Hrile.
  pose proof (updatePop_fields s c u d thr) as (_ & _ & _ & _ & _ & _ & Hpos).
  rewrite Hrej, <- Hri in Hpos.
  assert (Hrc : (UpdSpec.ri s <= CurPopPos s)%nat)
    by (destruct (UpdSpec.filling s); lia).
  assert (Hrepl : UpdSpec.DoReplace s c u thr = true ->
                  (UpdSpec.ri s < CurPopPos s)%nat).
  { unfold UpdSpec.DoReplace, UpdSpec.IsEqualCost.
    destruct (UpdSpec.filling s); [discriminate|lia]. }
  split; [by apply updatePop_wf|]. rewrite Hpos.
  assert (Ho : forall k, (k < S (UpdSpec.ri s))%nat -> k <> UpdSpec.pos s c ->
     let o := UpdSpec.origin s c u thr k in
     (o < CurPopPos s)%nat /\
     (if UpdSpec.DoReplace s c u thr then o = k
      else if (k <? UpdSpec.pos s c)%nat then o = k else o = (k - 1)%nat)).
  { intros k Hk Hne. unfold UpdSpec.origin.
    destruct (UpdSpec.DoReplace s c u thr); [split; [lia|done]|].
    destruct (Nat.ltb_spec k (UpdSpec.pos s c)); [split; [lia|done]|].
    destruct (Nat.leb_spec k (UpdSpec.ri s)); split; try lia; done. }
  split.
  - intros i j Hij.
    rewrite !updatePop_rank by (assumption || lia).
    destruct (Nat.eqb_spec i (UpdSpec.pos s c)) as [Ei|Ni],
             (Nat.eqb_spec j (UpdSpec.pos s c)) as [Ej|Nj]; try lia.
    + destruct (Ho j ltac:(lia) Nj) as [Hoj1 Hoj2].
      destruct (UpdSpec.DoReplace s c u thr).
      * rewrite Hoj2. apply Hhi; lia.
      * destruct (Nat.ltb_spec j (UpdSpec.pos s c)); [lia|].
        rewrite Hoj2. apply Hhi; lia.
    + destruct (Ho i ltac:(lia) Ni) as [Hoi1 Hoi2].
      apply lt_le; auto.
      destruct (UpdSpec.DoReplace s c u thr).
      * rewrite Hoi2. apply Hlo. lia.
      * destruct (Nat.ltb_spec i (UpdSpec.pos s c)); [|lia].
        rewrite Hoi2. apply Hlo. lia.
    + destruct (Ho i ltac:(lia) Ni) as [Hoi1 Hoi2].
      destruct (Ho j ltac:(lia) Nj) as [Hoj1 Hoj2].
      destruct (UpdSpec.DoReplace s c u thr).
      * rewrite Hoi2, Hoj2. apply Hs. specialize (Hrepl eq_refl). lia.
      * destruct (Nat.ltb_spec i (UpdSpec.pos s c)),
                 (Nat.ltb_spec j (UpdSpec.pos s c));
          rewrite Hoi2, Hoj2; try lia; apply Hs; lia.
  - intros i Hi. rewrite updatePop_rank by (assumption || lia).
    destruct (Nat.eqb_spec i (UpdSpec.pos s c)) as [Ei|Ni]; [assumption|].
    destruct (Ho i Hi Ni) as [Hoi1 _]. by apply Hn.
Qed.

Lemma init_inv cos u fresh freshc aParamCount aPopSize :
  (0 < aPopSize)%nat ->
  inv (resetCurPopPos cos (initBuffers cos u fresh freshc aParamCount aPopSize)).
Proof.
  intros H0. unfold inv, wf, sorted_upto, nonan_upto. cbn.
  rewrite length_map, !length_seq.
  repeat split; try lia.
  - apply (NoDup_seq 0 (S aPopSize)).
  - intros i k Hik.
    apply (lookup_seq 0 (S aPopSize)) in Hik. lia.
Qed.

Lemma run_op_inv cos s o : inv s -> op_ok o -> inv (run_op cos s o).
Proof.
  intros Hinv Hok. destruct o as [c p d r| |]; cbn.
  - by apply updatePop_inv.
  - exact Hinv.
  - exact Hinv.
Qed.

Lemma run_ops_inv cos l : forall s,
  inv s -> Forall op_ok l -> inv (run_ops cos s l).
Proof.
  induction l as [|o l IH]; intros s Hinv Hok; [exact Hinv|].
  inversion Hok; subst. cbn. apply IH; [by apply run_op_inv|assumption].
Qed.

End PopInvariant.

(** C1.  For every initialized population ([initBuffers], then
    [resetCurPopPos]) and every sequence of [updatePop] calls whose costs are
    not NaN, interleaved with any changes of the active size, the stored
    records are sorted in the ascending order of their rank: for all
    [i < j < CurPopSize] among the [CurPopPos] records stored so far,
    [rank(i) <= rank(j)]; once the population is filled this is every
    [i < j] within [[0, CurPopSize)]. *)
Theorem updatePop_sort_invariant
  (cos : double -> double) (u : CBitePop.state) (fresh : nat -> CBitePop.item)
  (freshc : list Z) (aParamCount aPopSize : nat) (ops : list PopSpec.op) :
  (0 < aPopSize)%nat ->
  Forall PopSpec.op_ok ops ->
  let s := PopSpec.run_ops cos
             (init_pop cos u fresh freshc aParamCount aPopSize) ops in
  (forall i j, (i < j)%nat -> Z.of_nat j < CBitePop.CurPopSize s ->
               (j < CBitePop.CurPopPos s)%nat ->
               Dbl.le (CBitePop.rank_at s i) (CBitePop.rank_at s j)) /\
  (CBitePop.CurPopPos s = CBitePop.PopSize s ->
   CBitePop.CurPopSize s <= Z.of_nat (CBitePop.PopSize s) ->
   forall i j, (i < j)%nat -> Z.of_nat j < CBitePop.CurPopSize s ->
               Dbl.le (CBitePop.rank_at s i) (CBitePop.rank_at s j)).
Proof.
  intros H0 Hok s.
  assert (Hinv : PopSpec.inv s)
    by (apply run_ops_inv; [by apply init_inv|assumption]).
  destruct Hinv as (_ & Hs & _).
  split.
  - intros i j Hij _ Hj. apply Hs. lia.
  - intros Hfull Hle i j Hij Hj. apply Hs. lia.
Qed.

Lemma updatePop_sort_invariant_witness :
  Dbl.le (CBitePop.rank_at ex_pop35 0) (CBitePop.rank_at ex_pop35 1).
Proof.
  refine (proj1 (updatePop_sort_invariant ex_cos ex_blank
                   (fun _ => CBitePop.item0) [0] 1%nat 2%nat
                   [PopSpec.OpUpdate (Dbl.of_Z 5) (PtrExt [2]) false 0;
                    PopSpec.OpUpdate (Dbl.of_Z 3) (PtrExt [1]) false 0] _ _)
            0%nat 1%nat _ _ _).
  - lia.
  - repeat constructor.
  - lia.
  - reflexivity.
  - vm_compute. lia.
Defined.

(** ** The population: rejection and acceptance by a full [updatePop] *)

Section PopReject.
Import CBitePop PopSpec.

Local Arguments CBitePop.bsearch : simpl never.
Local Arguments UpdSpec.pos : simpl never.

Lemma key_eq_finite a b :
  Dbl.is_finite a = true -> Dbl.key a = Dbl.key b ->
  Dbl.fabs (Dbl.sub b a) = Dbl.zero.
Proof.
  destruct a as [sa|sa| |sa ma ea], b as [sb|sb| |sb mb eb];
    try discriminate; intros _ E;
    try (destruct sa); try (destruct sb); try discriminate E;
    try reflexivity.
  all: cbn in E; assert (ea = eb /\ ma = mb) as [-> ->]
    by (split; [injection E; lia|congruence]).
  all: unfold Dbl.sub, SFsub; rewrite Z.min_id, Z.sub_diag; reflexivity.
Qed.

Lemma isEqual_key_eq a b etol :
  Dbl.is_finite a = true -> Dbl.key a = Dbl.key b -> isEqual a b etol = true.
Proof.
  intros Ha E. unfold isEqual. by rewrite (key_eq_finite a b Ha E).
Qed.

Lemma le_antisym_key a b :
  Dbl.is_nan a = false -> Dbl.is_nan b = false ->
  Dbl.le a b -> Dbl.le b a -> Dbl.key a = Dbl.key b.
Proof.
  unfold Dbl.le. intros Ha Hb. rewrite !leb_key by assumption.
  destruct (Dbl.key a) as [[a1 a2] a3], (Dbl.key b) as [[b1 b2] b3].
  unfold Dbl.lexle. intros H1 H2.
  assert (a1 = b1 /\ a2 = b2 /\ a3 = b3) as (-> & -> & ->) by lia. reflexivity.
Qed.

Lemma eqb_le a b : Dbl.eqb a b = true -> Dbl.le a b /\ Dbl.le b a.
Proof.
  unfold Dbl.eqb, SFeqb, Dbl.le, Dbl.leb, SFleb.
  destruct a as [sa|sa| |sa ma ea], b as [sb|sb| |sb mb eb];
    try discriminate; cbn; try (destruct sa); try (destruct sb);
    try discriminate; auto.
  all: destruct (Z.compare_spec ea eb); try discriminate; subst;
    rewrite Z.compare_refl;
    change (Pos.compare_cont Eq ma mb) with (Pos.compare ma mb);
    change (Pos.compare_cont Eq mb ma) with (Pos.compare mb ma);
    rewrite (Pos.compare_antisym ma mb);
    destruct (ma ?= mb)%positive; cbn; try discriminate; auto.
Qed.

Lemma reached_inv cos u fresh freshc aParamCount aPopSize ops :
  (0 < aPopSize)%nat -> Forall op_ok ops ->
  inv (run_ops cos (init_pop cos u fresh freshc aParamCount aPopSize) ops).
Proof. intros. apply run_ops_inv; [by apply init_inv|assumption]. Qed.

Lemma full_ri s : wf s -> full s ->
  UpdSpec.filling s = false /\ UpdSpec.ri s = (PopSize s - 1)%nat /\
  (forall c, UpdSpec.rejects s c = Dbl.gtb c (rank_at s (PopSize s - 1))).
Proof.
  intros (H0 & H1 & _) Hf. unfold full in Hf.
  assert (Hfl : UpdSpec.filling s = false).
  { unfold UpdSpec.filling. rewrite Hf. apply Nat.ltb_irrefl. }
  assert (Hri : UpdSpec.ri s = (PopSize s - 1)%nat).
  { unfold UpdSpec.ri. rewrite Hfl. exact H1. }
  repeat split; auto.
  intros c. unfold UpdSpec.rejects. rewrite Hfl, Hri. reflexivity.
Qed.

End PopReject.

(** C2, as the code has it.  On a full population whose stored costs are
    not NaN, [updatePop] takes its early return - it returns [PopSize], which
    is at or above the current size, and writes nothing - when the
    candidate's cost is strictly greater than the rank of the last record,
    the one at position [PopSize - 1].  Otherwise the candidate is stored at
    the position [p] found by the binary search, the three sizes are
    unchanged, and the result is [p] unless the cost compares equal
    ([isEqual]) to the rank previously at [p]: then the result is [PopSize]
    as well.  In particular a finite cost equal to the rank of the last
    record is stored and still answered with [PopSize]. *)
Theorem updatePop_full_reject_or_store
  (cos : double -> double) (u0 : CBitePop.state)
  (fresh : nat -> CBitePop.item) (freshc : list Z)
  (aParamCount aPopSize : nat) (ops : list PopSpec.op)
  (c : double) (u : params_ptr) (d : bool) (thr : nat) :
  (0 < aPopSize)%nat ->
  Forall PopSpec.op_ok ops ->
  let s := PopSpec.run_ops cos
             (init_pop cos u0 fresh freshc aParamCount aPopSize) ops in
  PopSpec.full s ->
  Dbl.is_nan c = false ->
  let worst := CBitePop.rank_at s (CBitePop.PopSize s - 1) in
  let r := CBitePop.updatePop s c u d thr in
  let p := UpdSpec.pos s c in
  (Dbl.gtb c worst = true -> r = (CBitePop.PopSize s, s)) /\
  (Dbl.gtb c worst = false ->
     (p < CBitePop.PopSize s)%nat /\
     CBitePop.item_at (snd r) p = CBitePop.mkitem (CBitePop.deref s u) c c /\
     CBitePop.PopSize (snd r) = CBitePop.PopSize s /\
     CBitePop.CurPopSize (snd r) = CBitePop.CurPopSize s /\
     CBitePop.CurPopPos (snd r) = CBitePop.CurPopPos s /\
     fst r = (if CBitePop.isEqual c (CBitePop.rank_at s p) (Dbl.pow2 (-52))
              then CBitePop.PopSize s else p) /\
     (Dbl.is_finite c = true -> Dbl.eqb c worst = true ->
      fst r = CBitePop.PopSize s)).
Proof.
  intros H0 Hok s Hfull Hc worst r p.
  assert (Hinv : PopSpec.inv s) by (by apply reached_inv).
  pose proof Hinv as (Hwf & Hs & Hn).
  destruct (full_ri s Hwf Hfull) as (Hfl & Hri & Hrej).
  pose proof Hwf as (Hps & _).
  split.
  - intros Hg. subst r. rewrite updatePop_unfold, Hrej. fold worst.
    by rewrite Hg.
  - intros Hg. specialize (Hrej c). fold worst in Hrej. rewrite Hg in Hrej.
    pose proof (pos_spec s c Hinv Hc Hrej) as (Hp & _ & Hlo & Hhi).
    fold p in Hp, Hlo, Hhi. rewrite Hri in Hp, Hhi.
    pose proof (updatePop_fields s c u d thr) as (F1 & _ & F3 & _ & _ & _ & F7).
    rewrite Hrej, Hfl in F7.
    assert (Hfst : fst r =
      (if CBitePop.isEqual c (CBitePop.rank_at s p) (Dbl.pow2 (-52))
       then CBitePop.PopSize s else p)).
    { subst r. rewrite updatePop_unfold, Hrej. cbn [fst].
      unfold UpdSpec.IsEqualCost. rewrite Hfl. reflexivity. }
    repeat split; try assumption; try lia.
    + subst r. rewrite updatePop_item by (assumption || lia).
      fold p. by rewrite Nat.eqb_refl.
    + intros Hfin Heq. rewrite Hfst.
      apply eqb_le in Heq. destruct Heq as [Hcw Hwc].
      unfold PopSpec.full in Hfull.
      assert (Hnw : Dbl.is_nan worst = false) by (apply Hn; lia).
      assert (Hnp : Dbl.is_nan (CBitePop.rank_at s p) = false)
        by (apply Hn; lia).
      assert (Hpw : Dbl.le (CBitePop.rank_at s p) worst).
      { destruct (decide (p = (CBitePop.PopSize s - 1)%nat)) as [E|].
        - subst worst. rewrite <- E. by apply le_refl.
        - apply Hs. lia. }
      rewrite isEqual_key_eq; auto.
      apply le_antisym_key; auto.
      * apply Hhi; lia.
      * apply le_trans with worst; auto.
Qed.

Lemma updatePop_full_reject_or_store_witness :
  let r := CBitePop.updatePop ex_pop35 (Dbl.of_Z 5) (PtrExt [9]) false 0 in
  fst r = 2%nat /\
  CBitePop.item_at (snd r) 1 = CBitePop.mkitem [9] (Dbl.of_Z 5) (Dbl.of_Z 5).
Proof.
  pose proof (updatePop_full_reject_or_store ex_cos ex_blank
                (fun _ => CBitePop.item0) [0] 1%nat 2%nat
                [PopSpec.OpUpdate (Dbl.of_Z 5) (PtrExt [2]) false 0;
                 PopSpec.OpUpdate (Dbl.of_Z 3) (PtrExt [1]) false 0]
                (Dbl.of_Z 5) (PtrExt [9]) false 0%nat
                ltac:(lia) ltac:(repeat constructor) eq_refl eq_refl) as H.
  destruct H as [_ H]. specialize (H eq_refl).
  destruct H as (_ & Hitem & _ & _ & _ & _ & Hsent).
  split; [exact (Hsent eq_refl eq_refl)|exact Hitem].
Defined.

(** C2, as the claim states it, fails: a candidate whose cost equals the
    rank of the worst record is stored over the worst record, and yet the
    call returns [PopSize], the value that reports "not inserted". *)
Lemma updatePop_equal_cost_returns_PopSize :
  let s := ex_pop35 in
  let c := Dbl.of_Z 5 in
  let r := CBitePop.updatePop s c (PtrExt [9]) false 0 in
  PopSpec.full s /\
  Dbl.eqb c (CBitePop.rank_at s (CBitePop.PopSize s - 1)) = true /\
  Dbl.gtb c (CBitePop.rank_at s (CBitePop.PopSize s - 1)) = false /\
  CBitePop.CurPopSize s <= Z.of_nat (fst r) /\
  CBitePop.params_at s 1 = [2] /\
  CBitePop.params_at (snd r) 1 = [9] /\
  ~ (CBitePop.CurPopSize s <= Z.of_nat (fst r) ->
     Dbl.gtb c (CBitePop.rank_at s (CBitePop.PopSize s - 1)) = true).
Proof.
  vm_compute. repeat split; try reflexivity; try discriminate.
  intros H. discriminate H. intros H'. discriminate H'.
Qed.

(** ** The population: [updateCentroid] *)

(** C3.  The batched branch of [updateCentroid] does not advance [j] past
    the last record of a batch: the next batch starts with that record
    again, so it is counted twice and the last record of the population is
    never added.  With 32 records (one more than [BatchCount]) whose
    coordinates sum to 32064, mean 1002, the centroid comes out as 4.  The
    function also divides by and runs over [PopSize], not [CurPopSize]:
    after the active size of a two-record population was decreased to one,
    the centroid is 500 while the only active record holds 0. *)
Theorem updateCentroid_batched_and_shrunk :
  (PopSpec.full ex_pop32 /\
   CBitePop.CurPopSize ex_pop32 = 32 /\
   CBitePop.PopSize ex_pop32 = 32%nat /\
   coord_sum ex_pop32 32 0 = 32 * 1002 /\
   CBitePop.getCentroid (CBitePop.updateCentroid ex_pop32) = [4]) /\
  (PopSpec.full ex_pop_shrunk /\
   CBitePop.CurPopSize ex_pop_shrunk = 1 /\
   CBitePop.PopSize ex_pop_shrunk = 2%nat /\
   coord_sum ex_pop_shrunk 1 0 = 1 * 0 /\
   CBitePop.getCentroid (CBitePop.updateCentroid ex_pop_shrunk) = [500]).
Proof. vm_compute. repeat split; reflexivity. Qed.

(** ** The parallel populations: the nearest centroid *)

Section ParPops.
Import CBiteParPops.

Lemma fold4_split {A} (f0 f1 f2 f3 : A -> double -> double) (l : list A) :
  forall a0 a1 a2 a3,
  fold_left
    (fun (acc : double * double * double * double) i =>
       let '(s0, s1, s2, s3) := acc in (f0 i s0, f1 i s1, f2 i s2, f3 i s3))
    l (a0, a1, a2, a3) =
  (fold_left (fun s i => f0 i s) l a0, fold_left (fun s i => f1 i s) l a1,
   fold_left (fun s i => f2 i s) l a2, fold_left (fun s i => f3 i s) l a3).
Proof. induction l as [|x l IH]; intros; cbn; [reflexivity|apply IH]. Qed.

Lemma fold3_split {A} (f0 f1 f2 : A -> double -> double) (l : list A) :
  forall a0 a1 a2,
  fold_left
    (fun (acc : double * double * double) i =>
       let '(s0, s1, s2) := acc in (f0 i s0, f1 i s1, f2 i s2))
    l (a0, a1, a2) =
  (fold_left (fun s i => f0 i s) l a0, fold_left (fun s i => f1 i s) l a1,
   fold_left (fun s i => f2 i s) l a2).
Proof. induction l as [|x l IH]; intros; cbn; [reflexivity|apply IH]. Qed.

Lemma fold2_split {A} (f0 f1 : A -> double -> double) (l : list A) :
  forall a0 a1,
  fold_left
    (fun (acc : double * double) i =>
       let '(s0, s1) := acc in (f0 i s0, f1 i s1))
    l (a0, a1) =
  (fold_left (fun s i => f0 i s) l a0, fold_left (fun s i => f1 i s) l a1).
Proof. induction l as [|x l IH]; intros; cbn; [reflexivity|apply IH]. Qed.

Lemma dists4_eq n c0 c1 c2 c3 P :
  dists4 n c0 c1 c2 c3 P =
  (dists1 n c0 P, dists1 n c1 P, dists1 n c2 P, dists1 n c3 P).
Proof.
  unfold dists4, dists1.
  apply (fold4_split (fun i => sq_step (nth i c0 0) (nth i P 0))
                     (fun i => sq_step (nth i c1 0) (nth i P 0))
                     (fun i => sq_step (nth i c2 0) (nth i P 0))
                     (fun i => sq_step (nth i c3 0) (nth i P 0))).
Qed.

Lemma dists3_eq n c0 c1 c2 P :
  dists3 n c0 c1 c2 P = (dists1 n c0 P, dists1 n c1 P, dists1 n c2 P).
Proof.
  unfold dists3, dists1.
  apply (fold3_split (fun i => sq_step (nth i c0 0) (nth i P 0))
                     (fun i => sq_step (nth i c1 0) (nth i P 0))
                     (fun i => sq_step (nth i c2 0) (nth i P 0))).
Qed.

Lemma dists2_eq n c0 c1 P :
  dists2 n c0 c1 P = (dists1 n c0 P, dists1 n c1 P).
Proof.
  unfold dists2, dists1.
  apply (fold2_split (fun i => sq_step (nth i c0 0) (nth i P 0))
                     (fun i => sq_step (nth i c1 0) (nth i P 0))).
Qed.

(** The batched loop fills [s] with the distances computed one by one. *)
Lemma calc_loop_spec n st P fuel : forall k s,
  length s = ParPopCount st ->
  (k <= ParPopCount st)%nat -> (ParPopCount st - k <= fuel)%nat ->
  (forall i, (i < k)%nat -> s !! i = Some (dist n st P i)) ->
  let r := calc_loop fuel n st P k s in
  length r = ParPopCount st /\
  forall i, (i < ParPopCount st)%nat -> r !! i = Some (dist n st P i).
Proof.
  induction fuel as [|fuel IH]; intros k s Hlen Hk Hfuel Hs.
  { cbn. split; [assumption|]. intros i Hi. apply Hs. lia. }
  cbn [calc_loop]. destruct (Nat.ltb_spec k (ParPopCount st)) as [Hlt|Hge].
  2:{ cbn. split; [assumption|]. intros i Hi. apply Hs. lia. }
  set (pc0 := (ParPopCount st - k)%nat).
  set (pc := if (4 <? pc0)%nat then 4%nat else pc0).
  assert (Hpc : (1 <= pc <= 4)%nat /\ (pc <= pc0)%nat).
  { subst pc. destruct (Nat.ltb_spec 4 pc0); lia. }
  rewrite dists4_eq, dists3_eq, dists2_eq.
  apply IH.
  - repeat case_match; rewrite ?length_insert; assumption.
  - lia.
  - lia.
  - intros i Hi.
    destruct (Nat.eqb_spec pc 4) as [E4|N4];
      [|destruct (Nat.eqb_spec pc 3) as [E3|N3];
        [|destruct (Nat.eqb_spec pc 2) as [E2|N2]]].
    + destruct (decide (i = k + 3)%nat) as [->|];
        [by rewrite list_lookup_insert_eq by (rewrite ?length_insert; lia)|].
      rewrite list_lookup_insert_ne by lia.
      destruct (decide (i = k + 2)%nat) as [->|];
        [by rewrite list_lookup_insert_eq by (rewrite ?length_insert; lia)|].
      rewrite list_lookup_insert_ne by lia.
      destruct (decide (i = k + 1)%nat) as [->|];
        [by rewrite list_lookup_insert_eq by (rewrite ?length_insert; lia)|].
      rewrite list_lookup_insert_ne by lia.
      destruct (decide (i = k)) as [->|];
        [by rewrite list_lookup_insert_eq by lia|].
      rewrite list_lookup_insert_ne by lia. apply Hs. lia.
    + destruct (decide (i = k + 2)%nat) as [->|];
        [by rewrite list_lookup_insert_eq by (rewrite ?length_insert; lia)|].
      rewrite list_lookup_insert_ne by lia.
      destruct (decide (i = k + 1)%nat) as [->|];
        [by rewrite list_lookup_insert_eq by (rewrite ?length_insert; lia)|].
      rewrite list_lookup_insert_ne by lia.
      destruct (decide (i = k)) as [->|];
        [by rewrite list_lookup_insert_eq by lia|].
      rewrite list_lookup_insert_ne by lia. apply Hs. lia.
    + destruct (decide (i = k + 1)%nat) as [->|];
        [by rewrite list_lookup_insert_eq by (rewrite ?length_insert; lia)|].
      rewrite list_lookup_insert_ne by lia.
      destruct (decide (i = k)) as [->|];
        [by rewrite list_lookup_insert_eq by lia|].
      rewrite list_lookup_insert_ne by lia. apply Hs. lia.
    + destruct (decide (i = k)) as [->|];
        [by rewrite list_lookup_insert_eq by lia|].
      rewrite list_lookup_insert_ne by lia. apply Hs. lia.
Qed.

Lemma calcCentroidDists_unbatched n st P s :
  length s = ParPopCount st ->
  calcCentroidDists n st P s = all_dists n st P.
Proof.
  intros Hlen. unfold calcCentroidDists.
  destruct (calc_loop_spec n st P (ParPopCount st) 0 s) as [Hl Hr];
    try assumption; try lia.
  apply list_eq. intros i. unfold all_dists.
  rewrite list_lookup_fmap.
  destruct (Nat.lt_ge_cases i (ParPopCount st)) as [Hi|Hi].
  - rewrite Hr by assumption. by rewrite lookup_seq_lt.
  - rewrite lookup_seq_ge by assumption. apply lookup_ge_None. lia.
Qed.

Lemma min_fold_spec (s : list double) (n : nat) :
  (forall i, (i <= n)%nat -> Dbl.is_nan (nth i s Dbl.zero) = false) ->
  let r := fold_left (min_step s) (seq 1 n) (0%nat, nth 0 s Dbl.zero) in
  (fst r <= n)%nat /\ snd r = nth (fst r) s Dbl.zero /\
  (forall i, (i <= n)%nat -> Dbl.le (snd r) (nth i s Dbl.zero)) /\
  (forall i, (i <= n)%nat -> Dbl.le (nth i s Dbl.zero) (snd r) ->
             (i <= fst r)%nat).
Proof.
  induction n as [|n IH]; intros Hn.
  { cbn. repeat split; try lia.
    intros i Hi. replace i with 0%nat by lia. apply le_refl, Hn. lia. }
  rewrite seq_S, fold_left_app. cbn [fold_left Nat.add].
  destruct IH as (H1 & H2 & H3 & H4); [intros; apply Hn; lia|].
  destruct (fold_left (min_step s) (seq 1 n) (0%nat, nth 0 s Dbl.zero))
    as [pp d]. cbn [fst snd] in *. unfold min_step.
  assert (Hd : Dbl.is_nan d = false) by (rewrite H2; apply Hn; lia).
  assert (Hx : Dbl.is_nan (nth (S n) s Dbl.zero) = false) by (apply Hn; lia).
  destruct (Dbl.leb (nth (S n) s Dbl.zero) d) eqn:Hle; cbn [fst snd].
  - repeat split; try lia.
    + intros i Hi. destruct (decide (i = S n)) as [->|]; [by apply le_refl|].
      apply le_trans with d; [exact Hx|exact Hd|apply Hn; lia|exact Hle|].
      apply H3; lia.
  - assert (Hlt : Dbl.lt d (nth (S n) s Dbl.zero)).
    { apply geb_false_lt; auto. }
    repeat split; try lia; try assumption.
    + intros i Hi. destruct (decide (i = S n)) as [->|];
        [by apply lt_le|apply H3; lia].
    + intros i Hi Hi'. destruct (decide (i = S n)) as [->|].
      * exfalso. eapply lt_not_le; [| |exact Hlt|exact Hi']; auto.
      * specialize (H4 i ltac:(lia) Hi'). lia.
Qed.

End ParPops.

(** C7, as the code has it.  For every candidate and every bank of
    [ParPopCount >= 1] parallel populations whose distances are not NaN,
    [getMinDistParPop] returns the index of a population whose centroid has
    the least squared distance to the candidate; among several populations
    at the least distance it returns the highest index (the loop replaces
    the current choice on [<=]); and the distances it computes in groups of
    up to four are the distances computed one population at a time. *)
Theorem getMinDistParPop_nearest_highest
  (ParamCount : nat) (st : CBiteParPops.state) (Cost : double)
  (Params : list Z) :
  (1 <= CBiteParPops.ParPopCount st)%nat ->
  length (CBiteParPops.ParValues st) = CBiteParPops.ParPopCount st ->
  forallb (fun d => negb (Dbl.is_nan d))
          (CBiteParPops.all_dists ParamCount st Params) = true ->
  let r := CBiteParPops.getMinDistParPop ParamCount st Cost Params in
  let dist := CBiteParPops.dist ParamCount st Params in
  (fst r < CBiteParPops.ParPopCount st)%nat /\
  (forall k, (k < CBiteParPops.ParPopCount st)%nat ->
             Dbl.le (dist (fst r)) (dist k)) /\
  (forall k, (k < CBiteParPops.ParPopCount st)%nat ->
             Dbl.le (dist k) (dist (fst r)) -> (k <= fst r)%nat) /\
  CBiteParPops.ParValues (snd r) =
    CBiteParPops.all_dists ParamCount st Params.
Proof.
  intros HK Hlen Hnan r dist.
  assert (Hnth : forall k, (k < CBiteParPops.ParPopCount st)%nat ->
     nth k (CBiteParPops.all_dists ParamCount st Params) Dbl.zero = dist k).
  { intros k Hk. unfold CBiteParPops.all_dists.
    apply nth_lookup_Some. rewrite list_lookup_fmap, lookup_seq_lt by lia.
    reflexivity. }
  assert (Hnn : forall k, (k < CBiteParPops.ParPopCount st)%nat ->
     Dbl.is_nan (dist k) = false).
  { intros k Hk. rewrite forallb_forall in Hnan.
    apply negb_true_iff, Hnan. rewrite <- (Hnth k Hk). apply nth_In.
    unfold CBiteParPops.all_dists. by rewrite length_map, length_seq. }
  subst r. unfold CBiteParPops.getMinDistParPop.
  rewrite calcCentroidDists_unbatched by assumption.
  pose proof (min_fold_spec (CBiteParPops.all_dists ParamCount st Params)
                (CBiteParPops.ParPopCount st - 1)) as H.
  destruct H as (H1 & H2 & H3 & H4).
  { intros i Hi. rewrite Hnth by lia. apply Hnn. lia. }
  destruct (fold_left _ _ _) as [pp d]. cbn [fst snd] in *.
  rewrite Hnth in H2 by lia. subst d.
  repeat split; try lia.
  - intros k Hk. rewrite <- (Hnth k Hk). apply H3. lia.
  - intros k Hk Hle. apply H4; [lia|]. by rewrite Hnth.
Qed.

Lemma getMinDistParPop_nearest_highest_witness :
  fst (CBiteParPops.getMinDistParPop 1 ex_parpops3 Dbl.zero [5]) = 2%nat /\
  Dbl.le (CBiteParPops.dist 1 ex_parpops3 [5] 2)
         (CBiteParPops.dist 1 ex_parpops3 [5] 0).
Proof.
  pose proof (getMinDistParPop_nearest_highest 1 ex_parpops3 Dbl.zero [5]
                ltac:(vm_compute; lia) eq_refl eq_refl) as (_ & H & _).
  split; [reflexivity|]. exact (H 0%nat ltac:(vm_compute; lia)).
Defined.

(** C7, as the claim states it, fails on ties: with two populations at the
    same distance the answer is index 1, not the lowest index 0. *)
Lemma getMinDistParPop_tie_not_lowest :
  let dist := CBiteParPops.dist 1 ex_parpops_tie [5] in
  dist 0%nat = dist 1%nat /\
  Dbl.le (dist 0%nat) (dist 1%nat) /\
  fst (CBiteParPops.getMinDistParPop 1 ex_parpops_tie Dbl.zero [5]) = 1%nat /\
  fst (CBiteParPops.getMinDistParPop 1 ex_parpops_tie Dbl.zero [5]) <> 0%nat.
Proof. vm_compute. repeat split; try reflexivity. discriminate. Qed.

(** ** The binding layer *)

Section Binding.
Import PyExt.

Lemma bounds_crossed_spec lower upper :
  bounds_crossed lower upper = true <->
  exists i l u, lower !! i = Some l /\ upper !! i = Some u /\
                Dbl.gtb l u = true.
Proof.
  unfold bounds_crossed. rewrite existsb_exists. split.
  - intros ([l u] & Hin & Hg). apply list_elem_of_In in Hin.
    apply list_elem_of_lookup in Hin as [i Hi].
    apply lookup_zip_with_Some in Hi as (l' & u' & E & Hl & Hu).
    inversion E; subst. eauto 10.
  - intros (i & l & u & Hl & Hu & Hg). exists (l, u). split; [|exact Hg].
    apply list_elem_of_In, list_elem_of_lookup. exists i.
    apply lookup_zip_with_Some. eauto 10.
Qed.

End Binding.

(** C9, as the code has it.  When both bounds are numeric sequences, the
    binding raises its error and returns - so that [biteopt_minimize] is
    not reached, no optimizer is constructed and the objective function is
    not called - exactly when the two lengths differ or [lower[ i ] >
    upper[ i ]] for some [i]; it also does so when a bound is not a
    sequence or holds a non-numeric element.  In every other case,
    including two empty sequences ([N = 0]), it calls the driver with
    [N = lower.size()]. *)
Theorem minimize_func_rejects
  (R : Type)
  (driver : nat -> PyExt.PyObject -> list double -> list double ->
            Z -> Z -> Z -> Z -> R)
  (a : PyExt.args) :
  (PyExt.PyObject_GetIter (PyExt.lower_py a) = None ->
   PyExt.minimize_func R driver a = inl PyExt.ErrList2nd) /\
  (forall li, PyExt.PyObject_GetIter (PyExt.lower_py a) = Some li ->
     (PyExt.collect li = None ->
      PyExt.minimize_func R driver a = inl PyExt.ErrNumeric) /\
     (forall lower, PyExt.collect li = Some lower ->
        (PyExt.PyObject_GetIter (PyExt.upper_py a) = None ->
         PyExt.minimize_func R driver a = inl PyExt.ErrList3rd) /\
        (forall ui, PyExt.PyObject_GetIter (PyExt.upper_py a) = Some ui ->
           (PyExt.collect ui = None ->
            PyExt.minimize_func R driver a = inl PyExt.ErrNumeric) /\
           (forall upper, PyExt.collect ui = Some upper ->
              (length lower <> length upper ->
               PyExt.minimize_func R driver a = inl PyExt.ErrLengths) /\
              (length lower = length upper ->
               (exists i l u, lower !! i = Some l /\ upper !! i = Some u /\
                              Dbl.gtb l u = true) ->
               PyExt.minimize_func R driver a = inl PyExt.ErrBounds) /\
              (length lower = length upper ->
               ~ (exists i l u, lower !! i = Some l /\ upper !! i = Some u /\
                                Dbl.gtb l u = true) ->
               PyExt.minimize_func R driver a =
                 inr (driver (length lower) (PyExt.func_py a) lower upper
                        (PyExt.iter_py a) (PyExt.M_py a) (PyExt.attc_py a)
                        (PyExt.stopc_py a))))))).
Proof.
  unfold PyExt.minimize_func. split; [intros ->; reflexivity|].
  intros li ->. split; [intros ->; reflexivity|].
  intros lower ->. split; [intros ->; reflexivity|].
  intros ui ->. split; [intros ->; reflexivity|].
  intros upper ->. split; [|split].
  - intros Hne. apply Nat.eqb_neq in Hne. by rewrite Hne.
  - intros He Hx. apply Nat.eqb_eq in He. rewrite He. cbn.
    apply bounds_crossed_spec in Hx. by rewrite Hx.
  - intros He Hx. apply Nat.eqb_eq in He. rewrite He. cbn.
    rewrite <- bounds_crossed_spec in Hx.
    apply not_true_is_false in Hx. by rewrite Hx.
Qed.

Lemma minimize_func_rejects_witness :
  PyExt.minimize_func _ ex_driver ex_args_crossed = inl PyExt.ErrBounds.
Proof.
  pose proof (minimize_func_rejects _ ex_driver ex_args_crossed) as [_ H].
  destruct (H _ eq_refl) as [_ H1].
  destruct (H1 _ eq_refl) as [_ H2].
  destruct (H2 _ eq_refl) as [_ H3].
  destruct (H3 _ eq_refl) as (_ & H4 & _).
  apply H4; [reflexivity|].
  exists 0%nat, (Dbl.of_Z 2), (Dbl.of_Z 1). repeat split; reflexivity.
Defined.

(** C9, as the claim states it, fails for [N <= 0]: two empty sequences
    violate the precondition [N > 0], and the binding goes on to the driver
    with [N = 0] instead of raising an error. *)
Lemma minimize_func_accepts_N0 :
  PyExt.violates [] [] /\
  PyExt.collect [] = Some [] /\
  PyExt.minimize_func _ ex_driver ex_args_empty = inr (0%nat, [], []).
Proof. split; [left; cbn; lia|]. split; reflexivity. Qed.

(** ** The range wrap: [wrapParam] and [wrapParamReal] *)

Section Wrap.

Lemma leb_nonan a b :
  Dbl.leb a b = true -> Dbl.is_nan a = false /\ Dbl.is_nan b = false.
Proof.
  unfold Dbl.leb, SFleb.
  destruct a as [sa|sa| |sa ma ea], b as [sb|sb| |sb mb eb];
    cbn; try discriminate; auto.
Qed.

Lemma le_ltb_false a b : Dbl.le a b -> Dbl.ltb b a = false.
Proof.
  intros H. destruct (leb_nonan _ _ H) as [Ha Hb].
  destruct (Dbl.ltb b a) eqn:E; [|reflexivity].
  exfalso. by apply (lt_not_le b a Hb Ha E).
Qed.

Lemma le_gtb_false a b : Dbl.le a b -> Dbl.gtb a b = false.
Proof.
  intros H. destruct (leb_nonan _ _ H) as [Ha Hb].
  by apply gtb_false_le.
Qed.

Lemma wrapParamReal_inside s rnd v i :
  Dbl.le (nth i (CBiteOptBase.MinValues s) Dbl.zero) v ->
  Dbl.le v (nth i (CBiteOptBase.MaxValues s) Dbl.zero) ->
  CBiteOptBase.wrapParamReal s rnd v i = (v, rnd).
Proof.
  intros Hlo Hhi. unfold CBiteOptBase.wrapParamReal. cbv zeta.
  by rewrite (le_ltb_false _ _ Hlo), (le_gtb_false _ _ Hhi).
Qed.

End Wrap.




(** ** The selector: the choice stays inside [[0, Count)] *)

Section Selector.

Import CBiteSelBase SelSpec.

Lemma zset_length l i x : length (zset l i x) = length l.
Proof.
  unfold zset. destruct (i <? 0); [reflexivity|]. apply length_insert.
Qed.

Lemma zget_zset l i j x :
  0 <= j ->
  zget (zset l i x) j =
  if (j =? i) && (i <? Z.of_nat (length l)) then x else zget l j.
Proof.
  intros Hj. unfold zget, zset.
  destruct (Z.ltb_spec j 0); [lia|].
  destruct (Z.ltb_spec i 0).
  { destruct (Z.eqb_spec j i); [lia|reflexivity]. }
  destruct (Z.eqb_spec j i) as [->|Hne]; cbn [andb].
  - destruct (Z.ltb_spec i (Z.of_nat (length l))).
    + rewrite (nth_lookup _ _ 0), list_lookup_insert_eq by lia. reflexivity.
    + rewrite list_insert_ge by lia. reflexivity.
  - rewrite !(nth_lookup _ _ 0), list_lookup_insert_ne by lia. reflexivity.
Qed.

Lemma inrange_zset c n l i x :
  inrange c n l -> 0 <= x < c -> inrange c n (zset l i x).
Proof.
  intros H Hx j Hj. rewrite zget_zset by lia.
  destruct (_ && _); [exact Hx|by apply H].
Qed.

Lemma memmove_length {A} (buf : list A) dst src n :
  length (memmove buf dst src n) = length buf.
Proof. unfold memmove. apply length_inserts. Qed.

Lemma zget_memmove (buf : list Z) dst src n j :
  0 <= j -> (src + n <= length buf)%nat -> (dst + n <= length buf)%nat ->
  zget (memmove buf dst src n) j =
  if (Z.of_nat dst <=? j) && (j <? Z.of_nat (dst + n))
  then zget buf (j - Z.of_nat dst + Z.of_nat src) else zget buf j.
Proof.
  intros Hj Hs Hd. unfold zget, memmove.
  destruct (Z.ltb_spec j 0); [lia|].
  assert (Hl : length (take n (drop src buf)) = n).
  { rewrite length_take, length_drop. lia. }
  destruct (Z.leb_spec (Z.of_nat dst) j); cbn [andb].
  - destruct (Z.ltb_spec j (Z.of_nat (dst + n))).
    + destruct (Z.ltb_spec (j - Z.of_nat dst + Z.of_nat src) 0); [lia|].
      rewrite !(nth_lookup _ _ 0).
      rewrite list_lookup_inserts by (rewrite ?Hl; lia).
      rewrite lookup_take_lt by lia. rewrite lookup_drop.
      do 2 f_equal. lia.
    + rewrite !(nth_lookup _ _ 0).
      rewrite list_lookup_inserts_ge by (rewrite ?Hl; lia). reflexivity.
  - rewrite !(nth_lookup _ _ 0).
    rewrite list_lookup_inserts_lt by lia. reflexivity.
Qed.

Lemma inrange_memmove c n (buf : list Z) dst src cnt :
  inrange c n buf ->
  (src + cnt <= length buf)%nat -> (dst + cnt <= length buf)%nat ->
  Z.of_nat (src + cnt) <= n ->
  inrange c n (memmove buf dst src cnt).
Proof.
  intros H Hs Hd Hn j Hj. rewrite zget_memmove by lia.
  destruct (Z.leb_spec (Z.of_nat dst) j); cbn [andb]; [|by apply H].
  destruct (Z.ltb_spec j (Z.of_nat (dst + cnt))); apply H; lia.
Qed.

Lemma slot_index s j i :
  inv s -> 0 <= j < SlotCount -> 0 <= i < CountSp s ->
  0 <= zget (Sels s) j + i < SlotCount * CountSp s /\
  zget (Sels s) j + i < Z.of_nat (length (SelBuf s)).
Proof.
  intros (H0 & Hsp & _ & _ & _ & Hsl & Hlen & _) Hj Hi.
  destruct (Hsl j Hj) as (k & Hk & ->). unfold SlotCount in *. nia.
Qed.

Lemma sels_get_range s j i :
  inv s -> 0 <= j < SlotCount -> 0 <= i < CountSp s ->
  0 <= sels_get s j i < Count s.
Proof.
  intros Hinv Hj Hi. unfold sels_get.
  pose proof Hinv as (H0 & Hsp & H1 & H31 & Hl & Hsl & Hlen & Hcap & Hr & _).
  apply Hr. apply (slot_index s j i Hinv Hj Hi).
Qed.

Lemma with_buf_inv s buf :
  inv s -> length buf = length (SelBuf s) ->
  inrange (Count s) (SlotCount * CountSp s) buf -> inv (with_buf s buf).
Proof.
  intros (H0 & Hsp & H1 & H31 & Hl & Hsl & Hlen & Hcap & Hr & Hs) Hb Hin.
  unfold inv. cbn. rewrite Hb. split_and!; try assumption; apply Hs.
Qed.

Lemma swap_sels_inv s a b :
  inv s -> 0 <= a < SlotCount -> 0 <= b < SlotCount -> inv (swap_sels s a b).
Proof.
  intros (H0 & Hsp & H1 & H31 & Hl & Hsl & Hlen & Hcap & Hr & Hs) Ha Hb.
  unfold inv, swap_sels. cbn. rewrite !zset_length.
  split_and!; try assumption; try apply Hs.
  intros j Hj. rewrite !zget_zset by lia. rewrite zset_length.
  destruct (_ && _); [by apply Hsl|].
  destruct (_ && _); by apply Hsl.
Qed.

Lemma select_inv getPowInt s r :
  (forall p n r, 0 < n -> 0 <= fst (getPowInt p n r) < n) ->
  inv s ->
  inv (snd (fst (select getPowInt s r))) /\
  0 <= fst (fst (select getPowInt s r)) < Count s /\
  Count (snd (fst (select getPowInt s r))) = Count s.
Proof.
  intros Hd Hinv. unfold select.
  pose proof (Hd (Dbl.add Dbl.one Dbl.half) SlotCount r ltac:(reflexivity))
    as Hslot.
  destruct (getPowInt _ SlotCount r) as [slot r1]. cbn [fst] in Hslot.
  assert (Hc : 0 < CountSp s) by (destruct Hinv as (? & ? & _); lia).
  pose proof (Hd (SelPower s) (CountSp s) r1 Hc) as Hselp.
  destruct (getPowInt _ (CountSp s) r1) as [selp r2]. cbn [fst] in Hselp.
  cbn [fst snd].
  pose proof (sels_get_range s slot selp Hinv Hslot Hselp) as Hsel.
  split; [|split; [exact Hsel|reflexivity]].
  destruct Hinv as (H0 & Hsp & H1 & H31 & Hl & Hsl & Hlen & Hcap & Hr & Hs).
  unfold inv. cbn. split_and!; try assumption; try lia; apply Hsel.
Qed.

Lemma decr_inv s : inv s -> inv (decr s).
Proof.
  intros Hinv. unfold decr.
  set (s1 := if Selp s <? CountSp1 s then _ else s).
  assert (H1 : inv s1 /\ Slot s1 = Slot s).
  { subst s1. destruct (Z.ltb_spec (Selp s) (CountSp1 s)); [|by split].
    pose proof Hinv as (H0 & Hsp & Hc1 & H31 & Hl & Hsl & Hlen & Hcap & Hr & Hs).
    split; [|reflexivity].
    apply with_buf_inv.
    - apply with_buf_inv; [assumption|apply zset_length|].
      apply inrange_zset; [assumption|].
      apply sels_get_range; [assumption|lia..].
    - cbn. unfold sels_set. cbn. by rewrite !zset_length.
    - cbn. unfold sels_set. cbn.
      apply inrange_zset; [|apply Hs].
      apply inrange_zset; [assumption|].
      apply sels_get_range; [assumption|lia..]. }
  destruct H1 as [Hi Hsl1].
  destruct (Z.ltb_spec (Slot s1) (SlotCount - 1)); [|assumption].
  pose proof Hinv as (_ & _ & _ & _ & _ & _ & _ & _ & _ & Hs & _).
  apply swap_sels_inv; [assumption|unfold SlotCount in *; lia..].
Qed.

Lemma valid_mantissa sg m e :
  Dbl.valid (S754_finite sg m e) = true -> Z.pos m < 2 ^ 53.
Proof.
  unfold Dbl.valid, valid_binary, bounded, canonical_mantissa, fexp, emin.
  intros H. apply andb_prop in H as [H _].
  apply Z.eqb_eq in H.
  pose proof (digits2_bounds m) as [_ Hd].
  assert (Z.pos (digits2_pos m) <= 53) by (unfold Dbl.prec in H; lia).
  eapply Z.lt_le_trans; [exact Hd|]. apply Z.pow_le_mono_r; lia.
Qed.

(** A canonical double of [[0; 1]]. *)
Lemma unit_bnd v :
  Dbl.valid v = true -> Dbl.le Dbl.zero v -> Dbl.le v Dbl.one ->
  Dbl.bnd v false 1 0.
Proof.
  intros Hv H0 H1.
  destruct (leb_nonan _ _ H0) as [_ Hn].
  unfold Dbl.le in H0, H1.
  rewrite leb_key in H0, H1 by (assumption || reflexivity).
  destruct v as [sg|sg| |sg m e]; try discriminate Hn; [exact I| |].
  - destruct sg; cbn in H0, H1; lia.
  - apply valid_mantissa in Hv.
    destruct sg; cbn in H0, H1; [lia|].
    cbn. split; [reflexivity|]. split; [lia|].
    rewrite Z.mul_1_l, Z.sub_0_l.
    destruct H1 as [H1|[_ [H1|[-> H1]]]]; [lia| |exact H1].
    eapply Z.le_trans; [apply Z.lt_le_incl, Hv|].
    apply Z.pow_le_mono_r; lia.
Qed.

Lemma incr_dp_range s v :
  0 <= Selp s < 2 ^ 31 -> op_ok (OpIncr v) ->
  - Selp s <= incr_dp s v <= 0.
Proof.
  intros Hp (Hv & H0 & H1). pose proof (unit_bnd v Hv H0 H1) as Hb.
  unfold incr_dp.
  destruct (Z.eq_dec (Selp s) 0) as [E|E].
  { rewrite E. change (Dbl.of_Z (- 0)) with (S754_zero false).
    destruct v as [sg|sg| |sg m e]; try contradiction;
      unfold Dbl.to_int, Dbl.mul; cbn;
      match goal with |- context [if ?c then _ else _] =>
        change c with true end; lia. }
  pose proof (of_Z_bnd (- Selp s) (Selp s) 0 ltac:(lia) ltac:(lia)
                ltac:(lia)) as Hz.
  replace (- Selp s <? 0) with true in Hz by (symmetry; apply Z.ltb_lt; lia).
  pose proof (mul_bnd _ _ _ _ _ _ _ _ Hz Hb ltac:(lia) ltac:(lia) ltac:(lia)
                ltac:(lia)) as Hm1.
  pose proof (mul_bnd _ _ _ _ _ _ _ _ Hm1 Hb ltac:(lia) ltac:(lia) ltac:(lia)
                ltac:(lia)) as Hm2.
  cbn [xorb Z.add] in Hm2.
  destruct (to_int_bnd _ _ _ _ Hm2 ltac:(lia) ltac:(lia) ltac:(lia))
    as (Ha & _ & Hneg).
  specialize (Hneg eq_refl). lia.
Qed.

Lemma incr_inv s v : inv s -> op_ok (OpIncr v) -> inv (incr s v).
Proof.
  intros Hinv Hok. unfold incr.
  pose proof Hinv as (H0 & Hsp & Hc1 & H31 & Hl & Hsl & Hlen & Hcap & Hr & Hs).
  destruct Hs as (Hslot & Hselp & Hsel).
  pose proof (incr_dp_range s v ltac:(lia) Hok) as Hdp.
  set (dp := incr_dp s v) in *.
  set (s1 := if dp <? 0 then _ else s).
  assert (H1 : inv s1 /\ Slot s1 = Slot s).
  { subst s1. destruct (Z.ltb_spec dp 0); [|by split].
    destruct (Z.eqb_spec dp (-1)) as [E|E].
    - split; [|reflexivity].
      apply with_buf_inv.
      + apply with_buf_inv; [assumption|apply zset_length|].
        apply inrange_zset; [assumption|].
        apply sels_get_range; [assumption|lia..].
      + cbn. unfold sels_set. cbn. by rewrite !zset_length.
      + cbn. unfold sels_set. cbn.
        apply inrange_zset; [|assumption].
        apply inrange_zset; [assumption|].
        apply sels_get_range; [assumption|lia..].
    - split; [|reflexivity].
      pose proof (slot_index s (Slot s) (Selp s) Hinv Hslot Hselp)
        as [Hi1 Hi2].
      pose proof (slot_index s (Slot s) (Selp s + dp) Hinv Hslot
                    ltac:(lia)) as [Hj1 Hj2].
      apply with_buf_inv.
      + apply with_buf_inv; [assumption|apply memmove_length|].
        apply inrange_memmove; [assumption|lia..].
      + cbn. unfold sels_set. cbn.
        by rewrite zset_length, memmove_length.
      + cbn. unfold sels_set. cbn.
        apply inrange_zset; [|assumption].
        apply inrange_memmove; [assumption|lia..]. }
  destruct H1 as [Hi Hsl1].
  destruct (Z.ltb_spec 0 (Slot s1)); [|assumption].
  apply swap_sels_inv; [assumption|unfold SlotCount in *; lia..].
Qed.

(** The loops of [reset]. *)
Lemma fill_inner_spec base x (m : nat) : forall b,
  0 <= base -> base + Z.of_nat m <= Z.of_nat (length b) ->
  let b' := fold_left (fun b' k => zset b' (base + k) x)
                      (map Z.of_nat (seq 0 m)) b in
  length b' = length b /\
  forall j, 0 <= j ->
    zget b' j =
    if (base <=? j) && (j <? base + Z.of_nat m) then x else zget b j.
Proof.
  induction m as [|m IH]; intros b Hb Hl; cbv zeta.
  { cbn. split; [reflexivity|]. intros j Hj.
    destruct (Z.leb_spec base j), (Z.ltb_spec j (base + Z.of_nat 0));
      cbn; reflexivity || lia. }
  rewrite seq_S, map_app, fold_left_app. cbn [map fold_left Nat.add].
  destruct (IH b Hb ltac:(lia)) as [Hlen Hget].
  rewrite zset_length. split; [exact Hlen|].
  intros j Hj. rewrite zget_zset, Hlen, Hget by lia.
  destruct (Z.eqb_spec j (base + Z.of_nat m)),
           (Z.ltb_spec (base + Z.of_nat m) (Z.of_nat (length b))),
           (Z.leb_spec base j), (Z.ltb_spec j (base + Z.of_nat m)),
           (Z.ltb_spec j (base + Z.of_nat (S m)));
    cbn; reflexivity || lia.
Qed.

Lemma fill_slot_spec sp (cnt : nat) : forall b,
  0 <= sp -> sp + Z.of_nat cnt * 5 <= Z.of_nat (length b) ->
  let b' := fill_slot (Z.of_nat cnt) 5 sp b in
  length b' = length b /\
  forall j, 0 <= j ->
    (sp <= j < sp + Z.of_nat cnt * 5 -> 0 <= zget b' j < Z.of_nat cnt) /\
    (~ sp <= j < sp + Z.of_nat cnt * 5 -> zget b' j = zget b j).
Proof.
  unfold fill_slot, zrange. rewrite Nat2Z.id.
  induction cnt as [|cnt IH]; intros b Hsp Hl; cbv zeta.
  { cbn. split; [reflexivity|]. intros j Hj. split; [lia|reflexivity]. }
  rewrite seq_S, map_app, fold_left_app. cbn [map fold_left Nat.add].
  destruct (IH b Hsp ltac:(lia)) as [Hlen Hget].
  set (b1 := fold_left _ (map Z.of_nat (seq 0 cnt)) b) in *.
  change (map Z.of_nat (seq 0 (Z.to_nat 5)))
    with (map Z.of_nat (seq 0 5)).
  destruct (fill_inner_spec (sp + Z.of_nat cnt * 5) (Z.of_nat cnt) 5 b1
              ltac:(lia) ltac:(lia)) as [Hlen2 Hget2].
  match goal with |- length ?l = _ /\ _ =>
    match type of Hlen2 with length ?l2 = _ =>
      replace l with l2 by reflexivity end end.
  split; [congruence|].
  intros j Hj. rewrite Hget2 by lia.
  destruct (Hget j Hj) as [Hin Hout].
  destruct (Z.leb_spec (sp + Z.of_nat cnt * 5) j),
           (Z.ltb_spec j (sp + Z.of_nat cnt * 5 + Z.of_nat 5)); cbn [andb].
  - split; [lia|lia].
  - split; [lia|]. intros Hn. apply Hout. lia.
  - split; [|intros Hn; apply Hout; lia].
    intros Hr. specialize (Hin ltac:(lia)). lia.
  - lia.
Qed.

Lemma mix_slot_spec getInt c N countsp sp (n : nat) : forall b r,
  (forall n r, 0 < n -> 0 <= fst (getInt n r) < n) ->
  0 < countsp -> 0 <= sp -> sp + countsp <= N -> 0 < c ->
  inrange c N b ->
  length (fst (mix_slot getInt n countsp sp b r)) = length b /\
  inrange c N (fst (mix_slot getInt n countsp sp b r)).
Proof.
  induction n as [|n IH]; intros b r Hd Hc Hsp HN H0 Hin;
    cbn [mix_slot]; [by split|].
  pose proof (Hd countsp r Hc) as H1.
  destruct (getInt countsp r) as [i1 r1]. cbn [fst] in H1.
  pose proof (Hd countsp r1 Hc) as H2.
  destruct (getInt countsp r1) as [i2 r2]. cbn [fst] in H2.
  match goal with |- context [mix_slot getInt n countsp sp ?b2 r2] =>
    destruct (IH b2 r2 Hd Hc Hsp HN H0) as [Hl Hr] end.
  - apply inrange_zset; [|apply Hin; lia].
    apply inrange_zset; [assumption|apply Hin; lia].
  - split; [|exact Hr]. by rewrite Hl, !zset_length.
Qed.

Lemma reset_slot_spec getInt c countsp (jn : nat) b p r b' p' r' :
  (forall n r, 0 < n -> 0 <= fst (getInt n r) < n) ->
  0 < c -> countsp = c * 5 -> (jn < 5)%nat ->
  5 * countsp <= Z.of_nat (length b) ->
  inrange c (Z.of_nat jn * countsp) b -> length p = 5%nat ->
  (forall j', 0 <= j' < Z.of_nat jn -> zget p j' = j' * countsp) ->
  reset_slot getInt c 5 countsp (b, p, r) (Z.of_nat jn) = (b', p', r') ->
  length b' = length b /\
  inrange c (Z.of_nat (S jn) * countsp) b' /\ length p' = 5%nat /\
  (forall j', 0 <= j' < Z.of_nat (S jn) -> zget p' j' = j' * countsp).
Proof.
  intros Hd Hc Hsp Hj Hl Hin Hp Hsl. unfold reset_slot.
  set (sp := Z.of_nat jn * countsp).
  assert (Hc' : c = Z.of_nat (Z.to_nat c)) by lia.
  destruct (fill_slot_spec sp (Z.to_nat c) b ltac:(lia) ltac:(nia))
    as [Hl1 Hg1].
  rewrite <- Hc' in Hl1, Hg1.
  set (b1 := fill_slot c 5 sp b) in *.
  assert (Hin1 : inrange c (Z.of_nat (S jn) * countsp) b1).
  { intros i Hi. destruct (Hg1 i ltac:(lia)) as [Ha Hb].
    destruct (Z.lt_ge_cases i sp).
    - rewrite Hb by lia. apply Hin. lia.
    - apply Ha. lia. }
  destruct (mix_slot_spec getInt c (Z.of_nat (S jn) * countsp) countsp sp
              (Z.to_nat (countsp * 5)) b1 r Hd ltac:(lia) ltac:(lia)
              ltac:(lia) Hc Hin1) as [Hl2 Hin2].
  destruct (mix_slot getInt _ countsp sp b1 r) as [b2 r1].
  cbn [fst] in Hl2, Hin2. intros E. inversion E; subst b' p' r'.
  split; [congruence|]. split; [exact Hin2|].
  split; [by rewrite zset_length|].
  intros j' Hj'. rewrite zget_zset, Hp by lia.
  destruct (Z.eqb_spec j' (Z.of_nat jn)) as [->|Hne]; cbn [andb].
  - destruct (Z.ltb_spec (Z.of_nat jn) (Z.of_nat 5)); [reflexivity|lia].
  - apply Hsl. lia.
Qed.

Lemma select_unselected getPowInt s r :
  select getPowInt s r = select getPowInt (unselected s) r.
Proof. reflexivity. Qed.

Lemma reset_inv getInt getPowInt fresh s rnd :
  draws_ok getInt getPowInt ->
  0 < Count s -> Count s * 5 < 2 ^ 31 ->
  SelBufCapacity s <= Z.of_nat (length (SelBuf s)) ->
  inv (fst (reset getInt getPowInt fresh s rnd)) /\
  Count (fst (reset getInt getPowInt fresh s rnd)) = Count s.
Proof.
  intros [Hd1 Hd2] H0 H31 Hcap. unfold reset. cbv zeta.
  set (countsp := Count s * 5).
  set (cap := SlotCount * countsp).
  set (buf0 := if SelBufCapacity s <? cap then _ else SelBuf s).
  set (p0 := take 5 (Sels s ++ replicate 5 0)).
  assert (Hl0 : 5 * countsp <= Z.of_nat (length buf0)).
  { subst buf0 cap. unfold SlotCount in *.
    destruct (Z.ltb_spec (SelBufCapacity s) (5 * countsp)); [|lia].
    rewrite length_take, length_app, length_replicate. lia. }
  assert (Hc0 : (if SelBufCapacity s <? cap then cap else SelBufCapacity s)
                <= Z.of_nat (length buf0)).
  { subst buf0 cap. unfold SlotCount in *.
    destruct (Z.ltb_spec (SelBufCapacity s) (5 * countsp)); [|lia].
    rewrite length_take, length_app, length_replicate. lia. }
  assert (Hp0 : length p0 = 5%nat).
  { subst p0. rewrite length_take, length_app, length_replicate. lia. }
  change (zrange SlotCount) with [0; 1; 2; 3; 4].
  cbn [fold_left].
  destruct (reset_slot getInt (Count s) 5 countsp (buf0, p0, rnd) 0)
    as [[b1 p1] r1] eqn:E1.
  destruct (reset_slot_spec getInt (Count s) countsp 0 _ _ _ _ _ _ Hd1 H0
              eq_refl ltac:(lia) Hl0 ltac:(intros i Hi; lia) Hp0
              ltac:(intros; lia) E1) as (L1 & I1 & P1 & S1).
  destruct (reset_slot getInt (Count s) 5 countsp (b1, p1, r1) 1)
    as [[b2 p2] r2] eqn:E2.
  destruct (reset_slot_spec getInt (Count s) countsp 1 b1 p1 r1
              b2 p2 r2 Hd1 H0
              eq_refl ltac:(lia) ltac:(lia) I1 P1 S1 E2)
    as (L2 & I2 & P2 & S2).
  destruct (reset_slot getInt (Count s) 5 countsp (b2, p2, r2) 2)
    as [[b3 p3] r3] eqn:E3.
  destruct (reset_slot_spec getInt (Count s) countsp 2 b2 p2 r2
              b3 p3 r3 Hd1 H0
              eq_refl ltac:(lia) ltac:(lia) I2 P2 S2 E3)
    as (L3 & I3 & P3 & S3).
  destruct (reset_slot getInt (Count s) 5 countsp (b3, p3, r3) 3)
    as [[b4 p4] r4] eqn:E4.
  destruct (reset_slot_spec getInt (Count s) countsp 3 b3 p3 r3
              b4 p4 r4 Hd1 H0
              eq_refl ltac:(lia) ltac:(lia) I3 P3 S3 E4)
    as (L4 & I4 & P4 & S4).
  destruct (reset_slot getInt (Count s) 5 countsp (b4, p4, r4) 4)
    as [[b5 p5] r5] eqn:E5.
  destruct (reset_slot_spec getInt (Count s) countsp 4 b4 p4 r4
              b5 p5 r5 Hd1 H0
              eq_refl ltac:(lia) ltac:(lia) I4 P4 S4 E5)
    as (L5 & I5 & P5 & S5).
  match goal with |- context [select getPowInt ?x r5] =>
    set (s1 := x) end.
  assert (Hinv1 : inv (unselected s1)).
  { unfold inv, unselected, s1. cbn. unfold SlotCount.
    split_and!; try lia.
    - intros j Hj. exists j. split; [lia|]. apply S5. lia.
    - exact I5. }
  rewrite (select_unselected getPowInt s1 r5).
  pose proof (select_inv getPowInt (unselected s1) r5 Hd2 Hinv1)
    as (Hi & _ & Hc).
  destruct (select getPowInt (unselected s1) r5) as [[sel s2] r6].
  cbn [fst snd] in *. split; [|exact Hc].
  destruct Hi as (A1 & A2 & A3 & A4 & A5 & A6 & A7 & A8 & A9 & A10).
  unfold inv. cbn. split_and!; assumption || apply A10.
Qed.

Lemma run_op_inv_sel getPowInt sr o :
  (forall p n r, 0 < n -> 0 <= fst (getPowInt p n r) < n) ->
  inv (fst sr) -> op_ok o ->
  inv (fst (run_op getPowInt sr o)) /\
  Count (fst (run_op getPowInt sr o)) = Count (fst sr).
Proof.
  intros Hd Hinv Hok. destruct o as [|v|]; cbn [run_op].
  - pose proof (select_inv getPowInt (fst sr) (snd sr) Hd Hinv)
      as (Hi & _ & Hc).
    destruct (select getPowInt (fst sr) (snd sr)) as [[sel s'] r'].
    by split.
  - split; [by apply incr_inv|].
    unfold incr. cbn [fst].
    repeat match goal with |- context [if ?c then _ else _] =>
      destruct c end; reflexivity.
  - split; [by apply decr_inv|].
    unfold decr. cbn [fst].
    repeat match goal with |- context [if ?c then _ else _] =>
      destruct c end; reflexivity.
Qed.

Lemma run_ops_inv_sel getPowInt ops : forall sr,
  (forall p n r, 0 < n -> 0 <= fst (getPowInt p n r) < n) ->
  inv (fst sr) -> Forall op_ok ops ->
  inv (fst (run_ops getPowInt sr ops)) /\
  Count (fst (run_ops getPowInt sr ops)) = Count (fst sr).
Proof.
  induction ops as [|o ops IH]; intros sr Hd Hinv Hok; [by split|].
  inversion Hok; subst. cbn [run_ops fold_left].
  destruct (run_op_inv_sel getPowInt sr o Hd Hinv) as [Hi Hc];
    [assumption|].
  destruct (IH (run_op getPowInt sr o) Hd Hi) as [Hi' Hc'];
    [assumption|].
  split; [exact Hi'|]. unfold run_ops in Hc'. congruence.
Qed.

Lemma ex_draws_ok : draws_ok ex_getInt ex_getPowInt.
Proof.
  assert (H : forall n r, 0 < n -> 0 <= fst (ex_getInt n r) < n).
  { intros n r Hn. unfold ex_getInt.
    destruct (CBiteRnd.advance r) as [a r1]. cbn [fst].
    apply Z.mod_pos_bound. exact Hn. }
  split; [exact H|]. intros p n r. apply H.
Qed.

End Selector.



(** ** The ensemble of depth one *)

Section Ensemble.

Context {Aux : Type} (E : CBiteOpt.externals Aux) (opt0 : CBiteOpt.state Aux).

Ltac break_lets :=
  repeat match goal with
  | |- context [let '(_, _) := ?x in _] => destruct x
  | |- context [if ?c then _ else _] => destruct c
  | |- context [match ?x with Some _ => _ | None => _ end] => destruct x
  end.

Lemma fill_step_push f rnd s push :
  CBiteOpt.r_push (CBiteOpt.fill_step E f rnd s push) = push.
Proof. unfold CBiteOpt.fill_step. break_lets; reflexivity. Qed.

Lemma update_step_push_none rnd s ev :
  CBiteOpt.r_push (CBiteOpt.update_step E rnd s None ev) = None.
Proof. unfold CBiteOpt.update_step. break_lets; reflexivity. Qed.

Lemma optimize_push_none f rnd s :
  CBiteOpt.r_push (CBiteOpt.optimize E f rnd s None) = None.
Proof.
  unfold CBiteOpt.optimize.
  destruct (CBiteOptBase.DoInitEvals _); [apply fill_step_push|].
  destruct (CBiteOpt.generate E f rnd s) as [[s1 r1] ev1].
  destruct (CBiteOpt.evaluate f r1 s1) as [[s2 r2] ev2].
  apply update_step_push_none.
Qed.

Lemma deep_optimize_single fuel f rnd d :
  CBiteOptDeep.OptCount d = 1%nat ->
  let r := CBiteOpt.optimize E f rnd (CBiteOptDeep.opt_at opt0 d 0) None in
  CBiteOptDeep.optimize E opt0 fuel f rnd d =
  Some (CBiteOpt.r_stall r,
        CBiteOptDeep.mk (CBiteOptDeep.ParamCount d) 1
          (<[0%nat := CBiteOpt.r_opt r]> (CBiteOptDeep.Opts d))
          (CBiteOptDeep.BestOpt d) (CBiteOptDeep.CurOpt d)
          (CBiteOptDeep.PushOpt d) (CBiteOptDeep.LastOpt d)
          (CBiteOpt.r_stall r),
        CBiteOpt.r_rnd r, CBiteOpt.r_evals r).
Proof.
  intros H1. unfold CBiteOptDeep.optimize. rewrite H1. reflexivity.
Qed.

Lemma run_deep_single fuel f n : forall d rnd o st lg,
  CBiteOptDeep.OptCount d = 1%nat -> CBiteOptDeep.Opts d = [o] ->
  exists d',
    run_deep E opt0 fuel f n d rnd st lg =
      Some (d', snd (fst (fst (run E f n o rnd st lg))),
            snd (fst (run E f n o rnd st lg)), snd (run E f n o rnd st lg)) /\
    CBiteOptDeep.Opts d' = [fst (fst (fst (run E f n o rnd st lg)))] /\
    CBiteOptDeep.OptCount d' = 1%nat /\
    CBiteOptDeep.BestOpt d' = CBiteOptDeep.BestOpt d.
Proof.
  induction n as [|n IH]; intros d rnd o st lg H1 Ho.
  { exists d. cbn. auto. }
  cbn [run_deep run]. rewrite (deep_optimize_single fuel f rnd d H1).
  cbv zeta. unfold CBiteOptDeep.opt_at. rewrite Ho. cbn [nth].
  set (r := CBiteOpt.optimize E f rnd o None).
  match goal with |- context [run_deep E opt0 fuel f n ?d1 _ _ _] =>
    destruct (IH d1 (CBiteOpt.r_rnd r) (CBiteOpt.r_opt r)
                 (st ++ [CBiteOpt.r_stall r]) (lg ++ CBiteOpt.r_evals r)
                 eq_refl eq_refl) as (d' & Hrun & Hopts & Hc & Hb)
  end.
  exists d'. auto.
Qed.

End Ensemble.

(** C8.  For the ensemble depth [M = 1], [updateDims] creates one optimizer
    object; every call of [optimize] of the ensemble is one call of
    [optimize] of that object with no [PushOpt] (and a call without
    [PushOpt] pushes into no object); so [n] calls on the ensemble leave the
    object, the generator of random numbers, the returned stall counts and
    the evaluated vectors exactly as [n] calls on the plain optimizer do. *)
Theorem deep_single_is_plain {Aux : Type} (E : CBiteOpt.externals Aux)
  (opt0 : CBiteOpt.state Aux) (fuel : nat) (f : list double -> double) :
  (forall u N PopSize0,
     let d := CBiteOptDeep.updateDims E opt0 (CBiteOptDeep.construct u) N 1
                                      PopSize0 in
     CBiteOptDeep.OptCount d = 1%nat /\ length (CBiteOptDeep.Opts d) = 1%nat) /\
  (forall rnd s, CBiteOpt.r_push (CBiteOpt.optimize E f rnd s None) = None) /\
  (forall d rnd,
     CBiteOptDeep.OptCount d = 1%nat ->
     let r := CBiteOpt.optimize E f rnd (CBiteOptDeep.opt_at opt0 d 0) None in
     CBiteOptDeep.optimize E opt0 fuel f rnd d =
     Some (CBiteOpt.r_stall r,
           CBiteOptDeep.mk (CBiteOptDeep.ParamCount d) 1
             (<[0%nat := CBiteOpt.r_opt r]> (CBiteOptDeep.Opts d))
             (CBiteOptDeep.BestOpt d) (CBiteOptDeep.CurOpt d)
             (CBiteOptDeep.PushOpt d) (CBiteOptDeep.LastOpt d)
             (CBiteOpt.r_stall r),
           CBiteOpt.r_rnd r, CBiteOpt.r_evals r)) /\
  (forall n d rnd o,
     CBiteOptDeep.OptCount d = 1%nat -> CBiteOptDeep.Opts d = [o] ->
     exists d',
       run_deep E opt0 fuel f n d rnd [] [] =
         Some (d', snd (fst (fst (run E f n o rnd [] []))),
               snd (fst (run E f n o rnd [] [])),
               snd (run E f n o rnd [] [])) /\
       CBiteOptDeep.Opts d' = [fst (fst (fst (run E f n o rnd [] [])))]).
Proof.
  split; [|split; [|split]].
  - intros u N P0 d. subst d. unfold CBiteOptDeep.updateDims.
    cbn [CBiteOptDeep.construct CBiteOptDeep.ParamCount
         CBiteOptDeep.OptCount].
    rewrite andb_false_r. cbn. auto.
  - intros rnd s. apply optimize_push_none.
  - intros d rnd H1. by apply deep_optimize_single.
  - intros n d rnd o H1 Ho.
    destruct (run_deep_single E opt0 fuel f n d rnd o [] [] H1 Ho)
      as (d' & Hrun & Hopts & _).
    exists d'. auto.
Qed.

(** Three calls on an ensemble of depth one, for the objective function
    that is constantly 1. *)
Lemma deep_single_is_plain_witness :
  exists d',
    run_deep ex_ext ex_opt0 0 (fun _ => Dbl.one) 3 ex_deep (snd ex_opt) [] []
    = Some (d',
            snd (fst (fst (run ex_ext (fun _ => Dbl.one) 3 (fst ex_opt)
                               (snd ex_opt) [] []))),
            snd (fst (run ex_ext (fun _ => Dbl.one) 3 (fst ex_opt)
                          (snd ex_opt) [] [])),
            snd (run ex_ext (fun _ => Dbl.one) 3 (fst ex_opt) (snd ex_opt)
                     [] [])) /\
    CBiteOptDeep.Opts d' =
      [fst (fst (fst (run ex_ext (fun _ => Dbl.one) 3 (fst ex_opt)
                          (snd ex_opt) [] [])))].
Proof.
  apply (proj2 (proj2 (proj2 (deep_single_is_plain ex_ext ex_opt0 0
                                (fun _ => Dbl.one))))
           3%nat ex_deep (snd ex_opt) (fst ex_opt)); reflexivity.
Defined.

(** ** The optimizer: what keeps the costs of the population *)

Section SameCosts.

Import CBitePop PopSpec.

Lemma same_costs_refl s : same_costs s s.
Proof. unfold same_costs. auto 10. Qed.

Lemma same_costs_trans s1 s2 s3 :
  same_costs s1 s2 -> same_costs s2 s3 -> same_costs s1 s3.
Proof.
  intros (A1 & A2 & A3 & A4 & A5 & A6) (B1 & B2 & B3 & B4 & B5 & B6).
  unfold same_costs. split_and!; try congruence.
  intros k. destruct (A6 k), (B6 k). split; congruence.
Qed.

Lemma same_costs_rank s s' i :
  same_costs s s' ->
  rank_at s' i = rank_at s i /\ obj_at s' i = obj_at s i.
Proof.
  intros (A1 & A2 & A3 & A4 & A5 & A6).
  unfold rank_at, obj_at, item_at, ptr_at. rewrite A4. apply A6.
Qed.

Lemma same_costs_inv s s' : same_costs s s' -> inv s -> inv s'.
Proof.
  intros H (Hwf & Hs & Hn). pose proof H as (A1 & A2 & A3 & A4 & A5 & A6).
  destruct Hwf as (W1 & W2 & W3 & W4 & W5 & W6 & W7).
  split; [|split].
  - unfold wf. rewrite A1, A2, A3, A4, A5. auto 10.
  - intros i j Hij. rewrite A3 in Hij.
    rewrite (proj1 (same_costs_rank s s' i H)),
            (proj1 (same_costs_rank s s' j H)).
    by apply Hs.
  - intros i Hi. rewrite A3 in Hi.
    rewrite (proj1 (same_costs_rank s s' i H)). by apply Hn.
Qed.

Lemma same_costs_costs_in P s s' :
  same_costs s s' -> costs_in P s -> costs_in P s'.
Proof.
  intros H Hc i Hi. pose proof H as (_ & _ & A3 & _).
  rewrite A3 in Hi. destruct (same_costs_rank s s' i H) as [-> ->].
  by apply Hc.
Qed.

Lemma set_params_same s k v : same_costs s (set_params s k v).
Proof.
  unfold same_costs, set_params, with_buf. cbn.
  rewrite length_insert. split_and!; try reflexivity.
  intros j. unfold item_of. cbn.
  destruct (decide (j = k)) as [->|Hne].
  - destruct (decide (k < length (PopParamsBuf s))%nat).
    + rewrite !(nth_lookup _ _ item0), list_lookup_insert_eq by assumption.
      cbn. auto.
    + rewrite list_insert_ge by lia. auto.
  - rewrite !(nth_lookup _ _ item0), list_lookup_insert_ne by congruence.
    auto.
Qed.

Lemma with_cent_same s c need : same_costs s (with_cent s c need).
Proof. unfold same_costs, with_cent. cbn. auto 10. Qed.

Lemma sum_from_same n : forall j s, same_costs s (sum_from n j s).
Proof.
  induction n as [|n IH]; intros j s; cbn [sum_from].
  - apply same_costs_refl.
  - eapply same_costs_trans; [apply set_params_same|apply IH].
Qed.

Lemma batch_inner_same c : forall j s, same_costs s (snd (batch_inner c j s)).
Proof.
  induction c as [|c IH]; intros j s; cbn [batch_inner].
  - apply same_costs_refl.
  - eapply same_costs_trans; [apply set_params_same|apply IH].
Qed.

Lemma batch_outer_same fuel : forall pl j dc cm s,
  same_costs s (batch_outer fuel pl j dc cm s).
Proof.
  induction fuel as [|fuel IH]; intros pl j dc cm s; cbn [batch_outer].
  - apply same_costs_refl.
  - destruct (0 <? pl)%nat; [|apply same_costs_refl].
    set (c := if (BatchCount <? pl)%nat then BatchCount else pl).
    pose proof (batch_inner_same (c - 1) j (set_tmp s (params_at s j))) as H.
    destruct (batch_inner (c - 1) j (set_tmp s (params_at s j)))
      as [j' s2]. cbn [snd] in H.
    eapply same_costs_trans; [apply set_params_same|].
    eapply same_costs_trans; [exact H|].
    eapply same_costs_trans; [apply with_cent_same|apply IH].
Qed.

Lemma updateCentroid_same s : same_costs s (updateCentroid s).
Proof.
  unfold updateCentroid.
  destruct (PopSize s <=? BatchCount)%nat.
  - eapply same_costs_trans; [apply with_cent_same|].
    eapply same_costs_trans; [apply set_params_same|].
    eapply same_costs_trans; [apply sum_from_same|apply with_cent_same].
  - eapply same_costs_trans; [apply with_cent_same|apply batch_outer_same].
Qed.

Lemma incrCurPopSize_same cos s : same_costs s (incrCurPopSize cos s).
Proof. unfold same_costs, incrCurPopSize. cbn. auto 10. Qed.

Lemma decrCurPopSize_same cos s : same_costs s (decrCurPopSize cos s).
Proof. unfold same_costs, decrCurPopSize. cbn. auto 10. Qed.

(** The same operations keep the size in use. *)
Lemma same_sizes_refl s : same_sizes s s.
Proof. by split. Qed.

Lemma same_sizes_trans s1 s2 s3 :
  same_sizes s1 s2 -> same_sizes s2 s3 -> same_sizes s1 s3.
Proof. intros [A1 A2] [B1 B2]. split; congruence. Qed.

Lemma same_sizes_sized s s' :
  same_sizes s s' -> PopSize s' = PopSize s -> sized s -> sized s'.
Proof. intros [A1 A2] A3 [B1 B2]. unfold sized. rewrite A1, A2, A3. auto. Qed.

Lemma set_params_sizes s k v : same_sizes s (set_params s k v).
Proof. by split. Qed.

Lemma with_cent_sizes s c need : same_sizes s (with_cent s c need).
Proof. by split. Qed.

Lemma sum_from_sizes n : forall j s, same_sizes s (sum_from n j s).
Proof.
  induction n as [|n IH]; intros j s; cbn [sum_from].
  - apply same_sizes_refl.
  - eapply same_sizes_trans; [apply set_params_sizes|apply IH].
Qed.

Lemma batch_inner_sizes c : forall j s, same_sizes s (snd (batch_inner c j s)).
Proof.
  induction c as [|c IH]; intros j s; cbn [batch_inner].
  - apply same_sizes_refl.
  - eapply same_sizes_trans; [apply set_params_sizes|apply IH].
Qed.

Lemma batch_outer_sizes fuel : forall pl j dc cm s,
  same_sizes s (batch_outer fuel pl j dc cm s).
Proof.
  induction fuel as [|fuel IH]; intros pl j dc cm s; cbn [batch_outer].
  - apply same_sizes_refl.
  - destruct (0 <? pl)%nat; [|apply same_sizes_refl].
    set (c := if (BatchCount <? pl)%nat then BatchCount else pl).
    pose proof (batch_inner_sizes (c - 1) j (set_tmp s (params_at s j))) as H.
    destruct (batch_inner (c - 1) j (set_tmp s (params_at s j)))
      as [j' s2]. cbn [snd] in H.
    eapply same_sizes_trans; [apply set_params_sizes|].
    eapply same_sizes_trans; [exact H|].
    eapply same_sizes_trans; [apply with_cent_sizes|apply IH].
Qed.

Lemma updateCentroid_sizes s : same_sizes s (updateCentroid s).
Proof.
  unfold updateCentroid.
  destruct (PopSize s <=? BatchCount)%nat.
  - eapply same_sizes_trans; [apply with_cent_sizes|].
    eapply same_sizes_trans; [apply set_params_sizes|].
    eapply same_sizes_trans; [apply sum_from_sizes|apply with_cent_sizes].
  - eapply same_sizes_trans; [apply with_cent_sizes|apply batch_outer_sizes].
Qed.

Lemma updatePop_sizes s c u d thr :
  same_sizes s (snd (updatePop s c u d thr)).
Proof.
  destruct (updatePop_fields s c u d thr) as (_ & _ & H1 & H2 & _).
  by split.
Qed.

End SameCosts.

(** ** The optimizer: what [updatePop] does to the best record *)

Section PopBest.

Import CBitePop PopSpec.

Local Arguments CBitePop.bsearch : simpl never.
Local Arguments UpdSpec.pos : simpl never.
Local Arguments UpdSpec.ri : simpl never.
Local Arguments UpdSpec.origin : simpl never.

Lemma origin_stored s c u thr k :
  inv s -> Dbl.is_nan c = false -> UpdSpec.rejects s c = false ->
  (k < S (UpdSpec.ri s))%nat -> k <> UpdSpec.pos s c ->
  (UpdSpec.origin s c u thr k < CurPopPos s)%nat /\
  (UpdSpec.pos s c <> 0%nat -> k = 0%nat -> UpdSpec.origin s c u thr k = 0%nat).
Proof.
  intros Hinv Hc Hrej Hk Hne.
  pose proof (pos_spec s c Hinv Hc Hrej) as (Hp & Hri & Hlo & Hhi).
  assert (Hrc : (UpdSpec.ri s <= CurPopPos s)%nat)
    by (destruct (UpdSpec.filling s); lia).
  assert (Hrepl : UpdSpec.DoReplace s c u thr = true ->
                  (UpdSpec.ri s < CurPopPos s)%nat).
  { unfold UpdSpec.DoReplace, UpdSpec.IsEqualCost.
    destruct (UpdSpec.filling s); [discriminate|lia]. }
  unfold UpdSpec.origin.
  destruct (UpdSpec.DoReplace s c u thr).
  { specialize (Hrepl eq_refl). split; [lia|auto]. }
  destruct (Nat.ltb_spec k (UpdSpec.pos s c)); [split; [lia|auto]|].
  destruct (Nat.leb_spec k (UpdSpec.ri s)); split; lia.
Qed.

Lemma updatePop_track s c u d thr :
  inv s -> Dbl.is_nan c = false ->
  let r := updatePop s c u d thr in
  inv (snd r) /\
  (CurPopPos s <= CurPopPos (snd r))%nat /\
  (full s -> full (snd r)) /\
  ((CurPopPos s < PopSize s)%nat -> (0 < CurPopPos (snd r))%nat) /\
  ((0 < CurPopPos s)%nat -> Dbl.le (rank_at (snd r) 0) (rank_at s 0)) /\
  (fst r = 0%nat ->
     rank_at (snd r) 0 = c /\ (0 < CurPopPos (snd r))%nat /\
     ((0 < CurPopPos s)%nat -> Dbl.le c (rank_at s 0))) /\
  (CurPopPos s = 0%nat -> fst r = 0%nat) /\
  (forall P : double -> Prop, P c -> costs_in P s -> costs_in P (snd r)).
Proof.
  intros Hinv Hc r. subst r.
  split; [by apply updatePop_inv|].
  pose proof Hinv as (Hwf & Hs & Hn).
  pose proof Hwf as (H0 & H1 & Hb & Hp & Hnd & Hr & Hcp).
  assert (Hrank0 : (0 < CurPopPos s)%nat -> Dbl.le (rank_at s 0) (rank_at s 0))
    by (intros; apply le_refl, Hn; lia).
  destruct (UpdSpec.rejects s c) eqn:Hrej.
  { rewrite updatePop_unfold, Hrej. cbn [fst snd].
    unfold UpdSpec.rejects, UpdSpec.filling in Hrej.
    destruct (Nat.ltb_spec (CurPopPos s) (PopSize s)); [discriminate|].
    split_and!; auto; intros; lia. }
  pose proof (pos_spec s c Hinv Hc Hrej) as (Hpr & Hri & Hlo & Hhi).
  pose proof (updatePop_fields s c u d thr) as (F1 & _ & _ & _ & _ & _ & Hpos).
  rewrite Hrej, <- Hri in Hpos.
  assert (Hrc : (UpdSpec.ri s <= CurPopPos s)%nat)
    by (destruct (UpdSpec.filling s); lia).
  assert (Hrile := ri_le s Hwf).
  assert (Hfst : fst (updatePop s c u d thr) =
                 if UpdSpec.IsEqualCost s c then PopSize s
                 else UpdSpec.pos s c).
  { rewrite updatePop_unfold, Hrej. reflexivity. }
  split_and!.
  - rewrite Hpos. destruct (UpdSpec.filling s); lia.
  - unfold full. intros Hf. rewrite Hpos, F1.
    unfold UpdSpec.filling in Hri. rewrite Hf, Nat.ltb_irrefl in Hri. lia.
  - intros _. rewrite Hpos. lia.
  - intros Hpos0. rewrite updatePop_rank by (assumption || lia).
    destruct (Nat.eqb_spec 0 (UpdSpec.pos s c)) as [E|E].
    + apply Hhi; lia.
    + destruct (origin_stored s c u thr 0 Hinv Hc Hrej ltac:(lia) E)
        as [_ Ho]. rewrite Ho by lia. by apply Hrank0.
  - rewrite Hfst. intros Hz.
    assert (Ep : UpdSpec.pos s c = 0%nat)
      by (destruct (UpdSpec.IsEqualCost s c); lia).
    split_and!.
    + rewrite updatePop_rank by (assumption || lia). by rewrite Ep.
    + rewrite Hpos. lia.
    + intros Hpos0. apply Hhi; lia.
  - intros Hz. rewrite Hfst.
    assert (Hfl : UpdSpec.filling s = true)
      by (unfold UpdSpec.filling; apply Nat.ltb_lt; lia).
    unfold UpdSpec.IsEqualCost. rewrite Hfl. cbn [negb andb].
    rewrite Hfl in Hri. lia.
  - intros P HP Hcl i Hi. rewrite Hpos in Hi.
    unfold obj_at, rank_at.
    rewrite updatePop_item by (assumption || lia).
    destruct (Nat.eqb_spec i (UpdSpec.pos s c)) as [E|E]; [by split|].
    destruct (origin_stored s c u thr i Hinv Hc Hrej Hi E) as [Ho _].
    apply (Hcl _ Ho).
Qed.

Lemma resetCurPopPos_inv cos s : wf s -> inv (resetCurPopPos cos s).
Proof.
  intros (H0 & H1 & Hb & Hp & Hnd & Hr & Hcp).
  unfold inv, wf, sorted_upto, nonan_upto, resetCurPopPos. cbn.
  split_and!; auto; intros; lia.
Qed.

End PopBest.

(** ** The optimizer: the cost that reaches the populations *)

Section Costs.

Lemma eqb_refl_nonan v : Dbl.is_nan v = false -> Dbl.eqb v v = true.
Proof.
  intros Hn. unfold Dbl.eqb, SFeqb. rewrite SFcompare_key by assumption.
  pose proof (lexcmp_spec (Dbl.key v) (Dbl.key v)) as H.
  destruct (Dbl.key v) as [[a b] c]. unfold Dbl.lexlt in H.
  destruct (Dbl.lexcmp _ _); [reflexivity|lia|].
  inversion H; lia.
Qed.

(** [fixCostNaN] returns its argument, or [1e300] for NaN. *)
Lemma fixCostNaN_spec v :
  CBiteOptBase.fixCostNaN v = (if Dbl.is_nan v then Dbl.d1e300 else v) /\
  Dbl.is_nan (CBiteOptBase.fixCostNaN v) = false.
Proof.
  unfold CBiteOptBase.fixCostNaN, Dbl.neb.
  destruct (Dbl.is_nan v) eqn:Hn.
  - destruct v; try discriminate. split; reflexivity.
  - fold (Dbl.eqb v v). rewrite eqb_refl_nonan by assumption. cbn. auto.
Qed.

Lemma updateBestCost_spec b c v (p : nat) :
  CBiteOptBase.updateBestCost b c v (Z.of_nat p) =
  if (p =? 0)%nat then CBiteOptBase.with_best b c v else b.
Proof.
  unfold CBiteOptBase.updateBestCost.
  destruct (Z.ltb_spec (Z.of_nat p) 0); [lia|].
  destruct p; reflexivity.
Qed.

End Costs.


(** ** The optimizer: one call of [optimize] *)

Section OptStep.

Context {Aux : Type} (E : CBiteOpt.externals Aux).
Context (f : list double -> double).

Import OptSpec.

Ltac break_lets :=
  repeat match goal with
  | |- context [let '(_, _) := ?x in _] => destruct x
  | |- context [if ?c then _ else _] => destruct c
  | |- context [match ?x with Some _ => _ | None => _ end] => destruct x
  end.

(** What the selector calls and [updateParPop] leave alone. *)
Lemma select_frame pw b k rnd :
  let b' := snd (fst (CBiteOptBase.select pw b k rnd)) in
  CBiteOptBase.pop b' = CBiteOptBase.pop b /\
  CBiteOptBase.par b' = CBiteOptBase.par b /\
  CBiteOptBase.BestCost b' = CBiteOptBase.BestCost b /\
  CBiteOptBase.BestValues b' = CBiteOptBase.BestValues b /\
  CBiteOptBase.DoInitEvals b' = CBiteOptBase.DoInitEvals b /\
  CBiteOptBase.Last b' = CBiteOptBase.Last b /\
  CBiteOptBase.NewCosts b' = CBiteOptBase.NewCosts b /\
  CBiteOptBase.NewValues b' = CBiteOptBase.NewValues b.
Proof.
  unfold CBiteOptBase.select.
  destruct (CBiteSelBase.select _ _ rnd) as [[sel x] r1].
  cbn. auto 10.
Qed.

Lemma updateParPop_frame b c tp :
  let b' := CBiteOpt.updateParPop b c tp in
  CBiteOptBase.pop b' = CBiteOptBase.pop b /\
  CBiteOptBase.BestCost b' = CBiteOptBase.BestCost b /\
  CBiteOptBase.BestValues b' = CBiteOptBase.BestValues b /\
  CBiteOptBase.DoInitEvals b' = CBiteOptBase.DoInitEvals b /\
  CBiteOptBase.StallCount b' = CBiteOptBase.StallCount b /\
  exists p,
    CBiteParPops.ParPops (CBiteOptBase.par b') =
      <[p := snd (CBitePop.updatePop
                    (nth p (CBiteParPops.ParPops (CBiteOptBase.par b))
                         CBiteParPops.blank)
                    c (PtrExt tp) true 0)]>
        (CBiteParPops.ParPops (CBiteOptBase.par b)) /\
    CBiteParPops.ParPopCount (CBiteOptBase.par b') =
      CBiteParPops.ParPopCount (CBiteOptBase.par b).
Proof.
  unfold CBiteOpt.updateParPop, CBiteParPops.getMinDistParPop.
  destruct (fold_left _ _ _) as [p d0].
  cbn. split_and!; try reflexivity. exists p. auto.
Qed.

(** The selections that lead to a generator change the selectors only. *)
Lemma choose_frame b rnd :
  let b' := snd (fst (CBiteOpt.choose E b rnd)) in
  CBiteOptBase.pop b' = CBiteOptBase.pop b /\
  CBiteOptBase.par b' = CBiteOptBase.par b /\
  CBiteOptBase.BestCost b' = CBiteOptBase.BestCost b /\
  CBiteOptBase.BestValues b' = CBiteOptBase.BestValues b /\
  CBiteOptBase.DoInitEvals b' = CBiteOptBase.DoInitEvals b /\
  CBiteOptBase.Last b' = CBiteOptBase.Last b /\
  CBiteOptBase.NewCosts b' = CBiteOptBase.NewCosts b /\
  CBiteOptBase.NewValues b' = CBiteOptBase.NewValues b.
Proof.
  unfold CBiteOpt.choose.
  repeat match goal with
  | |- context [CBiteOptBase.select ?pw ?x ?k ?r] =>
      let H := fresh "H" in
      pose proof (select_frame pw x k r) as H; cbv zeta in H;
      destruct (CBiteOptBase.select pw x k r) as [[? ?] ?];
      cbn [fst snd] in H
  | |- context [if ?c then _ else _] => destruct c
  end;
  cbn [fst snd];
  repeat match goal with
  | H : _ /\ _ |- _ => destruct H
  end;
  split_and!; congruence.
Qed.

(** The generator: the costs of the population, the best solution and the
    other populations stay; when it hands over a solution of a parallel
    optimizer, the cost is the one of the vector handed over. *)
Lemma generate_spec rnd s :
  gen_ok E f ->
  let r := CBiteOpt.generate E f rnd s in
  let s' := fst (fst r) in
  PopSpec.same_costs (own s) (own s') /\
  CBiteOptBase.par (CBiteOpt.base s') = CBiteOptBase.par (CBiteOpt.base s) /\
  best s' = best s /\
  CBiteOpt.getBestParams s' = CBiteOpt.getBestParams s /\
  CBiteOptBase.DoInitEvals (CBiteOpt.base s') =
    CBiteOptBase.DoInitEvals (CBiteOpt.base s) /\
  CBiteOpt.OldPops0 s' = CBiteOpt.OldPops0 s /\
  CBiteOpt.OldPops1 s' = CBiteOpt.OldPops1 s /\
  (CBiteOpt.DoEval s' = false ->
   CBiteOptBase.LastCosts0 (CBiteOpt.base s') =
     CBiteOptBase.fixCostNaN (f (CBiteOptBase.LastValues (CBiteOpt.base s'))) /\
   In (CBiteOptBase.LastValues (CBiteOpt.base s')) (snd r)).
Proof.
  intros Hgen. unfold CBiteOpt.generate.
  pose proof (choose_frame (CBiteOpt.base s) rnd) as Hch. cbv zeta in Hch.
  destruct (CBiteOpt.choose E (CBiteOpt.base s) rnd) as [[g b1] r1].
  cbn [fst snd] in Hch.
  destruct Hch as (C1 & C2 & C3 & C4 & C5 & C6 & C7 & C8).
  match goal with |- context [CBiteOpt.generateSol E g f r1 ?x] =>
    set (s1 := x) end.
  pose proof (Hgen g r1 s1) as Hg.
  set (o := CBiteOpt.generateSol E g f r1 s1) in *.
  cbv zeta. cbn [fst snd].
  unfold own, best, CBiteOpt.getBestCost, CBiteOpt.getBestParams.
  destruct (CBiteOpt.g_last o) as [[c v]|]; cbn.
  - rewrite C2, C3, C4, C5. split_and!; try reflexivity.
    + rewrite <- C1. apply set_params_same.
    + intros _. unfold CBiteOptBase.LastCosts0, CBiteOptBase.LastValues. cbn.
      exact Hg.
  - rewrite C2, C3, C4, C5. split_and!; try reflexivity.
    + rewrite <- C1. apply set_params_same.
    + discriminate.
Qed.

(** The evaluation: [NewCosts[ 0 ]] is the objective value of [NewValues],
    with NaN replaced. *)
Lemma evaluate_spec rnd (s : CBiteOpt.state Aux) :
  let r := CBiteOpt.evaluate f rnd s in
  let s' := fst (fst r) in
  PopSpec.same_costs (own s) (own s') /\
  CBiteOptBase.par (CBiteOpt.base s') = CBiteOptBase.par (CBiteOpt.base s) /\
  best s' = best s /\
  CBiteOpt.getBestParams s' = CBiteOpt.getBestParams s /\
  CBiteOptBase.DoInitEvals (CBiteOpt.base s') =
    CBiteOptBase.DoInitEvals (CBiteOpt.base s) /\
  CBiteOpt.OldPops0 s' = CBiteOpt.OldPops0 s /\
  CBiteOpt.OldPops1 s' = CBiteOpt.OldPops1 s /\
  CBiteOpt.DoEval s' = CBiteOpt.DoEval s /\
  (if CBiteOpt.DoEval s then
     CBiteOptBase.LastCosts0 (CBiteOpt.base s') =
       CBiteOptBase.fixCostNaN
         (f (CBiteOptBase.LastValues (CBiteOpt.base s'))) /\
     snd r = [CBiteOptBase.LastValues (CBiteOpt.base s')]
   else s' = s /\ snd r = []).
Proof.
  unfold CBiteOpt.evaluate.
  destruct (CBiteOpt.DoEval s) eqn:Hd.
  - destruct (CBiteOpt.wrap_all _ _) as [[tp vs] r1].
    cbv zeta. cbn [fst snd].
    unfold own, best, CBiteOpt.getBestCost, CBiteOpt.getBestParams.
    cbn. split_and!; try reflexivity; try assumption.
    apply set_params_same.
  - cbv zeta. cbn [fst snd]. rewrite Hd.
    split_and!; try reflexivity. apply same_costs_refl.
Qed.

(** The branch of the initial evaluations, in terms of its one call of
    [updatePop]. *)
Lemma fill_step_struct rnd s push :
  let b := CBiteOpt.base s in
  let q := CBiteOptBase.pop b in
  let g := CBiteOptBase.genInitParams (CBiteOpt.getGaussianInt E) b rnd in
  let vs := snd (fst g) in
  let c := CBiteOptBase.fixCostNaN (f vs) in
  let q1 := CBitePop.set_params q (CBitePop.ptr_at q (CBitePop.CurPopPos q))
                                (fst (fst g)) in
  let u := CBitePop.updatePop q1 c (CBitePop.getCurParams q) false 0 in
  let r := CBiteOpt.fill_step E f rnd s push in
  let s' := CBiteOpt.r_opt r in
  CBiteOpt.r_push r = push /\ CBiteOpt.r_evals r = [vs] /\
  CBiteOpt.r_stall r = 0 /\
  PopSpec.same_costs (snd u) (own s') /\
  (if (fst u =? 0)%nat
   then best s' = c /\ CBiteOpt.getBestParams s' = vs
   else best s' = best s /\
        CBiteOpt.getBestParams s' = CBiteOpt.getBestParams s) /\
  CBiteOpt.OldPops0 s' = CBiteOpt.OldPops0 s /\
  CBiteOpt.OldPops1 s' = CBiteOpt.OldPops1 s /\
  CBiteParPops.ParPopCount (CBiteOptBase.par (CBiteOpt.base s')) =
    CBiteParPops.ParPopCount (CBiteOptBase.par b) /\
  (if (CBitePop.CurPopPos (snd u) =? CBitePop.PopSize (snd u))%nat then
     CBiteOptBase.DoInitEvals (CBiteOpt.base s') = false /\
     CBiteParPops.ParPops (CBiteOptBase.par (CBiteOpt.base s')) =
       map (fun d => CBitePop.copy (CBiteOpt.cos E) (CBiteOpt.fresh_item E)
                                   (CBiteOpt.fresh_cent E) d (own s'))
           (take (CBiteParPops.ParPopCount (CBiteOptBase.par b))
                 (CBiteParPops.ParPops (CBiteOptBase.par b))) ++
       drop (CBiteParPops.ParPopCount (CBiteOptBase.par b))
            (CBiteParPops.ParPops (CBiteOptBase.par b))
   else
     CBiteOptBase.DoInitEvals (CBiteOpt.base s') = CBiteOptBase.DoInitEvals b /\
     CBiteParPops.ParPops (CBiteOptBase.par (CBiteOpt.base s')) =
       CBiteParPops.ParPops (CBiteOptBase.par b)).
Proof.
  cbv zeta. unfold CBiteOpt.fill_step.
  destruct (CBiteOptBase.genInitParams _ _ rnd) as [[ps vs] rnd1].
  cbn [fst snd].
  destruct (CBitePop.updatePop _ _ _ false 0) as [p q2].
  cbn [fst snd CBiteOpt.r_push CBiteOpt.r_evals CBiteOpt.r_stall
       CBiteOpt.r_opt].
  split_and!; try reflexivity.
  - unfold own. rewrite updateBestCost_spec.
    destruct (CBitePop.CurPopPos q2 =? CBitePop.PopSize q2)%nat;
      destruct (p =? 0)%nat; cbn;
      first [apply updateCentroid_same | apply same_costs_refl].
  - unfold own, best, CBiteOpt.getBestCost, CBiteOpt.getBestParams.
    rewrite updateBestCost_spec.
    destruct (CBitePop.CurPopPos q2 =? CBitePop.PopSize q2)%nat;
      destruct (p =? 0)%nat; cbn; auto.
  - rewrite updateBestCost_spec.
    destruct (CBitePop.CurPopPos q2 =? CBitePop.PopSize q2)%nat;
      destruct (p =? 0)%nat; reflexivity.
  - unfold own. rewrite updateBestCost_spec.
    destruct (CBitePop.CurPopPos q2 =? CBitePop.PopSize q2)%nat;
      destruct (p =? 0)%nat; cbn; auto.
Qed.

Local Arguments CBiteOpt.updateParPop : simpl never.
Local Arguments CBitePop.updatePop : simpl never.

Ltac frame_par x c t :=
  let H := fresh "Hpp" in
  pose proof (updateParPop_frame x c t) as H; cbv zeta in H;
  destruct H as (P1 & P2 & P3 & P4 & P5 & pp & P6 & P7).

Ltac finish_own :=
  first [apply incrCurPopSize_same | apply decrCurPopSize_same
        | apply same_costs_refl].

Ltac frame_selects :=
  repeat match goal with
  | |- context [CBiteOptBase.select ?pw ?x ?k ?r] =>
      let H := fresh "Hsel" in
      pose proof (select_frame pw x k r) as H; cbv zeta in H;
      destruct (CBiteOptBase.select pw x k r) as [[? ?] ?];
      cbn [fst snd] in H
  end.

(** The part of [optimize] after the evaluation, in terms of its call of
    [updatePop]: what becomes of the population, of the best solution, of
    the populations of older solutions, of the parallel populations and of
    [PushOpt]. *)
Lemma update_step_struct rnd s push evals :
  let b := CBiteOpt.base s in
  let c := CBiteOptBase.LastCosts0 b in
  let u := CBitePop.updatePop (own s) c
             (PtrItem (CBitePop.TmpParams (own s))) true 3 in
  let tp := CBitePop.tmp (snd u) in
  let acc := negb (CBitePop.CurPopSize1 (snd u) <? Z.of_nat (fst u)) in
  let last := Z.to_nat (CBitePop.CurPopSize1 (snd u)) in
  let old := CBitePop.obj_at (snd u) last in
  let oldp := CBitePop.params_at (snd u) last in
  let r := CBiteOpt.update_step E rnd s push evals in
  let s' := CBiteOpt.r_opt r in
  CBiteOpt.r_evals r = evals /\
  PopSpec.same_costs (snd u) (own s') /\
  CBiteOptBase.DoInitEvals (CBiteOpt.base s') = CBiteOptBase.DoInitEvals b /\
  (if acc && (fst u =? 0)%nat
   then best s' = c /\ CBiteOpt.getBestParams s' = CBiteOptBase.LastValues b
   else best s' = best s /\
        CBiteOpt.getBestParams s' = CBiteOpt.getBestParams s) /\
  (CBiteOpt.OldPops0 s' = CBiteOpt.OldPops0 s \/
   acc = true /\
   CBiteOpt.OldPops0 s' =
     snd (CBitePop.updatePop (CBiteOpt.OldPops0 s) old (PtrExt oldp) false 0)) /\
  (CBiteOpt.OldPops1 s' = CBiteOpt.OldPops1 s \/
   acc = true /\
   CBiteOpt.OldPops1 s' =
     snd (CBitePop.updatePop (CBiteOpt.OldPops1 s) old (PtrExt oldp) false 0)) /\
  (exists p,
     CBiteParPops.ParPops (CBiteOptBase.par (CBiteOpt.base s')) =
       <[p := snd (CBitePop.updatePop
                     (nth p (CBiteParPops.ParPops (CBiteOptBase.par b))
                          CBiteParPops.blank)
                     c (PtrExt tp) true 0)]>
         (CBiteParPops.ParPops (CBiteOptBase.par b)) /\
     CBiteParPops.ParPopCount (CBiteOptBase.par (CBiteOpt.base s')) =
       CBiteParPops.ParPopCount (CBiteOptBase.par b)) /\
  match push with
  | None => CBiteOpt.r_push r = None
  | Some t =>
      CBiteOpt.r_push r = Some t \/
      acc = true /\ CBiteOptBase.DoInitEvals (CBiteOpt.base t) = false /\
      CBiteOpt.r_push r =
        Some (CBiteOpt.with_base t
                (CBiteOpt.updateParPop
                   (CBiteOptBase.with_pop (CBiteOpt.base t)
                      (snd (CBitePop.updatePop
                              (CBiteOptBase.pop (CBiteOpt.base t)) c
                              (PtrExt tp) true 3)))
                   c tp))
  end.
Proof.
  cbv zeta. unfold CBiteOpt.update_step, own.
  destruct (CBitePop.updatePop _ _ _ true 3) as [p q1].
  cbn [fst snd].
  destruct (CBitePop.CurPopSize1 q1 <? Z.of_nat p) eqn:Hrej; cbn [negb andb].
  - set (b3 := CBiteOptBase.with_flags _ _ _).
    assert (Hb3 : CBiteOptBase.pop b3 = q1 /\
                  CBiteOptBase.par b3 = CBiteOptBase.par (CBiteOpt.base s) /\
                  CBiteOptBase.BestCost b3 =
                    CBiteOptBase.BestCost (CBiteOpt.base s) /\
                  CBiteOptBase.BestValues b3 =
                    CBiteOptBase.BestValues (CBiteOpt.base s) /\
                  CBiteOptBase.DoInitEvals b3 =
                    CBiteOptBase.DoInitEvals (CBiteOpt.base s))
      by (cbn; auto).
    clearbody b3. destruct Hb3 as (B1 & B2 & B3 & B4 & B5).
    destruct (CBiteOpt.DoEval s && _);
      [frame_selects; destruct Hsel as (S1 & S2 & S3 & S4 & S5 & _);
       destruct (negb _)|];
      cbn [CBiteOpt.r_evals CBiteOpt.r_opt CBiteOpt.r_push CBiteOpt.base
           CBiteOpt.with_base CBiteOpt.OldPops0 CBiteOpt.OldPops1];
      unfold best, CBiteOpt.getBestCost, CBiteOpt.getBestParams;
      cbn [CBiteOpt.base CBiteOpt.with_base];
      match goal with |- context [CBiteOpt.updateParPop ?x ?c ?t] =>
        frame_par x c t end;
      rewrite P1, P2, P3, P4, P6, P7; cbn;
      split_and!;
      first [reflexivity
            |solve [rewrite ?S1, ?B1; finish_own]
            |congruence
            |by left
            |solve [exists pp; rewrite ?S2, ?B2; auto]
            |solve [destruct push; auto]].
  - rewrite updateBestCost_spec.
    set (b4 := CBiteOptBase.with_flags _ _ 0).
    assert (Hb4 :
      CBiteOptBase.pop b4 = q1 /\
      CBiteOptBase.par b4 = CBiteOptBase.par (CBiteOpt.base s) /\
      CBiteOptBase.DoInitEvals b4 =
        CBiteOptBase.DoInitEvals (CBiteOpt.base s) /\
      (if (p =? 0)%nat
       then CBiteOptBase.BestCost b4 =
              CBiteOptBase.LastCosts0 (CBiteOpt.base s) /\
            CBiteOptBase.BestValues b4 =
              CBiteOptBase.LastValues (CBiteOpt.base s)
       else CBiteOptBase.BestCost b4 =
              CBiteOptBase.BestCost (CBiteOpt.base s) /\
            CBiteOptBase.BestValues b4 =
              CBiteOptBase.BestValues (CBiteOpt.base s)))
      by (subst b4; destruct (p =? 0)%nat; cbn; auto).
    clearbody b4. destruct Hb4 as (B1 & B2 & B5 & B34).
    destruct (CBiteRnd.get rnd) as [g1 rnd1].
    destruct (CBiteRnd.get rnd1) as [g2 rnd2].
    destruct (CBiteOpt.DoEval s && _);
      [frame_selects; destruct Hsel as (S1 & S2 & S3 & S4 & S5 & _);
       destruct (negb _)|];
      cbn [CBiteOpt.r_evals CBiteOpt.r_opt CBiteOpt.r_push CBiteOpt.base
           CBiteOpt.with_base CBiteOpt.OldPops0 CBiteOpt.OldPops1];
      unfold best, CBiteOpt.getBestCost, CBiteOpt.getBestParams;
      cbn [CBiteOpt.base CBiteOpt.with_base];
      match goal with |- context [CBiteOptBase.pop (CBiteOpt.updateParPop ?x ?c ?t)] =>
        frame_par x c t end;
      rewrite P1, P2, P3, P4, P6, P7; cbn [CBiteOptBase.pop CBiteOptBase.par
        CBiteOptBase.with_pop CBiteOptBase.BestCost CBiteOptBase.BestValues
        CBiteOptBase.DoInitEvals];
      split_and!;
      first [reflexivity
            |solve [rewrite ?S1, ?B1; finish_own]
            |congruence
            |solve [rewrite ?S3, ?S4; destruct (p =? 0)%nat; exact B34]
            |solve [destruct (Dbl.ltb g1 _); auto]
            |solve [destruct (Dbl.ltb g2 _); auto]
            |solve [exists pp; rewrite ?S2, ?B2; auto]
            |solve [destruct push as [t|]; [|reflexivity];
                    destruct (negb _ && _) eqn:Hp; [|by left];
                    right; apply andb_prop in Hp as [Hp _];
                    apply negb_true_iff in Hp; auto]].
Qed.


End OptStep.

(** ** The optimizer: the invariant and the best cost *)

Section OptInv.

Context {Aux : Type} (E : CBiteOpt.externals Aux).
Context (f : list double -> double).
Hypothesis Hgen : OptSpec.gen_ok E f.

Import OptSpec.

Lemma le_trans' a b c : Dbl.le a b -> Dbl.le b c -> Dbl.le a c.
Proof.
  intros H1 H2. destruct (leb_nonan _ _ H1), (leb_nonan _ _ H2).
  by apply (le_trans a b c).
Qed.

(** A call during the initial evaluations. *)
Lemma fill_step_inv rnd s push :
  inv s ->
  let r := CBiteOpt.fill_step E f rnd s push in
  let s' := CBiteOpt.r_opt r in
  inv s' /\ evaluated s' /\ CBiteOpt.r_push r = push /\
  (evaluated s -> Dbl.le (best s') (best s)) /\
  exists v, CBiteOpt.r_evals r = [v] /\
    (best s' = best s /\
     CBiteOpt.getBestParams s' = CBiteOpt.getBestParams s \/
     best s' = CBiteOptBase.fixCostNaN (f v) /\
     CBiteOpt.getBestParams s' = v) /\
    (~ evaluated s ->
     best s' = CBiteOptBase.fixCostNaN (f v) /\
     CBiteOpt.getBestParams s' = v).
Proof.
  intros (Hpop & Hnn & Hfull & Hle).
  pose proof (fill_step_struct E f rnd s push) as H. cbv zeta in H.
  cbv zeta.
  set (r := CBiteOpt.fill_step E f rnd s push) in *.
  set (g := CBiteOptBase.genInitParams _ _ rnd) in *.
  set (vs := snd (fst g)) in *.
  set (c := CBiteOptBase.fixCostNaN (f vs)) in *.
  set (q := CBiteOptBase.pop (CBiteOpt.base s)) in *.
  set (q1 := CBitePop.set_params q _ _) in *.
  set (u := CBitePop.updatePop q1 c _ false 0) in *.
  destruct H as (Hpush & Hev & _ & Hsame & Hbest & _ & _ & _ & Hfl).
  assert (Hq1 : PopSpec.same_costs q q1) by apply set_params_same.
  assert (Hc : Dbl.is_nan c = false) by apply fixCostNaN_spec.
  assert (Hi1 : PopSpec.inv q1) by (eapply same_costs_inv; eauto).
  pose proof (updatePop_track q1 c (CBitePop.getCurParams q) false 0 Hi1 Hc)
    as T. cbv zeta in T. fold u in T.
  destruct T as (T1 & T2 & T3 & T4 & T5 & T6 & T7 & T8).
  pose proof Hq1 as (A1 & _ & A3 & _).
  pose proof Hsame as (S1 & _ & S3 & _).
  pose proof (proj1 (same_costs_rank _ _ 0%nat Hq1)) as Hr1.
  pose proof (proj1 (same_costs_rank _ _ 0%nat Hsame)) as Hr2.
  unfold evaluated, own in *. fold q in Hle, Hfull, Hpop |- *.
  assert (Hev' : (0 < CBitePop.CurPopPos (snd u))%nat).
  { destruct Hi1 as ((W0 & _) & _).
    destruct (Nat.lt_ge_cases (CBitePop.CurPopPos q1) (CBitePop.PopSize q1));
      [auto|lia]. }
  split_and!.
  - split_and!.
    + eapply same_costs_inv; eauto.
    + destruct (fst u =? 0)%nat; destruct Hbest as [-> _]; assumption.
    + intros Hd. unfold PopSpec.full, own. rewrite S1, S3.
      destruct (Nat.eqb_spec (CBitePop.CurPopPos (snd u))
                             (CBitePop.PopSize (snd u))) as [e|e];
        [exact e|].
      destruct Hfl as [Hfl _]. rewrite Hfl in Hd.
      apply T3. unfold PopSpec.full. rewrite A1, A3. by apply Hfull.
    + unfold evaluated, own. intros _. rewrite Hr2.
      destruct (Nat.eqb_spec (fst u) 0) as [e|e].
      * destruct Hbest as [-> _]. destruct (T6 e) as (-> & _).
        by apply le_refl.
      * destruct Hbest as [-> _].
        assert (Hpos : (0 < CBitePop.CurPopPos q)%nat).
        { destruct (Nat.eq_dec (CBitePop.CurPopPos q) 0%nat) as [z|z]; [|lia].
          exfalso. apply e, T7. lia. }
        eapply le_trans'; [apply T5; lia|]. rewrite Hr1. by apply Hle.
  - lia.
  - exact Hpush.
  - intros Hpos. destruct (Nat.eqb_spec (fst u) 0) as [e|e].
    + destruct Hbest as [-> _]. destruct (T6 e) as (_ & _ & T6').
      eapply le_trans'; [apply T6'; lia|]. rewrite Hr1. by apply Hle.
    + destruct Hbest as [-> _]. by apply le_refl.
  - exists vs. split; [exact Hev|]. split.
    + destruct (fst u =? 0)%nat; auto.
    + intros Hne. assert (e : fst u = 0%nat) by (apply T7; lia).
      rewrite e in Hbest. exact Hbest.
Qed.

(** After the generator and the evaluation, [LastCosts[ 0 ]] is the
    objective value of [LastValues], with NaN replaced. *)
Lemma candidate_spec rnd s :
  let g := CBiteOpt.generate E f rnd s in
  let e := CBiteOpt.evaluate f (snd (fst g)) (fst (fst g)) in
  let s2 := fst (fst e) in
  PopSpec.same_costs (own s) (own s2) /\
  CBiteOptBase.par (CBiteOpt.base s2) = CBiteOptBase.par (CBiteOpt.base s) /\
  best s2 = best s /\
  CBiteOpt.getBestParams s2 = CBiteOpt.getBestParams s /\
  CBiteOptBase.DoInitEvals (CBiteOpt.base s2) =
    CBiteOptBase.DoInitEvals (CBiteOpt.base s) /\
  CBiteOpt.OldPops0 s2 = CBiteOpt.OldPops0 s /\
  CBiteOpt.OldPops1 s2 = CBiteOpt.OldPops1 s /\
  CBiteOptBase.LastCosts0 (CBiteOpt.base s2) =
    CBiteOptBase.fixCostNaN (f (CBiteOptBase.LastValues (CBiteOpt.base s2))) /\
  In (CBiteOptBase.LastValues (CBiteOpt.base s2)) (snd g ++ snd e).
Proof.
  cbv zeta.
  pose proof (generate_spec E f rnd s Hgen) as G. cbv zeta in G.
  destruct (CBiteOpt.generate E f rnd s) as [[s1 r1] ev1].
  cbn [fst snd] in *.
  pose proof (evaluate_spec f r1 s1) as V. cbv zeta in V.
  destruct (CBiteOpt.evaluate f r1 s1) as [[s2 r2] ev2].
  cbn [fst snd] in *.
  destruct G as (G1 & G2 & G3 & G4 & G5 & G6 & G7 & G8).
  destruct V as (V1 & V2 & V3 & V4 & V5 & V6 & V7 & V8 & V9).
  split_and!; try congruence.
  - eapply same_costs_trans; eauto.
  - destruct (CBiteOpt.DoEval s1).
    + apply V9.
    + destruct V9 as [-> _]. by apply G8.
  - apply in_or_app. destruct (CBiteOpt.DoEval s1).
    + right. destruct V9 as [_ ->]. by left.
    + left. destruct V9 as [-> _]. by apply G8.
Qed.

(** The population of an object that receives a solution of a sibling. *)
Lemma pushed_inv (t : CBiteOpt.state Aux) c tp :
  inv t -> Dbl.is_nan c = false ->
  CBiteOptBase.DoInitEvals (CBiteOpt.base t) = false ->
  let t' :=
    CBiteOpt.with_base t
      (CBiteOpt.updateParPop
         (CBiteOptBase.with_pop (CBiteOpt.base t)
            (snd (CBitePop.updatePop (CBiteOptBase.pop (CBiteOpt.base t)) c
                                     (PtrExt tp) true 3)))
         c tp) in
  inv t' /\ best t' = best t /\
  CBiteOpt.getBestParams t' = CBiteOpt.getBestParams t /\
  evaluated t' /\
  CBiteOptBase.DoInitEvals (CBiteOpt.base t') = false.
Proof.
  intros (Hpop & Hnn & Hfull & Hle) Hc Hd. cbv zeta.
  match goal with |- context [CBiteOpt.updateParPop ?x ?c ?t] =>
    pose proof (updateParPop_frame x c t) as H; cbv zeta in H;
    destruct H as (P1 & P2 & P3 & P4 & _)
  end.
  unfold inv, evaluated, own, best, CBiteOpt.getBestCost,
    CBiteOpt.getBestParams in *.
  cbn [CBiteOpt.base CBiteOpt.with_base].
  rewrite P1, P2, P3, P4. cbn.
  set (q := CBiteOptBase.pop (CBiteOpt.base t)) in *.
  pose proof (updatePop_track q c (PtrExt tp) true 3 Hpop Hc) as T.
  cbv zeta in T. destruct T as (T1 & T2 & T3 & T4 & T5 & T6 & T7 & T8).
  specialize (Hfull Hd).
  assert (Hpos : (0 < CBitePop.CurPopPos q)%nat).
  { destruct Hpop as ((W0 & _) & _). unfold PopSpec.full in Hfull. lia. }
  split_and!; auto; try lia.
  intros _. eapply le_trans'; [by apply T5|by apply Hle].
Qed.

(** The part of [optimize] after the evaluation. *)
Lemma update_step_inv rnd s push evals :
  inv s -> evaluated s ->
  Dbl.is_nan (CBiteOptBase.LastCosts0 (CBiteOpt.base s)) = false ->
  let r := CBiteOpt.update_step E rnd s push evals in
  let s' := CBiteOpt.r_opt r in
  inv s' /\ evaluated s' /\ Dbl.le (best s') (best s) /\
  (best s' = best s /\
   CBiteOpt.getBestParams s' = CBiteOpt.getBestParams s \/
   best s' = CBiteOptBase.LastCosts0 (CBiteOpt.base s) /\
   CBiteOpt.getBestParams s' = CBiteOptBase.LastValues (CBiteOpt.base s)).
Proof.
  intros (Hpop & Hnn & Hfull & Hle) Hev Hc.
  pose proof (update_step_struct E rnd s push evals) as H. cbv zeta in H.
  cbv zeta.
  set (r := CBiteOpt.update_step E rnd s push evals) in *.
  set (c := CBiteOptBase.LastCosts0 (CBiteOpt.base s)) in *.
  set (u := CBitePop.updatePop (own s) c _ true 3) in *.
  destruct H as (_ & Hsame & Hd & Hbest & _).
  pose proof (updatePop_track (own s) c
                (PtrItem (CBitePop.TmpParams (own s))) true 3 Hpop Hc) as T.
  cbv zeta in T. fold u in T.
  destruct T as (T1 & T2 & T3 & T4 & T5 & T6 & T7 & T8).
  pose proof Hsame as (S1 & _ & S3 & _).
  pose proof (proj1 (same_costs_rank _ _ 0%nat Hsame)) as Hr2.
  unfold evaluated in *. specialize (Hle Hev).
  assert (Hev' : (0 < CBitePop.CurPopPos (own (CBiteOpt.r_opt r)))%nat)
    by (rewrite S3; lia).
  assert (Hmono : Dbl.le (best (CBiteOpt.r_opt r)) (best s)).
  { destruct (negb _ && (fst u =? 0)%nat) eqn:Ha.
    - destruct Hbest as [-> _]. apply andb_prop in Ha as [_ Ha].
      apply Nat.eqb_eq in Ha. destruct (T6 Ha) as (_ & _ & T6').
      eapply le_trans'; [by apply T6'|exact Hle].
    - destruct Hbest as [-> _]. by apply le_refl. }
  split_and!; auto.
  - split_and!.
    + eapply same_costs_inv; eauto.
    + by destruct (leb_nonan _ _ Hmono).
    + rewrite Hd. intros Hf. unfold PopSpec.full. rewrite S1, S3.
      by apply T3, Hfull.
    + intros _. rewrite Hr2.
      destruct (negb _ && (fst u =? 0)%nat) eqn:Ha.
      * destruct Hbest as [-> _]. apply andb_prop in Ha as [_ Ha].
        apply Nat.eqb_eq in Ha. destruct (T6 Ha) as (-> & _).
        by apply le_refl.
      * destruct Hbest as [-> _].
        eapply le_trans'; [by apply T5|exact Hle].
  - destruct (negb _ && (fst u =? 0)%nat); auto.
Qed.

Lemma update_step_push rnd s t evals :
  Dbl.is_nan (CBiteOptBase.LastCosts0 (CBiteOpt.base s)) = false ->
  inv t ->
  exists t',
    CBiteOpt.r_push (CBiteOpt.update_step E rnd s (Some t) evals) = Some t' /\
    inv t' /\ best t' = best t /\
    CBiteOpt.getBestParams t' = CBiteOpt.getBestParams t /\
    (evaluated t -> evaluated t').
Proof.
  intros Hc Ht.
  pose proof (update_step_struct E rnd s (Some t) evals) as H.
  cbv zeta in H.
  destruct H as (_ & _ & _ & _ & _ & _ & _ & [H|(_ & Hd & H)]).
  - exists t. auto.
  - eexists. split; [exact H|].
    match goal with |- context [CBiteOpt.updateParPop _ ?c ?tp] =>
      pose proof (pushed_inv t c tp Ht Hc Hd) as P end.
    cbv zeta in P. destruct P as (P1 & P2 & P3 & P4 & P5). auto.
Qed.

(** One call of [optimize]: the object itself. *)
Lemma optimize_own rnd s push :
  inv s ->
  let r := CBiteOpt.optimize E f rnd s push in
  let s' := CBiteOpt.r_opt r in
  inv s' /\ evaluated s' /\
  (evaluated s -> Dbl.le (best s') (best s)) /\
  (best s' = best s /\
   CBiteOpt.getBestParams s' = CBiteOpt.getBestParams s \/
   exists v, In v (CBiteOpt.r_evals r) /\
     best s' = CBiteOptBase.fixCostNaN (f v) /\
     CBiteOpt.getBestParams s' = v) /\
  (~ evaluated s ->
   exists v, CBiteOpt.r_evals r = [v] /\
     best s' = CBiteOptBase.fixCostNaN (f v) /\
     CBiteOpt.getBestParams s' = v).
Proof.
  intros Hinv. cbv zeta. unfold CBiteOpt.optimize.
  destruct (CBiteOptBase.DoInitEvals (CBiteOpt.base s)) eqn:Hd.
  - pose proof (fill_step_inv rnd s push Hinv) as F. cbv zeta in F.
    destruct F as (F1 & F2 & _ & F4 & v & F5 & F6 & F7).
    split_and!; auto.
    + destruct F6 as [F6|F6]; [by left|right].
      exists v. rewrite F5. split; [by left|exact F6].
    + intros Hne. exists v. auto.
  - pose proof (candidate_spec rnd s) as C. cbv zeta in C.
    destruct (CBiteOpt.generate E f rnd s) as [[s1 r1] ev1].
    cbn [fst snd] in C.
    destruct (CBiteOpt.evaluate f r1 s1) as [[s2 r2] ev2].
    cbn [fst snd] in C.
    destruct C as (C1 & C2 & C3 & C4 & C5 & C6 & C7 & C8 & C9).
    pose proof Hinv as (Hpop & Hnn & Hfull & Hle).
    assert (Hev : evaluated s).
    { unfold evaluated. specialize (Hfull Hd).
      destruct Hpop as ((W0 & _) & _). unfold PopSpec.full in Hfull. lia. }
    pose proof C1 as (S1 & _ & S3 & _).
    assert (Hinv2 : inv s2).
    { unfold inv, evaluated. rewrite C3, C5.
      rewrite (proj1 (same_costs_rank _ _ 0%nat C1)).
      unfold PopSpec.full. rewrite S1, S3.
      split_and!; auto. eapply same_costs_inv; eauto. }
    assert (Hev2 : evaluated s2) by (unfold evaluated; rewrite S3; exact Hev).
    assert (Hc : Dbl.is_nan (CBiteOptBase.LastCosts0 (CBiteOpt.base s2))
                 = false) by (rewrite C8; apply fixCostNaN_spec).
    pose proof (update_step_inv r2 s2 push (ev1 ++ ev2) Hinv2 Hev2 Hc) as U.
    cbv zeta in U. destruct U as (U1 & U2 & U3 & U4).
    pose proof (update_step_struct E r2 s2 push (ev1 ++ ev2)) as Hs.
    cbv zeta in Hs. destruct Hs as (Hevs & _).
    rewrite C3 in U3, U4. rewrite C4 in U4.
    split_and!; auto.
    + destruct U4 as [U4|[U4 U4']]; [by left|right].
      exists (CBiteOptBase.LastValues (CBiteOpt.base s2)).
      rewrite Hevs, U4, U4', C8. auto.
    + intros Hne. contradiction.
Qed.

(** One call of [optimize]: the object [PushOpt] points to. *)
Lemma optimize_push rnd s t :
  inv t ->
  exists t',
    CBiteOpt.r_push (CBiteOpt.optimize E f rnd s (Some t)) = Some t' /\
    inv t' /\ best t' = best t /\
    CBiteOpt.getBestParams t' = CBiteOpt.getBestParams t /\
    (evaluated t -> evaluated t').
Proof.
  intros Ht. unfold CBiteOpt.optimize.
  destruct (CBiteOptBase.DoInitEvals (CBiteOpt.base s)).
  - exists t. rewrite fill_step_push. auto.
  - pose proof (candidate_spec rnd s) as C. cbv zeta in C.
    destruct (CBiteOpt.generate E f rnd s) as [[s1 r1] ev1].
    cbn [fst snd] in C.
    destruct (CBiteOpt.evaluate f r1 s1) as [[s2 r2] ev2].
    cbn [fst snd] in C.
    apply update_step_push; [|exact Ht].
    destruct C as (_ & _ & _ & _ & _ & _ & _ & -> & _).
    apply fixCostNaN_spec.
Qed.

End OptInv.

Section OptRun.

Context {Aux : Type} (E : CBiteOpt.externals Aux).
Context (f : list double -> double).
Hypothesis Hgen : OptSpec.gen_ok E f.

Import OptSpec.

(** Any sequence of events of an object that has evaluated a solution
    keeps the invariant and never increases the best cost. *)
Lemma events_inv s s' :
  events E f s s' -> inv s ->
  inv s' /\ (evaluated s -> evaluated s' /\ Dbl.le (best s') (best s)).
Proof.
  induction 1 as [s|s s1 s2 Hev Hevs IH]; intros Hinv.
  - split; [exact Hinv|]. intros He. split; [exact He|].
    apply le_refl, Hinv.
  - assert (H1 : inv s1 /\ (evaluated s -> evaluated s1 /\
                             Dbl.le (best s1) (best s))).
    { destruct Hev as [rnd push|rnd t s1 Hp].
      - pose proof (optimize_own E f Hgen rnd s push Hinv) as O.
        cbv zeta in O. destruct O as (O1 & O2 & O3 & _). auto.
      - destruct (optimize_push E f Hgen rnd t s Hinv)
          as (t' & Ht & I1 & I2 & I3 & I4).
        rewrite Ht in Hp. injection Hp as <-.
        split; [exact I1|]. intros He. split; [auto|].
        rewrite I2. apply le_refl, Hinv. }
    destruct H1 as [I1 M1]. destruct (IH I1) as [I2 M2].
    split; [exact I2|]. intros He.
    destruct (M1 He) as [E1 L1]. destruct (M2 E1) as [E2 L2].
    split; [exact E2|]. eapply le_trans'; eauto.
Qed.

End OptRun.

Section OptInit.

Context {Aux : Type} (E : CBiteOpt.externals Aux).

Import OptSpec.

(** [init]: the three populations are emptied, the best cost is the
    initial [1e300], and the initial evaluations are due. *)
Lemma opt_init_spec lb ub s rnd ip ir :
  let s' := fst (CBiteOpt.init E lb ub s rnd ip ir) in
  own s' = CBitePop.resetCurPopPos (CBiteOpt.cos E) (own s) /\
  best s' = Dbl.d1e300 /\
  CBiteOptBase.DoInitEvals (CBiteOpt.base s') = true /\
  CBiteOpt.OldPops0 s' =
    CBitePop.resetCurPopPos (CBiteOpt.cos E) (CBiteOpt.OldPops0 s) /\
  CBiteOpt.OldPops1 s' =
    CBitePop.resetCurPopPos (CBiteOpt.cos E) (CBiteOpt.OldPops1 s) /\
  CBiteOptBase.par (CBiteOpt.base s') = CBiteOptBase.par (CBiteOpt.base s).
Proof.
  cbv zeta. unfold CBiteOpt.init, CBiteOptBase.initCommonVars.
  destruct (fold_left _ _ _) as [sels rnd1].
  destruct (CBiteOpt.aux_init E lb ub rnd1 _ ip ir) as [a rnd2].
  unfold own, best, CBiteOpt.getBestCost.
  destruct ip; cbn; auto 10.
Qed.

(** [updateDims] on a constructed object, for a positive population
    size. *)
Lemma opt_updateDims_spec u n (P : nat) :
  (0 < P)%nat ->
  let s := CBiteOpt.updateDims E (CBiteOpt.construct u) n (Z.of_nat P) in
  own s = CBitePop.initBuffers (CBiteOpt.cos E) (own (CBiteOpt.construct u))
            (CBiteOpt.fresh_item E) (CBiteOpt.fresh_cent E) n P /\
  CBiteOpt.OldPops0 s =
    CBitePop.initBuffers (CBiteOpt.cos E)
      (CBiteOpt.OldPops0 (CBiteOpt.construct u))
      (CBiteOpt.fresh_item E) (CBiteOpt.fresh_cent E) n P /\
  CBiteOpt.OldPops1 s =
    CBitePop.initBuffers (CBiteOpt.cos E)
      (CBiteOpt.OldPops1 (CBiteOpt.construct u))
      (CBiteOpt.fresh_item E) (CBiteOpt.fresh_cent E) n P /\
  CBiteParPops.ParPops (CBiteOptBase.par (CBiteOpt.base s)) =
    replicate 5 CBiteParPops.blank /\
  CBiteParPops.ParPopCount (CBiteOptBase.par (CBiteOpt.base s)) = 5%nat.
Proof.
  intros HP. cbv zeta. unfold CBiteOpt.updateDims.
  destruct (Z.ltb_spec 0 (Z.of_nat P)); [|lia].
  rewrite Nat2Z.id.
  replace ((P =? _)%nat) with false
    by (symmetry; apply Nat.eqb_neq; cbn; lia).
  rewrite andb_false_r. unfold own. cbn. auto.
Qed.

(** A new optimizer object satisfies the invariant and has evaluated
    nothing. *)
Lemma opt_new_inv u n (P : nat) lb ub rnd ip ir :
  (0 < P)%nat ->
  let s := fst (CBiteOpt.init E lb ub
                  (CBiteOpt.updateDims E (CBiteOpt.construct u) n (Z.of_nat P))
                  rnd ip ir) in
  inv s /\ best s = Dbl.d1e300 /\ ~ evaluated s /\
  CBiteOptBase.DoInitEvals (CBiteOpt.base s) = true.
Proof.
  intros HP. cbv zeta.
  pose proof (opt_init_spec lb ub
                (CBiteOpt.updateDims E (CBiteOpt.construct u) n (Z.of_nat P))
                rnd ip ir) as I. cbv zeta in I.
  destruct I as (I1 & I2 & I3 & _).
  pose proof (opt_updateDims_spec u n P HP) as D. cbv zeta in D.
  destruct D as (D1 & _).
  unfold inv, evaluated. rewrite I1, I2, I3, D1.
  split_and!; auto.
  - by apply init_inv.
  - discriminate.
  - cbn. lia.
  - cbn. lia.
Qed.

End OptInit.

(** ** The ensemble *)

Section DeepInv.

Context {Aux : Type} (E : CBiteOpt.externals Aux) (opt0 : CBiteOpt.state Aux).
Context (f : list double -> double).
Hypothesis Hgen : OptSpec.gen_ok E f.

Import OptSpec.

(** The loop that draws [PushOpt] ends with a position of [Opts] other
    than [cur]. *)
Lemma pick_push_range fuel n cur : forall rnd k rnd',
  (0 < n)%nat -> Z.of_nat n < 2 ^ 31 ->
  CBiteOptDeep.pick_push fuel n cur rnd = Some (k, rnd') ->
  (k < n)%nat /\ k <> cur.
Proof.
  induction fuel as [|fuel IH]; intros rnd k rnd' Hn Hn' H; [discriminate|].
  cbn [CBiteOptDeep.pick_push] in H.
  pose proof (getInt_range (Z.of_nat n) rnd ltac:(lia)) as Hr.
  destruct (CBiteRnd.getInt (Z.of_nat n) rnd) as [z rnd1].
  cbn [fst] in Hr.
  destruct (Nat.eqb_spec (Z.to_nat z) cur) as [e|e].
  - by apply (IH rnd1 k rnd').
  - injection H as <- <-. split; [lia|exact e].
Qed.

(** The objects of the ensemble after a call of [optimize] of the object
    [cur] with the object [pu] as [PushOpt]. *)
Lemma deep_opts_spec rnd (l : list (CBiteOpt.state Aux)) cur pu :
  Forall inv l -> (cur < length l)%nat -> (pu < length l)%nat ->
  let push := if (pu =? cur)%nat then None else Some (nth pu l opt0) in
  let r := CBiteOpt.optimize E f rnd (nth cur l opt0) push in
  let opts1 := match CBiteOpt.r_push r with
               | Some t => <[pu := t]> l
               | None => l
               end in
  let opts2 := <[cur := CBiteOpt.r_opt r]> opts1 in
  length opts2 = length l /\ Forall inv opts2 /\
  nth cur opts2 opt0 = CBiteOpt.r_opt r /\
  forall i, (i < length l)%nat -> i <> cur ->
    best (nth i opts2 opt0) = best (nth i l opt0) /\
    (evaluated (nth i l opt0) -> evaluated (nth i opts2 opt0)).
Proof.
  intros Hall Hcur Hpu. cbv zeta.
  set (push := if (pu =? cur)%nat then None else Some (nth pu l opt0)).
  set (r := CBiteOpt.optimize E f rnd (nth cur l opt0) push).
  assert (Hnth : forall i, (i < length l)%nat -> inv (nth i l opt0)).
  { intros i Hi. destruct (lookup_lt_is_Some_2 l i Hi) as [x Hx].
    rewrite (nth_lookup_Some _ _ _ _ Hx). eapply Forall_lookup_1; eauto. }
  pose proof (optimize_own E f Hgen rnd (nth cur l opt0) push (Hnth _ Hcur))
    as O. cbv zeta in O. fold r in O. destruct O as (O1 & _).
  assert (H1 : exists l1,
    l1 = match CBiteOpt.r_push r with Some t => <[pu := t]> l | None => l end
    /\ length l1 = length l /\ Forall inv l1 /\
    forall i, (i < length l)%nat -> i <> cur ->
      best (nth i l1 opt0) = best (nth i l opt0) /\
      (evaluated (nth i l opt0) -> evaluated (nth i l1 opt0))).
  { eexists. split; [reflexivity|]. subst r push.
    destruct (Nat.eqb_spec pu cur) as [e|e].
    - rewrite optimize_push_none. auto.
    - destruct (optimize_push E f Hgen rnd (nth cur l opt0) (nth pu l opt0)
                  (Hnth _ Hpu)) as (t' & -> & I1 & I2 & I3 & I4).
      rewrite length_insert. split; [reflexivity|].
      split; [by apply Forall_insert|].
      intros i Hi Hne. rewrite !(nth_lookup _ _ opt0).
      destruct (Nat.eq_dec i pu) as [->|Hip].
      + rewrite list_lookup_insert_eq by assumption. cbn.
        rewrite <- !(nth_lookup _ _ opt0). auto.
      + rewrite list_lookup_insert_ne by congruence. auto. }
  destruct H1 as (l1 & <- & L1 & L2 & L3).
  rewrite length_insert. split; [exact L1|].
  split; [by apply Forall_insert|].
  split.
  - rewrite (nth_lookup _ _ opt0), list_lookup_insert_eq by lia. reflexivity.
  - intros i Hi Hne. rewrite (nth_lookup (<[cur := _]> l1) _ opt0).
    rewrite list_lookup_insert_ne by congruence.
    rewrite <- (nth_lookup _ _ opt0). by apply L3.
Qed.

(** One call of [optimize] of the ensemble. *)
Lemma deep_optimize_inv fuel rnd d sc d' rnd' ev :
  deep_inv d ->
  CBiteOptDeep.optimize E opt0 fuel f rnd d = Some (sc, d', rnd', ev) ->
  deep_inv d' /\
  (CBiteOptDeep.BestOpt d = CBiteOptDeep.CurOpt d ->
   evaluated (CBiteOptDeep.opt_at opt0 d' (CBiteOptDeep.BestOpt d'))) /\
  (evaluated (CBiteOptDeep.opt_at opt0 d (CBiteOptDeep.BestOpt d)) ->
   evaluated (CBiteOptDeep.opt_at opt0 d' (CBiteOptDeep.BestOpt d')) /\
   Dbl.le (CBiteOptDeep.getBestCost opt0 d')
          (CBiteOptDeep.getBestCost opt0 d)).
Proof.
  intros (Hlen & Hpos & Hlt & Hall & Hb & Hc & Hp & H1) Hopt.
  assert (Hnth : forall i, (i < length (CBiteOptDeep.Opts d))%nat ->
                           inv (nth i (CBiteOptDeep.Opts d) opt0)).
  { intros i Hi. destruct (lookup_lt_is_Some_2 _ i Hi) as [x Hx].
    rewrite (nth_lookup_Some _ _ _ _ Hx). eapply Forall_lookup_1; eauto. }
  unfold CBiteOptDeep.optimize in Hopt.
  destruct (Nat.eqb_spec (CBiteOptDeep.OptCount d) 1) as [e1|e1].
  { specialize (H1 e1). injection Hopt as <- <- <- <-.
    unfold CBiteOptDeep.getBestCost, CBiteOptDeep.opt_at, deep_inv.
    cbn [CBiteOptDeep.Opts CBiteOptDeep.BestOpt CBiteOptDeep.OptCount
         CBiteOptDeep.CurOpt CBiteOptDeep.PushOpt].
    rewrite H1.
    pose proof (optimize_own E f Hgen rnd
                  (nth 0 (CBiteOptDeep.Opts d) opt0) None
                  (Hnth 0%nat ltac:(lia))) as O.
    cbv zeta in O. unfold CBiteOptDeep.opt_at in *.
    set (r := CBiteOpt.optimize E f rnd _ None) in *.
    destruct O as (O1 & O2 & O3 & _).
    assert (Hn0 : nth 0 (<[0%nat := CBiteOpt.r_opt r]> (CBiteOptDeep.Opts d))
                      opt0 = CBiteOpt.r_opt r).
    { rewrite (nth_lookup _ _ opt0), list_lookup_insert_eq by lia.
      reflexivity. }
    rewrite Hn0, length_insert.
    split_and!; auto; try lia.
    by apply Forall_insert. }
  pose proof (deep_opts_spec rnd (CBiteOptDeep.Opts d) (CBiteOptDeep.CurOpt d)
                (CBiteOptDeep.PushOpt d) Hall ltac:(lia) ltac:(lia)) as S.
  cbv zeta in S. unfold CBiteOptDeep.opt_at in Hopt.
  set (push := if (_ =? _)%nat then None else Some _) in *.
  pose proof (optimize_own E f Hgen rnd
                (nth (CBiteOptDeep.CurOpt d) (CBiteOptDeep.Opts d) opt0) push
                (Hnth (CBiteOptDeep.CurOpt d) ltac:(lia))) as O.
  cbv zeta in O.
  set (r := CBiteOpt.optimize E f rnd _ push) in *.
  set (opts2 := <[CBiteOptDeep.CurOpt d := CBiteOpt.r_opt r]> _) in *.
  destruct S as (S1 & S2 & S3 & S4).
  destruct O as (O1 & O2 & O3 & _).
  set (best' := if Dbl.leb _ _ then CBiteOptDeep.CurOpt d
                else CBiteOptDeep.BestOpt d) in *.
  assert (Hcase :
    best' = CBiteOptDeep.CurOpt d /\
    Dbl.leb (CBiteOpt.getBestCost (CBiteOpt.r_opt r))
            (CBiteOpt.getBestCost
               (nth (CBiteOptDeep.BestOpt d) opts2 opt0)) = true \/
    best' = CBiteOptDeep.BestOpt d /\
    Dbl.leb (CBiteOpt.getBestCost (CBiteOpt.r_opt r))
            (CBiteOpt.getBestCost
               (nth (CBiteOptDeep.BestOpt d) opts2 opt0)) = false)
    by (subst best'; destruct (Dbl.leb _ _); auto).
  clearbody best'.
  assert (Hbest' : (best' < CBiteOptDeep.OptCount d)%nat)
    by (destruct Hcase as [[-> _]|[-> _]]; lia).
  assert (Hfirst : CBiteOptDeep.BestOpt d = CBiteOptDeep.CurOpt d ->
                   evaluated (nth best' opts2 opt0)).
  { intros Hbc. destruct Hcase as [[-> _]|[-> _]]; rewrite ?Hbc, S3;
      exact O2. }
  assert (Hmono :
    evaluated (nth (CBiteOptDeep.BestOpt d) (CBiteOptDeep.Opts d) opt0) ->
    evaluated (nth best' opts2 opt0) /\
    Dbl.le (best (nth best' opts2 opt0))
           (best (nth (CBiteOptDeep.BestOpt d) (CBiteOptDeep.Opts d) opt0))).
  { intros Hev.
    destruct (Nat.eq_dec (CBiteOptDeep.BestOpt d) (CBiteOptDeep.CurOpt d))
      as [Hbc|Hbc].
    - split; [by apply Hfirst|].
      destruct Hcase as [[-> _]|[-> _]]; rewrite ?Hbc, S3; apply O3;
        by rewrite <- Hbc.
    - destruct (S4 (CBiteOptDeep.BestOpt d) ltac:(lia) Hbc) as [B1 B2].
      unfold best in *.
      destruct Hcase as [[-> Hle]|[-> Hle]].
      + split; [rewrite S3; exact O2|]. rewrite S3, <- B1. exact Hle.
      + split; [by apply B2|]. rewrite B1. apply le_refl.
        apply (Hnth (CBiteOptDeep.BestOpt d)). lia. }
  assert (Hd' : forall cur pu last st,
    (cur < CBiteOptDeep.OptCount d)%nat ->
    (pu < CBiteOptDeep.OptCount d)%nat ->
    let d1 := CBiteOptDeep.mk (CBiteOptDeep.ParamCount d)
                (CBiteOptDeep.OptCount d) opts2 best' cur pu last st in
    deep_inv d1 /\
    (CBiteOptDeep.BestOpt d = CBiteOptDeep.CurOpt d ->
     evaluated (CBiteOptDeep.opt_at opt0 d1 (CBiteOptDeep.BestOpt d1))) /\
    (evaluated (CBiteOptDeep.opt_at opt0 d (CBiteOptDeep.BestOpt d)) ->
     evaluated (CBiteOptDeep.opt_at opt0 d1 (CBiteOptDeep.BestOpt d1)) /\
     Dbl.le (CBiteOptDeep.getBestCost opt0 d1)
            (CBiteOptDeep.getBestCost opt0 d))).
  { intros cur pu last st Hcur Hpu. cbv zeta.
    unfold deep_inv, CBiteOptDeep.getBestCost, CBiteOptDeep.opt_at. cbn.
    split_and!; auto; try lia. }
  destruct (CBiteOpt.r_stall r =? 0).
  - injection Hopt as <- <- <- <-. apply Hd'; lia.
  - destruct (Nat.eqb_spec (CBiteOptDeep.OptCount d) 2) as [e2|e2].
    + injection Hopt as <- <- <- <-. apply Hd'; [lia|].
      destruct (CBiteOptDeep.PushOpt d =? 0)%nat; lia.
    + destruct (CBiteOptDeep.pick_push _ _ _ _) as [[k rnd1]|] eqn:Hpk;
        [|discriminate].
      injection Hopt as <- <- <- <-.
      apply pick_push_range in Hpk as [Hk _]; [|lia|lia].
      apply Hd'; lia.
Qed.

(** Any number of calls of [optimize] of the ensemble. *)
Lemma run_deep_inv fuel n : forall d rnd st lg d' rnd' st' lg',
  deep_inv d ->
  run_deep E opt0 fuel f n d rnd st lg = Some (d', rnd', st', lg') ->
  deep_inv d' /\
  (evaluated (CBiteOptDeep.opt_at opt0 d (CBiteOptDeep.BestOpt d)) ->
   evaluated (CBiteOptDeep.opt_at opt0 d' (CBiteOptDeep.BestOpt d')) /\
   Dbl.le (CBiteOptDeep.getBestCost opt0 d')
          (CBiteOptDeep.getBestCost opt0 d)).
Proof.
  induction n as [|n IH]; intros d rnd st lg d' rnd' st' lg' Hinv Hrun.
  - injection Hrun as <- <- <- <-. split; [exact Hinv|].
    intros He. split; [exact He|]. apply le_refl.
    destruct Hinv as (Hlen & _ & _ & Hall & Hb & _).
    destruct (lookup_lt_is_Some_2 (CBiteOptDeep.Opts d)
                (CBiteOptDeep.BestOpt d) ltac:(lia)) as [x Hx].
    unfold CBiteOptDeep.getBestCost, CBiteOptDeep.opt_at.
    rewrite (nth_lookup_Some _ _ _ _ Hx).
    apply (Forall_lookup_1 _ _ _ _ Hall Hx).
  - cbn [run_deep] in Hrun.
    destruct (CBiteOptDeep.optimize E opt0 fuel f rnd d)
      as [[[[sc d1] rnd1] ev]|] eqn:Hopt; [|discriminate].
    destruct (deep_optimize_inv fuel rnd d sc d1 rnd1 ev Hinv Hopt)
      as (I1 & _ & M1).
    destruct (IH _ _ _ _ _ _ _ _ I1 Hrun) as (I2 & M2).
    split; [exact I2|]. intros He.
    destruct (M1 He) as [E1 L1]. destruct (M2 E1) as [E2 L2].
    split; [exact E2|]. eapply le_trans'; eauto.
Qed.

(** A call of [optimize] keeps the best costs from being NaN, whatever the
    state of the populations. *)
Lemma optimize_nn rnd s push :
  Dbl.is_nan (best s) = false ->
  let r := CBiteOpt.optimize E f rnd s push in
  Dbl.is_nan (best (CBiteOpt.r_opt r)) = false /\
  match push with
  | None => CBiteOpt.r_push r = None
  | Some t => exists t', CBiteOpt.r_push r = Some t' /\ best t' = best t
  end.
Proof.
  intros Hnn. cbv zeta. unfold CBiteOpt.optimize.
  destruct (CBiteOptBase.DoInitEvals (CBiteOpt.base s)).
  - pose proof (fill_step_struct E f rnd s push) as F. cbv zeta in F.
    destruct F as (F1 & _ & _ & _ & F5 & _).
    split.
    + destruct (_ =? 0)%nat; destruct F5 as [-> _];
        [apply fixCostNaN_spec|exact Hnn].
    + rewrite F1. destruct push; eauto.
  - pose proof (candidate_spec E f Hgen rnd s) as C. cbv zeta in C.
    destruct (CBiteOpt.generate E f rnd s) as [[s1 r1] ev1].
    cbn [fst snd] in C.
    destruct (CBiteOpt.evaluate f r1 s1) as [[s2 r2] ev2].
    cbn [fst snd] in C.
    destruct C as (_ & _ & C3 & _ & _ & _ & _ & C8 & _).
    pose proof (update_step_struct E r2 s2 push (ev1 ++ ev2)) as U.
    cbv zeta in U. destruct U as (_ & _ & _ & U4 & _ & _ & _ & U8).
    split.
    + destruct (_ && _); destruct U4 as [-> _].
      * rewrite C8. apply fixCostNaN_spec.
      * by rewrite C3.
    + destruct push as [t|]; [|exact U8].
      destruct U8 as [U8|(_ & _ & U8)]; rewrite U8; eexists;
        (split; [reflexivity|]); [reflexivity|].
      unfold best, CBiteOpt.getBestCost. cbn [CBiteOpt.base CBiteOpt.with_base].
      match goal with |- context [CBiteOpt.updateParPop ?x ?c ?tp] =>
        pose proof (updateParPop_frame x c tp) as P end.
      cbv zeta in P. destruct P as (_ & -> & _). reflexivity.
Qed.

End DeepInv.

(** ** The ensemble and the driver: the best costs are never NaN *)

Section DeepNn.

Context {Aux : Type} (E : CBiteOpt.externals Aux) (opt0 : CBiteOpt.state Aux).
Context (f : list double -> double).
Hypothesis Hgen : OptSpec.gen_ok E f.

Import OptSpec.

Lemma deep_optimize_nn fuel rnd d sc d' rnd' ev :
  deep_nn d ->
  CBiteOptDeep.optimize E opt0 fuel f rnd d = Some (sc, d', rnd', ev) ->
  deep_nn d'.
Proof.
  intros (Hlen & Hpos & Hlt & Hall & Hb & Hc & Hp) Hopt.
  assert (Hnth : forall i, (i < length (CBiteOptDeep.Opts d))%nat ->
                           nn (nth i (CBiteOptDeep.Opts d) opt0)).
  { intros i Hi. destruct (lookup_lt_is_Some_2 _ i Hi) as [x Hx].
    rewrite (nth_lookup_Some _ _ _ _ Hx).
    apply (Forall_lookup_1 _ _ _ _ Hall Hx). }
  unfold CBiteOptDeep.optimize, CBiteOptDeep.opt_at in Hopt.
  destruct (Nat.eqb_spec (CBiteOptDeep.OptCount d) 1) as [e1|e1].
  { injection Hopt as <- <- <- <-. unfold deep_nn. cbn.
    rewrite length_insert. split_and!; auto.
    apply Forall_insert; [exact Hall|].
    apply (optimize_nn E f Hgen rnd _ None). apply Hnth. lia. }
  set (push := if (_ =? _)%nat then None else Some _) in *.
  pose proof (optimize_nn E f Hgen rnd
                (nth (CBiteOptDeep.CurOpt d) (CBiteOptDeep.Opts d) opt0) push
                (Hnth (CBiteOptDeep.CurOpt d) ltac:(lia))) as O.
  cbv zeta in O.
  set (r := CBiteOpt.optimize E f rnd _ push) in *.
  destruct O as [O1 O2].
  set (opts1 := match CBiteOpt.r_push r with
                | Some t => <[CBiteOptDeep.PushOpt d := t]> (CBiteOptDeep.Opts d)
                | None => CBiteOptDeep.Opts d
                end) in *.
  assert (H1 : length opts1 = length (CBiteOptDeep.Opts d) /\
               Forall nn opts1).
  { subst opts1 push.
    destruct (CBiteOptDeep.PushOpt d =? CBiteOptDeep.CurOpt d)%nat.
    - rewrite O2. auto.
    - destruct O2 as (t' & -> & Ht). rewrite length_insert.
      split; [reflexivity|]. apply Forall_insert; [exact Hall|].
      unfold nn. rewrite Ht. apply Hnth. lia. }
  destruct H1 as [L1 A1]. clearbody opts1.
  set (opts2 := <[CBiteOptDeep.CurOpt d := CBiteOpt.r_opt r]> opts1) in *.
  assert (L2 : length opts2 = length (CBiteOptDeep.Opts d))
    by (subst opts2; rewrite length_insert; exact L1).
  assert (A2 : Forall nn opts2) by (by apply Forall_insert).
  clearbody opts2.
  set (best' := if Dbl.leb _ _ then CBiteOptDeep.CurOpt d
                else CBiteOptDeep.BestOpt d) in *.
  assert (Hbest' : (best' < CBiteOptDeep.OptCount d)%nat)
    by (subst best'; destruct (Dbl.leb _ _); lia).
  clearbody best'.
  assert (Hd' : forall cur pu last st,
    (cur < CBiteOptDeep.OptCount d)%nat ->
    (pu < CBiteOptDeep.OptCount d)%nat ->
    deep_nn (CBiteOptDeep.mk (CBiteOptDeep.ParamCount d)
               (CBiteOptDeep.OptCount d) opts2 best' cur pu last st)).
  { intros cur pu last st Hcur Hpu. unfold deep_nn. cbn.
    split_and!; auto; lia. }
  destruct (CBiteOpt.r_stall r =? 0).
  - injection Hopt as <- <- <- <-. apply Hd'; lia.
  - destruct (Nat.eqb_spec (CBiteOptDeep.OptCount d) 2) as [e2|e2].
    + injection Hopt as <- <- <- <-. apply Hd'; [lia|].
      destruct (CBiteOptDeep.PushOpt d =? 0)%nat; lia.
    + destruct (CBiteOptDeep.pick_push _ _ _ _) as [[k rnd1]|] eqn:Hpk;
        [|discriminate].
      injection Hopt as <- <- <- <-.
      apply pick_push_range in Hpk as [Hk _]; [|lia|lia].
      apply Hd'; lia.
Qed.

(** The loop of [init] over the objects. *)
Lemma init_fold (Q : CBiteOpt.state Aux -> Prop) lb ub ip ir l :
  (forall o r, In o l -> Q (fst (CBiteOpt.init E lb ub o r ip ir))) ->
  forall acc r,
    Forall Q acc ->
    let res :=
      fold_left
        (fun (acc : list (CBiteOpt.state Aux) * CBiteRnd.state) o =>
           let '(l, r) := acc in
           let '(o', r') := CBiteOpt.init E lb ub o r ip ir in
           (l ++ [o'], r'))
        l (acc, r) in
    length (fst res) = (length acc + length l)%nat /\ Forall Q (fst res).
Proof.
  induction l as [|o l IH]; intros HQ acc r Hacc; cbn [fold_left].
  - cbn. split; [lia|exact Hacc].
  - pose proof (HQ o r ltac:(by left)) as Ho.
    destruct (CBiteOpt.init E lb ub o r ip ir) as [o' r'].
    cbn [fst] in Ho.
    destruct (IH (fun o1 r1 H => HQ o1 r1 (or_intror H)) (acc ++ [o']) r')
      as [L A].
    { apply Forall_app. split; [exact Hacc|]. by constructor. }
    cbv zeta. split; [|exact A]. rewrite L, length_app. cbn. lia.
Qed.

Lemma deep_init_spec (Q : CBiteOpt.state Aux -> Prop) fuel lb ub d rnd ip ir
  d' rnd' :
  length (CBiteOptDeep.Opts d) = CBiteOptDeep.OptCount d ->
  (0 < CBiteOptDeep.OptCount d)%nat ->
  Z.of_nat (CBiteOptDeep.OptCount d) < 2 ^ 31 ->
  (forall o r, In o (CBiteOptDeep.Opts d) ->
               Q (fst (CBiteOpt.init E lb ub o r ip ir))) ->
  CBiteOptDeep.init E fuel lb ub d rnd ip ir = Some (d', rnd') ->
  length (CBiteOptDeep.Opts d') = CBiteOptDeep.OptCount d' /\
  CBiteOptDeep.OptCount d' = CBiteOptDeep.OptCount d /\
  Forall Q (CBiteOptDeep.Opts d') /\
  CBiteOptDeep.BestOpt d' = 0%nat /\ CBiteOptDeep.CurOpt d' = 0%nat /\
  (CBiteOptDeep.PushOpt d' < CBiteOptDeep.OptCount d)%nat.
Proof.
  intros Hlen Hpos Hlt HQ Hinit. unfold CBiteOptDeep.init in Hinit.
  rewrite <- Hlen, firstn_all, drop_all in Hinit.
  pose proof (init_fold Q lb ub ip ir (CBiteOptDeep.Opts d) HQ [] rnd
                ltac:(constructor)) as F.
  cbv zeta in F.
  destruct (fold_left _ _ _) as [opts rnd1]. cbn [fst length] in F.
  destruct F as [L A]. rewrite app_nil_r, Hlen in Hinit.
  destruct (CBiteOptDeep.OptCount d =? 1)%nat.
  - injection Hinit as <- <-. cbn. split_and!; auto; lia.
  - destruct (CBiteOptDeep.pick_push _ _ _ _) as [[k rnd2]|] eqn:Hpk;
      [|discriminate].
    injection Hinit as <- <-.
    apply pick_push_range in Hpk as [Hk _]; [|lia|lia].
    cbn. split_and!; auto; lia.
Qed.

Lemma deep_nn_best d :
  deep_nn d -> Dbl.is_nan (CBiteOptDeep.getBestCost opt0 d) = false.
Proof.
  intros (Hlen & _ & _ & Hall & Hb & _).
  destruct (lookup_lt_is_Some_2 (CBiteOptDeep.Opts d)
              (CBiteOptDeep.BestOpt d) ltac:(lia)) as [x Hx].
  unfold CBiteOptDeep.getBestCost, CBiteOptDeep.opt_at.
  rewrite (nth_lookup_Some _ _ _ _ Hx).
  apply (Forall_lookup_1 _ _ _ _ Hall Hx).
Qed.

Lemma deep_init_nn fuel lb ub d rnd ip ir d' rnd' :
  length (CBiteOptDeep.Opts d) = CBiteOptDeep.OptCount d ->
  (0 < CBiteOptDeep.OptCount d)%nat ->
  Z.of_nat (CBiteOptDeep.OptCount d) < 2 ^ 31 ->
  CBiteOptDeep.init E fuel lb ub d rnd ip ir = Some (d', rnd') ->
  deep_nn d'.
Proof.
  intros Hlen Hpos Hlt Hinit.
  destruct (deep_init_spec nn fuel lb ub d rnd ip ir d' rnd' Hlen Hpos Hlt)
    as (I1 & I2 & I3 & I4 & I5 & I6); [|exact Hinit|].
  - intros o r _. unfold nn.
    destruct (opt_init_spec E lb ub o r ip ir) as (_ & -> & _). reflexivity.
  - unfold deep_nn. rewrite I2, I4, I5. split_and!; auto; try lia.
Qed.

(** The loop over the iterations of one attempt. *)
Lemma iterate_nn fuel f_minp sct n : forall i d rnd d1 rnd1 i1 broke fin,
  deep_nn d ->
  Minimize.iterate E opt0 fuel f f_minp sct n i d rnd =
    Some (d1, rnd1, i1, broke, fin) ->
  deep_nn d1.
Proof.
  induction n as [|n IH]; intros i d rnd d1 rnd1 i1 broke fin Hd Hit;
    cbn [Minimize.iterate] in Hit.
  - injection Hit as <- <- <- <- <-. exact Hd.
  - destruct (CBiteOptDeep.optimize E opt0 fuel f rnd d)
      as [[[[sc d2] rnd2] ev]|] eqn:Hopt; [|discriminate].
    pose proof (deep_optimize_nn fuel rnd d sc d2 rnd2 ev Hd Hopt) as Hd2.
    destruct (match f_minp with Some m => _ | None => false end).
    + injection Hit as <- <- <- <- <-. exact Hd2.
    + destruct ((0 <? sct) && (sct <=? sc)).
      * injection Hit as <- <- <- <- <-. exact Hd2.
      * by apply (IH _ _ _ _ _ _ _ _ Hd2 Hit).
Qed.

(** The loop over the attempts. *)
Lemma attempts_min fuel lb ub f_minp sct useiter n :
  forall (first : bool) d rnd r r',
  length (CBiteOptDeep.Opts d) = CBiteOptDeep.OptCount d ->
  (0 < CBiteOptDeep.OptCount d)%nat ->
  Z.of_nat (CBiteOptDeep.OptCount d) < 2 ^ 31 ->
  (if first then Minimize.bests r = [] /\ (0 < n)%nat
   else Minimize.is_min r) ->
  Minimize.attempts E opt0 fuel f lb ub f_minp sct useiter n first d rnd r =
    Some r' ->
  Minimize.is_min r'.
Proof.
  induction n as [|n IH]; intros first d rnd r r' Hlen Hpos Hlt Hr Ha;
    cbn [Minimize.attempts] in Ha.
  - injection Ha as <-. destruct first; [lia|exact Hr].
  - destruct (CBiteOptDeep.init E fuel lb ub d rnd None Dbl.one)
      as [[d0 rnd0]|] eqn:Hinit; [|discriminate].
    pose proof (deep_init_nn fuel lb ub d rnd None Dbl.one d0 rnd0
                  Hlen Hpos Hlt Hinit) as Hd0.
    destruct (Minimize.iterate E opt0 fuel f f_minp sct useiter 0 d0 rnd0)
      as [[[[[d1 rnd1] i] broke] fin]|] eqn:Hit; [|discriminate].
    pose proof (iterate_nn fuel f_minp sct useiter 0 d0 rnd0 d1 rnd1 i broke
                  fin Hd0 Hit) as Hd1.
    pose proof (deep_nn_best d1 Hd1) as Hb.
    set (b := CBiteOptDeep.getBestCost opt0 d1) in *.
    match type of Ha with
    | (if fin then Some ?x else _) = _ => set (r1 := x) in *
    end.
    assert (H1 : Minimize.is_min r1).
    { subst r1. unfold Minimize.is_min in *. destruct first; cbn [orb].
      - destruct Hr as [-> _]. cbn. split; [by left|].
        constructor; [by apply le_refl|constructor].
      - destruct Hr as [Hin Hall].
        assert (Hm : Dbl.is_nan (Minimize.minf r) = false).
        { apply (leb_nonan _ _ (proj1 (List.Forall_forall _ _) Hall _ Hin)). }
        destruct (Dbl.leb b (Minimize.minf r)) eqn:Hle; cbn.
        + split; [apply in_or_app; right; by left|].
          apply Forall_app. split; [|constructor; [by apply le_refl|constructor]].
          eapply Forall_impl; [exact Hall|]. cbn. intros x Hx.
          eapply le_trans'; eauto.
        + split; [apply in_or_app; by left|].
          apply Forall_app. split; [exact Hall|].
          constructor; [|constructor].
          apply lt_le; try assumption.
          apply geb_false_lt; assumption. }
    destruct Hd1 as (L1 & L2 & L3 & _).
    destruct fin.
    + injection Ha as <-. exact H1.
    + by apply (IH false d1 rnd1 r1 r' L1 L2 L3 H1 Ha).
Qed.

Lemma deep_updateDims_spec u N M P0 :
  (0 < M)%nat ->
  let d := CBiteOptDeep.updateDims E opt0 (CBiteOptDeep.construct u) N M P0 in
  CBiteOptDeep.OptCount d = M /\
  CBiteOptDeep.Opts d =
    replicate M (CBiteOpt.updateDims E (CBiteOpt.construct opt0) N P0).
Proof.
  intros HM. cbv zeta. unfold CBiteOptDeep.updateDims. cbn.
  replace ((M =? 0)%nat) with false by (symmetry; apply Nat.eqb_neq; lia).
  rewrite andb_false_r. cbn. auto.
Qed.

(** The driver: the returned cost is the least of the best costs of the
    attempts. *)
Lemma minimize_min fuel u pool0 N lb ub x0 minf0 iter M attc stopc rf f_minp
  r :
  (0 < M)%nat -> Z.of_nat M < 2 ^ 31 -> (0 < attc)%nat ->
  Minimize.biteopt_minimize E opt0 fuel u pool0 N f lb ub x0 minf0 iter M attc
    stopc rf f_minp = Some r ->
  Minimize.is_min r.
Proof.
  intros HM HM' Ha Hr. unfold Minimize.biteopt_minimize in Hr.
  destruct (deep_updateDims_spec u N M 0 HM) as [D1 D2].
  eapply attempts_min; [| | | |exact Hr].
  - rewrite D1, D2. apply length_replicate.
  - rewrite D1. exact HM.
  - rewrite D1. exact HM'.
  - cbn. auto.
Qed.

(** With one optimizer the loops that draw [PushOpt] are not entered: the
    ensemble and the driver return. *)
Lemma deep_init_single fuel lb ub d rnd ip ir :
  CBiteOptDeep.OptCount d = 1%nat ->
  exists d' rnd',
    CBiteOptDeep.init E fuel lb ub d rnd ip ir = Some (d', rnd') /\
    CBiteOptDeep.OptCount d' = 1%nat.
Proof.
  intros H1. unfold CBiteOptDeep.init.
  destruct (fold_left _ _ _) as [opts rnd1]. rewrite H1. cbn. eauto.
Qed.

Lemma iterate_single fuel f_minp sct n : forall i d rnd,
  CBiteOptDeep.OptCount d = 1%nat ->
  exists d1 rnd1 i1 broke fin,
    Minimize.iterate E opt0 fuel f f_minp sct n i d rnd =
      Some (d1, rnd1, i1, broke, fin) /\
    CBiteOptDeep.OptCount d1 = 1%nat.
Proof.
  induction n as [|n IH]; intros i d rnd H1; cbn [Minimize.iterate].
  - eauto 10.
  - rewrite (deep_optimize_single E opt0 fuel f rnd d H1). cbv zeta.
    destruct (match f_minp with Some m => _ | None => false end);
      [eauto 10|].
    destruct ((0 <? sct) && _); [eauto 10|].
    apply IH. reflexivity.
Qed.

Lemma attempts_single fuel lb ub f_minp sct useiter n :
  forall first d rnd r,
  CBiteOptDeep.OptCount d = 1%nat ->
  exists r',
    Minimize.attempts E opt0 fuel f lb ub f_minp sct useiter n first d rnd r =
      Some r'.
Proof.
  induction n as [|n IH]; intros first d rnd r H1; cbn [Minimize.attempts].
  - eauto.
  - destruct (deep_init_single fuel lb ub d rnd None Dbl.one H1)
      as (d0 & rnd0 & -> & H0).
    destruct (iterate_single fuel f_minp sct useiter 0 d0 rnd0 H0)
      as (d1 & rnd1 & i1 & broke & fin & -> & H1').
    destruct fin; [eauto|]. by apply IH.
Qed.

Lemma minimize_single fuel u pool0 N lb ub x0 minf0 iter attc stopc rf
  f_minp :
  exists r,
    Minimize.biteopt_minimize E opt0 fuel u pool0 N f lb ub x0 minf0 iter 1
      attc stopc rf f_minp = Some r.
Proof.
  unfold Minimize.biteopt_minimize. apply attempts_single.
  by destruct (deep_updateDims_spec u N 1 0 ltac:(lia)) as [-> _].
Qed.

End DeepNn.

Section DeepNew.

Context {Aux : Type} (E : CBiteOpt.externals Aux) (opt0 : CBiteOpt.state Aux).

Import OptSpec.

(** A new ensemble: every object satisfies the invariant, the best cost
    is the initial [1e300], and the first call goes to the object that
    [BestOpt] points to. *)
Lemma deep_new_inv fuel lb ub u N M (P : nat) rnd ip ir d' rnd' :
  (0 < M)%nat -> Z.of_nat M < 2 ^ 31 -> (0 < P)%nat ->
  CBiteOptDeep.init E fuel lb ub
    (CBiteOptDeep.updateDims E opt0 (CBiteOptDeep.construct u) N M
                             (Z.of_nat P))
    rnd ip ir = Some (d', rnd') ->
  deep_inv d' /\
  CBiteOptDeep.BestOpt d' = CBiteOptDeep.CurOpt d' /\
  CBiteOptDeep.getBestCost opt0 d' = Dbl.d1e300.
Proof.
  intros HM HM' HP Hinit.
  destruct (deep_updateDims_spec E opt0 u N M (Z.of_nat P) HM) as [D1 D2].
  destruct (deep_init_spec E
              (fun s => inv s /\ best s = Dbl.d1e300)
              fuel lb ub
              (CBiteOptDeep.updateDims E opt0 (CBiteOptDeep.construct u) N M
                                       (Z.of_nat P))
              rnd ip ir d' rnd')
    as (I1 & I2 & I3 & I4 & I5 & I6); try exact Hinit.
  - rewrite D1, D2. apply length_replicate.
  - rewrite D1. exact HM.
  - rewrite D1. exact HM'.
  - intros o r Ho. rewrite D2 in Ho.
    apply list_elem_of_In, elem_of_replicate_inv in Ho. subst o.
    destruct (opt_new_inv E opt0 N P lb ub r ip ir HP) as (A & B & _).
    auto.
  - rewrite D1 in *.
    assert (Hall : Forall inv (CBiteOptDeep.Opts d'))
      by (eapply Forall_impl; [exact I3|]; cbn; tauto).
    unfold deep_inv. rewrite I2, I4, I5. split_and!; auto; try lia.
    unfold CBiteOptDeep.getBestCost, CBiteOptDeep.opt_at. rewrite I4.
    destruct (lookup_lt_is_Some_2 (CBiteOptDeep.Opts d') 0%nat ltac:(lia))
      as [x Hx].
    rewrite (nth_lookup_Some _ _ _ _ Hx).
    apply (Forall_lookup_1 _ _ _ _ I3 Hx).
Qed.

End DeepNew.

(* ===================================================================== *)
(** * Part III: further properties of the code                             *)
(* ===================================================================== *)

(** ** The generator of random numbers *)

Section RndMore.

Lemma finite_lt_one M e :
  e <= -53 -> Dbl.lt (S754_finite false M e) Dbl.one.
Proof.
  intros He. unfold Dbl.lt. rewrite ltb_key by reflexivity.
  cbn. lia.
Qed.

Lemma zero_le_pos M e : Dbl.le Dbl.zero (S754_finite false M e).
Proof. unfold Dbl.le. rewrite leb_key by reflexivity. cbn. lia. Qed.

(** The pool of [n] bits is handed out from the lowest bit. *)
Lemma getBits_pool n : forall r,
  CBiteRnd.BitsLeft r = Z.of_nat n ->
  CBiteRnd.getBits n r =
    (map (fun k : nat => Z.b2z (Z.testbit (CBiteRnd.BitPool r) (Z.of_nat k)))
         (seq 0 n),
     CBiteRnd.mk (CBiteRnd.rf r) (CBiteRnd.rcalls r) (CBiteRnd.Seed r)
       (CBiteRnd.lcg r) (CBiteRnd.Hash r)
       (Z.shiftr (CBiteRnd.BitPool r) (Z.of_nat n)) 0).
Proof.
  induction n as [|n IH]; intros r Hn.
  - cbn. rewrite Z.shiftr_0_r. destruct r; cbn in *. by subst.
  - cbn [CBiteRnd.getBits]. unfold CBiteRnd.getBit.
    destruct (Z.eqb_spec (CBiteRnd.BitsLeft r) 0) as [e|_]; [lia|].
    rewrite IH by (cbn; lia). cbn [CBiteRnd.rf CBiteRnd.rcalls CBiteRnd.Seed
      CBiteRnd.lcg CBiteRnd.Hash CBiteRnd.BitPool].
    f_equal.
    + cbn [seq map]. f_equal.
      * change (Z.of_nat 0) with 0. rewrite Z.bit0_mod.
        change 1 with (Z.ones 1) at 1. rewrite Z.land_ones by lia.
        reflexivity.
      * rewrite <- seq_shift, map_map. apply map_ext. intros k.
        rewrite Z.shiftr_spec by lia. do 2 f_equal. lia.
    + f_equal. rewrite Z.shiftr_shiftr by lia. f_equal. lia.
Qed.

End RndMore.

(** X1.  [get()] delivers a number of the range [[0; 1)]: zero, or the
    double that is exactly [k * 2^-53] for the 53 high bits [k] of the value
    that [advance()] returns; no rounding takes place. *)
Theorem rnd_get_unit_interval (r : CBiteRnd.state) :
  let v := fst (CBiteRnd.get r) in
  let k := Z.shiftr (fst (CBiteRnd.advance r)) (64 - 53) in
  Dbl.le Dbl.zero v /\ Dbl.lt v Dbl.one /\
  snd (CBiteRnd.get r) = snd (CBiteRnd.advance r) /\
  (k = 0 -> v = Dbl.zero) /\
  (k <> 0 ->
   exists M e, v = S754_finite false M e /\ -105 <= e <= -53 /\
               Z.pos M = k * 2 ^ (- 53 - e) /\ 2 ^ 52 <= Z.pos M < 2 ^ 53).
Proof.
  cbv zeta. pose proof (get_exact r) as H. cbv zeta in H.
  assert (Hs : snd (CBiteRnd.get r) = snd (CBiteRnd.advance r)).
  { unfold CBiteRnd.get. by destruct (CBiteRnd.advance r). }
  destruct H as [[Hk ->]|(Hk & M & e & -> & He & HM & Hr)].
  - split_and!; auto.
    + by apply le_refl.
    + reflexivity.
    + intros Hne. lia.
  - split_and!; auto.
    + apply zero_le_pos.
    + apply finite_lt_one. lia.
    + intros Hz. lia.
    + intros _. exists M, e. auto.
Qed.

(** X2.  [getInt( N1 )] delivers an integer of [[0; N1)] for every number of
    bins [0 < N1 < 2^31], with the product [get() * N1] rounded as the
    binary64 multiplication rounds it and the cast truncating. *)
Theorem rnd_getInt_in_bins (N1 : Z) (r : CBiteRnd.state) :
  0 < N1 < 2 ^ 31 ->
  0 <= fst (CBiteRnd.getInt N1 r) < N1 /\
  snd (CBiteRnd.getInt N1 r) = snd (CBiteRnd.advance r).
Proof.
  intros HN. split; [by apply getInt_range|].
  unfold CBiteRnd.getInt, CBiteRnd.get. by destruct (CBiteRnd.advance r).
Qed.

Lemma rnd_getInt_in_bins_witness :
  0 <= fst (CBiteRnd.getInt 10 ex_rnd) < 10 /\
  snd (CBiteRnd.getInt 10 ex_rnd) = snd (CBiteRnd.advance ex_rnd).
Proof. apply (rnd_getInt_in_bins 10 ex_rnd). lia. Defined.

(** X3.  [getBit()] hands out the 64 bits of one value of the generator,
    from the lowest to the highest: starting with an empty pool, 64 calls
    return the bits of the value that [advance()] returns, advance the
    generator once, and leave the pool empty again. *)
Theorem rnd_getBit_pool (r : CBiteRnd.state) :
  CBiteRnd.BitsLeft r = 0 ->
  let a := fst (CBiteRnd.advance r) in
  let r1 := snd (CBiteRnd.advance r) in
  CBiteRnd.getBits 64 r =
    (map (fun k : nat => Z.b2z (Z.testbit a (Z.of_nat k))) (seq 0 64),
     CBiteRnd.mk (CBiteRnd.rf r1) (CBiteRnd.rcalls r1) (CBiteRnd.Seed r1)
       (CBiteRnd.lcg r1) (CBiteRnd.Hash r1) 0 0).
Proof.
  intros H0. cbv zeta.
  change (CBiteRnd.getBits 64 r)
    with (let '(b, r1) := CBiteRnd.getBit r in
          let '(l, r2) := CBiteRnd.getBits 63 r1 in (b :: l, r2)).
  unfold CBiteRnd.getBit. rewrite H0. cbn [Z.eqb].
  pose proof (advance_range r) as Ha.
  destruct (CBiteRnd.advance r) as [a r1]. cbn [fst snd] in *.
  rewrite getBits_pool by reflexivity.
  cbn [CBiteRnd.rf CBiteRnd.rcalls CBiteRnd.Seed CBiteRnd.lcg CBiteRnd.Hash
       CBiteRnd.BitPool].
  f_equal.
  - change (seq 0 64) with (0%nat :: seq 1 63). cbn [map]. f_equal.
    + change (Z.of_nat 0) with 0. rewrite Z.bit0_mod.
      change 1 with (Z.ones 1) at 1. rewrite Z.land_ones by lia.
      reflexivity.
    + rewrite <- seq_shift, map_map. apply map_ext. intros k.
      rewrite Z.shiftr_spec by lia. do 2 f_equal. lia.
  - f_equal. rewrite Z.shiftr_shiftr by lia.
    change (1 + Z.of_nat 63) with 64.
    rewrite Z.shiftr_div_pow2 by lia. apply Z.div_small. lia.
Qed.

Lemma rnd_getBit_pool_witness :
  CBiteRnd.getBits 64 ex_rnd =
    (map (fun k : nat =>
            Z.b2z (Z.testbit (fst (CBiteRnd.advance ex_rnd)) (Z.of_nat k)))
         (seq 0 64),
     CBiteRnd.mk None 0 (CBiteRnd.Seed (snd (CBiteRnd.advance ex_rnd)))
       (CBiteRnd.lcg (snd (CBiteRnd.advance ex_rnd)))
       (CBiteRnd.Hash (snd (CBiteRnd.advance ex_rnd))) 0 0).
Proof. apply (rnd_getBit_pool ex_rnd). reflexivity. Defined.


Section RndSigned.

(** The conversion of a nonzero integer of magnitude below [2^53] is exact
    and normalized, with the sign of the integer. *)
Lemma of_Z_signed z :
  z <> 0 -> Z.abs z < 2 ^ 53 ->
  exists M e, Dbl.of_Z z = S754_finite (z <? 0) M e /\
              -52 <= e <= 0 /\ Z.pos M = Z.abs z * 2 ^ (- e) /\
              2 ^ 52 <= Z.pos M < 2 ^ 53.
Proof.
  intros Hz Hk.
  assert (H : forall s p, Z.pos p < 2 ^ 53 ->
    exists M e, binary_round Dbl.prec Dbl.emax s p 0 = S754_finite s M e /\
                -52 <= e <= 0 /\ Z.pos M = Z.pos p * 2 ^ (- e) /\
                2 ^ 52 <= Z.pos M < 2 ^ 53).
  { clear. intros s p Hk. unfold binary_round.
    set (d := Z.pos (digits2_pos p)).
    pose proof (digits2_bounds p) as [Hd1 Hd2]. fold d in Hd1, Hd2.
    assert (Hd : 1 <= d <= 53).
    { split; [subst d; lia|]. apply digits_le_pow; lia. }
    assert (Ef : fexp Dbl.prec Dbl.emax (d + 0) = d - 53)
      by (unfold fexp, emin, Dbl.prec, Dbl.emax; lia).
    cbn [Zdigits2]. fold d. rewrite Ef.
    pose proof (shl_align_spec p 0 (d - 53)) as (_ & Hm & He).
    specialize (He ltac:(lia)).
    destruct (shl_align p 0 (d - 53)) as [mz ez]. cbn [fst snd] in *.
    subst ez. replace (0 - (d - 53)) with (53 - d) in Hm by lia.
    assert (Hmz : 2 ^ 52 <= Z.pos mz < 2 ^ 53).
    { rewrite Hm.
      assert (E1 : 2 ^ 52 = 2 ^ (d - 1) * 2 ^ (53 - d))
        by (rewrite <- Z.pow_add_r by lia; f_equal; lia).
      assert (E2 : 2 ^ 53 = 2 ^ d * 2 ^ (53 - d))
        by (rewrite <- Z.pow_add_r by lia; f_equal; lia).
      assert (0 < 2 ^ (53 - d)) by (apply Z.pow_pos_nonneg; lia).
      rewrite E1, E2. split.
      - apply Z.mul_le_mono_nonneg_r; lia.
      - apply Z.mul_lt_mono_pos_r; lia. }
    pose proof (digits_eq mz 53 ltac:(lia) Hmz) as Hdz.
    pose proof (bra_value s mz (d - 53)) as (w & e1 & He1 & Hw & _ & Hres).
    cbv zeta in *. cbn [Zdigits2] in *. rewrite Hdz in *.
    assert (En : fexp 53 1024 (53 + (d - 53)) - (d - 53) = 0)
      by (unfold fexp, emin; lia).
    rewrite En in *. specialize (Hw ltac:(lia)).
    change Dbl.prec with 53. change Dbl.emax with 1024.
    destruct (binary_round_aux 53 1024 s (Z.pos mz) (d - 53) loc_Exact)
      as [sg|sg| |sg m' e']; try contradiction.
    - destruct Hres as [_ Hres]. lia.
    - destruct Hres as [_ Hres]. lia.
    - destruct Hres as (-> & _ & [(-> & Hm' & _)|(-> & Hw53 & _)]); [|lia].
      exists m', (d - 53). split; [f_equal; lia|].
      replace (- (d - 53)) with (53 - d) by lia.
      split; [lia|]. split; lia. }
  unfold Dbl.of_Z, binary_normalize.
  destruct z as [|p|p]; [lia| |]; cbn [Z.ltb Z.compare Z.abs] in *.
  - by apply H.
  - by apply H.
Qed.

(** The product of a normalized double of [[2^-52; 2^53)] with [2^-53] is
    exact. *)
Lemma mul_pow2_m53 s M e :
  -52 <= e <= 0 -> 2 ^ 52 <= Z.pos M < 2 ^ 53 ->
  exists M' e', Dbl.mul (S754_finite s M e) (Dbl.pow2 (-53)) =
                  S754_finite s M' e' /\
                e' = e - 53 /\ Z.pos M' = Z.pos M.
Proof.
  intros Hek Hr.
  unfold Dbl.mul, Dbl.pow2, SFmul. rewrite xorb_false_r.
  pose proof (bra_value s (M * 2 ^ 52) (e + (-53 - 52)))
    as (w & e1 & He1 & _ & Hw & Hres).
  cbv zeta in *. cbn [Zdigits2] in *.
  assert (EX : Z.pos (M * 2 ^ 52) = Z.pos M * 2 ^ 52) by reflexivity.
  assert (Hd : Z.pos (digits2_pos (M * 2 ^ 52)) = 105).
  { apply digits_eq; [lia|]. rewrite EX.
    change (2 ^ (105 - 1)) with (2 ^ 52 * 2 ^ 52).
    change (2 ^ 105) with (2 ^ 53 * 2 ^ 52). lia. }
  rewrite Hd in *.
  assert (En : fexp 53 1024 (105 + (e + (-53 - 52))) - (e + (-53 - 52))
               = 52) by (unfold fexp, emin; lia).
  rewrite En in *. destruct (Hw ltac:(lia)) as [Hq Hh].
  rewrite EX in Hq, Hh. rewrite Z.div_mul in Hq by lia.
  change (2 ^ (52 - 1)) with (2 ^ 51) in Hh.
  assert (Ew : w = Z.pos M) by lia.
  change Dbl.prec with 53. change Dbl.emax with 1024.
  destruct (binary_round_aux 53 1024 s (Z.pos (M * 2 ^ 52))
              (e + (-53 - 52)) loc_Exact) as [sg|sg| |sg m' e'];
    try contradiction.
  - destruct Hres as [_ Hres]. lia.
  - destruct Hres as [_ Hres]. lia.
  - destruct Hres as (-> & _ & [(-> & Hm' & _)|(_ & Hw53 & _)]); [|lia].
    exists m', e1. split; [reflexivity|]. split; lia.
Qed.

End RndSigned.

(** X4.  [getTPDF()] delivers a number of the range [(-1; 1)]: for the two
    draws [v1] and [v2] of 53 bits it is zero when they are equal, and
    otherwise the double that is exactly [( v1 - v2 ) * 2^-53], with the
    sign of the difference. *)
Theorem rnd_getTPDF_range (r : CBiteRnd.state) :
  let v := fst (CBiteRnd.getTPDF r) in
  let r1 := snd (CBiteRnd.advance r) in
  let d := Z.shiftr (fst (CBiteRnd.advance r)) (64 - 53) -
           Z.shiftr (fst (CBiteRnd.advance r1)) (64 - 53) in
  Dbl.lt (Dbl.neg Dbl.one) v /\ Dbl.lt v Dbl.one /\
  snd (CBiteRnd.getTPDF r) = snd (CBiteRnd.advance r1) /\
  (d = 0 -> v = Dbl.zero) /\
  (d <> 0 ->
   exists M e, v = S754_finite (d <? 0) M e /\ -105 <= e <= -53 /\
               Z.pos M = Z.abs d * 2 ^ (- 53 - e) /\
               2 ^ 52 <= Z.pos M < 2 ^ 53).
Proof.
  cbv zeta. unfold CBiteRnd.getTPDF.
  pose proof (advance_range r) as Ha1.
  destruct (CBiteRnd.advance r) as [a1 r1]. cbn [fst snd] in *.
  pose proof (advance_range r1) as Ha2.
  destruct (CBiteRnd.advance r1) as [a2 r2]. cbn [fst snd] in *.
  set (v1 := Z.shiftr a1 (64 - 53)). set (v2 := Z.shiftr a2 (64 - 53)).
  assert (H1 : 0 <= v1 < 2 ^ 53).
  { subst v1. rewrite Z.shiftr_div_pow2 by lia. split.
    - apply Z.div_pos; lia.
    - apply Z.div_lt_upper_bound; lia. }
  assert (H2 : 0 <= v2 < 2 ^ 53).
  { subst v2. rewrite Z.shiftr_div_pow2 by lia. split.
    - apply Z.div_pos; lia.
    - apply Z.div_lt_upper_bound; lia. }
  assert (Hw : wrap64 (v1 - v2) = v1 - v2).
  { unfold wrap64. rewrite Z.mod_small; lia. }
  rewrite Hw.
  destruct (Z.eq_dec (v1 - v2) 0) as [E|E].
  { rewrite E. split_and!; try reflexivity; intros; lia. }
  destruct (of_Z_signed (v1 - v2) E ltac:(lia))
    as (M & e & -> & He & HM & Hr).
  destruct (mul_pow2_m53 (v1 - v2 <? 0) M e He Hr) as (M' & e' & -> & -> & HM').
  split_and!.
  - unfold Dbl.lt. rewrite ltb_key by reflexivity.
    destruct (v1 - v2 <? 0); cbn; lia.
  - unfold Dbl.lt. rewrite ltb_key by reflexivity.
    destruct (v1 - v2 <? 0); cbn; lia.
  - reflexivity.
  - intros Hz. lia.
  - intros _. exists M', (e - 53). split; [reflexivity|].
    split; [lia|]. split; [|lia].
    rewrite HM', HM. f_equal. f_equal. lia.
Qed.


(** ** The population: the best record, [removeSol] and [copy] *)

Section PopMore.

Import CBitePop PopSpec.

(** [memmove( pp, pp + 1, ( ri - p ) * sizeof( pp[ 0 ])); PopParams[ ri ] =
    rp]: the pointers behind [p] move down, the one at [p] goes to [ri]. *)
Lemma unrot_lookup {A} (l : list A) (p ri k : nat) (x : A) :
  (p < ri < length l)%nat ->
  (<[ri := x]> (memmove l p (S p) (ri - p))) !! k =
  if (k =? ri)%nat then Some x
  else l !! (if (k <? p)%nat then k
             else if (k <? ri)%nat then S k else k).
Proof.
  intros Hp. unfold memmove.
  assert (Hlen : length (take (ri - p) (drop (S p) l)) = (ri - p)%nat).
  { rewrite length_take, length_drop. lia. }
  destruct (Nat.eqb_spec k ri) as [->|Hne].
  { apply list_lookup_insert_eq. rewrite length_inserts. lia. }
  rewrite list_lookup_insert_ne by congruence.
  destruct (Nat.ltb_spec k p).
  { apply list_lookup_inserts_lt. lia. }
  destruct (Nat.ltb_spec k ri).
  - rewrite list_lookup_inserts by (rewrite ?Hlen; lia).
    rewrite lookup_take_lt by lia. rewrite lookup_drop. f_equal. lia.
  - apply list_lookup_inserts_ge. rewrite Hlen. lia.
Qed.

Lemma unrot_NoDup {A} (l : list A) (p ri : nat) (x : A) :
  (p < ri < length l)%nat -> l !! p = Some x -> NoDup l ->
  NoDup (<[ri := x]> (memmove l p (S p) (ri - p))).
Proof.
  intros Hp Hx Hnd. apply NoDup_alt. intros i j y Hi Hj.
  rewrite unrot_lookup in Hi, Hj by assumption.
  rewrite NoDup_alt in Hnd.
  assert (Hb : forall k z, l !! k = Some z -> (k < length l)%nat)
    by (intros; by eapply lookup_lt_Some).
  destruct (Nat.eqb_spec i ri), (Nat.eqb_spec j ri); simplify_eq; try done.
  - destruct (Nat.ltb_spec j p); [|destruct (Nat.ltb_spec j ri)];
      pose proof (Hnd _ _ _ Hx Hj); apply Hb in Hj; lia.
  - destruct (Nat.ltb_spec i p); [|destruct (Nat.ltb_spec i ri)];
      pose proof (Hnd _ _ _ Hx Hi); apply Hb in Hi; lia.
  - destruct (Nat.ltb_spec i p); [|destruct (Nat.ltb_spec i ri)];
    (destruct (Nat.ltb_spec j p); [|destruct (Nat.ltb_spec j ri)]);
      pose proof (Hnd _ _ _ Hi Hj); lia.
Qed.

(** The records of a population after [removeSol( p )]. *)
Lemma removeSol_spec s p :
  inv s -> (p < CurPopPos s)%nat ->
  let s' := removeSol s p in
  CurPopPos s' = (CurPopPos s - 1)%nat /\ inv s' /\
  PopParamsBuf s' = PopParamsBuf s /\
  (forall i, (i < p)%nat -> item_at s' i = item_at s i) /\
  (forall i, (p <= i < CurPopPos s - 1)%nat ->
             item_at s' i = item_at s (S i)) /\
  item_at s' (CurPopPos s - 1) = item_at s p.
Proof.
  intros Hinv Hp. pose proof Hinv as (Hwf & Hs & Hn).
  pose proof Hwf as (H0 & H1 & Hb & Hpp & Hnd & Hr & Hcp).
  cbv zeta. unfold removeSol.
  destruct (Nat.eqb_spec (CurPopPos s) 0) as [e|_]; [lia|].
  set (ri := (CurPopPos s - 1)%nat).
  destruct (Nat.ltb_spec p ri) as [Hlt|Hge].
  - assert (Hlk : forall k,
      nth k (<[ri := ptr_at s p]> (memmove (PopParams s) p (S p) (ri - p))) 0%nat
      = ptr_at s (if (k =? ri)%nat then p
                  else if (k <? p)%nat then k
                  else if (k <? ri)%nat then S k else k)).
    { intros k. unfold ptr_at. rewrite !(nth_lookup _ _ 0%nat).
      rewrite unrot_lookup by lia.
      destruct (Nat.eqb_spec k ri); [|reflexivity].
      cbn. rewrite <- (nth_lookup _ _ 0%nat). reflexivity. }
    assert (Hitem : forall k,
      item_at (mk (ParamCount s) (ParamCountI s) (PopSize s) (PopSize1 s)
                 (CurPopSize s) (CurPopSize1 s) (CurPopSizeI s)
                 (CurPopPos s - 1) (PopParamsBuf s)
                 (<[ri := ptr_at s p]>
                    (memmove (PopParams s) p (S p) (ri - p)))
                 (CentParams s) (NeedCentUpdate s) (CentLPC s) (TmpParams s))
              k
      = item_at s (if (k =? ri)%nat then p
                   else if (k <? p)%nat then k
                   else if (k <? ri)%nat then S k else k)).
    { intros k. unfold item_at, item_of. cbn [PopParamsBuf]. f_equal.
      unfold ptr_at at 1. cbn [PopParams]. apply Hlk. }
    cbn [CurPopPos PopParamsBuf].
    split; [reflexivity|]. split.
    { split; [|split].
      - unfold wf. cbn. rewrite length_insert, memmove_length.
        split_and!; auto; try lia.
        + apply unrot_NoDup; [lia| |assumption].
          destruct (lookup_lt_is_Some_2 (PopParams s) p ltac:(lia))
            as [x Hx].
          unfold ptr_at. rewrite (nth_lookup_Some _ _ _ _ Hx). exact Hx.
        + intros i k Hik. rewrite unrot_lookup in Hik by lia.
          destruct (i =? ri)%nat.
          * injection Hik as <-.
            destruct (lookup_lt_is_Some_2 (PopParams s) p ltac:(lia))
              as [x Hx].
            unfold ptr_at. rewrite (nth_lookup_Some _ _ _ _ Hx).
            by apply (Hr p).
          * by apply Hr in Hik.
      - intros i j Hij. cbn [CurPopPos] in Hij. unfold rank_at.
        rewrite !Hitem.
        destruct (Nat.eqb_spec i ri); [lia|].
        destruct (Nat.eqb_spec j ri); [lia|].
        destruct (Nat.ltb_spec i p), (Nat.ltb_spec j p);
          destruct (Nat.ltb_spec i ri), (Nat.ltb_spec j ri);
          try lia; apply Hs; lia.
      - intros i Hi. cbn [CurPopPos] in Hi. unfold rank_at. rewrite Hitem.
        destruct (Nat.eqb_spec i ri); [lia|].
        destruct (Nat.ltb_spec i p), (Nat.ltb_spec i ri); try lia;
          apply Hn; lia. }
    split; [reflexivity|]. split_and!.
    + intros i Hi. rewrite Hitem.
      destruct (Nat.eqb_spec i ri); [lia|].
      destruct (Nat.ltb_spec i p); [reflexivity|lia].
    + intros i Hi. rewrite Hitem. fold ri in Hi.
      destruct (Nat.eqb_spec i ri); [lia|].
      destruct (Nat.ltb_spec i p); [lia|].
      destruct (Nat.ltb_spec i ri); [reflexivity|lia].
    + rewrite Hitem. by rewrite Nat.eqb_refl.
  - assert (Ep : p = ri) by lia.
    cbn [CurPopPos PopParamsBuf]. split; [reflexivity|]. split.
    { split; [|split].
      - unfold wf. cbn. split_and!; auto; lia.
      - intros i j Hij. cbn [CurPopPos] in Hij. apply Hs. lia.
      - intros i Hi. cbn [CurPopPos] in Hi. apply Hn. lia. }
    split; [reflexivity|]. split_and!.
    + intros i Hi. reflexivity.
    + intros i Hi. lia.
    + rewrite Ep. reflexivity.
Qed.

(** The loop of [copy]: the item at every position below [n] becomes the
    item of the source at the same position. *)
Lemma copy_items_spec d src n :
  NoDup (PopParams d) -> (n <= length (PopParams d))%nat ->
  (forall i k, PopParams d !! i = Some k ->
               (k < length (PopParamsBuf d))%nat) ->
  length (copy_items n d src) = length (PopParamsBuf d) /\
  forall i, (i < n)%nat ->
    nth (ptr_at d i) (copy_items n d src) item0 = item_at src i.
Proof.
  intros Hnd Hn Hr. unfold copy_items.
  induction n as [|n IH].
  - cbn. split; [reflexivity|]. intros i Hi. lia.
  - rewrite seq_S, fold_left_app. cbn [fold_left Nat.add].
    destruct (IH ltac:(lia)) as [IL II].
    set (b := fold_left _ (seq 0 n) (PopParamsBuf d)) in *.
    rewrite length_insert. split; [exact IL|].
    destruct (lookup_lt_is_Some_2 (PopParams d) n ltac:(lia)) as [kn Hkn].
    assert (Hpn : ptr_at d n = kn)
      by (unfold ptr_at; apply (nth_lookup_Some _ _ _ _ Hkn)).
    intros i Hi. rewrite (nth_lookup _ _ item0).
    destruct (Nat.eq_dec i n) as [->|Hne].
    + rewrite list_lookup_insert_eq; [reflexivity|].
      rewrite IL, Hpn. by apply (Hr n).
    + destruct (lookup_lt_is_Some_2 (PopParams d) i ltac:(lia)) as [ki Hki].
      assert (Hpi : ptr_at d i = ki)
        by (unfold ptr_at; apply (nth_lookup_Some _ _ _ _ Hki)).
      rewrite list_lookup_insert_ne.
      * rewrite <- (nth_lookup _ _ item0). apply II. lia.
      * rewrite Hpn, Hpi. intros ->.
        apply Hne. rewrite NoDup_alt in Hnd. by apply (Hnd i n ki).
Qed.

(** [copy( s )] leaves a population with the records of [s]. *)
Lemma copy_spec cos fresh freshc dst src :
  inv src ->
  wf dst \/ PopSize dst <> PopSize src \/ ParamCount dst <> ParamCount src ->
  let q := copy cos fresh freshc dst src in
  inv q /\ ParamCount q = ParamCount src /\ PopSize q = PopSize src /\
  CurPopPos q = CurPopPos src /\ CurPopSize q = CurPopSize src /\
  CurPopSize1 q = CurPopSize1 src /\
  (forall i, (i < PopSize src)%nat -> item_at q i = item_at src i) /\
  (NeedCentUpdate src = false -> CentParams q = CentParams src).
Proof.
  intros Hinv Hdst. pose proof Hinv as (Hwf & Hs & Hn).
  pose proof Hwf as (H0 & H1 & Hb & Hpp & Hnd & Hr & Hcp).
  cbv zeta. unfold copy.
  set (d := if (ParamCount dst =? ParamCount src)%nat &&
               (PopSize dst =? PopSize src)%nat then dst
            else initBuffers cos dst fresh freshc (ParamCount src)
                             (PopSize src)).
  assert (Hd : ParamCount d = ParamCount src /\ PopSize d = PopSize src /\
               PopSize1 d = (PopSize d - 1)%nat /\
               length (PopParamsBuf d) = S (PopSize d) /\
               length (PopParams d) = S (PopSize d) /\
               NoDup (PopParams d) /\
               (forall i k, PopParams d !! i = Some k ->
                            (k < S (PopSize d))%nat)).
  { subst d.
    destruct (Nat.eqb_spec (ParamCount dst) (ParamCount src)) as [e1|e1];
      [destruct (Nat.eqb_spec (PopSize dst) (PopSize src)) as [e2|e2]|];
      cbn [andb].
    - destruct Hdst as [Hw|[Hw|Hw]]; [|contradiction..].
      destruct Hw as (W0 & W1 & Wb & Wp & Wnd & Wr & _). auto 10.
    - cbn. rewrite length_map, !length_seq. split_and!; auto; try lia.
      + apply (NoDup_seq 0 (S (PopSize src))).
      + intros i k Hik. apply (lookup_seq 0 (S (PopSize src))) in Hik. lia.
    - cbn. rewrite length_map, !length_seq. split_and!; auto; try lia.
      + apply (NoDup_seq 0 (S (PopSize src))).
      + intros i k Hik. apply (lookup_seq 0 (S (PopSize src))) in Hik. lia. }
  clearbody d. destruct Hd as (D1 & D2 & D3 & D4 & D5 & D6 & D7).
  destruct (copy_items_spec d src (PopSize d) D6 ltac:(lia))
    as [CL CI].
  { intros i k Hik. rewrite D4. by apply (D7 i). }
  assert (Hitem : forall i, (i < PopSize src)%nat ->
    item_at (mk (ParamCount d) (ParamCountI d) (PopSize d) (PopSize1 d)
               (CurPopSize src) (CurPopSize1 src) (CurPopSizeI src)
               (CurPopPos src) (copy_items (PopSize d) d src) (PopParams d)
               (if NeedCentUpdate src then CentParams d else CentParams src)
               (NeedCentUpdate src) (CentLPC src) (TmpParams d)) i
    = item_at src i).
  { intros i Hi. unfold item_at at 1, item_of, ptr_at at 1.
    cbn [PopParams PopParamsBuf]. apply CI. lia. }
  cbn [ParamCount PopSize CurPopPos CurPopSize CurPopSize1 CentParams].
  split_and!; auto.
  - split; [|split].
    + unfold wf. cbn. rewrite CL. split_and!; auto; lia.
    + intros i j Hij. cbn [CurPopPos] in Hij. unfold rank_at.
      rewrite !Hitem by lia. by apply Hs.
    + intros i Hi. cbn [CurPopPos] in Hi. unfold rank_at.
      rewrite Hitem by lia. by apply Hn.
  - intros Hc. by rewrite Hc.
Qed.

End PopMore.


(** X5.  The best record of a population: for every population reached
    from an initialized one and every cost that is not NaN, [updatePop]
    never makes the cost of the first record worse; when it returns [0] the
    new record is the first one and its cost is not above the previous best;
    and on an empty population it always returns [0]. *)
Theorem updatePop_best_record
  (cos : double -> double) (u0 : CBitePop.state)
  (fresh : nat -> CBitePop.item) (freshc : list Z)
  (aParamCount aPopSize : nat) (ops : list PopSpec.op)
  (c : double) (u : params_ptr) (d : bool) (thr : nat) :
  (0 < aPopSize)%nat ->
  Forall PopSpec.op_ok ops ->
  Dbl.is_nan c = false ->
  let s := PopSpec.run_ops cos
             (init_pop cos u0 fresh freshc aParamCount aPopSize) ops in
  let r := CBitePop.updatePop s c u d thr in
  (CBitePop.CurPopPos s = 0%nat -> fst r = 0%nat) /\
  (fst r = 0%nat ->
   CBitePop.rank_at (snd r) 0 = c /\
   (0 < CBitePop.CurPopPos (snd r))%nat /\
   ((0 < CBitePop.CurPopPos s)%nat -> Dbl.le c (CBitePop.rank_at s 0))) /\
  ((0 < CBitePop.CurPopPos s)%nat ->
   Dbl.le (CBitePop.rank_at (snd r) 0) (CBitePop.rank_at s 0)) /\
  (CBitePop.CurPopPos s <= CBitePop.CurPopPos (snd r) <= CBitePop.PopSize s)%nat.
Proof.
  intros H0 Hok Hc s r.
  assert (Hinv : PopSpec.inv s) by (by apply reached_inv).
  pose proof (updatePop_track s c u d thr Hinv Hc) as T. cbv zeta in T.
  fold r in T. destruct T as (T1 & T2 & T3 & T4 & T5 & T6 & T7 & T8).
  split_and!; auto.
  destruct T1 as ((_ & _ & _ & _ & _ & _ & Hle) & _).
  destruct (updatePop_fields s c u d thr) as (F1 & _). fold r in F1.
  lia.
Qed.

Lemma updatePop_best_record_witness :
  let r := CBitePop.updatePop ex_pop35 (Dbl.of_Z 1) (PtrExt [7]) true 3 in
  (fst r = 0%nat -> CBitePop.rank_at (snd r) 0 = Dbl.of_Z 1) /\
  Dbl.le (CBitePop.rank_at (snd r) 0) (CBitePop.rank_at ex_pop35 0).
Proof.
  pose proof (updatePop_best_record ex_cos ex_blank
                (fun _ => CBitePop.item0) [0] 1%nat 2%nat
                [PopSpec.OpUpdate (Dbl.of_Z 5) (PtrExt [2]) false 0;
                 PopSpec.OpUpdate (Dbl.of_Z 3) (PtrExt [1]) false 0]
                (Dbl.of_Z 1) (PtrExt [7]) true 3%nat
                ltac:(lia) ltac:(repeat constructor) eq_refl) as H.
  destruct H as (_ & H1 & H2 & _).
  split.
  - intros Hz. exact (proj1 (H1 Hz)).
  - apply H2. cbn. lia.
Defined.

(** X6.  [removeSol( p )] on a population reached from an initialized one,
    for a position [p] of a stored record: the number of stored records
    drops by one, the records before [p] stay, the ones behind it move up by
    one position, the removed record is kept right behind them, and the
    stored records are still sorted; nothing is written to the items. *)
Theorem removeSol_moves_up
  (cos : double -> double) (u0 : CBitePop.state)
  (fresh : nat -> CBitePop.item) (freshc : list Z)
  (aParamCount aPopSize : nat) (ops : list PopSpec.op) (p : nat) :
  (0 < aPopSize)%nat ->
  Forall PopSpec.op_ok ops ->
  let s := PopSpec.run_ops cos
             (init_pop cos u0 fresh freshc aParamCount aPopSize) ops in
  (p < CBitePop.CurPopPos s)%nat ->
  let s' := CBitePop.removeSol s p in
  CBitePop.CurPopPos s' = (CBitePop.CurPopPos s - 1)%nat /\
  PopSpec.inv s' /\
  CBitePop.PopParamsBuf s' = CBitePop.PopParamsBuf s /\
  (forall i, (i < p)%nat -> CBitePop.item_at s' i = CBitePop.item_at s i) /\
  (forall i, (p <= i < CBitePop.CurPopPos s - 1)%nat ->
             CBitePop.item_at s' i = CBitePop.item_at s (S i)) /\
  CBitePop.item_at s' (CBitePop.CurPopPos s - 1) = CBitePop.item_at s p.
Proof.
  intros H0 Hok s Hp.
  apply removeSol_spec; [by apply reached_inv|exact Hp].
Qed.

Lemma removeSol_moves_up_witness :
  let s' := CBitePop.removeSol ex_pop35 0 in
  CBitePop.CurPopPos s' = 1%nat /\
  CBitePop.item_at s' 0 = CBitePop.item_at ex_pop35 1 /\
  CBitePop.item_at s' 1 = CBitePop.item_at ex_pop35 0.
Proof.
  pose proof (removeSol_moves_up ex_cos ex_blank
                (fun _ => CBitePop.item0) [0] 1%nat 2%nat
                [PopSpec.OpUpdate (Dbl.of_Z 5) (PtrExt [2]) false 0;
                 PopSpec.OpUpdate (Dbl.of_Z 3) (PtrExt [1]) false 0]
                0%nat ltac:(lia) ltac:(repeat constructor)
                ltac:(cbn; lia)) as H.
  destruct H as (H1 & _ & _ & _ & H2 & H3).
  split; [exact H1|]. split; [apply (H2 0%nat); cbn; lia|exact H3].
Defined.

(** X7.  [copy( s )] of a population reached from an initialized one, into
    a population that is well formed or of other dimensions (as a newly
    constructed one is): the copy has the dimensions, the sizes in use and
    the position of [s], the same record as [s] at every position, and is
    sorted as [s] is; the centroid is taken over unless it is marked as in
    need of an update. *)
Theorem copy_same_records
  (cos : double -> double) (u0 : CBitePop.state)
  (fresh : nat -> CBitePop.item) (freshc : list Z)
  (aParamCount aPopSize : nat) (ops : list PopSpec.op)
  (fresh' : nat -> CBitePop.item) (freshc' : list Z) (dst : CBitePop.state) :
  (0 < aPopSize)%nat ->
  Forall PopSpec.op_ok ops ->
  let src := PopSpec.run_ops cos
               (init_pop cos u0 fresh freshc aParamCount aPopSize) ops in
  PopSpec.wf dst \/ CBitePop.PopSize dst <> CBitePop.PopSize src \/
    CBitePop.ParamCount dst <> CBitePop.ParamCount src ->
  let q := CBitePop.copy cos fresh' freshc' dst src in
  PopSpec.inv q /\
  CBitePop.ParamCount q = CBitePop.ParamCount src /\
  CBitePop.PopSize q = CBitePop.PopSize src /\
  CBitePop.CurPopPos q = CBitePop.CurPopPos src /\
  CBitePop.CurPopSize q = CBitePop.CurPopSize src /\
  CBitePop.CurPopSize1 q = CBitePop.CurPopSize1 src /\
  (forall i, (i < CBitePop.PopSize src)%nat ->
             CBitePop.item_at q i = CBitePop.item_at src i) /\
  (CBitePop.NeedCentUpdate src = false ->
   CBitePop.CentParams q = CBitePop.CentParams src).
Proof.
  intros H0 Hok src Hdst.
  apply copy_spec; [by apply reached_inv|exact Hdst].
Qed.

Lemma copy_same_records_witness :
  let q := CBitePop.copy ex_cos (fun _ => CBitePop.item0) []
             CBiteParPops.blank ex_pop35 in
  CBitePop.CurPopPos q = 2%nat /\
  CBitePop.item_at q 0 = CBitePop.item_at ex_pop35 0 /\
  CBitePop.item_at q 1 = CBitePop.item_at ex_pop35 1.
Proof.
  pose proof (copy_same_records ex_cos ex_blank
                (fun _ => CBitePop.item0) [0] 1%nat 2%nat
                [PopSpec.OpUpdate (Dbl.of_Z 5) (PtrExt [2]) false 0;
                 PopSpec.OpUpdate (Dbl.of_Z 3) (PtrExt [1]) false 0]
                (fun _ => CBitePop.item0) [] CBiteParPops.blank
                ltac:(lia) ltac:(repeat constructor)
                ltac:(right; left; cbn; lia)) as H.
  destruct H as (_ & _ & _ & H1 & _ & _ & H2 & _).
  split; [exact H1|]. split; apply H2; cbn; lia.
Defined.


Section RndSqr.

(** The square of a normalized double below one is a normalized double
    below one. *)
Lemma sqr_unit M e :
  -105 <= e <= -53 -> 2 ^ 52 <= Z.pos M < 2 ^ 53 ->
  exists M' e',
    Dbl.mul (S754_finite false M e) (S754_finite false M e) =
      S754_finite false M' e' /\
    -500 <= e' <= -53 /\ 2 ^ 52 <= Z.pos M' < 2 ^ 53.
Proof.
  intros He Hr. unfold Dbl.mul, SFmul. cbn [xorb].
  pose proof (bra_value false (M * M) (e + e))
    as (w & e1 & He1 & _ & Hw & Hres).
  cbv zeta in *. cbn [Zdigits2] in *.
  assert (EX : Z.pos (M * M) = Z.pos M * Z.pos M) by reflexivity.
  set (d := Z.pos (digits2_pos (M * M))) in *.
  pose proof (digits2_bounds (M * M)) as [Hd1 Hd2]. fold d in Hd1, Hd2.
  rewrite EX in Hd1, Hd2.
  assert (Hlo : 2 ^ 52 * 2 ^ 52 <= Z.pos M * Z.pos M)
    by (apply Z.mul_le_mono_nonneg; lia).
  assert (Hhi : Z.pos M * Z.pos M <= (2 ^ 53 - 1) * (2 ^ 53 - 1))
    by (apply Z.mul_le_mono_nonneg; lia).
  assert (Hd : 105 <= d <= 106).
  { split.
    - assert (2 ^ 104 < 2 ^ d)
        by (change (2 ^ 104) with (2 ^ 52 * 2 ^ 52); lia).
      apply Z.pow_lt_mono_r_iff in H; lia.
    - assert (2 ^ (d - 1) < 2 ^ 106).
      { change (2 ^ 106) with (2 ^ 53 * 2 ^ 53).
        change ((2 ^ 53 - 1) * (2 ^ 53 - 1)) with
          (2 ^ 53 * 2 ^ 53 - 2 ^ 54 + 1) in Hhi. lia. }
      apply Z.pow_lt_mono_r_iff in H; lia. }
  assert (En : fexp 53 1024 (d + (e + e)) - (e + e) = d - 53)
    by (unfold fexp, emin; lia).
  rewrite En in *. destruct (Hw ltac:(lia)) as [Hq Hh].
  rewrite EX in Hq, Hh.
  assert (Hp : 0 < 2 ^ (d - 53)) by (apply Z.pow_pos_nonneg; lia).
  assert (Hw52 : 2 ^ 52 <= w).
  { assert (2 ^ 52 <= Z.pos M * Z.pos M / 2 ^ (d - 53)); [|lia].
    apply Z.div_le_lower_bound; [lia|].
    rewrite <- Z.pow_add_r by lia.
    replace (d - 53 + 52) with (d - 1) by lia. exact Hd1. }
  assert (Hw53 : w <= 2 ^ 53 /\ (d = 106 -> w < 2 ^ 53)).
  { split.
    - assert (Z.pos M * Z.pos M / 2 ^ (d - 53) < 2 ^ 53); [|lia].
      apply Z.div_lt_upper_bound; [lia|].
      rewrite <- Z.pow_add_r by lia.
      replace (d - 53 + 53) with d by lia. exact Hd2.
    - intros ->. change (2 ^ (106 - 53)) with (2 ^ 53) in *.
      change (2 ^ (106 - 53 - 1)) with (2 ^ 52) in Hh.
      change ((2 ^ 53 - 1) * (2 ^ 53 - 1)) with
        (2 ^ 53 * 2 ^ 53 - 2 ^ 54 + 1) in Hhi.
      destruct Hh as [_ Hh].
      assert (w * 2 ^ 53 < 2 ^ 53 * 2 ^ 53) by lia.
      apply (Z.mul_lt_mono_pos_r (2 ^ 53)); lia. }
  change Dbl.prec with 53. change Dbl.emax with 1024.
  destruct (binary_round_aux 53 1024 false (Z.pos (M * M)) (e + e) loc_Exact)
    as [sg|sg| |sg m' e']; try contradiction.
  - destruct Hres as [_ Hres]. lia.
  - destruct Hres as [_ Hres]. lia.
  - destruct Hres as (-> & _ & [(-> & Hm' & Hlt)|(-> & Hw' & Hm')]).
    + exists m', e1. split; [reflexivity|]. lia.
    + exists m', (e1 + 1). split; [reflexivity|].
      destruct Hw53 as [_ Hw106].
      destruct (Z.eq_dec d 106) as [E|E]; [specialize (Hw106 E); lia|].
      rewrite Hm'. lia.
Qed.

End RndSqr.

(** X8.  [getSqrInt( N1 )] and [getSqrIntInv( N1 )] deliver an integer of
    [[0; N1)] for every number of bins [0 < N1 < 2^31]: the square of the
    draw, rounded as binary64 rounds it, stays below one, and so does its
    product with [N1] stay below [N1]; the inverse variant is the mirror
    image [N1 - 1 - getSqrInt( N1 )]. *)
Theorem rnd_getSqrInt_in_bins (N1 : Z) (r : CBiteRnd.state) :
  0 < N1 < 2 ^ 31 ->
  0 <= fst (CBiteRnd.getSqrInt N1 r) < N1 /\
  0 <= fst (CBiteRnd.getSqrIntInv N1 r) < N1 /\
  fst (CBiteRnd.getSqrIntInv N1 r) = N1 - 1 - fst (CBiteRnd.getSqrInt N1 r) /\
  snd (CBiteRnd.getSqrInt N1 r) = snd (CBiteRnd.advance r) /\
  snd (CBiteRnd.getSqrIntInv N1 r) = snd (CBiteRnd.advance r).
Proof.
  intros HN.
  assert (H : 0 <= fst (CBiteRnd.getSqrInt N1 r) < N1).
  { unfold CBiteRnd.getSqrInt, CBiteRnd.getSqr.
    pose proof (get_exact r) as Hg. cbv zeta in Hg.
    unfold CBiteRnd.get in Hg.
    destruct (CBiteRnd.advance r) as [a r1]. cbn [fst] in *.
    destruct Hg as [[_ ->]|(Hk & M & e & -> & He & HM & Hr)].
    - destruct (of_Z_exact N1 ltac:(lia)) as (Mn & en & -> & _).
      unfold Dbl.mul, Dbl.to_int. cbn.
      match goal with |- context [if ?c then _ else _] =>
        change c with true end. lia.
    - destruct (sqr_unit M e He Hr) as (M' & e' & -> & He' & Hr').
      by apply unit_mul_int_range. }
  unfold CBiteRnd.getSqrInt, CBiteRnd.getSqrIntInv in *.
  unfold CBiteRnd.getSqr in *.
  destruct (CBiteRnd.advance r) as [a r1]. cbn [fst snd] in *.
  split_and!; try reflexivity; lia.
Qed.

Lemma rnd_getSqrInt_in_bins_witness :
  0 <= fst (CBiteRnd.getSqrInt 54 ex_rnd) < 54 /\
  0 <= fst (CBiteRnd.getSqrIntInv 54 ex_rnd) < 54.
Proof.
  pose proof (rnd_getSqrInt_in_bins 54 ex_rnd ltac:(lia)) as (H1 & H2 & _).
  exact (conj H1 H2).
Defined.


(** ** The comparison of costs: [isEqual] *)

Section IsEqual.

Lemma binary_round_abs m e :
  SFabs (binary_round Dbl.prec Dbl.emax true m e) =
  SFabs (binary_round Dbl.prec Dbl.emax false m e).
Proof.
  unfold binary_round, binary_round_aux.
  destruct (shl_align _ _ _) as [mz ez].
  destruct (shr_fexp _ _ _ _ _) as [mrs1 e1].
  destruct (shr_fexp _ _ _ _ _) as [mrs2 e2].
  destruct (shr_m mrs2); try reflexivity.
  destruct (e2 <=? _); reflexivity.
Qed.

Lemma binary_normalize_abs z e :
  SFabs (binary_normalize Dbl.prec Dbl.emax (- z) e false) =
  SFabs (binary_normalize Dbl.prec Dbl.emax z e false).
Proof.
  destruct z as [|p|p]; cbn [Z.opp binary_normalize]; try reflexivity.
  - apply binary_round_abs.
  - symmetry. apply binary_round_abs.
Qed.

Lemma fabs_sub_sym a b :
  Dbl.fabs (Dbl.sub b a) = Dbl.fabs (Dbl.sub a b).
Proof.
  unfold Dbl.fabs, Dbl.sub.
  destruct a as [sa|sa| |sa ma ea], b as [sb|sb| |sb mb eb];
    try (destruct sa); try (destruct sb); try reflexivity;
    cbn [SFsub]; rewrite (Z.min_comm eb ea);
    rewrite <- binary_normalize_abs; f_equal; f_equal; lia.
Qed.

Lemma fabs_add_comm a b :
  Dbl.add (Dbl.fabs b) (Dbl.fabs a) = Dbl.add (Dbl.fabs a) (Dbl.fabs b).
Proof.
  unfold Dbl.fabs, Dbl.add.
  destruct a as [sa|sa| |sa ma ea], b as [sb|sb| |sb mb eb];
    try reflexivity.
  cbn [SFabs SFadd]. rewrite (Z.min_comm eb ea). f_equal. lia.
Qed.

Lemma sub_self_finite a :
  Dbl.is_finite a = true -> Dbl.fabs (Dbl.sub a a) = Dbl.zero.
Proof.
  destruct a as [s|s| |s m e]; try discriminate; intros _.
  - by destruct s.
  - unfold Dbl.sub, SFsub. rewrite Z.min_id. unfold shl_align.
    rewrite !Z.sub_diag. reflexivity.
Qed.

End IsEqual.

(** X9.  [isEqual( a, b, etol )] does not depend on the order of the two
    values, and a value is equal to itself exactly when it is finite: an
    infinite cost, like NaN, is never equal to itself, whatever the
    tolerance. *)
Theorem isEqual_symmetric_reflexive (a b etol : double) :
  CBitePop.isEqual a b etol = CBitePop.isEqual b a etol /\
  CBitePop.isEqual a a etol = Dbl.is_finite a.
Proof.
  split.
  - unfold CBitePop.isEqual.
    by rewrite (fabs_sub_sym a b), (fabs_add_comm a b).
  - unfold CBitePop.isEqual.
    destruct (Dbl.is_finite a) eqn:Hf.
    + rewrite sub_self_finite by assumption. reflexivity.
    + destruct a as [s|s| |s m e]; try discriminate.
      * destruct s, etol as [se|se| |se me ee]; try (destruct se);
          reflexivity.
      * reflexivity.
Qed.


(** ** The cost of a solution and the best solution *)

(** [fixCostNaN( v )] replaces NaN by [1e300] and returns every other
    value, the infinities included, as it is: its result is never NaN,
    compares with itself, and a second application changes nothing. *)
Theorem fixCostNaN_never_nan (v : double) :
  CBiteOptBase.fixCostNaN v = (if Dbl.is_nan v then Dbl.d1e300 else v) /\
  Dbl.is_nan (CBiteOptBase.fixCostNaN v) = false /\
  Dbl.le (CBiteOptBase.fixCostNaN v) (CBiteOptBase.fixCostNaN v) /\
  CBiteOptBase.fixCostNaN (CBiteOptBase.fixCostNaN v) =
    CBiteOptBase.fixCostNaN v.
Proof.
  destruct (fixCostNaN_spec v) as [H1 H2].
  split; [exact H1|]. split; [exact H2|]. split; [by apply le_refl|].
  destruct (fixCostNaN_spec (CBiteOptBase.fixCostNaN v)) as [H3 _].
  rewrite H3, H2. reflexivity.
Qed.

(** X10.  [updateBestCost( UpdCost, UpdValues, p )]: with the default
    [p = -1] the best solution is replaced exactly when [UpdCost <=
    BestCost], so that the best cost never increases and a NaN cost is never
    stored; with [p = 0] the solution is stored whatever its cost is, and
    with [p > 0] nothing is stored.  The populations are not touched. *)
Theorem updateBestCost_cases (s : CBiteOptBase.state) (c : double)
  (v : list double) (p : Z) :
  let s' := CBiteOptBase.updateBestCost s c v p in
  (p = 0 -> CBiteOptBase.BestCost s' = c /\ CBiteOptBase.BestValues s' = v) /\
  (0 < p -> s' = s) /\
  (p < 0 -> Dbl.le c (CBiteOptBase.BestCost s) ->
   CBiteOptBase.BestCost s' = c /\ CBiteOptBase.BestValues s' = v) /\
  (p < 0 -> ~ Dbl.le c (CBiteOptBase.BestCost s) -> s' = s) /\
  (p < 0 -> Dbl.is_nan (CBiteOptBase.BestCost s) = false ->
   Dbl.is_nan (CBiteOptBase.BestCost s') = false /\
   Dbl.le (CBiteOptBase.BestCost s') (CBiteOptBase.BestCost s)) /\
  CBiteOptBase.pop s' = CBiteOptBase.pop s /\
  CBiteOptBase.par s' = CBiteOptBase.par s.
Proof.
  cbv zeta. unfold CBiteOptBase.updateBestCost.
  destruct (Z.ltb_spec p 0) as [Hp|Hp].
  - destruct (Dbl.leb c (CBiteOptBase.BestCost s)) eqn:Hle; cbn [Z.eqb].
    + split_and!; try reflexivity.
      * intros; lia.
      * intros; lia.
      * intros _ _. cbn. auto.
      * intros _ Hn. exfalso. by apply Hn.
      * intros _ Hn. cbn. split; [by destruct (leb_nonan _ _ Hle)|exact Hle].
    + replace (p =? 0) with false by (symmetry; apply Z.eqb_neq; lia).
      split_and!; try reflexivity.
      * intros; lia.
      * intros _ Hl. unfold Dbl.le in Hl. congruence.
      * intros _ Hn. split; [assumption|]. by apply le_refl.
  - destruct (Z.eqb_spec p 0) as [->|Hne].
    + split_and!; try reflexivity; intros; try lia; cbn; auto.
    + split_and!; try reflexivity; intros; lia.
Qed.

(** X11.  [setParPopCount( NewCount )] on a bank that holds [ParPopCount]
    populations leaves a bank of exactly [NewCount] populations: the first
    ones are the populations the bank held, in their order, and the ones
    added behind them are newly constructed; the buffer of distances is
    replaced by one of the new length only when the bank grows. *)
Theorem setParPopCount_bank (fresh : list double) (st : CBiteParPops.state)
  (NewCount : nat) :
  CBiteParPops.ParPopCount st = length (CBiteParPops.ParPops st) ->
  let st' := CBiteParPops.setParPopCount fresh st NewCount in
  CBiteParPops.ParPopCount st' = NewCount /\
  length (CBiteParPops.ParPops st') = NewCount /\
  (forall k, (k < NewCount)%nat -> (k < CBiteParPops.ParPopCount st)%nat ->
     CBiteParPops.ParPops st' !! k = CBiteParPops.ParPops st !! k) /\
  (forall k, (CBiteParPops.ParPopCount st <= k < NewCount)%nat ->
     CBiteParPops.ParPops st' !! k = Some CBiteParPops.blank) /\
  (if (CBiteParPops.ParPopCount st <? NewCount)%nat
   then length (CBiteParPops.ParValues st') = NewCount
   else CBiteParPops.ParValues st' = CBiteParPops.ParValues st).
Proof.
  intros Hlen. cbv zeta. unfold CBiteParPops.setParPopCount.
  destruct (Nat.ltb_spec NewCount (CBiteParPops.ParPopCount st)) as [H1|H1].
  - replace ((CBiteParPops.ParPopCount st <? NewCount)%nat) with false
      by (symmetry; apply Nat.ltb_ge; lia).
    cbn. rewrite length_take. split_and!; auto; try lia.
    intros k Hk _. by apply lookup_take_lt.
  - destruct (Nat.ltb_spec (CBiteParPops.ParPopCount st) NewCount) as [H2|H2].
    + cbn. rewrite length_app, length_replicate, length_take, length_app,
        length_replicate.
      split_and!; auto; try lia.
      * intros k _ Hk. apply lookup_app_l. lia.
      * intros k Hk. rewrite lookup_app_r by lia.
        apply lookup_replicate_2. lia.
    + assert (NewCount = CBiteParPops.ParPopCount st) by lia.
      split_and!; auto; try lia.
Qed.

Lemma setParPopCount_bank_witness :
  let st' := CBiteParPops.setParPopCount [] (CBiteParPops.mk [] 0 []) 5 in
  CBiteParPops.ParPopCount st' = 5%nat /\
  CBiteParPops.ParPops st' !! 4%nat = Some CBiteParPops.blank.
Proof.
  pose proof (setParPopCount_bank [] (CBiteParPops.mk [] 0 []) 5 eq_refl)
    as (H1 & _ & _ & H2 & _).
  split; [exact H1|]. apply H2. cbn. lia.
Defined.


(** ** The optimizer: the best solution over the calls *)

Section OptBest.

Context {Aux : Type} (E : CBiteOpt.externals Aux).
Context (f : list double -> double).
Hypothesis Hgen : OptSpec.gen_ok E f.

Import OptSpec.

(** The best solution is one of the evaluated vectors, with its cost. *)
Lemma run_best k : forall s rnd st lg,
  inv s ->
  (evaluated s ->
   In (CBiteOpt.getBestParams s) lg /\
   best s = CBiteOptBase.fixCostNaN (f (CBiteOpt.getBestParams s))) ->
  (0 < k)%nat \/ evaluated s ->
  let res := run E f k s rnd st lg in
  let s' := fst (fst (fst res)) in
  inv s' /\ evaluated s' /\
  In (CBiteOpt.getBestParams s') (snd res) /\
  best s' = CBiteOptBase.fixCostNaN (f (CBiteOpt.getBestParams s')) /\
  length (snd (fst res)) = (length st + k)%nat /\
  (evaluated s -> Dbl.le (best s') (best s)).
Proof.
  induction k as [|k IH]; intros s rnd st lg Hinv Hb Hk; cbn [run].
  - cbv zeta. cbn [fst snd].
    destruct Hk as [Hk|Hk]; [lia|]. destruct (Hb Hk) as [B1 B2].
    split_and!; auto. intros _. apply le_refl, Hinv.
  - pose proof (optimize_own E f Hgen rnd s None Hinv) as O.
    cbv zeta in O.
    set (r := CBiteOpt.optimize E f rnd s None) in *.
    destruct O as (O1 & O2 & O3 & O4 & O5).
    assert (Hb' : In (CBiteOpt.getBestParams (CBiteOpt.r_opt r))
                     (lg ++ CBiteOpt.r_evals r) /\
                  best (CBiteOpt.r_opt r) =
                  CBiteOptBase.fixCostNaN
                    (f (CBiteOpt.getBestParams (CBiteOpt.r_opt r)))).
    { destruct (Nat.eq_dec (CBitePop.CurPopPos (own s)) 0%nat) as [z|z].
      - destruct O5 as (v & Hv & E1 & E2); [unfold evaluated; lia|].
        subst v. rewrite Hv. split; [apply in_or_app; right; by left|].
        exact E1.
      - assert (He : evaluated s) by (unfold evaluated; lia).
        destruct O4 as [[E1 E2]|(v & Hv & E1 & E2)].
        + destruct (Hb He) as [B1 B2]. rewrite E1, E2.
          split; [apply in_or_app; by left|exact B2].
        + subst v. split; [apply in_or_app; by right|exact E1]. }
    specialize (IH (CBiteOpt.r_opt r) (CBiteOpt.r_rnd r)
                   (st ++ [CBiteOpt.r_stall r]) (lg ++ CBiteOpt.r_evals r)
                   O1 (fun _ => Hb') (or_intror O2)).
    cbv zeta in IH. destruct IH as (I1 & I2 & I3 & I4 & I5 & I6).
    split_and!; auto.
    + rewrite I5, length_app. cbn. lia.
    + intros He. eapply le_trans'; [by apply I6|by apply O3].
Qed.

End OptBest.

(** The example optimizer is a new optimizer object. *)
Lemma ex_opt_new :
  ex_opt = new_opt ex_ext ex_opt0 1 2 [Dbl.of_Z (-1)] [Dbl.of_Z 1] ex_rnd
                   None Dbl.one.
Proof. unfold ex_opt, new_opt. change (Z.of_nat 2) with 2. reflexivity. Qed.

(** X12.  The first call of [optimize] on a new optimizer object (after
    [updateDims] for a positive population size and [init]): the best cost
    [init] leaves is [1e300]; the call evaluates exactly one vector, returns
    0, leaves [PushOpt] alone, and stores that vector as the best solution
    with its cost, whatever the cost is - so a first cost above [1e300]
    raises the reported best cost. *)
Theorem first_call_sets_best {Aux : Type} (E : CBiteOpt.externals Aux)
  (f : list double -> double) (u : CBiteOpt.state Aux) (n P : nat)
  (lb ub : list double) (rnd0 rnd : CBiteRnd.state)
  (ip : option (list double)) (ir : double)
  (push : option (CBiteOpt.state Aux)) :
  (0 < P)%nat ->
  let s0 := fst (new_opt E u n P lb ub rnd0 ip ir) in
  let r := CBiteOpt.optimize E f rnd s0 push in
  CBiteOpt.getBestCost s0 = Dbl.d1e300 /\
  CBitePop.CurPopPos (OptSpec.own s0) = 0%nat /\
  CBiteOpt.r_stall r = 0 /\ CBiteOpt.r_push r = push /\
  exists v,
    CBiteOpt.r_evals r = [v] /\
    CBiteOpt.getBestCost (CBiteOpt.r_opt r) = CBiteOptBase.fixCostNaN (f v) /\
    CBiteOpt.getBestParams (CBiteOpt.r_opt r) = v /\
    (Dbl.lt Dbl.d1e300 (f v) ->
     Dbl.lt (CBiteOpt.getBestCost s0)
            (CBiteOpt.getBestCost (CBiteOpt.r_opt r))).
Proof.
  intros HP s0 r.
  destruct (opt_new_inv E u n P lb ub rnd0 ip ir HP) as (I1 & I2 & I3 & I4).
  fold (new_opt E u n P lb ub rnd0 ip ir) in I1, I2, I3, I4.
  fold s0 in I1, I2, I3, I4.
  assert (Er : r = CBiteOpt.fill_step E f rnd s0 push)
    by (subst r; unfold CBiteOpt.optimize; by rewrite I4).
  pose proof (fill_step_inv E f rnd s0 push I1) as F. cbv zeta in F.
  pose proof (fill_step_struct E f rnd s0 push) as S. cbv zeta in S.
  rewrite <- Er in F, S.
  destruct F as (_ & _ & F3 & _ & v & F5 & _ & F7).
  destruct S as (_ & _ & S3 & _).
  destruct (F7 I3) as [B1 B2].
  split; [exact I2|]. split.
  { unfold OptSpec.evaluated in I3. lia. }
  split; [exact S3|]. split; [exact F3|].
  exists v. split; [exact F5|]. split; [exact B1|]. split; [exact B2|].
  intros Hlt. unfold OptSpec.best in *. rewrite B1, I2.
  destruct (fixCostNaN_spec (f v)) as [-> _].
  destruct (f v); try discriminate; exact Hlt.
Qed.

Lemma first_call_sets_best_witness :
  let s0 := fst ex_opt in
  let r := CBiteOpt.optimize ex_ext (fun _ => S754_infinity false)
             (snd ex_opt) s0 None in
  CBiteOpt.getBestCost s0 = Dbl.d1e300 /\
  CBiteOpt.getBestCost (CBiteOpt.r_opt r) = S754_infinity false.
Proof.
  pose proof (first_call_sets_best ex_ext (fun _ => S754_infinity false)
                ex_opt0 1%nat 2%nat [Dbl.of_Z (-1)] [Dbl.of_Z 1] ex_rnd
                (snd (new_opt ex_ext ex_opt0 1 2 [Dbl.of_Z (-1)]
                              [Dbl.of_Z 1] ex_rnd None Dbl.one))
                None Dbl.one None ltac:(lia)) as H.
  cbv zeta in H. destruct H as (H1 & _ & _ & _ & v & _ & H2 & _).
  cbv zeta. rewrite ex_opt_new. split; [exact H1|exact H2].
Defined.



(** X14.  A call of [optimize] never changes the best solution of the
    object that [PushOpt] points to: whether a solution is pushed into its
    population or not, its best cost and its best parameter values stay;
    nothing at all is pushed while the calling object is in its initial
    evaluations, or while the receiving object is. *)
Theorem push_keeps_best_of_receiver {Aux : Type} (E : CBiteOpt.externals Aux)
  (f : list double -> double) (rnd : CBiteRnd.state)
  (s t : CBiteOpt.state Aux) :
  CBiteOpt.r_push (CBiteOpt.optimize E f rnd s None) = None /\
  exists t',
    CBiteOpt.r_push (CBiteOpt.optimize E f rnd s (Some t)) = Some t' /\
    CBiteOpt.getBestCost t' = CBiteOpt.getBestCost t /\
    CBiteOpt.getBestParams t' = CBiteOpt.getBestParams t /\
    CBiteOpt.OldPops0 t' = CBiteOpt.OldPops0 t /\
    CBiteOpt.OldPops1 t' = CBiteOpt.OldPops1 t /\
    (CBiteOptBase.DoInitEvals (CBiteOpt.base s) = true -> t' = t) /\
    (CBiteOptBase.DoInitEvals (CBiteOpt.base t) = true -> t' = t).
Proof.
  split; [apply optimize_push_none|].
  unfold CBiteOpt.optimize.
  destruct (CBiteOptBase.DoInitEvals (CBiteOpt.base s)) eqn:Hs.
  - exists t. rewrite fill_step_push. auto 10.
  - destruct (CBiteOpt.generate E f rnd s) as [[s1 r1] ev1].
    destruct (CBiteOpt.evaluate f r1 s1) as [[s2 r2] ev2].
    pose proof (update_step_struct E r2 s2 (Some t) (ev1 ++ ev2)) as U.
    cbv zeta in U. destruct U as (_ & _ & _ & _ & _ & _ & _ & U8).
    destruct U8 as [U8|(_ & Hd & U8)]; rewrite U8.
    + exists t. auto 10.
    + eexists. split; [reflexivity|].
      unfold CBiteOpt.getBestCost, CBiteOpt.getBestParams.
      cbn [CBiteOpt.base CBiteOpt.with_base CBiteOpt.OldPops0
           CBiteOpt.OldPops1].
      match goal with |- context [CBiteOpt.updateParPop ?x ?c ?tp] =>
        pose proof (updateParPop_frame x c tp) as Q end.
      cbv zeta in Q. destruct Q as (_ & -> & -> & _).
      split_and!; try reflexivity; intros; congruence.
Qed.




(** ** The optimizer: the initial evaluations *)

Section OptFill.

Context {Aux : Type} (E : CBiteOpt.externals Aux).
Context (f : list double -> double).

Import OptSpec.

(** A call of [optimize] during the initial evaluations stores one more
    record. *)
Lemma optimize_fill rnd (s : CBiteOpt.state Aux) push :
  CBiteOptBase.DoInitEvals (CBiteOpt.base s) = true ->
  (CBitePop.CurPopPos (own s) < CBitePop.PopSize (own s))%nat ->
  let r := CBiteOpt.optimize E f rnd s push in
  let s' := CBiteOpt.r_opt r in
  CBitePop.CurPopPos (own s') = S (CBitePop.CurPopPos (own s)) /\
  CBitePop.PopSize (own s') = CBitePop.PopSize (own s) /\
  CBiteOptBase.DoInitEvals (CBiteOpt.base s') =
    negb (S (CBitePop.CurPopPos (own s)) =? CBitePop.PopSize (own s))%nat /\
  CBiteOpt.r_stall r = 0 /\ CBiteOpt.r_push r = push /\
  length (CBiteOpt.r_evals r) = 1%nat.
Proof.
  intros Hd Hlt. cbv zeta. unfold CBiteOpt.optimize. rewrite Hd.
  pose proof (fill_step_struct E f rnd s push) as F. cbv zeta in F.
  destruct F as (F1 & F2 & F3 & F4 & _ & _ & _ & _ & F9).
  set (q := CBiteOptBase.pop (CBiteOpt.base s)) in *.
  set (q1 := CBitePop.set_params q _ _) in *.
  set (u := CBitePop.updatePop q1 _ _ false 0) in *.
  pose proof (set_params_same q (CBitePop.ptr_at q (CBitePop.CurPopPos q))
                (fst (fst (CBiteOptBase.genInitParams
                             (CBiteOpt.getGaussianInt E) (CBiteOpt.base s)
                             rnd)))) as (S1 & _ & S3 & _).
  fold q1 in S1, S3.
  pose proof (updatePop_fields q1
                (CBiteOptBase.fixCostNaN
                   (f (snd (fst (CBiteOptBase.genInitParams
                                   (CBiteOpt.getGaussianInt E)
                                   (CBiteOpt.base s) rnd)))))
                (CBitePop.getCurParams q) false 0) as U.
  cbv zeta in U. fold u in U. destruct U as (U1 & _ & _ & _ & _ & _ & U7).
  assert (Hf : UpdSpec.filling q1 = true).
  { unfold UpdSpec.filling. apply Nat.ltb_lt. rewrite S1, S3. exact Hlt. }
  unfold UpdSpec.rejects in U7. rewrite Hf in U7. cbn in U7.
  destruct F4 as (G1 & _ & G3 & _).
  unfold own in *. fold q in Hlt |- *.
  assert (Hpos : CBitePop.CurPopPos (snd u) = S (CBitePop.CurPopPos q))
    by (rewrite U7; congruence).
  assert (Hsize : CBitePop.PopSize (snd u) = CBitePop.PopSize q)
    by congruence.
  rewrite Hpos, Hsize in F9.
  split; [congruence|]. split; [congruence|].
  split.
  { destruct (Nat.eqb_spec (S (CBitePop.CurPopPos q)) (CBitePop.PopSize q))
      as [e|e]; cbn; destruct F9 as [F9 _]; rewrite F9; [reflexivity|exact Hd]. }
  split; [exact F3|]. split; [exact F1|]. by rewrite F2.
Qed.

(** The first [k] calls on an object that has evaluated nothing. *)
Lemma run_fill k : forall (s : CBiteOpt.state Aux) rnd st lg,
  CBiteOptBase.DoInitEvals (CBiteOpt.base s) = true ->
  (CBitePop.CurPopPos (own s) + k <= CBitePop.PopSize (own s))%nat ->
  (CBitePop.CurPopPos (own s) < CBitePop.PopSize (own s))%nat ->
  let res := run E f k s rnd st lg in
  let s' := fst (fst (fst res)) in
  CBitePop.CurPopPos (own s') = (CBitePop.CurPopPos (own s) + k)%nat /\
  CBitePop.PopSize (own s') = CBitePop.PopSize (own s) /\
  CBiteOptBase.DoInitEvals (CBiteOpt.base s') =
    negb (CBitePop.CurPopPos (own s) + k =? CBitePop.PopSize (own s))%nat /\
  snd (fst res) = st ++ replicate k 0 /\
  length (snd res) = (length lg + k)%nat.
Proof.
  induction k as [|k IH]; intros s rnd st lg Hd Hk Hlt; cbn [run].
  - cbv zeta. cbn [fst snd replicate]. rewrite !Nat.add_0_r, app_nil_r.
    replace (_ =? _)%nat with false by (symmetry; apply Nat.eqb_neq; lia).
    auto.
  - pose proof (optimize_fill rnd s None Hd Hlt) as O. cbv zeta in O.
    set (r := CBiteOpt.optimize E f rnd s None) in *.
    destruct O as (O1 & O2 & O3 & O4 & _ & O6).
    destruct (Nat.eq_dec k 0%nat) as [->|Hk0].
    + cbn [run]. cbv zeta. cbn [fst snd replicate].
      rewrite O1, O2, O3, O4, length_app, O6.
      replace (CBitePop.CurPopPos (own s) + 1)%nat
        with (S (CBitePop.CurPopPos (own s))) by lia.
      auto.
    + assert (Hd' : CBiteOptBase.DoInitEvals
                      (CBiteOpt.base (CBiteOpt.r_opt r)) = true).
      { rewrite O3. apply negb_true_iff, Nat.eqb_neq. lia. }
      specialize (IH (CBiteOpt.r_opt r) (CBiteOpt.r_rnd r)
                     (st ++ [CBiteOpt.r_stall r]) (lg ++ CBiteOpt.r_evals r)
                     Hd' ltac:(rewrite O1, O2; lia)
                     ltac:(rewrite O1, O2; lia)).
      cbv zeta in IH. destruct IH as (I1 & I2 & I3 & I4 & I5).
      rewrite I1, I2, I3, I4, I5, O1, O2, O4, length_app, O6.
      replace (S (CBitePop.CurPopPos (own s)) + k)%nat
        with (CBitePop.CurPopPos (own s) + S k)%nat by lia.
      rewrite <- app_assoc. cbn [app replicate].
      split_and!; auto. lia.
Qed.

(** The population of a new object: [PopSize] is the requested size. *)
Lemma opt_new_size u n (P : nat) lb ub rnd ip ir :
  (0 < P)%nat ->
  let s := fst (new_opt E u n P lb ub rnd ip ir) in
  CBitePop.PopSize (own s) = P /\ CBitePop.CurPopPos (own s) = 0%nat /\
  CBiteOptBase.DoInitEvals (CBiteOpt.base s) = true.
Proof.
  intros HP. cbv zeta. unfold new_opt.
  pose proof (opt_init_spec E lb ub
                (CBiteOpt.updateDims E (CBiteOpt.construct u) n (Z.of_nat P))
                rnd ip ir) as I. cbv zeta in I.
  destruct I as (I1 & _ & I3 & _).
  pose proof (opt_updateDims_spec E u n P HP) as D. cbv zeta in D.
  destruct D as (D1 & _).
  rewrite I1, I3, D1. cbn. auto.
Qed.

End OptFill.

(** X16.  The initial evaluations: on a new optimizer object with a
    population of [P] solutions, each of the first [P] calls of [optimize]
    passes exactly one vector to the objective function, stores it as one
    more record of the population and returns 0; the initial evaluations are
    over ([DoInitEvals] is false) exactly after the [P]-th call.  The
    function [init] itself evaluates nothing. *)
Theorem initial_evaluations_fill {Aux : Type} (E : CBiteOpt.externals Aux)
  (f : list double -> double) (u : CBiteOpt.state Aux) (n P : nat)
  (lb ub : list double) (rnd0 : CBiteRnd.state)
  (ip : option (list double)) (ir : double) (k : nat) :
  (0 < P)%nat -> (k <= P)%nat ->
  let o := new_opt E u n P lb ub rnd0 ip ir in
  let res := run E f k (fst o) (snd o) [] [] in
  let s := fst (fst (fst res)) in
  CBitePop.CurPopPos (OptSpec.own s) = k /\
  CBitePop.PopSize (OptSpec.own s) = P /\
  CBiteOptBase.DoInitEvals (CBiteOpt.base s) = (k <? P)%nat /\
  snd (fst res) = replicate k 0 /\
  length (snd res) = k.
Proof.
  intros HP Hk o res s.
  destruct (opt_new_size E u n P lb ub rnd0 ip ir HP) as (N1 & N2 & N3).
  fold o in N1, N2, N3.
  pose proof (run_fill E f k (fst o) (snd o) [] [] N3
                ltac:(rewrite N1, N2; lia) ltac:(rewrite N1, N2; lia)) as R.
  cbv zeta in R. fold res in R. fold s in R.
  destruct R as (R1 & R2 & R3 & R4 & R5).
  rewrite N1, N2 in *. cbn in R1, R3, R4, R5.
  split_and!; auto.
  rewrite R3. destruct (Nat.eqb_spec k P), (Nat.ltb_spec k P); auto; lia.
Qed.

Lemma initial_evaluations_fill_witness :
  let res := run ex_ext (fun _ => Dbl.one) 2 (fst ex_opt) (snd ex_opt)
                 [] [] in
  CBiteOptBase.DoInitEvals (CBiteOpt.base (fst (fst (fst res)))) = false /\
  snd (fst res) = [0; 0] /\ length (snd res) = 2%nat.
Proof.
  pose proof (initial_evaluations_fill ex_ext (fun _ => Dbl.one) ex_opt0
                1%nat 2%nat [Dbl.of_Z (-1)] [Dbl.of_Z 1] ex_rnd None Dbl.one
                2%nat ltac:(lia) ltac:(lia)) as H.
  cbv zeta in H. destruct H as (_ & _ & H3 & H4 & H5).
  cbv zeta. rewrite ex_opt_new. split; [exact H3|]. split; [exact H4|exact H5].
Defined.


(** ** The ensemble: the pointers to the objects *)

Section DeepPtrs.

Context {Aux : Type} (E : CBiteOpt.externals Aux) (opt0 : CBiteOpt.state Aux).
Context (f : list double -> double).

Import OptSpec.

Lemma deep_init_ptrs fuel lb ub d rnd ip ir d' rnd' :
  length (CBiteOptDeep.Opts d) = CBiteOptDeep.OptCount d ->
  (0 < CBiteOptDeep.OptCount d)%nat ->
  Z.of_nat (CBiteOptDeep.OptCount d) < 2 ^ 31 ->
  CBiteOptDeep.init E fuel lb ub d rnd ip ir = Some (d', rnd') ->
  deep_ptrs d' /\
  CBiteOptDeep.OptCount d' = CBiteOptDeep.OptCount d /\
  CBiteOptDeep.BestOpt d' = 0%nat /\ CBiteOptDeep.CurOpt d' = 0%nat /\
  CBiteOptDeep.LastOpt d' = 0%nat /\ CBiteOptDeep.StallCount d' = 0.
Proof.
  intros Hlen Hpos Hlt Hinit. unfold CBiteOptDeep.init in Hinit.
  rewrite <- Hlen, firstn_all, drop_all in Hinit.
  pose proof (init_fold E (fun _ => True) lb ub ip ir (CBiteOptDeep.Opts d)
                (fun _ _ _ => I) [] rnd ltac:(constructor)) as F.
  cbv zeta in F.
  destruct (fold_left _ _ _) as [opts rnd1]. cbn [fst length] in F.
  destruct F as [L _]. rewrite app_nil_r, Hlen in Hinit.
  unfold deep_ptrs.
  destruct (Nat.eqb_spec (CBiteOptDeep.OptCount d) 1) as [e|e].
  - injection Hinit as <- <-. cbn. split_and!; auto; lia.
  - destruct (CBiteOptDeep.pick_push _ _ _ _) as [[k rnd2]|] eqn:Hpk;
      [|discriminate].
    injection Hinit as <- <-.
    apply pick_push_range in Hpk as [Hk Hne]; [|lia|lia].
    cbn. split_and!; auto; lia.
Qed.

Lemma deep_optimize_ptrs fuel rnd d sc d' rnd' ev :
  deep_ptrs d ->
  Z.of_nat (CBiteOptDeep.OptCount d) < 2 ^ 31 ->
  CBiteOptDeep.optimize E opt0 fuel f rnd d = Some (sc, d', rnd', ev) ->
  deep_ptrs d' /\ CBiteOptDeep.OptCount d' = CBiteOptDeep.OptCount d /\
  CBiteOptDeep.LastOpt d' =
    (if (CBiteOptDeep.OptCount d =? 1)%nat then CBiteOptDeep.LastOpt d
     else CBiteOptDeep.CurOpt d) /\
  CBiteOptDeep.StallCount d' = sc.
Proof.
  intros (Hlen & Hb & Hc & Hp & Hl & Hne) Hlt Hopt.
  unfold CBiteOptDeep.optimize in Hopt. unfold deep_ptrs.
  destruct (Nat.eqb_spec (CBiteOptDeep.OptCount d) 1) as [e1|e1].
  { injection Hopt as <- <- <- <-. cbn. rewrite length_insert.
    split_and!; auto. }
  set (push := if (_ =? _)%nat then None else _) in Hopt.
  set (r := CBiteOpt.optimize E f rnd _ push) in Hopt.
  set (opts1 := match CBiteOpt.r_push r with Some t => _ | None => _ end)
    in Hopt.
  assert (L1 : length opts1 = CBiteOptDeep.OptCount d).
  { subst opts1. destruct (CBiteOpt.r_push r); [rewrite length_insert|];
      exact Hlen. }
  cbv zeta in Hopt.
  set (bo := if Dbl.leb _ _ then _ else _) in Hopt.
  assert (Hbo : (bo < CBiteOptDeep.OptCount d)%nat)
    by (subst bo; destruct (Dbl.leb _ _); assumption).
  clearbody bo.
  destruct (CBiteOpt.r_stall r =? 0) eqn:Hsc.
  { injection Hopt as <- <- <- <-. cbn. rewrite length_insert.
    split_and!; auto. }
  destruct (Nat.eqb_spec (CBiteOptDeep.OptCount d) 2) as [e2|e2].
  { injection Hopt as <- <- <- <-. cbn. rewrite length_insert.
    destruct (Nat.eqb_spec (CBiteOptDeep.PushOpt d) 0);
      split_and!; auto; lia. }
  destruct (CBiteOptDeep.pick_push _ _ _ _) as [[k rnd1]|] eqn:Hpk;
    [|discriminate].
  injection Hopt as <- <- <- <-.
  apply pick_push_range in Hpk as [Hk Hkne]; [|lia|lia].
  cbn. rewrite length_insert. split_and!; auto.
Qed.

Lemma run_deep_ptrs fuel n : forall d rnd st lg d' rnd' st' lg',
  deep_ptrs d ->
  Z.of_nat (CBiteOptDeep.OptCount d) < 2 ^ 31 ->
  run_deep E opt0 fuel f n d rnd st lg = Some (d', rnd', st', lg') ->
  deep_ptrs d' /\ CBiteOptDeep.OptCount d' = CBiteOptDeep.OptCount d /\
  length st' = (length st + n)%nat.
Proof.
  induction n as [|n IH]; intros d rnd st lg d' rnd' st' lg' Hp Hlt Hrun;
    cbn [run_deep] in Hrun.
  - injection Hrun as <- <- <- <-. split_and!; auto.
  - destruct (CBiteOptDeep.optimize E opt0 fuel f rnd d)
      as [[[[sc d1] rnd1] ev]|] eqn:Hopt; [|discriminate].
    destruct (deep_optimize_ptrs fuel rnd d sc d1 rnd1 ev Hp Hlt Hopt)
      as (P1 & P2 & _).
    destruct (IH _ _ _ _ _ _ _ _ P1 ltac:(by rewrite P2) Hrun)
      as (Q1 & Q2 & Q3).
    split; [exact Q1|]. split; [congruence|].
    rewrite Q3, length_app. cbn. lia.
Qed.

End DeepPtrs.

(** X17.  The pointers of an ensemble: when [init] returns, on an ensemble
    with its [OptCount] objects in place, [BestOpt], [CurOpt] and [LastOpt]
    point to the first object and the stall count is 0; after any number of
    calls of [optimize] that return, the four pointers still point to
    objects of the ensemble, and with more than one object [PushOpt] is
    never the object [CurOpt]: an optimizer is not asked to push a solution
    into itself. *)
Theorem ensemble_pointers {Aux : Type} (E : CBiteOpt.externals Aux)
  (opt0 : CBiteOpt.state Aux) (f : list double -> double) (fuel : nat)
  (lb ub : list double) (d d0 d' : CBiteOptDeep.state Aux)
  (rnd rnd0 rnd1 rnd' : CBiteRnd.state) (ip : option (list double))
  (ir : double) (n : nat) (st' : list Z) (lg' : list (list double)) :
  length (CBiteOptDeep.Opts d) = CBiteOptDeep.OptCount d ->
  (0 < CBiteOptDeep.OptCount d)%nat ->
  Z.of_nat (CBiteOptDeep.OptCount d) < 2 ^ 31 ->
  CBiteOptDeep.init E fuel lb ub d rnd ip ir = Some (d0, rnd0) ->
  run_deep E opt0 fuel f n d0 rnd1 [] [] = Some (d', rnd', st', lg') ->
  (CBiteOptDeep.BestOpt d0 = 0%nat /\ CBiteOptDeep.CurOpt d0 = 0%nat /\
   CBiteOptDeep.LastOpt d0 = 0%nat /\ CBiteOptDeep.StallCount d0 = 0) /\
  CBiteOptDeep.OptCount d' = CBiteOptDeep.OptCount d /\
  length (CBiteOptDeep.Opts d') = CBiteOptDeep.OptCount d /\
  (CBiteOptDeep.BestOpt d' < CBiteOptDeep.OptCount d)%nat /\
  (CBiteOptDeep.CurOpt d' < CBiteOptDeep.OptCount d)%nat /\
  (CBiteOptDeep.PushOpt d' < CBiteOptDeep.OptCount d)%nat /\
  (CBiteOptDeep.LastOpt d' < CBiteOptDeep.OptCount d)%nat /\
  ((1 < CBiteOptDeep.OptCount d)%nat ->
   CBiteOptDeep.PushOpt d' <> CBiteOptDeep.CurOpt d') /\
  length st' = n.
Proof.
  intros Hlen Hpos Hlt Hinit Hrun.
  destruct (deep_init_ptrs E fuel lb ub d rnd ip ir d0 rnd0 Hlen Hpos Hlt
              Hinit) as (I1 & I2 & I3 & I4 & I5 & I6).
  destruct (run_deep_ptrs E opt0 f fuel n d0 rnd1 [] [] d' rnd' st' lg' I1
              ltac:(by rewrite I2) Hrun) as (R1 & R2 & R3).
  destruct R1 as (Q1 & Q2 & Q3 & Q4 & Q5 & Q6).
  rewrite R2, I2 in *. split_and!; auto.
Qed.

Lemma ensemble_pointers_witness :
  exists d0 rnd0 d' rnd' st' lg',
    CBiteOptDeep.init ex_ext 4 [Dbl.of_Z (-1)] [Dbl.of_Z 1] ex_deep2 ex_rnd
                      None Dbl.one = Some (d0, rnd0) /\
    run_deep ex_ext ex_opt0 4 (fun _ => Dbl.one) 1 d0 rnd0 [] [] =
      Some (d', rnd', st', lg') /\
    CBiteOptDeep.PushOpt d' <> CBiteOptDeep.CurOpt d'.
Proof.
  destruct (CBiteOptDeep.init ex_ext 4 [Dbl.of_Z (-1)] [Dbl.of_Z 1] ex_deep2
                              ex_rnd None Dbl.one)
    as [[d0 rnd0]|] eqn:Hinit; [|vm_compute in Hinit; discriminate].
  destruct (run_deep ex_ext ex_opt0 4 (fun _ => Dbl.one) 1 d0 rnd0 [] [])
    as [[[[d' rnd'] st'] lg']|] eqn:Hrun.
  - exists d0, rnd0, d', rnd', st', lg'.
    split; [reflexivity|]. split; [exact Hrun|].
    refine (proj1 (proj2 (proj2 (proj2 (proj2 (proj2 (proj2 (proj2
              (ensemble_pointers ex_ext ex_opt0 (fun _ => Dbl.one) 4
                 [Dbl.of_Z (-1)] [Dbl.of_Z 1] ex_deep2 d0 d' ex_rnd rnd0 rnd0
                 rnd' None Dbl.one 1 st' lg' _ _ _ Hinit Hrun)))))))) _).
    + reflexivity.
    + cbn. lia.
    + cbn. lia.
    + cbn. lia.
  - exfalso. vm_compute in Hinit. injection Hinit as <- <-.
    vm_compute in Hrun. discriminate.
Defined.


(** ** The ensemble: the object with the best solution *)

Section DeepLeast.

Context {Aux : Type} (E : CBiteOpt.externals Aux) (opt0 : CBiteOpt.state Aux).
Context (f : list double -> double).
Hypothesis Hgen : OptSpec.gen_ok E f.

Import OptSpec.

(** Nothing is pushed into an object that is in its initial evaluations. *)
Lemma optimize_push_init rnd (s t : CBiteOpt.state Aux) :
  CBiteOptBase.DoInitEvals (CBiteOpt.base t) = true ->
  CBiteOpt.r_push (CBiteOpt.optimize E f rnd s (Some t)) = Some t.
Proof.
  intros Ht. unfold CBiteOpt.optimize.
  destruct (CBiteOptBase.DoInitEvals (CBiteOpt.base s)).
  - apply fill_step_push.
  - destruct (CBiteOpt.generate E f rnd s) as [[s1 r1] ev1].
    destruct (CBiteOpt.evaluate f r1 s1) as [[s2 r2] ev2].
    pose proof (update_step_struct E r2 s2 (Some t) (ev1 ++ ev2)) as U.
    cbv zeta in U. destruct U as (_ & _ & _ & _ & _ & _ & _ & U8).
    destruct U8 as [U8|(_ & Hd & _)]; [exact U8|congruence].
Qed.

(** An object that has evaluated nothing is in its initial evaluations. *)
Lemma unevaluated_init (s : CBiteOpt.state Aux) :
  inv s -> ~ evaluated s ->
  CBiteOptBase.DoInitEvals (CBiteOpt.base s) = true.
Proof.
  intros (((H0 & _) & _) & _ & Hfull & _) Hne.
  destruct (CBiteOptBase.DoInitEvals (CBiteOpt.base s)); [reflexivity|].
  exfalso. apply Hne. unfold evaluated. rewrite (Hfull eq_refl). exact H0.
Qed.

(** The objects other than [cur] after a call: none of them has evaluated
    a solution that had not before. *)
Lemma deep_opts_eval rnd (l : list (CBiteOpt.state Aux)) cur pu :
  Forall inv l -> (cur < length l)%nat -> (pu < length l)%nat ->
  let push := if (pu =? cur)%nat then None else Some (nth pu l opt0) in
  let r := CBiteOpt.optimize E f rnd (nth cur l opt0) push in
  let opts1 := match CBiteOpt.r_push r with
               | Some t => <[pu := t]> l
               | None => l
               end in
  let opts2 := <[cur := CBiteOpt.r_opt r]> opts1 in
  forall i, (i < length l)%nat -> i <> cur ->
    evaluated (nth i opts2 opt0) -> evaluated (nth i l opt0).
Proof.
  intros Hall Hcur Hpu. cbv zeta. intros i Hi Hne.
  assert (Hnth : forall i, (i < length l)%nat -> inv (nth i l opt0)).
  { intros j Hj. destruct (lookup_lt_is_Some_2 l j Hj) as [x Hx].
    rewrite (nth_lookup_Some _ _ _ _ Hx). eapply Forall_lookup_1; eauto. }
  rewrite (nth_lookup (<[cur := _]> _) _ opt0).
  rewrite list_lookup_insert_ne by congruence.
  destruct (Nat.eqb_spec pu cur) as [e|e].
  { rewrite optimize_push_none. by rewrite <- (nth_lookup _ _ opt0). }
  destruct (Nat.eq_dec (CBitePop.CurPopPos (own (nth pu l opt0))) 0%nat)
    as [He|He].
  - rewrite (optimize_push_init rnd _ _
               (unevaluated_init _ (Hnth _ Hpu)
                  ltac:(unfold evaluated; lia))).
    destruct (Nat.eq_dec i pu) as [->|Hip].
    + rewrite list_lookup_insert_eq by assumption. cbn. auto.
    + rewrite list_lookup_insert_ne by congruence.
      by rewrite <- (nth_lookup _ _ opt0).
  - destruct (optimize_push E f Hgen rnd (nth cur l opt0) (nth pu l opt0)
                (Hnth _ Hpu)) as (t' & -> & _).
    destruct (Nat.eq_dec i pu) as [->|Hip].
    + intros _. unfold evaluated. lia.
    + rewrite list_lookup_insert_ne by congruence.
      by rewrite <- (nth_lookup _ _ opt0).
Qed.

(** [!( a <= b )] gives [b <= a] when neither is NaN. *)
Lemma leb_false_le a b :
  Dbl.is_nan a = false -> Dbl.is_nan b = false ->
  Dbl.leb a b = false -> Dbl.le b a.
Proof.
  intros Ha Hb H. apply lt_le; try assumption.
  by apply geb_false_lt.
Qed.

(** One call of [optimize] of the ensemble: afterwards [BestOpt] points to
    an object with the least best cost among those that have evaluated a
    solution. *)
Lemma deep_optimize_least fuel rnd d sc d' rnd' ev :
  deep_inv d ->
  (CBiteOptDeep.BestOpt d = CBiteOptDeep.CurOpt d /\
   forall i, (i < CBiteOptDeep.OptCount d)%nat ->
             ~ evaluated (CBiteOptDeep.opt_at opt0 d i)) \/
  deep_least opt0 d ->
  CBiteOptDeep.optimize E opt0 fuel f rnd d = Some (sc, d', rnd', ev) ->
  deep_least opt0 d'.
Proof.
  intros (Hlen & Hpos & Hlt & Hall & Hb & Hc & Hp & H1) HK Hopt.
  assert (Hnth : forall i, (i < length (CBiteOptDeep.Opts d))%nat ->
                           inv (nth i (CBiteOptDeep.Opts d) opt0)).
  { intros i Hi. destruct (lookup_lt_is_Some_2 _ i Hi) as [x Hx].
    rewrite (nth_lookup_Some _ _ _ _ Hx). eapply Forall_lookup_1; eauto. }
  unfold CBiteOptDeep.optimize in Hopt.
  destruct (Nat.eqb_spec (CBiteOptDeep.OptCount d) 1) as [e1|e1].
  { specialize (H1 e1). injection Hopt as <- <- <- <-.
    unfold deep_least, CBiteOptDeep.getBestCost, CBiteOptDeep.opt_at.
    cbn [CBiteOptDeep.Opts CBiteOptDeep.BestOpt CBiteOptDeep.OptCount].
    rewrite H1.
    pose proof (optimize_own E f Hgen rnd
                  (nth 0 (CBiteOptDeep.Opts d) opt0) None
                  (Hnth 0%nat ltac:(lia))) as O.
    cbv zeta in O. destruct O as (O1 & O2 & _).
    unfold CBiteOptDeep.opt_at in *.
    rewrite (nth_lookup (<[_ := _]> _) _ opt0),
      list_lookup_insert_eq by lia. cbn.
    split; [exact O2|]. intros i Hi _.
    replace i with 0%nat by lia.
    rewrite (nth_lookup (<[_ := _]> _) _ opt0),
      list_lookup_insert_eq by lia. cbn.
    apply le_refl, O1. }
  pose proof (deep_opts_spec E opt0 f Hgen rnd (CBiteOptDeep.Opts d)
                (CBiteOptDeep.CurOpt d) (CBiteOptDeep.PushOpt d) Hall
                ltac:(lia) ltac:(lia)) as S.
  pose proof (deep_opts_eval rnd (CBiteOptDeep.Opts d)
                (CBiteOptDeep.CurOpt d) (CBiteOptDeep.PushOpt d) Hall
                ltac:(lia) ltac:(lia)) as V.
  cbv zeta in S, V.
  unfold CBiteOptDeep.opt_at in Hopt.
  set (push := if (_ =? _)%nat then None else _) in *.
  pose proof (optimize_own E f Hgen rnd
                (nth (CBiteOptDeep.CurOpt d) (CBiteOptDeep.Opts d) opt0) push
                (Hnth (CBiteOptDeep.CurOpt d) ltac:(lia))) as O.
  cbv zeta in O.
  set (r := CBiteOpt.optimize E f rnd _ push) in *.
  set (opts1 := match CBiteOpt.r_push r with Some t => _ | None => _ end)
    in *.
  set (opts2 := <[CBiteOptDeep.CurOpt d := CBiteOpt.r_opt r]> opts1) in *.
  destruct S as (L & A & Scur & Soth).
  destruct O as (O1 & O2 & O3 & _).
  rewrite Hlen in Soth, V.
  assert (Hnn : Dbl.is_nan (best (CBiteOpt.r_opt r)) = false) by apply O1.
  cbv zeta in Hopt.
  set (bo := if Dbl.leb _ _ then _ else _) in Hopt.
  assert (Hleast :
    evaluated (nth bo opts2 opt0) /\
    forall i, (i < CBiteOptDeep.OptCount d)%nat ->
      evaluated (nth i opts2 opt0) ->
      Dbl.le (best (nth bo opts2 opt0)) (best (nth i opts2 opt0))).
  { subst bo. fold (best (CBiteOpt.r_opt r)).
    fold (best (nth (CBiteOptDeep.BestOpt d) opts2 opt0)).
    destruct (Nat.eq_dec (CBiteOptDeep.BestOpt d) (CBiteOptDeep.CurOpt d))
      as [Ebc|Ebc].
    - rewrite Ebc, Scur.
      replace (Dbl.leb _ _) with true
        by (symmetry; by apply le_refl).
      rewrite Scur. split; [exact O2|]. intros i Hi Hev.
      destruct (Nat.eq_dec i (CBiteOptDeep.CurOpt d)) as [->|Hic].
      + rewrite Scur. by apply le_refl.
      + destruct (Soth i Hi Hic) as [-> _].
        pose proof (V i Hi Hic Hev) as Hev0.
        destruct HK as [[_ Hnone]|[Hbe Hl]].
        * exfalso. by apply (Hnone i Hi).
        * unfold CBiteOptDeep.getBestCost, CBiteOptDeep.opt_at in Hbe, Hl.
          rewrite Ebc in Hbe, Hl.
          eapply le_trans'; [by apply O3|]. by apply Hl.
    - destruct HK as [[Hbc _]|[Hbe Hl]]; [contradiction|].
      unfold CBiteOptDeep.getBestCost, CBiteOptDeep.opt_at in Hbe, Hl.
      destruct (Soth _ Hb Ebc) as [Sb1 Sb2].
      fold (best (nth (CBiteOptDeep.BestOpt d) (CBiteOptDeep.Opts d) opt0))
        in Hl.
      rewrite Sb1.
      assert (Hnb : Dbl.is_nan
                      (best (nth (CBiteOptDeep.BestOpt d)
                                 (CBiteOptDeep.Opts d) opt0)) = false)
        by apply (Hnth (CBiteOptDeep.BestOpt d) ltac:(lia)).
      destruct (Dbl.leb (best (CBiteOpt.r_opt r))
                  (best (nth (CBiteOptDeep.BestOpt d) (CBiteOptDeep.Opts d)
                             opt0))) eqn:Hcmp.
      + rewrite Scur. split; [exact O2|]. intros i Hi Hev.
        destruct (Nat.eq_dec i (CBiteOptDeep.CurOpt d)) as [->|Hic].
        * rewrite Scur. by apply le_refl.
        * destruct (Soth i Hi Hic) as [-> _].
          eapply le_trans'; [exact Hcmp|]. apply Hl; [exact Hi|].
          by apply (V i Hi Hic).
      + split; [by apply Sb2|]. rewrite Sb1. intros i Hi Hev.
        destruct (Nat.eq_dec i (CBiteOptDeep.CurOpt d)) as [->|Hic].
        * rewrite Scur. by apply leb_false_le.
        * destruct (Soth i Hi Hic) as [-> _].
          apply Hl; [exact Hi|]. by apply (V i Hi Hic). }
  clearbody bo.
  unfold deep_least, CBiteOptDeep.getBestCost, CBiteOptDeep.opt_at.
  destruct (CBiteOpt.r_stall r =? 0).
  { injection Hopt as <- <- <- <-. exact Hleast. }
  destruct (if (CBiteOptDeep.OptCount d =? 2)%nat then _ else _)
    as [[k rnd1]|]; [|discriminate].
  injection Hopt as <- <- <- <-. exact Hleast.
Qed.

(** A sequence of calls. *)
Lemma run_deep_least fuel n : forall d rnd st lg d' rnd' st' lg',
  deep_inv d ->
  (CBiteOptDeep.BestOpt d = CBiteOptDeep.CurOpt d /\
   forall i, (i < CBiteOptDeep.OptCount d)%nat ->
             ~ evaluated (CBiteOptDeep.opt_at opt0 d i)) /\ (0 < n)%nat \/
  deep_least opt0 d ->
  run_deep E opt0 fuel f n d rnd st lg = Some (d', rnd', st', lg') ->
  deep_least opt0 d'.
Proof.
  induction n as [|n IH]; intros d rnd st lg d' rnd' st' lg' Hinv HK Hrun;
    cbn [run_deep] in Hrun.
  - injection Hrun as <- <- <- <-. destruct HK as [[_ H]|H]; [lia|exact H].
  - destruct (CBiteOptDeep.optimize E opt0 fuel f rnd d)
      as [[[[sc d1] rnd1] ev]|] eqn:Hopt; [|discriminate].
    destruct (deep_optimize_inv E opt0 f Hgen fuel rnd d sc d1 rnd1 ev Hinv
                Hopt) as (I1 & _).
    assert (K1 : deep_least opt0 d1).
    { eapply deep_optimize_least; [exact Hinv| |exact Hopt].
      destruct HK as [[H _]|H]; [by left|by right]. }
    by apply (IH _ _ _ _ _ _ _ _ I1 (or_intror K1) Hrun).
Qed.

(** In a new ensemble no object has evaluated a solution. *)
Lemma deep_new_fresh fuel lb ub u N M (P : nat) rnd ip ir d' rnd' :
  (0 < M)%nat -> Z.of_nat M < 2 ^ 31 -> (0 < P)%nat ->
  new_deep E opt0 fuel u N M P lb ub rnd ip ir = Some (d', rnd') ->
  CBiteOptDeep.OptCount d' = M /\
  forall i, (i < M)%nat -> ~ evaluated (CBiteOptDeep.opt_at opt0 d' i).
Proof.
  intros HM HM' HP Hinit. unfold new_deep in Hinit.
  destruct (deep_updateDims_spec E opt0 u N M (Z.of_nat P) HM) as [D1 D2].
  destruct (deep_init_spec E
              (fun s => ~ evaluated s)
              fuel lb ub
              (CBiteOptDeep.updateDims E opt0 (CBiteOptDeep.construct u) N M
                                       (Z.of_nat P))
              rnd ip ir d' rnd')
    as (I1 & I2 & I3 & _); try exact Hinit.
  - rewrite D1, D2. apply length_replicate.
  - rewrite D1. exact HM.
  - rewrite D1. exact HM'.
  - intros o r Ho. rewrite D2 in Ho.
    apply list_elem_of_In, elem_of_replicate_inv in Ho. subst o.
    by destruct (opt_new_inv E opt0 N P lb ub r ip ir HP) as (_ & _ & A & _).
  - rewrite D1 in I2. split; [exact I2|]. intros i Hi.
    unfold CBiteOptDeep.opt_at.
    destruct (lookup_lt_is_Some_2 (CBiteOptDeep.Opts d') i ltac:(lia))
      as [x Hx].
    rewrite (nth_lookup_Some _ _ _ _ Hx).
    apply (Forall_lookup_1 _ _ _ _ I3 Hx).
Qed.

End DeepLeast.






(** ** The driver: the attempts and the count of the evaluations *)

Section DriverCount.

Context {Aux : Type} (E : CBiteOpt.externals Aux) (opt0 : CBiteOpt.state Aux).
Context (f : list double -> double).

(** The loop over the iterations of one attempt: [i] counts the calls of
    [optimize] that did not leave the loop. *)
Lemma iterate_count fuel f_minp sct n :
  forall i d rnd d1 rnd1 i1 (broke fin : bool),
  Minimize.iterate E opt0 fuel f f_minp sct n i d rnd =
    Some (d1, rnd1, i1, broke, fin) ->
  i <= i1 /\ i1 + (if broke then 1 else 0) <= i + Z.of_nat n /\
  (broke = false -> i1 = i + Z.of_nat n /\ fin = false) /\
  (fin = true ->
   exists m, f_minp = Some m /\
             Dbl.le (CBiteOptDeep.getBestCost opt0 d1) m) /\
  (f_minp = None -> sct <= 0 -> broke = false).
Proof.
  induction n as [|n IH]; intros i d rnd d1 rnd1 i1 broke fin Hit;
    cbn [Minimize.iterate] in Hit.
  - injection Hit as <- <- <- <- <-.
    split_and!; try lia; auto; discriminate.
  - destruct (CBiteOptDeep.optimize E opt0 fuel f rnd d)
      as [[[[sc d2] rnd2] ev]|]; [|discriminate].
    destruct f_minp as [m|].
    + destruct (Dbl.leb (CBiteOptDeep.getBestCost opt0 d2) m) eqn:Hle.
      * injection Hit as <- <- <- <- <-.
        split_and!; try lia; try discriminate. intros _. by exists m.
      * destruct ((0 <? sct) && (sct <=? sc)).
        -- injection Hit as <- <- <- <- <-.
           split_and!; try lia; discriminate.
        -- destruct (IH _ _ _ _ _ _ _ _ Hit) as (A1 & A2 & A3 & A4 & A5).
           split_and!; try lia; auto.
           intros Hb. destruct (A3 Hb). split; [lia|assumption].
    + destruct ((0 <? sct) && (sct <=? sc)) eqn:Hs.
      * injection Hit as <- <- <- <- <-.
        split_and!; try lia; discriminate.
      * destruct (IH _ _ _ _ _ _ _ _ Hit) as (A1 & A2 & A3 & A4 & A5).
        split_and!; try lia; auto.
        intros Hb. destruct (A3 Hb). split; [lia|assumption].
Qed.

(** The loop over the attempts: the best costs of the attempts made, and
    the count of the evaluations. *)
Lemma attempts_count fuel lb ub f_minp sct useiter n :
  forall (first : bool) d rnd r r',
  0 <= Minimize.evals r ->
  Minimize.attempts E opt0 fuel f lb ub f_minp sct useiter n first d rnd r =
    Some r' ->
  exists l,
    Minimize.bests r' = Minimize.bests r ++ l /\
    (length l <= n)%nat /\ ((0 < n)%nat -> (0 < length l)%nat) /\
    Minimize.evals r <= Minimize.evals r' /\
    Minimize.evals r' <=
      Minimize.evals r + Z.of_nat (length l) * Z.of_nat useiter /\
    (f_minp = None -> sct <= 0 ->
     length l = n /\
     Minimize.evals r' = Minimize.evals r + Z.of_nat n * Z.of_nat useiter) /\
    ((length l < n)%nat ->
     exists m b l0, f_minp = Some m /\ l = l0 ++ [b] /\ Dbl.le b m).
Proof.
  induction n as [|n IH]; intros first d rnd r r' Hr Ha;
    cbn [Minimize.attempts] in Ha.
  - injection Ha as <-. exists []. rewrite app_nil_r. cbn.
    split_and!; auto; try lia.
  - destruct (CBiteOptDeep.init E fuel lb ub d rnd None Dbl.one)
      as [[d0 rnd0]|]; [|discriminate].
    destruct (Minimize.iterate E opt0 fuel f f_minp sct useiter 0 d0 rnd0)
      as [[[[[d1 rnd1] i] broke] fin]|] eqn:Hit; [|discriminate].
    destruct (iterate_count fuel f_minp sct useiter 0 d0 rnd0 d1 rnd1 i broke
                fin Hit) as (C1 & C2 & C3 & C4 & C5).
    set (b := CBiteOptDeep.getBestCost opt0 d1) in *.
    match type of Ha with
    | (if fin then Some ?x else _) = _ => set (r1 := x) in *
    end.
    assert (B1 : Minimize.bests r1 = Minimize.bests r ++ [b])
      by (subst r1; destruct (first || _); reflexivity).
    assert (E1 : Minimize.evals r1 =
                 Minimize.evals r + (if broke then 1 else 0) + i)
      by (subst r1; destruct (first || _); reflexivity).
    clearbody r1.
    destruct fin.
    + injection Ha as <-. exists [b]. cbn [length].
      destruct (C4 eq_refl) as (m & Hm & Hle).
      split; [exact B1|]. split; [lia|]. split; [lia|].
      split; [destruct broke; lia|]. split; [destruct broke; lia|].
      split.
      * intros Hn. congruence.
      * intros _. exists m, b, []. auto.
    + destruct (IH false d1 rnd1 r1 r' ltac:(destruct broke; lia) Ha)
        as (l & L1 & L2 & L3 & L4 & L5 & L6 & L7).
      exists (b :: l). cbn [length].
      split; [rewrite L1, B1, <- app_assoc; reflexivity|].
      split; [lia|]. split; [lia|].
      split; [destruct broke; lia|].
      split; [destruct broke; lia|].
      split.
      * intros Hn Hs. destruct (L6 Hn Hs) as [-> L6'].
        split; [reflexivity|].
        destruct (C3 (C5 Hn Hs)) as [-> _]. rewrite (C5 Hn Hs) in E1. lia.
      * intros Hlt. destruct (L7 ltac:(lia)) as (m & b' & l0 & -> & -> & Hle).
        exists m, b', (b :: l0). auto.
Qed.

End DriverCount.



Section DriverSingle.

(** The product with [1.0] of the conversion of an [int] is exact. *)
Lemma mul_one s M e :
  -52 <= e <= 0 -> 2 ^ 52 <= Z.pos M < 2 ^ 53 ->
  Dbl.mul (S754_finite s M e) Dbl.one = S754_finite s M e.
Proof.
  intros Hek Hr.
  unfold Dbl.mul, Dbl.one, Dbl.pow2, SFmul. rewrite xorb_false_r.
  pose proof (bra_value s (M * 2 ^ 52) (e + (0 - 52)))
    as (w & e1 & He1 & _ & Hw & Hres).
  cbv zeta in *. cbn [Zdigits2] in *.
  assert (EX : Z.pos (M * 2 ^ 52) = Z.pos M * 2 ^ 52) by reflexivity.
  assert (Hd : Z.pos (digits2_pos (M * 2 ^ 52)) = 105).
  { apply digits_eq; [lia|]. rewrite EX.
    change (2 ^ (105 - 1)) with (2 ^ 52 * 2 ^ 52).
    change (2 ^ 105) with (2 ^ 53 * 2 ^ 52). lia. }
  rewrite Hd in *.
  assert (En : fexp 53 1024 (105 + (e + (0 - 52))) - (e + (0 - 52)) = 52)
    by (unfold fexp, emin; lia).
  rewrite En in *. destruct (Hw ltac:(lia)) as [Hq Hh].
  rewrite EX in Hq, Hh. rewrite Z.div_mul in Hq by lia.
  change (2 ^ (52 - 1)) with (2 ^ 51) in Hh.
  assert (Ew : w = Z.pos M) by lia.
  change Dbl.prec with 53. change Dbl.emax with 1024.
  destruct (binary_round_aux 53 1024 s (Z.pos (M * 2 ^ 52))
              (e + (0 - 52)) loc_Exact) as [sg|sg| |sg m' e'];
    try contradiction.
  - destruct Hres as [_ Hres]. lia.
  - destruct Hres as [_ Hres]. lia.
  - destruct Hres as (-> & _ & [(-> & Hm' & _)|(_ & Hw53 & _)]); [|lia].
    f_equal; lia.
Qed.

(** [(int) ( iter * sqrt( (double) 1 ))] is [iter]. *)
Lemma useiter_single iter :
  - 2 ^ 31 <= iter < 2 ^ 31 ->
  Dbl.to_int (Dbl.mul (Dbl.of_Z iter) (Dbl.sqrt (Dbl.of_Z (Z.of_nat 1))))
  = iter.
Proof.
  intros Hi.
  replace (Dbl.sqrt (Dbl.of_Z (Z.of_nat 1))) with Dbl.one
    by (vm_compute; reflexivity).
  destruct (Z.eq_dec iter 0) as [->|Hz]; [vm_compute; reflexivity|].
  destruct (of_Z_signed iter Hz ltac:(lia)) as (M & e & -> & He & HM & Hr).
  rewrite mul_one by assumption.
  unfold Dbl.to_int, Dbl.trunc.
  assert (Eq : (if 0 <=? e then Z.pos M * 2 ^ e else Z.pos M / 2 ^ (- e))
               = Z.abs iter).
  { destruct (Z.leb_spec 0 e).
    - assert (e = 0) by lia. subst e. cbn in HM. lia.
    - rewrite HM. apply Z.div_mul.
      apply Z.pow_nonzero; lia. }
  rewrite Eq.
  destruct (Z.ltb_spec iter 0).
  - replace (- Z.abs iter) with iter by lia.
    destruct (Z.leb_spec (- 2 ^ 31) iter), (Z.ltb_spec iter (2 ^ 31));
      cbn; lia.
  - replace (Z.abs iter) with iter by lia.
    destruct (Z.leb_spec (- 2 ^ 31) iter), (Z.ltb_spec iter (2 ^ 31));
      cbn; lia.
Qed.

End DriverSingle.




(** ** The optimizer: the size of the population in use *)

Section OptSizes.

Context {Aux : Type} (E : CBiteOpt.externals Aux).
Context (f : list double -> double).

Import OptSpec.

Local Arguments CBiteOpt.updateParPop : simpl never.
Local Arguments CBitePop.updatePop : simpl never.

Lemma fill_step_sizes rnd (s : CBiteOpt.state Aux) push :
  let s' := CBiteOpt.r_opt (CBiteOpt.fill_step E f rnd s push) in
  PopSpec.same_sizes (own s) (own s') /\
  CBitePop.PopSize (own s') = CBitePop.PopSize (own s).
Proof.
  cbv zeta. unfold CBiteOpt.fill_step.
  destruct (CBiteOptBase.genInitParams _ _ rnd) as [[ps vs] rnd1].
  set (q := CBiteOptBase.pop (CBiteOpt.base s)).
  set (q1 := CBitePop.set_params q _ ps).
  pose proof (updatePop_sizes q1 (CBiteOptBase.fixCostNaN (f vs))
                (CBitePop.getCurParams q) false 0) as U.
  pose proof (updatePop_fields q1 (CBiteOptBase.fixCostNaN (f vs))
                (CBitePop.getCurParams q) false 0) as F.
  cbv zeta in F. destruct F as (F1 & _).
  destruct (CBitePop.updatePop q1 _ _ false 0) as [p q2].
  cbn [fst snd] in *.
  cbn [CBiteOpt.r_opt]. unfold own. rewrite updateBestCost_spec.
  assert (A : PopSpec.same_sizes q q2 /\ CBitePop.PopSize q2 = CBitePop.PopSize q).
  { split; [|exact F1].
    eapply same_sizes_trans; [apply set_params_sizes|exact U]. }
  destruct A as [A1 A2].
  pose proof (updateCentroid_sizes q2) as C.
  pose proof (updateCentroid_same q2) as (C1 & _).
  clearbody q1. subst q.
  destruct (CBitePop.CurPopPos q2 =? CBitePop.PopSize q2)%nat;
    destruct (p =? 0)%nat; cbn;
    (split; [first [exact A1|eapply same_sizes_trans; eassumption]
            |congruence]).
Qed.

Lemma generate_sizes rnd (s : CBiteOpt.state Aux) :
  let s' := fst (fst (CBiteOpt.generate E f rnd s)) in
  PopSpec.same_sizes (own s) (own s') /\
  CBitePop.PopSize (own s') = CBitePop.PopSize (own s).
Proof.
  cbv zeta. unfold CBiteOpt.generate.
  pose proof (choose_frame E (CBiteOpt.base s) rnd) as Hch. cbv zeta in Hch.
  destruct (CBiteOpt.choose E (CBiteOpt.base s) rnd) as [[g b1] r1].
  cbn [fst snd] in Hch. destruct Hch as (C1 & _).
  cbn [fst]. unfold own.
  destruct (CBiteOpt.g_last _) as [[c v]|]; cbn; rewrite C1;
    (split; [apply set_params_sizes|reflexivity]).
Qed.

Lemma evaluate_sizes rnd (s : CBiteOpt.state Aux) :
  let s' := fst (fst (CBiteOpt.evaluate f rnd s)) in
  PopSpec.same_sizes (own s) (own s') /\
  CBitePop.PopSize (own s') = CBitePop.PopSize (own s).
Proof.
  cbv zeta. unfold CBiteOpt.evaluate.
  destruct (CBiteOpt.DoEval s).
  - destruct (CBiteOpt.wrap_all _ _) as [[tp vs] r1]. cbn [fst]. unfold own.
    cbn. split; [apply set_params_sizes|reflexivity].
  - cbn. split; [apply same_sizes_refl|reflexivity].
Qed.

Lemma update_step_sizes rnd (s : CBiteOpt.state Aux) push evals :
  let q := own s in
  let q' := own (CBiteOpt.r_opt (CBiteOpt.update_step E rnd s push evals)) in
  CBitePop.PopSize q' = CBitePop.PopSize q /\
  (CBitePop.CurPopSize q' = CBitePop.CurPopSize q /\
   CBitePop.CurPopSize1 q' = CBitePop.CurPopSize1 q \/
   CBitePop.CurPopSize q < Z.of_nat (CBitePop.PopSize q) /\
   CBitePop.CurPopSize q' = CBitePop.CurPopSize q + 1 /\
   CBitePop.CurPopSize1 q' = CBitePop.CurPopSize1 q + 1 \/
   Z.of_nat (CBitePop.PopSize q / 2) < CBitePop.CurPopSize q /\
   CBitePop.CurPopSize q' = CBitePop.CurPopSize q - 1 /\
   CBitePop.CurPopSize1 q' = CBitePop.CurPopSize1 q - 1).
Proof.
  cbv zeta. unfold CBiteOpt.update_step, own.
  pose proof (updatePop_fields (CBiteOptBase.pop (CBiteOpt.base s))
                (CBiteOptBase.LastCosts0 (CBiteOpt.base s))
                (PtrItem (CBitePop.TmpParams
                            (CBiteOptBase.pop (CBiteOpt.base s)))) true 3)
    as F.
  cbv zeta in F. destruct F as (F1 & _ & F3 & F4 & _).
  destruct (CBitePop.updatePop _ _ _ true 3) as [p q1].
  cbn [fst snd] in *.
  destruct (CBitePop.CurPopSize1 q1 <? Z.of_nat p).
  - set (b3 := CBiteOptBase.with_flags _ _ _).
    assert (B1 : CBiteOptBase.pop b3 = q1) by reflexivity.
    clearbody b3.
    destruct (CBiteOpt.DoEval s && _) eqn:Hc.
    + pose proof (select_frame (CBiteOpt.pow E) b3 CBiteOpt.PopChangeIncrSel
                    rnd) as Hsel.
      cbv zeta in Hsel.
      destruct (CBiteOptBase.select _ b3 _ rnd) as [[sel b'] r'].
      cbn [fst snd] in Hsel. destruct Hsel as (S1 & _).
      apply andb_true_iff in Hc as [_ Hc]. apply Z.ltb_lt in Hc.
      destruct (negb _); cbn [CBiteOpt.r_opt CBiteOpt.base CBiteOpt.with_base];
        match goal with
        | |- context [CBiteOpt.updateParPop ?x ?c ?t] =>
            destruct (updateParPop_frame x c t) as (-> & _)
        end; cbn; rewrite S1, B1, ?F1, ?F3, ?F4;
        (split; [reflexivity|]); [right; left|left]; auto.
      rewrite <- F1, <- F3. auto.
    + cbn [CBiteOpt.r_opt CBiteOpt.base CBiteOpt.with_base].
      match goal with
      | |- context [CBiteOpt.updateParPop ?x ?c ?t] =>
          destruct (updateParPop_frame x c t) as (-> & _)
      end.
      rewrite B1. auto.
  - rewrite updateBestCost_spec.
    set (b4 := CBiteOptBase.with_flags _ _ 0).
    assert (B1 : CBiteOptBase.pop b4 = q1)
      by (subst b4; destruct (p =? 0)%nat; reflexivity).
    clearbody b4.
    destruct (CBiteRnd.get rnd) as [g1 rnd1].
    destruct (CBiteRnd.get rnd1) as [g2 rnd2].
    destruct (CBiteOpt.DoEval s && _) eqn:Hc.
    + pose proof (select_frame (CBiteOpt.pow E) b4 CBiteOpt.PopChangeDecrSel
                    rnd2) as Hsel.
      cbv zeta in Hsel.
      destruct (CBiteOptBase.select _ b4 _ rnd2) as [[sel b'] r'].
      cbn [fst snd] in Hsel. destruct Hsel as (S1 & _).
      apply andb_true_iff in Hc as [_ Hc]. apply Z.ltb_lt in Hc.
      destruct (negb _); cbn [CBiteOpt.r_opt CBiteOpt.base CBiteOpt.with_base];
        match goal with
        | |- context [CBiteOpt.updateParPop ?x ?c ?t] =>
            destruct (updateParPop_frame x c t) as (-> & _)
        end; cbn; rewrite S1, B1, ?F1, ?F3, ?F4;
        (split; [reflexivity|]); [right; right|left]; auto.
      rewrite <- F1, <- F3. auto.
    + cbn [CBiteOpt.r_opt CBiteOpt.base CBiteOpt.with_base].
      match goal with
      | |- context [CBiteOpt.updateParPop ?x ?c ?t] =>
          destruct (updateParPop_frame x c t) as (-> & _)
      end.
      rewrite B1. auto.
Qed.

(** A call of [optimize] keeps the size in use between half of [PopSize]
    and [PopSize]. *)
Lemma optimize_sizes rnd (s : CBiteOpt.state Aux) push :
  let q := own s in
  let q' := own (CBiteOpt.r_opt (CBiteOpt.optimize E f rnd s push)) in
  CBitePop.CurPopSize1 q = CBitePop.CurPopSize q - 1 ->
  Z.of_nat (CBitePop.PopSize q / 2) <= CBitePop.CurPopSize q ->
  CBitePop.CurPopSize q <= Z.of_nat (CBitePop.PopSize q) ->
  CBitePop.PopSize q' = CBitePop.PopSize q /\
  CBitePop.CurPopSize1 q' = CBitePop.CurPopSize q' - 1 /\
  Z.of_nat (CBitePop.PopSize q / 2) <= CBitePop.CurPopSize q' /\
  CBitePop.CurPopSize q' <= Z.of_nat (CBitePop.PopSize q).
Proof.
  cbv zeta. intros H1 H2 H3. unfold CBiteOpt.optimize.
  destruct (CBiteOptBase.DoInitEvals (CBiteOpt.base s)).
  - destruct (fill_step_sizes rnd s push) as [[A1 A2] A3].
    rewrite A1, A2, A3. auto.
  - destruct (generate_sizes rnd s) as [[A1 A2] A3].
    destruct (CBiteOpt.generate E f rnd s) as [[s1 r1] ev1].
    cbn [fst] in A1, A2, A3.
    destruct (evaluate_sizes r1 s1) as [[B1 B2] B3].
    destruct (CBiteOpt.evaluate f r1 s1) as [[s2 r2] ev2].
    cbn [fst] in B1, B2, B3.
    destruct (update_step_sizes r2 s2 push (ev1 ++ ev2)) as [C1 C2].
    rewrite C1, B3, A3.
    rewrite B1, B2, B3, A1, A2, A3 in C2. lia.
Qed.

(** The object that [PushOpt] points to keeps its size in use. *)
Lemma optimize_push_sizes rnd (s t t' : CBiteOpt.state Aux) :
  CBiteOpt.r_push (CBiteOpt.optimize E f rnd s (Some t)) = Some t' ->
  PopSpec.same_sizes (own t) (own t') /\
  CBitePop.PopSize (own t') = CBitePop.PopSize (own t).
Proof.
  unfold CBiteOpt.optimize.
  destruct (CBiteOptBase.DoInitEvals (CBiteOpt.base s)).
  - rewrite fill_step_push. intros [= <-].
    split; [apply same_sizes_refl|reflexivity].
  - destruct (CBiteOpt.generate E f rnd s) as [[s1 r1] ev1].
    destruct (CBiteOpt.evaluate f r1 s1) as [[s2 r2] ev2].
    pose proof (update_step_struct E r2 s2 (Some t) (ev1 ++ ev2)) as U.
    cbv zeta in U. destruct U as (_ & _ & _ & _ & _ & _ & _ & U8).
    destruct U8 as [U8|(_ & _ & U8)]; rewrite U8; intros [= <-].
    + split; [apply same_sizes_refl|reflexivity].
    + unfold own. cbn [CBiteOpt.base CBiteOpt.with_base].
      match goal with |- context [CBiteOpt.updateParPop ?x ?c ?tp] =>
        destruct (updateParPop_frame x c tp) as (-> & _) end.
      cbn [CBiteOptBase.pop CBiteOptBase.with_pop].
      split; [apply updatePop_sizes|apply updatePop_fields].
Qed.

(** What happens to an object of an ensemble keeps the size in use. *)
Lemma events_sizes (s s' : CBiteOpt.state Aux) :
  events E f s s' ->
  CBitePop.CurPopSize1 (own s) = CBitePop.CurPopSize (own s) - 1 ->
  Z.of_nat (CBitePop.PopSize (own s) / 2) <= CBitePop.CurPopSize (own s) ->
  CBitePop.CurPopSize (own s) <= Z.of_nat (CBitePop.PopSize (own s)) ->
  CBitePop.PopSize (own s') = CBitePop.PopSize (own s) /\
  CBitePop.CurPopSize1 (own s') = CBitePop.CurPopSize (own s') - 1 /\
  Z.of_nat (CBitePop.PopSize (own s) / 2) <= CBitePop.CurPopSize (own s') /\
  CBitePop.CurPopSize (own s') <= Z.of_nat (CBitePop.PopSize (own s)).
Proof.
  induction 1 as [s|s s1 s2 Hev _ IH]; intros H1 H2 H3; [auto|].
  assert (A : CBitePop.PopSize (own s1) = CBitePop.PopSize (own s) /\
              CBitePop.CurPopSize1 (own s1) = CBitePop.CurPopSize (own s1) - 1
              /\
              Z.of_nat (CBitePop.PopSize (own s) / 2) <=
                CBitePop.CurPopSize (own s1) /\
              CBitePop.CurPopSize (own s1) <=
                Z.of_nat (CBitePop.PopSize (own s))).
  { destruct Hev as [rnd push|rnd t s1 Hp].
    - by apply optimize_sizes.
    - destruct (optimize_push_sizes rnd t s s1 Hp) as [[B1 B2] B3].
      rewrite B1, B2, B3. auto. }
  destruct A as (A1 & A2 & A3 & A4).
  rewrite <- A1 in A3, A4. destruct (IH A2 A3 A4) as (I1 & I2 & I3 & I4).
  rewrite A1 in I1, I3, I4. auto.
Qed.

End OptSizes.

(** X22.  The size of the population in use: after [init], [CurPopSize] is
    [PopSize]; over any sequence of calls of [optimize] of the object (with
    any [PushOpt]) and of calls of a sibling that pushes into it, [PopSize]
    stays, [CurPopSize1] stays [CurPopSize - 1], and [CurPopSize] stays
    between [PopSize / 2] (the integer quotient) and [PopSize]: the size is
    increased only below [PopSize] and decreased only above [PopSize / 2].
    This holds for any solution generators. *)
Theorem population_size_in_use {Aux : Type} (E : CBiteOpt.externals Aux)
  (f : list double -> double) (u : CBiteOpt.state Aux) (n P : nat)
  (lb ub : list double) (rnd0 : CBiteRnd.state)
  (ip : option (list double)) (ir : double) (s' : CBiteOpt.state Aux) :
  (0 < P)%nat ->
  let s0 := fst (new_opt E u n P lb ub rnd0 ip ir) in
  OptSpec.events E f s0 s' ->
  CBitePop.CurPopSize (OptSpec.own s0) = Z.of_nat P /\
  CBitePop.PopSize (OptSpec.own s') = P /\
  CBitePop.CurPopSize1 (OptSpec.own s') =
    CBitePop.CurPopSize (OptSpec.own s') - 1 /\
  Z.of_nat (P / 2) <= CBitePop.CurPopSize (OptSpec.own s') /\
  CBitePop.CurPopSize (OptSpec.own s') <= Z.of_nat P.
Proof.
  intros HP s0 Hev.
  assert (A : CBitePop.PopSize (OptSpec.own s0) = P /\
              CBitePop.CurPopSize (OptSpec.own s0) = Z.of_nat P /\
              CBitePop.CurPopSize1 (OptSpec.own s0) = Z.of_nat P - 1).
  { subst s0. unfold new_opt.
    pose proof (opt_init_spec E lb ub
                  (CBiteOpt.updateDims E (CBiteOpt.construct u) n
                                       (Z.of_nat P))
                  rnd0 ip ir) as I. cbv zeta in I.
    destruct I as (I1 & _).
    pose proof (opt_updateDims_spec E u n P HP) as D. cbv zeta in D.
    destruct D as (D1 & _).
    rewrite I1, D1. cbn. split_and!; auto. lia. }
  destruct A as (A1 & A2 & A3).
  assert (Hdiv : Z.of_nat (P / 2) <= Z.of_nat P).
  { apply inj_le. apply Nat.Div0.div_le_upper_bound. lia. }
  destruct (events_sizes E f s0 s' Hev ltac:(lia)
              ltac:(rewrite A1, A2; exact Hdiv) ltac:(rewrite A1, A2; lia))
    as (B1 & B2 & B3 & B4).
  rewrite A1 in B1, B3, B4. auto.
Qed.

Lemma population_size_in_use_witness :
  let s0 := fst ex_opt in
  let s' := CBiteOpt.r_opt (CBiteOpt.optimize ex_ext (fun _ => Dbl.one)
                              (snd ex_opt) s0 None) in
  1 <= CBitePop.CurPopSize (OptSpec.own s') <= 2.
Proof.
  cbv zeta. rewrite ex_opt_new.
  set (o := new_opt ex_ext ex_opt0 1 2 [Dbl.of_Z (-1)] [Dbl.of_Z 1] ex_rnd
                    None Dbl.one).
  pose proof (population_size_in_use ex_ext (fun _ => Dbl.one) ex_opt0
                1%nat 2%nat [Dbl.of_Z (-1)] [Dbl.of_Z 1] ex_rnd None Dbl.one
                (CBiteOpt.r_opt (CBiteOpt.optimize ex_ext (fun _ => Dbl.one)
                                   (snd o) (fst o) None))
                ltac:(lia)
                (OptSpec.evs_cons _ _ _ _ _
                   (OptSpec.ev_own _ _ _ (snd o) None)
                   (OptSpec.evs_nil _ _ _))) as H.
  cbv zeta in H. destruct H as (_ & _ & _ & H1 & H2).
  split; [exact H1|exact H2].
Defined.


(** ** The generator of random numbers with an external function *)

Section RndExternal.

Lemma skip_external g : forall n c sd l h bp bl,
  CBiteRnd.skip n (CBiteRnd.mk (Some g) c sd l h bp bl) =
  CBiteRnd.mk (Some g) (c + 2 * n) sd l h bp bl.
Proof.
  induction n as [|n IH]; intros c sd l h bp bl; cbn [CBiteRnd.skip].
  - f_equal. lia.
  - unfold CBiteRnd.advance. cbn [CBiteRnd.rf snd CBiteRnd.rcalls
      CBiteRnd.Seed CBiteRnd.lcg CBiteRnd.Hash CBiteRnd.BitPool
      CBiteRnd.BitsLeft].
    rewrite IH. f_equal. lia.
Qed.

End RndExternal.

(** X23.  With an external function [rf], [init] ignores the seed as far as
    the numbers drawn go, and discards the first ten values of [rf] (five
    calls of [advance], two values each); after that the [n]-th value of the
    generator is made of the values [10 + 2n] (low 32 bits) and [11 + 2n]
    (high 32 bits) of [rf], each reduced to 32 bits, and lies in
    [[0; 2^64)].  The members of the built-in generator are not touched. *)
Theorem rnd_external_rf (g : nat -> Z) (seed seed' pool0 : Z) (n : nat) :
  let r := CBiteRnd.skip n (CBiteRnd.init seed (Some g) pool0) in
  let r' := CBiteRnd.skip n (CBiteRnd.init seed' (Some g) pool0) in
  r = CBiteRnd.mk (Some g) (10 + 2 * n) (u64 seed) 0 0 pool0 0 /\
  fst (CBiteRnd.advance r) =
    Z.lor (u32 (g (10 + 2 * n)%nat))
          (Z.shiftl (u32 (g (11 + 2 * n)%nat)) 32) /\
  0 <= fst (CBiteRnd.advance r) < 2 ^ 64 /\
  fst (CBiteRnd.advance r') = fst (CBiteRnd.advance r) /\
  fst (CBiteRnd.get r') = fst (CBiteRnd.get r).
Proof.
  cbv zeta. unfold CBiteRnd.init. rewrite !skip_external.
  replace (0 + 2 * 5 + 2 * n)%nat with (10 + 2 * n)%nat by lia.
  split; [reflexivity|]. split; [reflexivity|].
  split; [apply advance_range|].
  split; [reflexivity|].
  unfold CBiteRnd.get, CBiteRnd.advance. cbn. reflexivity.
Qed.

(** ** The binding: bounds that are not numbers *)

Section BindingNaN.

Lemma gtb_false_iff l u :
  Dbl.gtb l u = false <->
  Dbl.is_nan l = true \/ Dbl.is_nan u = true \/ Dbl.le l u.
Proof.
  destruct (Dbl.is_nan l) eqn:Hl.
  { split; [auto|]. intros _. destruct l; try discriminate.
    unfold Dbl.gtb, SFltb. by destruct u. }
  destruct (Dbl.is_nan u) eqn:Hu.
  { split; [auto|]. intros _. destruct u; try discriminate.
    unfold Dbl.gtb, SFltb. by destruct l. }
  rewrite (gtb_false_le l u Hl Hu).
  split; [auto|]. intros [H|[H|H]]; [discriminate|discriminate|exact H].
Qed.

Lemma collect_floats l :
  PyExt.collect (map PyExt.PyFloat l) = Some l.
Proof. induction l as [|d l IH]; cbn; [reflexivity|]. by rewrite IH. Qed.

Lemma bounds_crossed_false lower upper :
  length lower = length upper ->
  PyExt.bounds_crossed lower upper = false <->
  Forall2 (fun l u => Dbl.is_nan l = true \/ Dbl.is_nan u = true \/
                      Dbl.le l u) lower upper.
Proof.
  revert upper. induction lower as [|l lower IH]; intros [|u upper] Hlen;
    try discriminate.
  - split; [constructor|reflexivity].
  - injection Hlen as Hlen. unfold PyExt.bounds_crossed in *.
    cbn [zip zip_with existsb fst snd].
    rewrite orb_false_iff, (IH upper Hlen), gtb_false_iff.
    split.
    + intros [A B]. by constructor.
    + intros H. inversion H; subst. auto.
Qed.

End BindingNaN.

(** X24.  The check of the bounds in the binding compares with [>], which
    is false when one side is NaN: for two lists of floats of the same
    length, the binding goes on to [biteopt_minimize] exactly when every
    pair of bounds either is ordered ([lower[ i ] <= upper[ i ]], infinite
    bounds included) or holds a NaN; otherwise it raises the error about
    the bounds.  A NaN bound is never rejected. *)
Theorem minimize_func_nan_bounds (R : Type)
  (driver : nat -> PyExt.PyObject -> list double -> list double ->
            Z -> Z -> Z -> Z -> R)
  (a : PyExt.args) (lower upper : list double) :
  PyExt.lower_py a = PyExt.PyList (map PyExt.PyFloat lower) ->
  PyExt.upper_py a = PyExt.PyList (map PyExt.PyFloat upper) ->
  length lower = length upper ->
  let ok := Forall2 (fun l u => Dbl.is_nan l = true \/ Dbl.is_nan u = true \/
                                Dbl.le l u) lower upper in
  (ok ->
   PyExt.minimize_func R driver a =
     inr (driver (length lower) (PyExt.func_py a) lower upper
            (PyExt.iter_py a) (PyExt.M_py a) (PyExt.attc_py a)
            (PyExt.stopc_py a))) /\
  (~ ok -> PyExt.minimize_func R driver a = inl PyExt.ErrBounds).
Proof.
  intros Hl Hu Hlen ok. unfold PyExt.minimize_func.
  rewrite Hl, Hu. cbn [PyExt.PyObject_GetIter]. rewrite !collect_floats.
  rewrite Hlen, Nat.eqb_refl. cbn [negb].
  pose proof (bounds_crossed_false lower upper Hlen) as B. fold ok in B.
  destruct (PyExt.bounds_crossed lower upper).
  - split; [|reflexivity]. intros H. apply B in H. discriminate.
  - split; [reflexivity|]. intros H. exfalso. apply H, B. reflexivity.
Qed.

Lemma minimize_func_nan_bounds_witness :
  PyExt.minimize_func _ ex_driver
    (PyExt.mkargs PyExt.PyOther
       (PyExt.PyList (map PyExt.PyFloat [S754_nan; S754_infinity true]))
       (PyExt.PyList (map PyExt.PyFloat [Dbl.zero; S754_infinity false]))
       1 1 10 1)
  = inr (2%nat, [S754_nan; S754_infinity true],
         [Dbl.zero; S754_infinity false]).
Proof.
  refine (proj1 (minimize_func_nan_bounds _ ex_driver
                   (PyExt.mkargs PyExt.PyOther
                      (PyExt.PyList
                         (map PyExt.PyFloat [S754_nan; S754_infinity true]))
                      (PyExt.PyList
                         (map PyExt.PyFloat [Dbl.zero; S754_infinity false]))
                      1 1 10 1)
                   [S754_nan; S754_infinity true]
                   [Dbl.zero; S754_infinity false] eq_refl eq_refl eq_refl)
            _).
  constructor; [by left|]. constructor; [|constructor].
  right; right. reflexivity.
Defined.


(** ** The optimizer: the parameter values behind an evaluation *)

Section WrapAll.

Variable getGaussianInt :
  CBiteRnd.state -> double -> Z -> Z * CBiteRnd.state.

(** The values of the type [int64_t], and the normalized range. *)
Let int64 (v : Z) : Prop := - 2 ^ 63 <= v < 2 ^ 63.
Let normal (v : Z) : Prop := 0 <= v <= CBitePop.IntMantMult.

Lemma getRealValue_nth s l1 l2 i :
  nth i l1 0 = nth i l2 0 ->
  CBiteOptBase.getRealValue s l1 i = CBiteOptBase.getRealValue s l2 i.
Proof. unfold CBiteOptBase.getRealValue. by intros ->. Qed.

Lemma nth_int64 l i : Forall int64 l -> int64 (nth i l 0).
Proof.
  intros H. destruct (nth_in_or_default i l 0) as [Hin| ->].
  - by apply (proj1 (List.Forall_forall _ _) H).
  - unfold int64. lia.
Qed.

(** The loop of [genInitParams], from the parameter [k] on. *)
Lemma genInit_fold s (m : nat) : forall k ps vs r,
  (forall r sd mu, int64 (fst (getGaussianInt r sd mu))) ->
  Forall int64 (CBiteOptBase.StartParams s) ->
  length ps = k -> length vs = k -> Forall normal ps ->
  (forall i, (i < k)%nat ->
             nth i vs Dbl.zero = CBiteOptBase.getRealValue s ps i) ->
  let res :=
    fold_left
      (fun (acc : list Z * list double * CBiteRnd.state) (i : nat) =>
         let '(ps, vs, r) := acc in
         let '(x, r1) :=
           if CBiteOptBase.UseStartParams s then
             if (CBitePop.CurPopPos (CBiteOptBase.pop s) =? 0)%nat
             then (nth i (CBiteOptBase.StartParams s) 0, r)
             else getGaussianInt r (CBiteOptBase.StartSD s)
                                 (nth i (CBiteOptBase.StartParams s) 0)
           else getGaussianInt r (CBiteOptBase.StartSD s)
                  (Z.shiftr CBitePop.IntMantMult 1) in
         let '(w, r2) := CBitePop.wrapParam r1 x in
         let ps' := ps ++ [w] in
         (ps', vs ++ [CBiteOptBase.getRealValue s ps' i], r2))
      (seq k m) (ps, vs, r) in
  length (fst (fst res)) = (k + m)%nat /\
  length (snd (fst res)) = (k + m)%nat /\
  Forall normal (fst (fst res)) /\
  (forall i, (i < k + m)%nat ->
     nth i (snd (fst res)) Dbl.zero =
     CBiteOptBase.getRealValue s (fst (fst res)) i).
Proof.
  induction m as [|m IH]; intros k ps vs r Hg Hs Hp Hv Hn Hr;
    cbn [seq fold_left].
  - cbv zeta. cbn [fst snd]. rewrite Nat.add_0_r. auto.
  - set (xr := if CBiteOptBase.UseStartParams s then _ else _).
    assert (Hx : int64 (fst xr)).
    { subst xr. destruct (CBiteOptBase.UseStartParams s); [|apply Hg].
      destruct (_ =? _)%nat; [|apply Hg]. cbn [fst]. by apply nth_int64. }
    destruct xr as [x r1]. cbn [fst] in Hx.
    pose proof (wrapParam_range r1 x Hx) as Hw.
    destruct (CBitePop.wrapParam r1 x) as [w r2]. cbn [fst] in Hw.
    specialize (IH (S k) (ps ++ [w])
                  (vs ++ [CBiteOptBase.getRealValue s (ps ++ [w]) k]) r2
                  Hg Hs).
    cbv zeta in IH |- *.
    replace (k + S m)%nat with (S k + m)%nat by lia.
    apply IH.
    + rewrite length_app. cbn. lia.
    + rewrite length_app. cbn. lia.
    + apply Forall_app. split; [exact Hn|]. by constructor.
    + intros i Hi. destruct (Nat.eq_dec i k) as [->|Hik].
      * rewrite app_nth2 by lia. rewrite Hv, Nat.sub_diag. reflexivity.
      * rewrite app_nth1 by lia. rewrite Hr by lia.
        apply getRealValue_nth. rewrite app_nth1 by lia. reflexivity.
Qed.

(** The loop of the branch [if( DoEval )], from the parameter [k] on. *)
Lemma wrap_fold b (m : nat) : forall k tp vs r,
  Forall int64 tp -> length vs = k ->
  (forall i, (i < k)%nat ->
             nth i vs Dbl.zero = CBiteOptBase.getRealValue b tp i) ->
  let res :=
    fold_left
      (fun (acc : list Z * list double * CBiteRnd.state) (i : nat) =>
         let '(tp, vs, r) := acc in
         let '(w, r1) := CBitePop.wrapParam r (nth i tp 0) in
         let tp' := <[i := w]> tp in
         (tp', vs ++ [CBiteOptBase.getRealValue b tp' i], r1))
      (seq k m) (tp, vs, r) in
  length (fst (fst res)) = length tp /\
  length (snd (fst res)) = (k + m)%nat /\
  (forall i, (k <= i < k + m)%nat -> normal (nth i (fst (fst res)) 0)) /\
  (forall i, (i < k)%nat \/ (k + m <= i)%nat ->
             nth i (fst (fst res)) 0 = nth i tp 0) /\
  (forall i, (i < k + m)%nat ->
     nth i (snd (fst res)) Dbl.zero =
     CBiteOptBase.getRealValue b (fst (fst res)) i) /\
  ((forall i, (k <= i < k + m)%nat -> normal (nth i tp 0)) ->
   fst (fst res) = tp /\ snd res = r).
Proof.
  induction m as [|m IH]; intros k tp vs r Ht Hv Hr; cbn [seq fold_left].
  - cbv zeta. cbn [fst snd]. rewrite Nat.add_0_r.
    split_and!; auto. intros i Hi. lia.
  - pose proof (wrapParam_range r (nth k tp 0) (nth_int64 tp k Ht)) as Hw.
    pose proof (wrapParam_inside r (nth k tp 0)) as Hid.
    destruct (CBitePop.wrapParam r (nth k tp 0)) as [w r1]. cbn [fst] in Hw.
    assert (Hnth : forall i, nth i (<[k := w]> tp) 0 =
                             if (i =? k)%nat
                             then (if (k <? length tp)%nat then w else 0)
                             else nth i tp 0).
    { intros i. rewrite !(nth_lookup _ _ 0).
      destruct (Nat.eqb_spec i k) as [->|Hik].
      - destruct (Nat.ltb_spec k (length tp)).
        + by rewrite list_lookup_insert_eq.
        + rewrite list_insert_ge by lia.
          by rewrite lookup_ge_None_2.
      - by rewrite list_lookup_insert_ne. }
    assert (Ht' : Forall int64 (<[k := w]> tp)).
    { apply Forall_insert; [exact Ht|].
      unfold int64. change CBitePop.IntMantMult with (2 ^ 58) in Hw. lia. }
    specialize (IH (S k) (<[k := w]> tp)
                  (vs ++ [CBiteOptBase.getRealValue b (<[k := w]> tp) k]) r1
                  Ht').
    cbv zeta in IH |- *.
    destruct IH as (I1 & I2 & I3 & I4 & I5 & I6).
    + rewrite length_app. cbn. lia.
    + intros i Hi. destruct (Nat.eq_dec i k) as [->|Hik].
      * rewrite app_nth2 by lia. rewrite Hv, Nat.sub_diag. reflexivity.
      * rewrite app_nth1 by lia. rewrite Hr by lia.
        apply getRealValue_nth. rewrite Hnth.
        destruct (Nat.eqb_spec i k); [lia|reflexivity].
    + rewrite length_insert in I1.
      replace (k + S m)%nat with (S k + m)%nat by lia.
      split; [exact I1|]. split; [exact I2|]. split; [|split; [|split]].
      * intros i Hi. destruct (Nat.eq_dec i k) as [->|Hik].
        -- rewrite I4 by lia. rewrite Hnth, Nat.eqb_refl.
           destruct (_ <? _)%nat; [exact Hw|].
           unfold normal. change CBitePop.IntMantMult with (2 ^ 58). lia.
        -- apply I3. lia.
      * intros i Hi. rewrite I4 by lia. rewrite Hnth.
        destruct (Nat.eqb_spec i k); [lia|reflexivity].
      * exact I5.
      * intros Hall.
        assert (Ew : (w, r1) = (nth k tp 0, r))
          by (apply Hid, Hall; lia).
        injection Ew as -> ->.
        assert (Eins : <[k := nth k tp 0]> tp = tp).
        { destruct (Nat.ltb_spec k (length tp)) as [Hk|Hk].
          - apply list_insert_id. rewrite (nth_lookup _ _ 0).
            destruct (lookup_lt_is_Some_2 tp k Hk) as [x ->]. reflexivity.
          - by apply list_insert_ge. }
        rewrite Eins in I6 |- *. apply I6. intros i Hi. apply Hall. lia.
Qed.

End WrapAll.

Section WrapAllList.

Lemma map_seq_nth {A} (l : list A) (d : A) (F : nat -> A) n :
  length l = n -> (forall i, (i < n)%nat -> nth i l d = F i) ->
  l = map F (seq 0 n).
Proof.
  intros Hl Hn. apply (nth_ext _ _ d (F 0%nat)).
  - by rewrite length_map, length_seq.
  - intros i Hi. rewrite Hl in Hi. rewrite Hn by exact Hi.
    rewrite (nth_indep _ _ (F (nth i (seq 0 n) 0%nat)))
      by (by rewrite length_map, length_seq).
    rewrite map_nth, seq_nth by exact Hi. reflexivity.
Qed.

End WrapAllList.

(** X25.  The parameter values behind an evaluation are normalized: the
    loop of [genInitParams] and the loop of the branch [if( DoEval )] of
    [optimize] pass every parameter through [wrapParam], so that all
    [ParamCount] values they leave lie in [[0; IntMantMult]], whatever the
    Gaussian sampler and the solution generator delivered (any values of
    [int64_t]); the real values handed to the objective function are
    [getRealValue] of exactly these values.  A vector of [TmpParams] that is
    in the range already is left as it is, and no random number is drawn
    for it. *)
Theorem evaluated_params_normalized
  (getGaussianInt : CBiteRnd.state -> double -> Z -> Z * CBiteRnd.state)
  (b : CBiteOptBase.state) (rnd : CBiteRnd.state) :
  (forall r sd mu, - 2 ^ 63 <= fst (getGaussianInt r sd mu) < 2 ^ 63) ->
  Forall (fun v => - 2 ^ 63 <= v < 2 ^ 63) (CBiteOptBase.StartParams b) ->
  Forall (fun v => - 2 ^ 63 <= v < 2 ^ 63)
         (CBitePop.tmp (CBiteOptBase.pop b)) ->
  let n := CBitePop.ParamCount (CBiteOptBase.pop b) in
  let tmp := CBitePop.tmp (CBiteOptBase.pop b) in
  let g := CBiteOptBase.genInitParams getGaussianInt b rnd in
  let w := CBiteOpt.wrap_all b rnd in
  (length (fst (fst g)) = n /\
   Forall (fun v => 0 <= v <= CBitePop.IntMantMult) (fst (fst g)) /\
   snd (fst g) = map (CBiteOptBase.getRealValue b (fst (fst g))) (seq 0 n)) /\
  (length (fst (fst w)) = length tmp /\
   (forall i, (i < n)%nat ->
      0 <= nth i (fst (fst w)) 0 <= CBitePop.IntMantMult) /\
   (forall i, (n <= i)%nat -> nth i (fst (fst w)) 0 = nth i tmp 0) /\
   snd (fst w) = map (CBiteOptBase.getRealValue b (fst (fst w))) (seq 0 n) /\
   ((forall i, (i < n)%nat -> 0 <= nth i tmp 0 <= CBitePop.IntMantMult) ->
    fst (fst w) = tmp /\ snd w = rnd)).
Proof.
  intros Hg Hs Ht n tmp g w. split.
  - pose proof (genInit_fold getGaussianInt b n 0 [] [] rnd Hg Hs eq_refl
                  eq_refl ltac:(constructor) ltac:(intros; lia)) as G.
    cbv zeta in G. fold (CBiteOptBase.genInitParams getGaussianInt b rnd) in G.
    fold g in G. destruct G as (G1 & G2 & G3 & G4).
    split; [exact G1|]. split; [exact G3|].
    by apply (map_seq_nth _ Dbl.zero).
  - pose proof (wrap_fold b n 0 tmp [] rnd Ht eq_refl ltac:(intros; lia))
      as W.
    cbv zeta in W. fold (CBiteOpt.wrap_all b rnd) in W. fold w in W.
    destruct W as (W1 & W2 & W3 & W4 & W5 & W6).
    split; [exact W1|]. split; [intros i Hi; apply W3; lia|].
    split; [intros i Hi; apply W4; right; exact Hi|].
    split; [by apply (map_seq_nth _ Dbl.zero)|].
    intros Hall. apply W6. intros i Hi. apply Hall. lia.
Qed.

Lemma evaluated_params_normalized_witness :
  CBitePop.tmp (CBiteOptBase.pop ex_base_tmp) = [-5] /\
  0 <= nth 0 (fst (fst (CBiteOpt.wrap_all ex_base_tmp ex_rnd))) 0
    <= CBitePop.IntMantMult.
Proof.
  split; [reflexivity|].
  refine (proj1 (proj2 (proj2
            (evaluated_params_normalized (fun r _ _ => (0, r)) ex_base_tmp
               ex_rnd _ _ _))) 0%nat _).
  - intros r sd mu. cbn. lia.
  - constructor.
  - constructor; [lia|constructor].
  - cbn. lia.
Defined.


(** ** The selector: the choices in the slot vectors *)

Section SelBalance.

Import CBiteSelBase SelSpec.

(** A part of a buffer whose entries are those of the same part of another
    buffer, in another order. *)
Lemma region_perm (buf buf' : list Z) (base n : nat) (f : nat -> nat) :
  (base + n <= length buf)%nat -> length buf' = length buf ->
  (forall i, (i < n)%nat -> (f i < n)%nat) ->
  (forall i j, (i < n)%nat -> (j < n)%nat -> f i = f j -> i = j) ->
  (forall i, (i < n)%nat ->
     nth (base + i) buf' 0 = nth (base + f i) buf 0) ->
  take n (drop base buf') ≡ₚ take n (drop base buf).
Proof.
  intros Hl Hl' Hr Hinj Hn. apply Permutation_inj. split.
  { rewrite !length_take, !length_drop. lia. }
  exists (fun i => if (i <? n)%nat then f i else i). split.
  - intros i j. destruct (Nat.ltb_spec i n), (Nat.ltb_spec j n); intros E.
    + by apply Hinj.
    + specialize (Hr i ltac:(lia)). lia.
    + specialize (Hr j ltac:(lia)). lia.
    + exact E.
  - intros i. destruct (Nat.ltb_spec i n) as [Hi|Hi].
    + rewrite !lookup_take_lt by (auto; lia). rewrite !lookup_drop.
      specialize (Hn i Hi). specialize (Hr i Hi).
      rewrite !(nth_lookup _ _ 0) in Hn.
      destruct (lookup_lt_is_Some_2 buf' (base + i) ltac:(lia)) as [x Hx].
      destruct (lookup_lt_is_Some_2 buf (base + f i) ltac:(lia)) as [y Hy].
      rewrite Hx, Hy in Hn |- *. cbn in Hn. by subst.
    + rewrite !lookup_take_ge by lia. reflexivity.
Qed.

Lemma zget_nat (l : list Z) (i : nat) : zget l (Z.of_nat i) = nth i l 0.
Proof.
  unfold zget. destruct (Z.ltb_spec (Z.of_nat i) 0); [lia|].
  by rewrite Nat2Z.id.
Qed.

(** The same with the indices of the code. *)
Lemma region_perm_z (buf buf' : list Z) (base n : Z) (f : Z -> Z) :
  0 <= base -> 0 <= n -> base + n <= Z.of_nat (length buf) ->
  length buf' = length buf ->
  (forall i, 0 <= i < n -> 0 <= f i < n) ->
  (forall i j, 0 <= i < n -> 0 <= j < n -> f i = f j -> i = j) ->
  (forall i, 0 <= i < n -> zget buf' (base + i) = zget buf (base + f i)) ->
  take (Z.to_nat n) (drop (Z.to_nat base) buf') ≡ₚ
  take (Z.to_nat n) (drop (Z.to_nat base) buf).
Proof.
  intros Hb Hn Hl Hl' Hr Hinj Hg.
  apply (region_perm buf buf' (Z.to_nat base) (Z.to_nat n)
           (fun i => Z.to_nat (f (Z.of_nat i)))); try lia.
  - intros i Hi. specialize (Hr (Z.of_nat i) ltac:(lia)). lia.
  - intros i j Hi Hj E.
    pose proof (Hr (Z.of_nat i) ltac:(lia)).
    pose proof (Hr (Z.of_nat j) ltac:(lia)).
    apply Nat2Z.inj, Hinj; lia.
  - intros i Hi. specialize (Hg (Z.of_nat i) ltac:(lia)).
    specialize (Hr (Z.of_nat i) ltac:(lia)).
    rewrite <- !zget_nat.
    replace (Z.of_nat (Z.to_nat base + i)) with (base + Z.of_nat i) by lia.
    replace (Z.of_nat (Z.to_nat base + Z.to_nat (f (Z.of_nat i))))
      with (base + f (Z.of_nat i)) by lia.
    exact Hg.
Qed.

(** A buffer that differs from another one by the exchange of the entries
    [a] and [b] of the part [k0], or by moving the entry [p] of this part
    down to [np]: every part holds the entries it held. *)
Lemma parts_swap (buf buf' : list Z) (n k0 a b : Z) :
  0 < n -> 5 * n <= Z.of_nat (length buf) -> length buf' = length buf ->
  0 <= k0 < 5 -> 0 <= a < n -> 0 <= b < n ->
  (forall j, 0 <= j < 5 * n ->
     zget buf' j =
     if j =? k0 * n + a then zget buf (k0 * n + b)
     else if j =? k0 * n + b then zget buf (k0 * n + a)
     else zget buf j) ->
  forall k, 0 <= k < 5 ->
    take (Z.to_nat n) (drop (Z.to_nat (k * n)) buf') ≡ₚ
    take (Z.to_nat n) (drop (Z.to_nat (k * n)) buf).
Proof.
  intros Hn Hl Hl' Hk0 Ha Hb Hg k Hk.
  apply (region_perm_z buf buf' (k * n) n
           (fun i => if k =? k0 then
                       if i =? a then b else if i =? b then a else i
                     else i)); try nia.
  - intros i Hi. destruct (k =? k0); [|lia].
    destruct (i =? a); [lia|]. destruct (i =? b); lia.
  - intros i j Hi Hj. destruct (k =? k0); [|lia].
    destruct (Z.eqb_spec i a), (Z.eqb_spec i b), (Z.eqb_spec j a),
             (Z.eqb_spec j b); lia.
  - intros i Hi. rewrite Hg by nia.
    destruct (Z.eqb_spec k k0) as [->|Hne].
    + destruct (Z.eqb_spec (k0 * n + i) (k0 * n + a)),
               (Z.eqb_spec i a); try lia.
      destruct (Z.eqb_spec (k0 * n + i) (k0 * n + b)),
               (Z.eqb_spec i b); lia.
    + destruct (Z.eqb_spec (k * n + i) (k0 * n + a)); [nia|].
      destruct (Z.eqb_spec (k * n + i) (k0 * n + b)); [nia|reflexivity].
Qed.

Lemma parts_rotate (buf buf' : list Z) (n k0 np p : Z) :
  0 < n -> 5 * n <= Z.of_nat (length buf) -> length buf' = length buf ->
  0 <= k0 < 5 -> 0 <= np -> np < p -> p < n ->
  (forall j, 0 <= j < 5 * n ->
     zget buf' j =
     if j =? k0 * n + np then zget buf (k0 * n + p)
     else if (k0 * n + np <? j) && (j <=? k0 * n + p) then zget buf (j - 1)
     else zget buf j) ->
  forall k, 0 <= k < 5 ->
    take (Z.to_nat n) (drop (Z.to_nat (k * n)) buf') ≡ₚ
    take (Z.to_nat n) (drop (Z.to_nat (k * n)) buf).
Proof.
  intros Hn Hl Hl' Hk0 Hnp Hp Hpn Hg k Hk.
  apply (region_perm_z buf buf' (k * n) n
           (fun i => if k =? k0 then
                       if i =? np then p
                       else if (np <? i) && (i <=? p) then i - 1 else i
                     else i)); try nia.
  - intros i Hi. destruct (k =? k0); [|lia].
    destruct (i =? np); [lia|].
    destruct (Z.ltb_spec np i), (Z.leb_spec i p); cbn [andb]; lia.
  - intros i j Hi Hj. destruct (k =? k0); [|lia].
    destruct (Z.eqb_spec i np), (Z.eqb_spec j np),
             (Z.ltb_spec np i), (Z.leb_spec i p),
             (Z.ltb_spec np j), (Z.leb_spec j p); cbn [andb]; lia.
  - intros i Hi. rewrite Hg by nia.
    destruct (Z.eqb_spec k k0) as [->|Hne].
    + destruct (Z.eqb_spec (k0 * n + i) (k0 * n + np)),
               (Z.eqb_spec i np); try lia.
      destruct (Z.ltb_spec (k0 * n + np) (k0 * n + i)),
               (Z.leb_spec (k0 * n + i) (k0 * n + p)),
               (Z.ltb_spec np i), (Z.leb_spec i p); cbn [andb]; try lia.
      f_equal. lia.
    + destruct (Z.eqb_spec (k * n + i) (k0 * n + np)); [nia|].
      destruct (Z.ltb_spec (k0 * n + np) (k * n + i)),
               (Z.leb_spec (k * n + i) (k0 * n + p)); cbn [andb];
        try reflexivity.
      nia.
Qed.

Lemma slot_vec_part (s : state) (k : nat) :
  0 <= CountSp s ->
  slot_vec s k =
  take (Z.to_nat (CountSp s))
       (drop (Z.to_nat (Z.of_nat k * CountSp s)) (SelBuf s)).
Proof.
  intros H. unfold slot_vec. do 2 f_equal.
  rewrite Z2Nat.inj_mul, Nat2Z.id by lia. reflexivity.
Qed.

(** What [incr] and [decr] do to the buffer. *)
Lemma incr_buf s v :
  CountSp (incr s v) = CountSp s /\ Count (incr s v) = Count s /\
  SelBuf (incr s v) =
    let dp := incr_dp s v in
    let base := zget (Sels s) (Slot s) in
    if dp <? 0 then
      if dp =? -1 then
        zset (zset (SelBuf s) (base + Selp s)
                   (zget (SelBuf s) (base + (Selp s - 1))))
             (base + (Selp s - 1)) (Sel s)
      else
        zset (memmove (SelBuf s) (Z.to_nat (base + (Selp s + dp) + 1))
                      (Z.to_nat (base + (Selp s + dp))) (Z.to_nat (- dp)))
             (base + (Selp s + dp)) (Sel s)
    else SelBuf s.
Proof.
  unfold incr. cbv zeta.
  destruct (incr_dp s v <? 0); [destruct (incr_dp s v =? -1)|];
    match goal with |- context [if ?c then swap_sels _ _ _ else _] =>
      destruct c end; cbn; auto.
Qed.

Lemma decr_buf s :
  CountSp (decr s) = CountSp s /\ Count (decr s) = Count s /\
  SelBuf (decr s) =
    let base := zget (Sels s) (Slot s) in
    if Selp s <? CountSp1 s then
      zset (zset (SelBuf s) (base + Selp s)
                 (zget (SelBuf s) (base + (Selp s + 1))))
           (base + (Selp s + 1)) (Sel s)
    else SelBuf s.
Proof.
  unfold decr. cbv zeta.
  destruct (Selp s <? CountSp1 s);
    match goal with |- context [if ?c then swap_sels _ _ _ else _] =>
      destruct c end; cbn; auto.
Qed.

(** After a selection, [incr] and [decr] rearrange the entries of one slot
    vector and leave the other ones as they are. *)
Lemma incr_parts s v :
  inv s -> sels_get s (Slot s) (Selp s) = Sel s -> op_ok (OpIncr v) ->
  forall k, (k < 5)%nat -> slot_vec (incr s v) k ≡ₚ slot_vec s k.
Proof.
  intros Hinv Hsel Hok k Hk.
  pose proof Hinv as (H0 & Hsp & Hc1 & H31 & Hl & Hsl & Hlen & Hcap & Hr & Hs).
  destruct Hs as (Hslot & Hselp & _).
  destruct (incr_buf s v) as (E1 & _ & E2). cbv zeta in E2.
  pose proof (incr_dp_range s v ltac:(lia) Hok) as Hdp.
  destruct (Hsl (Slot s) Hslot) as (k0 & Hk0 & Hbase).
  unfold SlotCount in *. unfold sels_get in Hsel.
  rewrite !slot_vec_part by lia. rewrite E1.
  set (dp := incr_dp s v) in *. set (n := CountSp s) in *.
  set (buf := SelBuf s) in *. rewrite Hbase in *.
  destruct (Z.ltb_spec dp 0) as [Hneg|Hpos]; [|by rewrite E2].
  destruct (Z.eqb_spec dp (-1)) as [Em|Em]; rewrite E2.
  - apply (parts_swap buf _ n k0 (Selp s) (Selp s - 1)); try lia.
    + by rewrite !zset_length.
    + intros j Hj. rewrite !zget_zset, zset_length by lia.
      destruct (Z.eqb_spec j (k0 * n + (Selp s - 1))),
               (Z.eqb_spec j (k0 * n + Selp s)),
               (Z.ltb_spec (k0 * n + (Selp s - 1)) (Z.of_nat (length buf))),
               (Z.ltb_spec (k0 * n + Selp s) (Z.of_nat (length buf)));
        cbn [andb]; try nia; reflexivity.
  - apply (parts_rotate buf _ n k0 (Selp s + dp) (Selp s)); try lia.
    + by rewrite zset_length, memmove_length.
    + intros j Hj. rewrite zget_zset, memmove_length by lia.
      rewrite zget_memmove by nia.
      destruct (Z.eqb_spec j (k0 * n + (Selp s + dp))),
               (Z.ltb_spec (k0 * n + (Selp s + dp))
                           (Z.of_nat (length buf)));
        cbn [andb]; try nia.
      destruct (Z.leb_spec (Z.of_nat (Z.to_nat (k0 * n + (Selp s + dp) + 1)))
                           j),
               (Z.ltb_spec j (Z.of_nat (Z.to_nat (k0 * n + (Selp s + dp) + 1)
                                         + Z.to_nat (- dp)))),
               (Z.ltb_spec (k0 * n + (Selp s + dp)) j),
               (Z.leb_spec j (k0 * n + Selp s)); cbn [andb]; try nia;
        try reflexivity.
      f_equal. nia.
Qed.

Lemma decr_parts s :
  inv s -> sels_get s (Slot s) (Selp s) = Sel s ->
  forall k, (k < 5)%nat -> slot_vec (decr s) k ≡ₚ slot_vec s k.
Proof.
  intros Hinv Hsel k Hk.
  pose proof Hinv as (H0 & Hsp & Hc1 & H31 & Hl & Hsl & Hlen & Hcap & Hr & Hs).
  destruct Hs as (Hslot & Hselp & _).
  destruct (decr_buf s) as (E1 & _ & E2). cbv zeta in E2.
  destruct (Hsl (Slot s) Hslot) as (k0 & Hk0 & Hbase).
  unfold SlotCount in *. unfold sels_get in Hsel.
  rewrite !slot_vec_part by lia. rewrite E1.
  set (n := CountSp s) in *. set (buf := SelBuf s) in *.
  rewrite Hbase in *.
  destruct (Z.ltb_spec (Selp s) (CountSp1 s)) as [Hlt|Hge];
    [|by rewrite E2].
  rewrite E2.
  apply (parts_swap buf _ n k0 (Selp s) (Selp s + 1)); try lia.
  - by rewrite !zset_length.
  - intros j Hj. rewrite !zget_zset, zset_length by lia.
    destruct (Z.eqb_spec j (k0 * n + (Selp s + 1))),
             (Z.eqb_spec j (k0 * n + Selp s)),
             (Z.ltb_spec (k0 * n + (Selp s + 1)) (Z.of_nat (length buf))),
             (Z.ltb_spec (k0 * n + Selp s) (Z.of_nat (length buf)));
      cbn [andb]; try nia; reflexivity.
Qed.

(** The filled slot vector: its entries and how often a choice occurs. *)
Lemma filled_S (c : nat) :
  filled (Z.of_nat (S c)) = filled (Z.of_nat c) ++ replicate 5 (Z.of_nat c).
Proof.
  unfold filled, zrange. rewrite !Nat2Z.id, seq_S, map_app, flat_map_app.
  cbn. reflexivity.
Qed.

Lemma filled_length (c : nat) : length (filled (Z.of_nat c)) = (5 * c)%nat.
Proof.
  induction c as [|c IH]; [reflexivity|].
  rewrite filled_S, length_app, IH. cbn. lia.
Qed.

Lemma filled_nth (c : nat) : forall i, (i < 5 * c)%nat ->
  nth i (filled (Z.of_nat c)) 0 = Z.of_nat i / 5.
Proof.
  induction c as [|c IH]; intros i Hi; [lia|].
  rewrite filled_S.
  destruct (Nat.lt_ge_cases i (5 * c)) as [Hlt|Hge].
  - rewrite app_nth1 by (rewrite filled_length; lia). by apply IH.
  - rewrite app_nth2 by (rewrite filled_length; lia).
    rewrite filled_length.
    assert (Hq : Z.of_nat i / 5 = Z.of_nat c)
      by (symmetry; apply (Z.div_unique _ 5 _ (Z.of_nat i - 5 * Z.of_nat c));
          lia).
    rewrite Hq.
    destruct (i - 5 * c)%nat as [|[|[|[|[|?]]]]] eqn:E; cbn; try reflexivity.
    lia.
Qed.

Lemma filled_count (c : nat) (x : Z) :
  count_occ Z.eq_dec (filled (Z.of_nat c)) x =
  if (0 <=? x) && (x <? Z.of_nat c) then 5%nat else 0%nat.
Proof.
  induction c as [|c IH].
  { change (filled (Z.of_nat 0)) with (@nil Z). cbn [count_occ].
    destruct (Z.leb_spec 0 x), (Z.ltb_spec x (Z.of_nat 0)); cbn [andb];
      lia || reflexivity. }
  rewrite filled_S, count_occ_app, IH.
  change (replicate 5 (Z.of_nat c)) with (repeat (Z.of_nat c) 5).
  destruct (Z.eq_dec x (Z.of_nat c)) as [->|Hne].
  - rewrite count_occ_repeat_eq by reflexivity.
    destruct (Z.leb_spec 0 (Z.of_nat c)),
             (Z.ltb_spec (Z.of_nat c) (Z.of_nat c)),
             (Z.ltb_spec (Z.of_nat c) (Z.of_nat (S c))); cbn; lia.
  - rewrite count_occ_repeat_neq by exact Hne.
    destruct (Z.leb_spec 0 x), (Z.ltb_spec x (Z.of_nat c)),
             (Z.ltb_spec x (Z.of_nat (S c))); cbn; lia.
Qed.

(** The filling loop of [reset]: the entry [i * SparseMul + k] of the slot
    vector becomes [i]. *)
Lemma fill_slot_exact sp (cnt : nat) : forall b,
  0 <= sp -> sp + Z.of_nat cnt * 5 <= Z.of_nat (length b) ->
  let b' := fill_slot (Z.of_nat cnt) 5 sp b in
  length b' = length b /\
  forall j, 0 <= j ->
    zget b' j =
    if (sp <=? j) && (j <? sp + Z.of_nat cnt * 5) then (j - sp) / 5
    else zget b j.
Proof.
  unfold fill_slot, zrange. rewrite Nat2Z.id.
  induction cnt as [|cnt IH]; intros b Hsp Hl; cbv zeta.
  { cbn. split; [reflexivity|]. intros j Hj.
    destruct (Z.leb_spec sp j), (Z.ltb_spec j (sp + Z.of_nat 0 * 5));
      cbn [andb]; lia || reflexivity. }
  rewrite seq_S, map_app, fold_left_app. cbn [map fold_left Nat.add].
  destruct (IH b Hsp ltac:(lia)) as [Hlen Hget].
  set (b1 := fold_left _ (map Z.of_nat (seq 0 cnt)) b) in *.
  change (map Z.of_nat (seq 0 (Z.to_nat 5)))
    with (map Z.of_nat (seq 0 5)).
  destruct (fill_inner_spec (sp + Z.of_nat cnt * 5) (Z.of_nat cnt) 5 b1
              ltac:(lia) ltac:(lia)) as [Hlen2 Hget2].
  match goal with |- length ?l = _ /\ _ =>
    match type of Hlen2 with length ?l2 = _ =>
      replace l with l2 by reflexivity end end.
  split; [congruence|].
  intros j Hj. rewrite Hget2, Hget by lia.
  destruct (Z.leb_spec (sp + Z.of_nat cnt * 5) j),
           (Z.ltb_spec j (sp + Z.of_nat cnt * 5 + Z.of_nat 5)),
           (Z.leb_spec sp j), (Z.ltb_spec j (sp + Z.of_nat cnt * 5)),
           (Z.ltb_spec j (sp + Z.of_nat (S cnt) * 5)); cbn [andb];
    try lia; try reflexivity.
  apply (Z.div_unique _ 5 _ (j - sp - 5 * Z.of_nat cnt)); lia.
Qed.

(** The part [k] of a buffer, for slot vectors of [n] entries. *)
Let part (n : Z) (b : list Z) (k : Z) : list Z :=
  take (Z.to_nat n) (drop (Z.to_nat (k * n)) b).

(** The swap-mixing loop of [reset] rearranges the slot vector. *)
Lemma mix_slot_parts getInt countsp k0 (n : nat) : forall b r,
  (forall n r, 0 < n -> 0 <= fst (getInt n r) < n) ->
  0 < countsp -> 0 <= k0 < 5 -> 5 * countsp <= Z.of_nat (length b) ->
  let b' := fst (mix_slot getInt n countsp (k0 * countsp) b r) in
  length b' = length b /\
  forall k, 0 <= k < 5 -> part countsp b' k ≡ₚ part countsp b k.
Proof.
  induction n as [|n IH]; intros b r Hd Hc Hk0 Hl; cbn [mix_slot]; cbv zeta.
  { split; [reflexivity|]. intros k Hk. reflexivity. }
  pose proof (Hd countsp r Hc) as H1.
  destruct (getInt countsp r) as [i1 r1]. cbn [fst] in H1.
  pose proof (Hd countsp r1 Hc) as H2.
  destruct (getInt countsp r1) as [i2 r2]. cbn [fst] in H2.
  set (b2 := zset (zset b _ _) _ _).
  assert (L2 : length b2 = length b) by (subst b2; by rewrite !zset_length).
  destruct (IH b2 r2 Hd Hc Hk0 ltac:(lia)) as [L I].
  split; [congruence|]. intros k Hk. rewrite (I k Hk).
  apply (parts_swap b b2 countsp k0 i1 i2); try lia.
  intros j Hj. subst b2. rewrite !zget_zset, zset_length by lia.
  destruct (Z.eqb_spec j (k0 * countsp + i2)),
           (Z.eqb_spec j (k0 * countsp + i1)),
           (Z.ltb_spec (k0 * countsp + i2) (Z.of_nat (length b))),
           (Z.ltb_spec (k0 * countsp + i1) (Z.of_nat (length b)));
    cbn [andb]; try nia; try reflexivity.
  congruence.
Qed.

(** One slot vector of [reset]: it holds every choice five times, and the
    ones before it are not touched. *)
Lemma reset_slot_parts getInt c countsp (jn : nat) b p r b' p' r' :
  (forall n r, 0 < n -> 0 <= fst (getInt n r) < n) ->
  0 < c -> countsp = c * 5 -> (jn < 5)%nat ->
  5 * countsp <= Z.of_nat (length b) ->
  (forall k, 0 <= k < Z.of_nat jn -> part countsp b k ≡ₚ filled c) ->
  reset_slot getInt c 5 countsp (b, p, r) (Z.of_nat jn) = (b', p', r') ->
  length b' = length b /\
  forall k, 0 <= k < Z.of_nat (S jn) -> part countsp b' k ≡ₚ filled c.
Proof.
  intros Hd Hc Hsp Hj Hl Hin. unfold reset_slot.
  set (sp := Z.of_nat jn * countsp).
  assert (Hc' : c = Z.of_nat (Z.to_nat c)) by lia.
  assert (Hsp5 : 0 <= sp /\ sp + countsp <= 5 * countsp) by (subst sp; nia).
  destruct (fill_slot_exact sp (Z.to_nat c) b ltac:(lia) ltac:(lia))
    as [Hl1 Hg1].
  rewrite <- Hc' in Hl1, Hg1.
  set (b1 := fill_slot c 5 sp b) in *.
  pose proof (mix_slot_parts getInt countsp (Z.of_nat jn)
                (Z.to_nat (countsp * 5)) b1 r Hd ltac:(lia) ltac:(lia)
                ltac:(lia)) as M.
  cbv zeta in M. fold sp in M.
  destruct (mix_slot getInt _ countsp sp b1 r) as [b2 r1].
  cbn [fst] in M. destruct M as [Hl2 Hm].
  intros E. inversion E; subst b' p' r'.
  split; [congruence|]. intros k Hk. rewrite (Hm k ltac:(lia)).
  destruct (Z.eq_dec k (Z.of_nat jn)) as [->|Hne].
  - (* the slot vector just filled *)
    assert (Ef : part countsp b1 (Z.of_nat jn) = filled c).
    { unfold part. fold sp.
      apply (nth_ext _ _ 0 0).
      - rewrite length_take, length_drop, Hc', filled_length. lia.
      - intros i Hi. rewrite length_take, length_drop in Hi.
        rewrite (nth_lookup (take _ _)), lookup_take_lt, lookup_drop by lia.
        rewrite <- (nth_lookup _ _ 0), <- zget_nat.
        rewrite Hg1 by lia.
        replace (Z.of_nat (Z.to_nat sp + i)) with (sp + Z.of_nat i) by lia.
        destruct (Z.leb_spec sp (sp + Z.of_nat i)),
                 (Z.ltb_spec (sp + Z.of_nat i) (sp + c * 5)); cbn [andb];
          try lia.
        rewrite Hc', filled_nth by lia. f_equal. lia. }
    by rewrite Ef.
  - (* an earlier one *)
    rewrite <- (Hin k ltac:(lia)). unfold part.
    assert (Hk5 : 0 <= k * countsp /\ k * countsp + countsp <= sp)
      by (subst sp; nia).
    apply (region_perm_z b b1 (k * countsp) countsp (fun i => i));
      try lia.
    intros i Hi. rewrite Hg1 by lia.
    destruct (Z.leb_spec sp (k * countsp + i)),
             (Z.ltb_spec (k * countsp + i) (sp + c * 5)); cbn [andb];
      try reflexivity.
    lia.
Qed.

(** [reset]: every slot vector holds every choice five times. *)
Lemma reset_parts getInt getPowInt fresh s rnd :
  draws_ok getInt getPowInt ->
  0 < Count s -> Count s * 5 < 2 ^ 31 ->
  SelBufCapacity s <= Z.of_nat (length (SelBuf s)) ->
  forall k, (k < 5)%nat ->
    slot_vec (fst (reset getInt getPowInt fresh s rnd)) k ≡ₚ
    filled (Count s).
Proof.
  intros [Hd1 Hd2] H0 H31 Hcap k Hk. unfold reset. cbv zeta.
  set (countsp := Count s * 5).
  set (cap := SlotCount * countsp).
  set (buf0 := if SelBufCapacity s <? cap then _ else SelBuf s).
  set (p0 := take 5 (Sels s ++ replicate 5 0)).
  assert (Hl0 : 5 * countsp <= Z.of_nat (length buf0)).
  { subst buf0 cap. unfold SlotCount in *.
    destruct (Z.ltb_spec (SelBufCapacity s) (5 * countsp)); [|lia].
    rewrite length_take, length_app, length_replicate. lia. }
  change (zrange SlotCount) with [0; 1; 2; 3; 4].
  cbn [fold_left].
  destruct (reset_slot getInt (Count s) 5 countsp (buf0, p0, rnd) 0)
    as [[b1 p1] r1] eqn:E1.
  destruct (reset_slot_parts getInt (Count s) countsp 0 _ _ _ _ _ _ Hd1 H0
              eq_refl ltac:(lia) Hl0 ltac:(intros i Hi; lia) E1)
    as (L1 & I1).
  destruct (reset_slot getInt (Count s) 5 countsp (b1, p1, r1) 1)
    as [[b2 p2] r2] eqn:E2.
  destruct (reset_slot_parts getInt (Count s) countsp 1 b1 p1 r1
              b2 p2 r2 Hd1 H0 eq_refl ltac:(lia) ltac:(lia) I1 E2)
    as (L2 & I2).
  destruct (reset_slot getInt (Count s) 5 countsp (b2, p2, r2) 2)
    as [[b3 p3] r3] eqn:E3.
  destruct (reset_slot_parts getInt (Count s) countsp 2 b2 p2 r2
              b3 p3 r3 Hd1 H0 eq_refl ltac:(lia) ltac:(lia) I2 E3)
    as (L3 & I3).
  destruct (reset_slot getInt (Count s) 5 countsp (b3, p3, r3) 3)
    as [[b4 p4] r4] eqn:E4.
  destruct (reset_slot_parts getInt (Count s) countsp 3 b3 p3 r3
              b4 p4 r4 Hd1 H0 eq_refl ltac:(lia) ltac:(lia) I3 E4)
    as (L4 & I4).
  destruct (reset_slot getInt (Count s) 5 countsp (b4, p4, r4) 4)
    as [[b5 p5] r5] eqn:E5.
  destruct (reset_slot_parts getInt (Count s) countsp 4 b4 p4 r4
              b5 p5 r5 Hd1 H0 eq_refl ltac:(lia) ltac:(lia) I4 E5)
    as (L5 & I5).
  match goal with |- context [select getPowInt ?x r5] =>
    set (s1 := x) end.
  assert (Es : forall sel s2 r6, select getPowInt s1 r5 = (sel, s2, r6) ->
                 SelBuf s2 = b5 /\ CountSp s2 = countsp).
  { unfold select. intros sel s2 r6.
    destruct (getPowInt _ SlotCount r5) as [slot ra].
    destruct (getPowInt _ (CountSp s1) ra) as [selp rb].
    intros [= _ <- _]. by split. }
  destruct (select getPowInt s1 r5) as [[sel s2] r6].
  destruct (Es _ _ _ eq_refl) as [Eb Ec].
  cbn [fst]. rewrite slot_vec_part by (cbn; lia).
  cbn [CountSp SelBuf]. rewrite Eb, Ec.
  apply (I5 (Z.of_nat k)). lia.
Qed.

(** A selection leaves the buffer alone, and [Sel] is the entry it read. *)
Lemma select_selected getPowInt s r :
  let s' := snd (fst (select getPowInt s r)) in
  SelBuf s' = SelBuf s /\ CountSp s' = CountSp s /\
  sels_get s' (Slot s') (Selp s') = Sel s'.
Proof.
  cbv zeta. unfold select.
  destruct (getPowInt _ SlotCount r) as [slot r1].
  destruct (getPowInt _ (CountSp s) r1) as [selp r2].
  cbn. auto.
Qed.

(** One use of the selector. *)
Lemma round_parts getPowInt sr o c :
  (forall p n r, 0 < n -> 0 <= fst (getPowInt p n r) < n) ->
  inv (fst sr) -> Count (fst sr) = c -> Forall op_ok (round_ops o) ->
  (forall k, (k < 5)%nat -> slot_vec (fst sr) k ≡ₚ filled c) ->
  let sr' := run_ops getPowInt sr (round_ops o) in
  inv (fst sr') /\ Count (fst sr') = c /\
  forall k, (k < 5)%nat -> slot_vec (fst sr') k ≡ₚ filled c.
Proof.
  intros Hd Hinv Hc Hok Hb. cbv zeta.
  destruct (run_ops_inv_sel getPowInt (round_ops o) sr Hd Hinv Hok)
    as [Hi' Hc'].
  split; [exact Hi'|]. split; [congruence|]. intros k Hk.
  pose proof (select_inv getPowInt (fst sr) (snd sr) Hd Hinv) as (Hi1 & _).
  pose proof (select_selected getPowInt (fst sr) (snd sr)) as S.
  cbv zeta in S. destruct S as (S1 & S2 & S3).
  assert (Hv : slot_vec (snd (fst (select getPowInt (fst sr) (snd sr)))) k
               = slot_vec (fst sr) k)
    by (unfold slot_vec; by rewrite S1, S2).
  destruct o as [v| |]; unfold round_ops, run_ops; cbn [fold_left run_op];
    destruct (select getPowInt (fst sr) (snd sr)) as [[sel s1] r1];
    cbn [fst snd] in *.
  - inversion Hok as [|? ? _ Hok']. inversion Hok' as [|? ? Hv' _].
    rewrite (incr_parts s1 v Hi1 S3 Hv' k Hk), Hv. by apply Hb.
  - rewrite (decr_parts s1 Hi1 S3 k Hk), Hv. by apply Hb.
  - rewrite Hv. by apply Hb.
Qed.

Lemma rounds_parts getPowInt c (l : list outcome) : forall sr,
  (forall p n r, 0 < n -> 0 <= fst (getPowInt p n r) < n) ->
  inv (fst sr) -> Count (fst sr) = c -> Forall op_ok (rounds_ops l) ->
  (forall k, (k < 5)%nat -> slot_vec (fst sr) k ≡ₚ filled c) ->
  let sr' := run_ops getPowInt sr (rounds_ops l) in
  inv (fst sr') /\
  forall k, (k < 5)%nat -> slot_vec (fst sr') k ≡ₚ filled c.
Proof.
  induction l as [|o l IH]; intros sr Hd Hinv Hc Hok Hb; cbv zeta.
  { by split. }
  unfold rounds_ops in *. cbn [flat_map] in *.
  apply Forall_app in Hok as [Hok1 Hok2].
  unfold run_ops. rewrite fold_left_app.
  destruct (round_parts getPowInt sr o c Hd Hinv Hc Hok1 Hb)
    as (I1 & I2 & I3).
  by apply (IH _ Hd I1 I2 Hok2 I3).
Qed.

End SelBalance.




(** ** The optimizer: the populations of older solutions and the parallel
    populations *)

Section OptPops.

Context {Aux : Type} (E : CBiteOpt.externals Aux).
Context (f : list double -> double).
Hypothesis Hgen : OptSpec.gen_ok E f.

Import OptSpec.

Local Arguments CBiteOpt.updateParPop : simpl never.
Local Arguments CBitePop.updatePop : simpl never.

(** A parallel population that receives a solution stays sorted. *)
Lemma insert_pops c tp p l :
  Dbl.is_nan c = false -> Forall PopSpec.inv l ->
  Forall PopSpec.inv
    (<[p := snd (CBitePop.updatePop (nth p l CBiteParPops.blank) c
                                    (PtrExt tp) true 0)]> l).
Proof.
  intros Hc Hl. destruct (Nat.lt_ge_cases p (length l)) as [Hp|Hp].
  - apply Forall_insert; [exact Hl|]. apply updatePop_inv; [|exact Hc].
    destruct (lookup_lt_is_Some_2 l p Hp) as [d Hd].
    rewrite (nth_lookup_Some _ _ _ _ Hd).
    eapply Forall_lookup_1; eauto.
  - by rewrite list_insert_ge.
Qed.

(** The part of [optimize] after the evaluation. *)
Lemma update_step_pops rnd (s : CBiteOpt.state Aux) push evals :
  inv s -> CBiteOptBase.DoInitEvals (CBiteOpt.base s) = false ->
  Dbl.is_nan (CBiteOptBase.LastCosts0 (CBiteOpt.base s)) = false ->
  pops_inv s ->
  let s' := CBiteOpt.r_opt (CBiteOpt.update_step E rnd s push evals) in
  pops_inv s' /\
  CBiteParPops.ParPopCount (CBiteOptBase.par (CBiteOpt.base s')) =
    CBiteParPops.ParPopCount (CBiteOptBase.par (CBiteOpt.base s)).
Proof.
  intros (Hpop & Hnn & Hfull & Hle) Hd Hc (Q1 & Q2 & Q3 & Q4 & Q5 & Q6).
  pose proof (update_step_struct E rnd s push evals) as H. cbv zeta in H.
  pose proof (update_step_sizes E rnd s push evals) as Z. cbv zeta in Z.
  set (r := CBiteOpt.update_step E rnd s push evals) in *.
  set (c := CBiteOptBase.LastCosts0 (CBiteOpt.base s)) in *.
  set (u := CBitePop.updatePop (own s) c _ true 3) in *.
  destruct H as (_ & Hsame & Hd' & _ & HO0 & HO1 & (p & HP & HPc) & _).
  destruct Z as (Z1 & Z2).
  pose proof (updatePop_track (own s) c
                (PtrItem (CBitePop.TmpParams (own s))) true 3 Hpop Hc) as T.
  cbv zeta in T. fold u in T.
  destruct T as (T1 & T2 & T3 & T4 & T5 & T6 & T7 & T8).
  pose proof (updatePop_fields (own s) c
                (PtrItem (CBitePop.TmpParams (own s))) true 3) as F.
  cbv zeta in F. fold u in F. destruct F as (F1 & _ & F3 & F4 & _).
  assert (Hcl : PopSpec.clean (snd u)) by (apply T8; [exact Hc|exact Q1]).
  assert (Hold : Dbl.is_nan (CBitePop.obj_at (snd u)
                   (Z.to_nat (CBitePop.CurPopSize1 (snd u)))) = false).
  { destruct Q2 as [B1 B2]. destruct Hpop as ((W0 & _) & _).
    specialize (T3 (Hfull Hd)). unfold PopSpec.full in T3.
    destruct (Hcl (Z.to_nat (CBitePop.CurPopSize1 (snd u)))) as [-> Hn];
      [|exact Hn].
    rewrite T3, F1, F4, B1. lia. }
  cbv zeta. split; [|exact HPc].
  unfold pops_inv. rewrite Hd', Hd in *.
  split_and!.
  - eapply same_costs_costs_in; eauto.
  - destruct Q2 as [B1 B2]. unfold PopSpec.sized. rewrite Z1. lia.
  - destruct HO0 as [->|[_ ->]]; [exact Q3|]. by apply updatePop_inv.
  - destruct HO1 as [->|[_ ->]]; [exact Q4|]. by apply updatePop_inv.
  - rewrite HP, HPc, length_insert. exact Q5.
  - rewrite HP. by apply insert_pops.
Qed.

(** The branch of the initial evaluations; its last call sets up the
    parallel populations as copies of the population. *)
Lemma fill_step_pops rnd (s : CBiteOpt.state Aux) push :
  inv s -> CBiteOptBase.DoInitEvals (CBiteOpt.base s) = true ->
  pops_inv s ->
  let s' := CBiteOpt.r_opt (CBiteOpt.fill_step E f rnd s push) in
  pops_inv s' /\
  CBiteParPops.ParPopCount (CBiteOptBase.par (CBiteOpt.base s')) =
    CBiteParPops.ParPopCount (CBiteOptBase.par (CBiteOpt.base s)).
Proof.
  intros Hinv Hd (Q1 & Q2 & Q3 & Q4 & Q5 & Q6).
  pose proof (fill_step_inv E f rnd s push Hinv) as I. cbv zeta in I.
  destruct I as ((Hpop' & _) & _).
  pose proof (fill_step_sizes E f rnd s push) as Z. cbv zeta in Z.
  destruct Z as (Z1 & Z2).
  pose proof (fill_step_struct E f rnd s push) as H. cbv zeta in H.
  set (r := CBiteOpt.fill_step E f rnd s push) in *.
  set (g := CBiteOptBase.genInitParams _ _ rnd) in *.
  set (vs := snd (fst g)) in *.
  set (c := CBiteOptBase.fixCostNaN (f vs)) in *.
  set (q := CBiteOptBase.pop (CBiteOpt.base s)) in *.
  set (q1 := CBitePop.set_params q _ _) in *.
  set (u := CBitePop.updatePop q1 c _ false 0) in *.
  destruct H as (_ & _ & _ & Hsame & _ & HO0 & HO1 & HPc & Hfl).
  destruct Hinv as (Hpop & _).
  assert (Hq1 : PopSpec.same_costs q q1) by apply set_params_same.
  assert (Hc : Dbl.is_nan c = false) by apply fixCostNaN_spec.
  assert (Hi1 : PopSpec.inv q1) by (eapply same_costs_inv; eauto).
  pose proof (updatePop_track q1 c (CBitePop.getCurParams q) false 0 Hi1 Hc)
    as T. cbv zeta in T. fold u in T.
  destruct T as (_ & _ & _ & _ & _ & _ & _ & T8).
  cbv zeta. split; [|exact HPc].
  unfold pops_inv. rewrite HO0, HO1, HPc.
  split_and!; auto.
  - eapply same_costs_costs_in; [exact Hsame|]. apply T8; [exact Hc|].
    eapply same_costs_costs_in; [exact Hq1|exact Q1].
  - eapply same_sizes_sized; eauto.
  - destruct (_ =? _)%nat; destruct Hfl as [_ ->]; [|exact Q5].
    rewrite <- Q5, firstn_all, skipn_all, app_nil_r, length_map. reflexivity.
  - rewrite Hd in Q6.
    destruct (_ =? _)%nat; destruct Hfl as [-> ->].
    + rewrite <- Q5, firstn_all, skipn_all, app_nil_r.
      apply Forall_map. eapply Forall_impl; [exact Q6|].
      intros d Hdd. cbn beta.
      apply (copy_spec (CBiteOpt.cos E) (CBiteOpt.fresh_item E)
               (CBiteOpt.fresh_cent E) d _ Hpop').
      rewrite Z2. cbn beta in Hdd. tauto.
    + rewrite Hd, Z2. exact Q6.
Qed.

(** One call of [optimize]: the object itself. *)
Lemma optimize_pops rnd (s : CBiteOpt.state Aux) push :
  inv s -> pops_inv s ->
  let s' := CBiteOpt.r_opt (CBiteOpt.optimize E f rnd s push) in
  pops_inv s' /\
  CBiteParPops.ParPopCount (CBiteOptBase.par (CBiteOpt.base s')) =
    CBiteParPops.ParPopCount (CBiteOptBase.par (CBiteOpt.base s)).
Proof.
  intros Hinv Hq. cbv zeta. unfold CBiteOpt.optimize.
  destruct (CBiteOptBase.DoInitEvals (CBiteOpt.base s)) eqn:Hd.
  - by apply fill_step_pops.
  - pose proof (candidate_spec E f Hgen rnd s) as C. cbv zeta in C.
    pose proof (generate_sizes E f rnd s) as G. cbv zeta in G.
    destruct (CBiteOpt.generate E f rnd s) as [[s1 r1] ev1].
    cbn [fst snd] in C, G.
    pose proof (evaluate_sizes f r1 s1) as V. cbv zeta in V.
    destruct (CBiteOpt.evaluate f r1 s1) as [[s2 r2] ev2].
    cbn [fst snd] in C, V.
    destruct C as (C1 & C2 & C3 & C4 & C5 & C6 & C7 & C8 & C9).
    destruct G as (G1 & G2). destruct V as (V1 & V2).
    pose proof Hinv as (Hpop & Hnn & Hfull & Hle).
    pose proof C1 as (S1 & _ & S3 & _).
    assert (Hinv2 : inv s2).
    { unfold inv, evaluated. rewrite C3, C5.
      rewrite (proj1 (same_costs_rank _ _ 0%nat C1)).
      unfold PopSpec.full. rewrite S1, S3.
      split_and!; auto. eapply same_costs_inv; eauto. }
    destruct Hq as (Q1 & Q2 & Q3 & Q4 & Q5 & Q6). rewrite Hd in Q6.
    rewrite <- C2. apply update_step_pops; [exact Hinv2|congruence| |].
    + rewrite C8. apply fixCostNaN_spec.
    + unfold pops_inv. rewrite C2, C5, C6, C7, Hd. split_and!; auto.
      * eapply same_costs_costs_in; eauto.
      * apply (same_sizes_sized (own s) (own s2)); [|congruence|exact Q2].
        eapply same_sizes_trans; [exact G1|exact V1].
Qed.

(** One call of [optimize]: the object [PushOpt] points to. *)
Lemma optimize_push_pops rnd (s t t' : CBiteOpt.state Aux) :
  inv t -> pops_inv t ->
  CBiteOpt.r_push (CBiteOpt.optimize E f rnd s (Some t)) = Some t' ->
  pops_inv t' /\
  CBiteParPops.ParPopCount (CBiteOptBase.par (CBiteOpt.base t')) =
    CBiteParPops.ParPopCount (CBiteOptBase.par (CBiteOpt.base t)).
Proof.
  intros Hinv Hq. unfold CBiteOpt.optimize.
  destruct (CBiteOptBase.DoInitEvals (CBiteOpt.base s)).
  - rewrite fill_step_push. by intros [= <-].
  - pose proof (candidate_spec E f Hgen rnd s) as C. cbv zeta in C.
    destruct (CBiteOpt.generate E f rnd s) as [[s1 r1] ev1].
    cbn [fst snd] in C.
    destruct (CBiteOpt.evaluate f r1 s1) as [[s2 r2] ev2].
    cbn [fst snd] in C.
    destruct C as (_ & _ & _ & _ & _ & _ & _ & C8 & _).
    assert (Hc : Dbl.is_nan (CBiteOptBase.LastCosts0 (CBiteOpt.base s2))
                 = false) by (rewrite C8; apply fixCostNaN_spec).
    pose proof (update_step_struct E r2 s2 (Some t) (ev1 ++ ev2)) as U.
    cbv zeta in U. destruct U as (_ & _ & _ & _ & _ & _ & _ & U8).
    destruct U8 as [U8|(_ & Hd & U8)]; rewrite U8; intros [= <-];
      [by split|].
    destruct Hq as (Q1 & Q2 & Q3 & Q4 & Q5 & Q6). rewrite Hd in Q6.
    destruct Hinv as (Hpop & _).
    unfold pops_inv, own in *. cbn [CBiteOpt.base CBiteOpt.with_base].
    match goal with |- context [CBiteOpt.updateParPop ?x ?c ?tp] =>
      pose proof (updateParPop_frame x c tp) as H; cbv zeta in H;
      destruct H as (P1 & _ & _ & P4 & _ & p & P6 & P7)
    end.
    rewrite P7. split; [|reflexivity].
    rewrite P1, P4, P6. cbn. rewrite Hd, length_insert.
    match goal with |- context [CBitePop.updatePop ?q ?c ?u true 3] =>
      pose proof (updatePop_track q c u true 3 Hpop Hc) as T;
      pose proof (updatePop_sizes q c u true 3) as Z;
      pose proof (updatePop_fields q c u true 3) as F
    end.
    cbv zeta in T, F.
    destruct T as (_ & _ & _ & _ & _ & _ & _ & T8).
    destruct F as (F1 & _).
    split_and!; auto.
    + apply T8; [exact Hc|exact Q1].
    + eapply same_sizes_sized; eauto.
    + by apply insert_pops.
Qed.

(** What happens to an object of an ensemble keeps its populations
    sorted. *)
Lemma events_pops (s s' : CBiteOpt.state Aux) :
  events E f s s' -> inv s -> pops_inv s ->
  pops_inv s' /\
  CBiteParPops.ParPopCount (CBiteOptBase.par (CBiteOpt.base s')) =
    CBiteParPops.ParPopCount (CBiteOptBase.par (CBiteOpt.base s)).
Proof.
  induction 1 as [s|s s1 s2 Hev _ IH]; intros Hinv Hq; [by split|].
  assert (A : inv s1 /\ pops_inv s1 /\
              CBiteParPops.ParPopCount (CBiteOptBase.par (CBiteOpt.base s1)) =
                CBiteParPops.ParPopCount (CBiteOptBase.par (CBiteOpt.base s))).
  { destruct Hev as [rnd push|rnd t s1 Hp].
    - split; [by apply (optimize_own E f Hgen)|by apply optimize_pops].
    - split; [|by eapply optimize_push_pops].
      destruct (optimize_push E f Hgen rnd t s Hinv) as (t' & E1 & E2 & _).
      congruence. }
  destruct A as (A1 & A2 & A3).
  destruct (IH A1 A2) as [B1 B2]. split; [exact B1|congruence].
Qed.

End OptPops.

(** X27.  Every population of an optimizer object stays sorted.  After the
    constructor, [updateDims] for [P > 0] solutions and [init], over any
    sequence of calls of [optimize] of the object (with any [PushOpt]) and
    of calls of a sibling that pushes into it: the two populations of older
    solutions [OldPops] are well formed, sorted in the ascending order of
    the cost and free of NaN; there are 5 parallel populations, and once the
    initial evaluations are over each of them is well formed, sorted and
    free of NaN; and in the population of the object the objective value of
    every stored record is its rank and is not NaN.  The generators are
    assumed to leave in [LastCosts[ 0 ]] the NaN-replaced objective value
    of [LastValues] when they ask for no evaluation ([OptSpec.gen_ok]). *)
Theorem populations_stay_sorted {Aux : Type} (E : CBiteOpt.externals Aux)
  (f : list double -> double) (u : CBiteOpt.state Aux) (n P : nat)
  (lb ub : list double) (rnd0 : CBiteRnd.state)
  (ip : option (list double)) (ir : double) (s' : CBiteOpt.state Aux) :
  OptSpec.gen_ok E f -> (0 < P)%nat ->
  OptSpec.events E f (fst (new_opt E u n P lb ub rnd0 ip ir)) s' ->
  PopSpec.inv (CBiteOpt.OldPops0 s') /\
  PopSpec.inv (CBiteOpt.OldPops1 s') /\
  length (CBiteParPops.ParPops (CBiteOptBase.par (CBiteOpt.base s'))) = 5%nat /\
  (CBiteOptBase.DoInitEvals (CBiteOpt.base s') = false ->
   Forall PopSpec.inv
     (CBiteParPops.ParPops (CBiteOptBase.par (CBiteOpt.base s')))) /\
  PopSpec.clean (OptSpec.own s').
Proof.
  intros Hgen HP Hev.
  set (s0 := fst (new_opt E u n P lb ub rnd0 ip ir)) in *.
  pose proof (opt_new_inv E u n P lb ub rnd0 ip ir HP) as N.
  cbv zeta in N. destruct N as (Hinv & _).
  pose proof (opt_init_spec E lb ub
                (CBiteOpt.updateDims E (CBiteOpt.construct u) n (Z.of_nat P))
                rnd0 ip ir) as I. cbv zeta in I.
  destruct I as (I1 & _ & I3 & I4 & I5 & I6).
  pose proof (opt_updateDims_spec E u n P HP) as D. cbv zeta in D.
  destruct D as (D1 & D2 & D3 & D4 & D5).
  assert (Hq : OptSpec.pops_inv s0 /\
               CBiteParPops.ParPopCount
                 (CBiteOptBase.par (CBiteOpt.base s0)) = 5%nat).
  { subst s0. unfold new_opt, OptSpec.pops_inv.
    rewrite I1, I3, I4, I5, I6, D1, D2, D3, D4, D5.
    split_and!; try reflexivity.
    - intros i Hi. cbn in Hi. lia.
    - split; cbn; lia.
    - by apply init_inv.
    - by apply init_inv.
    - cbn [replicate]. repeat (constructor; [right; cbn; lia|]). constructor. }
  destruct Hq as [Hq H5].
  destruct (events_pops E f Hgen s0 s' Hev Hinv Hq)
    as ((Q1 & Q2 & Q3 & Q4 & Q5 & Q6) & Q7).
  split_and!; auto.
  - congruence.
  - intros Hd. rewrite Hd in Q6. exact Q6.
Qed.

Lemma populations_stay_sorted_witness :
  let f := fun _ : list double => Dbl.one in
  let s := CBiteOpt.r_opt (CBiteOpt.optimize ex_ext f (snd ex_opt)
                                             (fst ex_opt) None) in
  PopSpec.inv (CBiteOpt.OldPops0 s) /\
  length (CBiteParPops.ParPops (CBiteOptBase.par (CBiteOpt.base s))) = 5%nat.
Proof.
  cbv zeta. rewrite ex_opt_new.
  set (o := new_opt ex_ext ex_opt0 1 2 [Dbl.of_Z (-1)] [Dbl.of_Z 1] ex_rnd
                    None Dbl.one).
  destruct (populations_stay_sorted ex_ext (fun _ => Dbl.one) ex_opt0
              1%nat 2%nat [Dbl.of_Z (-1)] [Dbl.of_Z 1] ex_rnd None Dbl.one
              (CBiteOpt.r_opt (CBiteOpt.optimize ex_ext (fun _ => Dbl.one)
                                 (snd o) (fst o) None)))
    as (H1 & _ & H3 & _).
  - intros g r t. exact I.
  - lia.
  - eapply OptSpec.evs_cons; [apply OptSpec.ev_own|apply OptSpec.evs_nil].
  - split; [exact H1|exact H3].
Defined.
